(** * The board-position core of the Go engine (cc/position.h, cc/position.cc)

    A shallow embedding of [BoardVisitor], [GroupVisitor] and [Position] and
    the properties of the rules of play that hold, or fail, on that code.

    Conventions of the embedding.
    - [uint8_t] and [uint16_t] values are [Z] with the wrap-around written
      out ([u8], [u16]).  The [int] fields ([n_], [num_consecutive_passes_],
      [num_captures_], the score accumulator) are [Z]: signed overflow is
      undefined in C++ and needs 2^31 moves, it is outside the model.
    - [std::array] and [inline_vector] are lists; a read is [nth] with the
      default-constructed element, a write is [upd].
    - [assert] failures, [back()] on an empty stack and pool exhaustion are
      the [Fail] results of a small error monad; loops run on fuel, and
      [OutOfFuel] is a failure of its own, never confused with the others.
    - [float komi_] is a rational: for the half-integer komi values of the
      game and scores below 2^23 the float operations of the source are
      exact.
    - The two visitors live behind pointers shared by many positions; they
      are the [Scratch] store threaded through every operation that
      dereferences them. *)

From Stdlib Require Import List ZArith Lia Bool Arith PeanoNat QArith Ascii Permutation.
Import ListNotations.
Close Scope Q_scope.

Set Implicit Arguments.

(** ** Results of fallible code *)

Inductive failure : Type :=
| AssertionFailed   (* an [assert] of the source does not hold *)
| PoolExhausted     (* [GroupPool::alloc] finds no free identifier *)
| EmptyStack        (* [BoardVisitor::Next] on an empty stack *)
| OutOfFuel.        (* the fuel of a modelled loop ran out *)

Inductive result (A : Type) : Type :=
| Ok (a : A)
| Fail (e : failure).

Arguments Ok {A} a.
Arguments Fail {A} e.

Definition bind {A B : Type} (m : result A) (k : A -> result B) : result B :=
  match m with
  | Ok a => k a
  | Fail e => Fail e
  end.

Declare Scope result_scope.
Delimit Scope result_scope with result.
Notation "x <- m ;; k" := (bind m (fun x => k))
  (at level 61, m at next level, right associativity) : result_scope.
Notation "' pat <- m ;; k" := (bind m (fun x => match x with pat => k end))
  (at level 61, pat pattern, m at next level, right associativity) : result_scope.
Open Scope result_scope.

Definition assert (b : bool) : result unit :=
  if b then Ok tt else Fail AssertionFailed.

Definition is_ok {A : Type} (m : result A) : bool :=
  match m with Ok _ => true | Fail _ => false end.

(** ** Machine integers *)

Definition u8 (z : Z) : Z := z mod 256.
Definition u16 (z : Z) : Z := z mod 65536.

(** ** Arrays *)

Fixpoint upd {A : Type} (i : nat) (x : A) (l : list A) : list A :=
  match l, i with
  | [], _ => []
  | _ :: t, O => x :: t
  | h :: t, S j => h :: upd j x t
  end.

(** ** Colors, stones, groups *)

(** Modelled from the spec: cc/color.h is not under src/.  The spec gives the
    three colors and their integer codes, on which [CalculateScore] has
    static assertions. *)
Inductive Color : Type := kEmpty | kBlack | kWhite.

Definition color_code (c : Color) : Z :=
  match c with kEmpty => 0 | kBlack => 1 | kWhite => 2 end.

Definition color_eqb (a b : Color) : bool :=
  match a, b with
  | kEmpty, kEmpty | kBlack, kBlack | kWhite, kWhite => true
  | _, _ => false
  end.

(** Modelled from the spec: [OtherColor] (cc/color.h) flips Black and White.
    It is only meant for the two players; on [kEmpty] the model returns
    [kEmpty], and every theorem that depends on a player color says so. *)
Definition OtherColor (c : Color) : Color :=
  match c with kEmpty => kEmpty | kBlack => kWhite | kWhite => kBlack end.

Definition Coord := nat.
Definition GroupId := nat.

Module Stone.

(** Modelled from the spec: cc/stone.h is not under src/.  A cell is empty or
    holds a color and the identifier of the owning group. *)
Record t : Type := mk { color : Color; group_id : GroupId }.

(** Modelled from the spec: [Stone()], the default-constructed stone, is the
    empty cell. *)
Definition default : t := mk kEmpty 0.

(** Modelled from the spec: [Stone::empty()], the cell holds no color. *)
Definition empty (s : t) : bool := color_eqb (color s) kEmpty.

End Stone.

(** Modelled from the spec: cc/group.h is not under src/.  A group record has
    the two counters [size] and [num_liberties]; the model takes them as
    unsigned 16-bit integers, enough for the 361 points of the largest
    board. *)
Record Group : Type := mkGroup { size : Z; num_liberties : Z }.

Definition no_group : Group := mkGroup 0 0.

Module GroupPool.

(** Modelled from the spec: [GroupPool] (cc/group.h) is not under src/.  The
    pool owns [kMaxNumGroups] records indexed by [GroupId] and a free
    list. *)
Record t : Type := mk { slots : list Group; free_ids : list GroupId }.

(** Modelled from the spec: the pool of a new position, every identifier
    free. *)
Definition init (kMaxNumGroups : nat) : t :=
  mk (repeat no_group kMaxNumGroups) (seq 0 kMaxNumGroups).

(** Modelled from the spec: [alloc] takes an unused identifier from the
    free list and initialises its slot; it fails only when no identifier
    is free. *)
Definition alloc (sz libs : Z) (pool : t) : result (GroupId * t) :=
  match free_ids pool with
  | [] => Fail PoolExhausted
  | id :: rest => Ok (id, mk (upd id (mkGroup (u16 sz) (u16 libs)) (slots pool)) rest)
  end.

(** Modelled from the spec: [free] returns the identifier to the free
    list. *)
Definition free (id : GroupId) (pool : t) : t :=
  mk (slots pool) (id :: free_ids pool).

(** Modelled from the spec: [groups_[id]], read ([get]) and written
    ([set]). *)
Definition get (pool : t) (id : GroupId) : Group := nth id (slots pool) no_group.

Definition set (pool : t) (id : GroupId) (g : Group) : t :=
  mk (upd id g (slots pool)) (free_ids pool).

(** The identifiers handed out by [alloc] and not yet given back. *)
Definition allocated (pool : t) (id : GroupId) : bool :=
  (id <? length (slots pool)) && negb (existsb (Nat.eqb id) (free_ids pool)).

Definition num_allocated (pool : t) : nat :=
  length (filter (allocated pool) (seq 0 (length (slots pool)))).

End GroupPool.

(** Modelled from the spec: cc/tiny_set.h is not under src/.
    [tiny_set<T, 4>] is a vector without duplicates, in insertion order;
    [insert] tells whether the element is new. *)
Definition tiny_insert (x : GroupId) (s : list GroupId) : bool * list GroupId :=
  if existsb (Nat.eqb x) s then (false, s) else (true, s ++ [x]).

(** ** Coordinates and the neighbor table *)

Section Coordinates.

Variable kN : nat.

(** Modelled from the spec: [Coord(row, col)] (cc/coord.h is not under
    src/) is the flat index, as in [result[row * kN + col]] of
    position.cc. *)
Definition coord_of (row col : nat) : Coord := row * kN + col.

(** Modelled from the spec: the two sentinels of cc/coord.h lie outside
    the board range and differ from each other. *)
Definition kPass : Coord := kN * kN.

(** Modelled from the spec: [Coord::kInvalid], the second sentinel. *)
Definition kInvalid : Coord := kN * kN + 1.

Definition on_board (c : Coord) : Prop := c < kN * kN.

(** The body of the two loops that fill [kNeighborCoords]. *)
Definition neighbors_of (row col : nat) : list Coord :=
  (if 0 <? col then [coord_of row (col - 1)] else []) ++
  (if col <? kN - 1 then [coord_of row (col + 1)] else []) ++
  (if 0 <? row then [coord_of (row - 1) col] else []) ++
  (if row <? kN - 1 then [coord_of (row + 1) col] else []).

Definition kNeighborCoords : list (list Coord) :=
  flat_map (fun row => map (fun col => neighbors_of row col) (seq 0 kN)) (seq 0 kN).

Definition GetNeighborCoords (c : Coord) : list Coord :=
  nth c kNeighborCoords [].

(** The points of the board in the order of the two nested loops of
    [CalculateScore]. *)
Definition board_coords : list Coord :=
  flat_map (fun row => map (fun col => coord_of row col) (seq 0 kN)) (seq 0 kN).

End Coordinates.

(** ** BoardVisitor *)

Module BoardVisitor.

(** [stack_] has its top ([back()]) at the head of the list. *)
Record t : Type := mk { stack_ : list Coord; visited_ : list Z; epoch_ : Z }.

Section Ops.

Variable kN : nat.

(** A freshly constructed visitor.  [visited_] is not initialised by the
    constructor; the first [Begin] clears it, so its content here does
    not matter. *)
Definition init : t := mk [] (repeat 0%Z (kN * kN)) 0.

Definition Done (bv : t) : bool :=
  match stack_ bv with [] => true | _ => false end.

(** [if (epoch_++ == 0) memset(...)]: the test reads the epoch before
    the increment. *)
Definition Begin (bv : t) : result t :=
  _ <- assert (Done bv) ;;
  Ok (mk (stack_ bv)
         (if (epoch_ bv =? 0)%Z then repeat 0%Z (kN * kN) else visited_ bv)
         (u8 (epoch_ bv + 1))).

Definition Next (bv : t) : result (Coord * t) :=
  match stack_ bv with
  | [] => Fail EmptyStack
  | c :: rest => Ok (c, mk rest (visited_ bv) (epoch_ bv))
  end.

Definition Visit (c : Coord) (bv : t) : bool * t :=
  if negb (nth c (visited_ bv) 0 =? epoch_ bv)%Z
  then (true, mk (c :: stack_ bv) (upd c (epoch_ bv) (visited_ bv)) (epoch_ bv))
  else (false, bv).

End Ops.

End BoardVisitor.

(** ** GroupVisitor *)

Module GroupVisitor.

Record t : Type := mk { epoch_ : Z; visited_ : list Z }.

Section Ops.

Variable kMaxNumGroups : nat.

Definition init : t := mk 0 (repeat 0%Z kMaxNumGroups).

Definition Begin (gv : t) : t :=
  mk (u8 (epoch_ gv + 1))
     (if (epoch_ gv =? 0)%Z then repeat 0%Z kMaxNumGroups else visited_ gv).

Definition Visit (id : GroupId) (gv : t) : bool * t :=
  if negb (nth id (visited_ gv) 0 =? epoch_ gv)%Z
  then (true, mk (epoch_ gv) (upd id (epoch_ gv) (visited_ gv)))
  else (false, gv).

End Ops.

End GroupVisitor.

(** ** Position *)

Record Position : Type := mkPosition {
  stones_ : list Stone.t;
  groups_ : GroupPool.t;
  to_play_ : Color;
  previous_move_ : Coord;
  ko_ : Coord;
  num_captures_ : Z * Z;          (* captures by Black, by White *)
  n_ : Z;
  num_consecutive_passes_ : Z;
  komi_ : Q
}.

(** The visitors behind [board_visitor_] and [group_visitor_]. *)
Record Scratch : Type := mkScratch {
  board_visitor_ : BoardVisitor.t;
  group_visitor_ : GroupVisitor.t
}.

Definition with_stones (p : Position) (st : list Stone.t) : Position :=
  mkPosition st (groups_ p) (to_play_ p) (previous_move_ p) (ko_ p)
             (num_captures_ p) (n_ p) (num_consecutive_passes_ p) (komi_ p).

Definition with_groups (p : Position) (g : GroupPool.t) : Position :=
  mkPosition (stones_ p) g (to_play_ p) (previous_move_ p) (ko_ p)
             (num_captures_ p) (n_ p) (num_consecutive_passes_ p) (komi_ p).

Definition with_to_play (p : Position) (k : Color) : Position :=
  mkPosition (stones_ p) (groups_ p) k (previous_move_ p) (ko_ p)
             (num_captures_ p) (n_ p) (num_consecutive_passes_ p) (komi_ p).

Definition with_ko (p : Position) (k : Coord) : Position :=
  mkPosition (stones_ p) (groups_ p) (to_play_ p) (previous_move_ p) k
             (num_captures_ p) (n_ p) (num_consecutive_passes_ p) (komi_ p).

Definition with_num_captures (p : Position) (nc : Z * Z) : Position :=
  mkPosition (stones_ p) (groups_ p) (to_play_ p) (previous_move_ p) (ko_ p)
             nc (n_ p) (num_consecutive_passes_ p) (komi_ p).

Definition with_board_visitor (v : Scratch) (bv : BoardVisitor.t) : Scratch :=
  mkScratch bv (group_visitor_ v).

Definition with_group_visitor (v : Scratch) (gv : GroupVisitor.t) : Scratch :=
  mkScratch (board_visitor_ v) gv.

(** [stones_[c]] *)
Definition stone_at (p : Position) (c : Coord) : Stone.t := nth c (stones_ p) Stone.default.

Definition set_stone (p : Position) (c : Coord) (s : Stone.t) : Position :=
  with_stones p (upd c s (stones_ p)).

(** [groups_[id]] *)
Definition group_at (p : Position) (id : GroupId) : Group := GroupPool.get (groups_ p) id.

Definition set_group (p : Position) (id : GroupId) (g : Group) : Position :=
  with_groups p (GroupPool.set (groups_ p) id g).

(** What the walk over the neighbors of a new stone collects
    (position.cc, lines 182-206). *)
Record NeighborScan : Type := mkScan {
  scan_groups : GroupPool.t;                 (* [groups_], liberties decremented *)
  captured_groups : list (GroupId * Coord);
  liberties : list Coord;
  opponent_groups : list GroupId;
  neighbor_groups : list GroupId
}.

Section PositionOps.

Variable kN : nat.
Variable kMaxNumGroups : nat.

(** [Position(bv, gv, komi, to_play, n)]: the empty board. *)
Definition new_position (komi : Q) (to_play : Color) (n : Z) : Position :=
  mkPosition (repeat Stone.default (kN * kN)) (GroupPool.init kMaxNumGroups) to_play
             (kInvalid kN) (kInvalid kN) (0, 0)%Z n 0%Z komi.

Definition new_scratch : Scratch :=
  mkScratch (BoardVisitor.init kN) (GroupVisitor.init kMaxNumGroups).

(** Fuel of the traversals.  A traversal tags a point when it pushes it
    and pops one point per iteration, so it ends within this many
    iterations: lemmas [score_empty_area_loop_total] and [PlayMove_fuel]
    below. *)
Definition traversal_fuel : nat := 2 * (kN * kN).

(** *** IsKoish *)

Fixpoint IsKoish_loop (p : Position) (ncs : list Coord) (ko_color : Color) : Color :=
  match ncs with
  | [] => ko_color
  | nc :: rest =>
      let s := stone_at p nc in
      if Stone.empty s then kEmpty
      else if negb (color_eqb (Stone.color s) ko_color) then
        if color_eqb ko_color kEmpty then IsKoish_loop p rest (Stone.color s)
        else kEmpty
      else IsKoish_loop p rest ko_color
  end.

Definition IsKoish (p : Position) (c : Coord) : Color :=
  if negb (Stone.empty (stone_at p c)) then kEmpty
  else IsKoish_loop p (GetNeighborCoords kN c) kEmpty.

(** *** IsMoveSuicidal, IsMoveLegal *)

Fixpoint IsMoveSuicidal_loop (p : Position) (other_color : Color)
         (ncs : list Coord) : bool :=
  match ncs with
  | [] => true
  | nc :: rest =>
      let s := stone_at p nc in
      if Stone.empty s then false
      else if color_eqb (Stone.color s) other_color then
        if (num_liberties (group_at p (Stone.group_id s)) =? 1)%Z then false
        else IsMoveSuicidal_loop p other_color rest
      else
        if (1 <? num_liberties (group_at p (Stone.group_id s)))%Z then false
        else IsMoveSuicidal_loop p other_color rest
  end.

Definition IsMoveSuicidal (p : Position) (c : Coord) (color : Color) : bool :=
  IsMoveSuicidal_loop p (OtherColor color) (GetNeighborCoords kN c).

Definition IsMoveLegal (p : Position) (c : Coord) : bool :=
  if c =? kPass kN then true
  else if negb (Stone.empty (stone_at p c)) then false
  else if c =? ko_ p then false
  else if IsMoveSuicidal p c (to_play_ p) then false
  else true.

(** *** HasNeighboringGroup *)

Definition HasNeighboringGroup (p : Position) (c : Coord) (id : GroupId) : bool :=
  existsb (fun nc => let s := stone_at p nc in negb (Stone.empty s) && (Stone.group_id s =? id))
          (GetNeighborCoords kN c).

(** *** PassMove *)

Definition PassMove (p : Position) : Position :=
  mkPosition (stones_ p) (groups_ p) (OtherColor (to_play_ p)) (kPass kN) (kInvalid kN)
             (num_captures_ p) (n_ p + 1)%Z (num_consecutive_passes_ p + 1)%Z (komi_ p).

(** *** MergeGroup *)

Definition MergeGroup_visit (p : Position) (opponent_color : Color)
           (bv : BoardVisitor.t) (nc : Coord) : BoardVisitor.t :=
  if negb (color_eqb (Stone.color (stone_at p nc)) opponent_color)
  then snd (BoardVisitor.Visit nc bv)
  else bv.

Fixpoint MergeGroup_loop (fuel : nat) (s : Stone.t) (opponent_color : Color)
         (p : Position) (bv : BoardVisitor.t) : result (Position * BoardVisitor.t) :=
  if BoardVisitor.Done bv then Ok (p, bv)
  else match fuel with
  | O => Fail OutOfFuel
  | S fuel' =>
      '(c, bv) <- BoardVisitor.Next bv ;;
      let group := group_at p (Stone.group_id s) in
      if color_eqb (Stone.color (stone_at p c)) kEmpty then
        let p := set_group p (Stone.group_id s)
                   (mkGroup (size group) (u16 (num_liberties group + 1))) in
        MergeGroup_loop fuel' s opponent_color p bv
      else
        _ <- assert (color_eqb (Stone.color (stone_at p c)) (Stone.color s)) ;;
        let p := set_group p (Stone.group_id s)
                   (mkGroup (u16 (size group + 1)) (num_liberties group)) in
        let p := set_stone p c s in
        let bv := fold_left (MergeGroup_visit p opponent_color)
                            (GetNeighborCoords kN c) bv in
        MergeGroup_loop fuel' s opponent_color p bv
  end.

Definition MergeGroup (p : Position) (v : Scratch) (c : Coord)
  : result (Position * Scratch) :=
  let s := stone_at p c in
  let opponent_color := OtherColor (Stone.color s) in
  let p := set_group p (Stone.group_id s) (mkGroup 0 0) in
  bv <- BoardVisitor.Begin kN (board_visitor_ v) ;;
  let bv := snd (BoardVisitor.Visit c bv) in
  '(p, bv) <- MergeGroup_loop traversal_fuel s opponent_color p bv ;;
  Ok (p, with_board_visitor v bv).

(** *** RemoveGroup *)

(** The walk over the neighbors of one removed stone; [other_groups] is the
    local [tiny_set]. *)
Definition RemoveGroup_neighbor (removed_color other_color : Color)
           (st : Position * BoardVisitor.t * list GroupId) (nc : Coord)
  : Position * BoardVisitor.t * list GroupId :=
  let '(p, bv, other_groups) := st in
  let ns := stone_at p nc in
  let neighbor_color := Stone.color ns in
  let neighbor_group_id := Stone.group_id ns in
  if color_eqb neighbor_color other_color then
    let (fresh, other_groups) := tiny_insert neighbor_group_id other_groups in
    if fresh then
      let g := group_at p neighbor_group_id in
      (set_group p neighbor_group_id (mkGroup (size g) (u16 (num_liberties g + 1))),
       bv, other_groups)
    else (p, bv, other_groups)
  else if color_eqb neighbor_color removed_color then
    (p, snd (BoardVisitor.Visit nc bv), other_groups)
  else (p, bv, other_groups).

Fixpoint RemoveGroup_loop (fuel : nat) (removed_color other_color : Color)
         (removed_group_id : GroupId) (p : Position) (bv : BoardVisitor.t)
  : result (Position * BoardVisitor.t) :=
  if BoardVisitor.Done bv then Ok (p, bv)
  else match fuel with
  | O => Fail OutOfFuel
  | S fuel' =>
      '(c, bv) <- BoardVisitor.Next bv ;;
      _ <- assert (Stone.group_id (stone_at p c) =? removed_group_id) ;;
      let p := set_stone p c Stone.default in
      let '(p, bv, _) :=
        fold_left (RemoveGroup_neighbor removed_color other_color)
                  (GetNeighborCoords kN c) (p, bv, []) in
      RemoveGroup_loop fuel' removed_color other_color removed_group_id p bv
  end.

Definition RemoveGroup (p : Position) (v : Scratch) (c : Coord)
  : result (Position * Scratch) :=
  let removed_color := Stone.color (stone_at p c) in
  let other_color := OtherColor removed_color in
  let removed_group_id := Stone.group_id (stone_at p c) in
  let gv := GroupVisitor.Begin kMaxNumGroups (group_visitor_ v) in
  bv <- BoardVisitor.Begin kN (board_visitor_ v) ;;
  let bv := snd (BoardVisitor.Visit c bv) in
  '(p, bv) <- RemoveGroup_loop traversal_fuel removed_color other_color
                               removed_group_id p bv ;;
  Ok (p, mkScratch bv gv).

(** *** AddStoneToBoard *)

Definition scan_step (p : Position) (color opponent_color : Color)
           (st : NeighborScan) (nc : Coord) : NeighborScan :=
  let neighbor := stone_at p nc in
  let neighbor_color := Stone.color neighbor in
  let neighbor_group_id := Stone.group_id neighbor in
  if color_eqb neighbor_color kEmpty then
    mkScan (scan_groups st) (captured_groups st) (liberties st ++ [nc])
           (opponent_groups st) (neighbor_groups st)
  else if color_eqb neighbor_color color then
    mkScan (scan_groups st) (captured_groups st) (liberties st)
           (opponent_groups st) (snd (tiny_insert neighbor_group_id (neighbor_groups st)))
  else if color_eqb neighbor_color opponent_color then
    let (fresh, opponent_groups') := tiny_insert neighbor_group_id (opponent_groups st) in
    if fresh then
      let g := GroupPool.get (scan_groups st) neighbor_group_id in
      let libs := u16 (num_liberties g - 1) in
      let pool := GroupPool.set (scan_groups st) neighbor_group_id (mkGroup (size g) libs) in
      mkScan pool
             (if (libs =? 0)%Z then captured_groups st ++ [(neighbor_group_id, nc)]
              else captured_groups st)
             (liberties st) opponent_groups' (neighbor_groups st)
    else st
  else st.

(** The first loop of [AddStoneToBoard]; the stones are those of [p], the
    liberty counts change in [scan_groups]. *)
Definition scan_neighbors (p : Position) (c : Coord) (color : Color) : NeighborScan :=
  fold_left (scan_step p color (OtherColor color)) (GetNeighborCoords kN c)
            (mkScan (groups_ p) [] [] [] []).

(** The loop over [liberties] when the stone joins a single group. *)
Definition count_new_liberties (p : Position) (id : GroupId) (libs : Z)
           (liberties : list Coord) : Z :=
  fold_left (fun n nc => if negb (HasNeighboringGroup p nc id) then u16 (n + 1) else n)
            liberties libs.

Definition place_stone (p : Position) (v : Scratch) (c : Coord) (color : Color)
           (liberties : list Coord) (neighbor_groups : list GroupId)
  : result (Position * Scratch) :=
  match neighbor_groups with
  | [] =>
      '(id, pool) <- GroupPool.alloc 1 (Z.of_nat (length liberties)) (groups_ p) ;;
      Ok (set_stone (with_groups p pool) c (Stone.mk color id), v)
  | id :: [] =>
      let group := group_at p id in
      let libs := count_new_liberties p id (u16 (num_liberties group - 1)) liberties in
      let p := set_group p id (mkGroup (u16 (size group + 1)) libs) in
      Ok (set_stone p c (Stone.mk color id), v)
  | id :: others =>
      let p := set_stone p c (Stone.mk color id) in
      '(p, v) <- MergeGroup p v c ;;
      Ok (with_groups p (fold_left (fun pool i => GroupPool.free i pool) others (groups_ p)), v)
  end.

Fixpoint remove_captured (p : Position) (v : Scratch) (color : Color)
         (captured : list (GroupId * Coord)) : result (Position * Scratch) :=
  match captured with
  | [] => Ok (p, v)
  | (id, nc) :: rest =>
      let num_captured_stones := size (group_at p id) in
      let p := with_num_captures p
                 (if color_eqb color kBlack
                  then (fst (num_captures_ p) + num_captured_stones, snd (num_captures_ p))%Z
                  else (fst (num_captures_ p), snd (num_captures_ p) + num_captured_stones)%Z) in
      '(p, v) <- RemoveGroup p v nc ;;
      remove_captured p v color rest
  end.

Definition update_ko (p : Position) (captured : list (GroupId * Coord))
           (potential_ko opponent_color : Color) : Position :=
  match captured with
  | [(id, nc)] =>
      if (size (group_at p id) =? 1)%Z && color_eqb potential_ko opponent_color
      then with_ko p nc
      else with_ko p (kInvalid kN)
  | _ => with_ko p (kInvalid kN)
  end.

Definition AddStoneToBoard (p : Position) (v : Scratch) (c : Coord) (color : Color)
  : result (Position * Scratch) :=
  let potential_ko := IsKoish p c in
  let opponent_color := OtherColor color in
  let sc := scan_neighbors p c color in
  let p := with_groups p (scan_groups sc) in
  '(p, v) <- place_stone p v c color (liberties sc) (neighbor_groups sc) ;;
  '(p, v) <- remove_captured p v color (captured_groups sc) ;;
  Ok (update_ko p (captured_groups sc) potential_ko opponent_color, v).

(** *** PlayMove *)

Definition PlayMove (p : Position) (v : Scratch) (c : Coord) (color : Color)
  : result (Position * Scratch) :=
  if c =? kPass kN then Ok (PassMove p, v)
  else
    let (color, p) := if color_eqb color kEmpty then (to_play_ p, p)
                      else (color, with_to_play p color) in
    _ <- assert (IsMoveLegal p c) ;;
    '(p, v) <- AddStoneToBoard p v c color ;;
    Ok (mkPosition (stones_ p) (groups_ p) (OtherColor (to_play_ p)) c (ko_ p)
                   (num_captures_ p) (n_ p + 1)%Z 0%Z (komi_ p), v).

(** A game: the moves played in turn from a position, each with the color
    argument of [PlayMove]. *)
Fixpoint play_moves (p : Position) (v : Scratch) (moves : list (Coord * Color))
  : result (Position * Scratch) :=
  match moves with
  | [] => Ok (p, v)
  | (c, color) :: rest =>
      '(p, v) <- PlayMove p v c color ;;
      play_moves p v rest
  end.

(** *** CalculateScore *)

Definition score_visit (p : Position) (st : BoardVisitor.t * Z) (nc : Coord)
  : BoardVisitor.t * Z :=
  let (bv, found_bits) := st in
  let color := Stone.color (stone_at p nc) in
  if color_eqb color kEmpty then (snd (BoardVisitor.Visit nc bv), found_bits)
  else (bv, Z.lor found_bits (color_code color)).

(** The [do ... while (!Done())] of the lambda [score_empty_area]. *)
Fixpoint score_empty_area_loop (fuel : nat) (p : Position) (bv : BoardVisitor.t)
         (num_visited found_bits : Z) : result (Z * Z * BoardVisitor.t) :=
  match fuel with
  | O => Fail OutOfFuel
  | S fuel' =>
      '(c, bv) <- BoardVisitor.Next bv ;;
      let num_visited := (num_visited + 1)%Z in
      let (bv, found_bits) :=
        fold_left (score_visit p) (GetNeighborCoords kN c) (bv, found_bits) in
      if negb (BoardVisitor.Done bv)
      then score_empty_area_loop fuel' p bv num_visited found_bits
      else Ok (num_visited, found_bits, bv)
  end.

Definition score_empty_area (p : Position) (bv : BoardVisitor.t)
  : result (Z * BoardVisitor.t) :=
  '(num_visited, found_bits, bv) <- score_empty_area_loop traversal_fuel p bv 0%Z 0%Z ;;
  Ok (if (found_bits =? 1)%Z then num_visited
      else if (found_bits =? 2)%Z then (- num_visited)%Z
      else 0%Z, bv).

(** The body of the two nested loops over the board, for one point. *)
Definition score_point (p : Position) (st : Z * Scratch) (c : Coord)
  : result (Z * Scratch) :=
  let (score, v) := st in
  let s := stone_at p c in
  if Stone.empty s then
    let (first, bv) := BoardVisitor.Visit c (board_visitor_ v) in
    if first then
      '(area, bv) <- score_empty_area p bv ;;
      Ok ((score + area)%Z, with_board_visitor v bv)
    else Ok (score, with_board_visitor v bv)
  else
    let (first, gv) := GroupVisitor.Visit (Stone.group_id s) (group_visitor_ v) in
    let v := with_group_visitor v gv in
    if first then
      let sz := size (group_at p (Stone.group_id s)) in
      if color_eqb (Stone.color s) kBlack then Ok ((score + sz)%Z, v)
      else Ok ((score - sz)%Z, v)
    else Ok (score, v).

Fixpoint score_points (p : Position) (st : Z * Scratch) (cs : list Coord)
  : result (Z * Scratch) :=
  match cs with
  | [] => Ok st
  | c :: rest => st <- score_point p st c ;; score_points p st rest
  end.

(** The [int score] of [CalculateScore] before the komi is subtracted. *)
Definition board_score (p : Position) (v : Scratch) : result (Z * Scratch) :=
  let gv := GroupVisitor.Begin kMaxNumGroups (group_visitor_ v) in
  bv <- BoardVisitor.Begin kN (board_visitor_ v) ;;
  score_points p (0%Z, mkScratch bv gv) (board_coords kN).

Definition CalculateScore (p : Position) (v : Scratch) : result (Q * Scratch) :=
  '(score, v) <- board_score p v ;;
  Ok ((inject_Z score - komi_ p)%Q, v).

End PositionOps.

(** * Vocabulary of the properties *)

Section Vocabulary.

Variable kN : nat.

(** The color that plays when [PlayMove] is called with [color]. *)
Definition mover (p : Position) (color : Color) : Color :=
  if color_eqb color kEmpty then to_play_ p else color.

(** A move at [c] by [color] is not suicidal: some neighbor is empty, or
    belongs to an opposite-color group with exactly one liberty, or to a
    same-color group with more than one liberty. *)
Definition not_suicidal (p : Position) (c : Coord) (color : Color) : Prop :=
  exists nc, In nc (GetNeighborCoords kN c) /\
    let s := stone_at p nc in
    (Stone.color s = kEmpty \/
     (Stone.color s = OtherColor color /\
      num_liberties (group_at p (Stone.group_id s)) = 1%Z) \/
     (Stone.color s = color /\
      (1 < num_liberties (group_at p (Stone.group_id s)))%Z)).

(** The length of the run of passes at the head of a list of moves, and
    at the end of a game. *)
Fixpoint leading_passes (moves : list (Coord * Color)) : nat :=
  match moves with
  | (c, _) :: rest => if c =? kPass kN then S (leading_passes rest) else 0
  | [] => 0
  end.

Definition trailing_passes (moves : list (Coord * Color)) : nat :=
  leading_passes (rev moves).

End Vocabulary.

(** The fields that [AddStoneToBoard] does not write. *)
Definition same_frame (p p' : Position) : Prop :=
  to_play_ p' = to_play_ p /\ previous_move_ p' = previous_move_ p /\
  n_ p' = n_ p /\ num_consecutive_passes_ p' = num_consecutive_passes_ p /\
  komi_ p' = komi_ p.

(** The number of board cells whose stone carries the group identifier. *)
Definition stones_tagged (p : Position) (id : GroupId) : nat :=
  length (filter (fun s => negb (Stone.empty s) && (Stone.group_id s =? id)) (stones_ p)).

(** Black and White exchanged, everything else as it is. *)
Definition swap_stone (s : Stone.t) : Stone.t :=
  Stone.mk (OtherColor (Stone.color s)) (Stone.group_id s).

Definition swap_colors (p : Position) : Position :=
  with_stones p (map swap_stone (stones_ p)).

(** [found_bits] of an empty area when the colors of its border are
    exchanged. *)
Definition swap_bits (found_bits : Z) : Z :=
  if (found_bits =? 1)%Z then 2%Z
  else if (found_bits =? 2)%Z then 1%Z
  else found_bits.

Definition swap_area (r : Z * Z * BoardVisitor.t) : Z * Z * BoardVisitor.t :=
  let '(num_visited, found_bits, bv) := r in (num_visited, swap_bits found_bits, bv).

Definition map_result {A B : Type} (f : A -> B) (m : result A) : result B :=
  match m with Ok a => Ok (f a) | Fail e => Fail e end.

Definition negate_score {S : Type} (r : Z * S) : Z * S := ((- fst r)%Z, snd r).

(** The points not yet tagged with the current epoch, and the measure that
    every iteration of a traversal decreases: an iteration pops one point,
    and every push tags a point. *)
Definition unvisited (bv : BoardVisitor.t) : nat :=
  length (filter (fun tag => negb (tag =? BoardVisitor.epoch_ bv)%Z)
                 (BoardVisitor.visited_ bv)).

Definition traversal_measure (bv : BoardVisitor.t) : nat :=
  length (BoardVisitor.stack_ bv) + 2 * unvisited bv.

(** The tag array has one entry per point of the board. *)
Definition sized (kN : nat) (bv : BoardVisitor.t) : Prop :=
  length (BoardVisitor.visited_ bv) = kN * kN.

(** A run that may fail on an assertion or on the pool, but not because
    the fuel of the model was too short; the tag array keeps its size. *)
Definition within_fuel (kN : nat) (r : result (Position * Scratch)) : Prop :=
  match r with
  | Ok (_, v) => sized kN (board_visitor_ v)
  | Fail e => e <> OutOfFuel
  end.

Definition loop_within_fuel (kN : nat) (r : result (Position * BoardVisitor.t)) : Prop :=
  match r with
  | Ok (_, bv) => sized kN bv
  | Fail e => e <> OutOfFuel
  end.

(** A visitor between two traversals: nothing pending, one tag per point. *)
Definition visitor_ready (kN : nat) (v : Scratch) : Prop :=
  BoardVisitor.Done (board_visitor_ v) = true /\
  length (BoardVisitor.visited_ (board_visitor_ v)) = kN * kN.

(** [Begin] called [k] times in a row, no [Visit] in between. *)
Fixpoint begin_times (kN k : nat) (bv : BoardVisitor.t) : result BoardVisitor.t :=
  match k with
  | O => Ok bv
  | S k' => bv <- BoardVisitor.Begin kN bv ;; begin_times kN k' bv
  end.

(** ** Games on the 9x9 board used as concrete inputs *)

Module Game9.

Definition kN : nat := 9.
Definition kMaxNumGroups : nat := 81.

Definition start : Position := new_position kN kMaxNumGroups (15 # 2) kBlack 0.
Definition scratch : Scratch := new_scratch kN kMaxNumGroups.

(** A move in turn at row [r], column [c]. *)
Definition at_ (r c : nat) : Coord * Color := (coord_of kN r c, kEmpty).

Definition pass : Coord * Color := (kPass kN, kEmpty).

Definition play (moves : list (Coord * Color)) : result (Position * Scratch) :=
  play_moves kN kMaxNumGroups start scratch moves.

(** The same game with a pool of [m] groups. *)
Definition play_in_pool (m : nat) (moves : list (Coord * Color))
  : result (Position * Scratch) :=
  play_moves kN m (new_position kN m (15 # 2) kBlack 0) (new_scratch kN m) moves.

(** Black A9's neighbor, White in the corner, Black captures it. *)
Definition corner_capture : list (Coord * Color) := [at_ 0 1; at_ 0 0; at_ 1 0].

(** Three ko shapes, one on rows 0-2, one on rows 3-5, one on rows 6-8. *)
Definition triple_ko_setup : list (Coord * Color) :=
  [ at_ 0 1; at_ 0 2;  at_ 1 0; at_ 1 3;  at_ 2 1; at_ 2 2;
    at_ 3 1; at_ 3 2;  at_ 4 0; at_ 4 3;  at_ 5 1; at_ 5 2;
    at_ 6 1; at_ 6 2;  at_ 7 0; at_ 7 3;  at_ 8 1; at_ 8 2;
    at_ 4 2; at_ 1 1;  at_ 8 8; at_ 7 1 ].

(** Every move of the cycle captures the ko stone of one shape. *)
Definition triple_ko_cycle : list (Coord * Color) :=
  [ at_ 1 2; at_ 4 1; at_ 7 2; at_ 1 1; at_ 4 2; at_ 7 1 ].

Fixpoint cycles (k : nat) : list (Coord * Color) :=
  match k with
  | O => []
  | S k' => triple_ko_cycle ++ cycles k'
  end.

(** Twenty-two stones of setup, then sixty-four captures in the triple
    ko: every move is a stone played in turn. *)
Definition long_triple_ko : list (Coord * Color) :=
  triple_ko_setup ++ cycles 10 ++ firstn 4 triple_ko_cycle.

(** The setup and then [k] moves of the triple ko. *)
Definition triple_ko (k : nat) : list (Coord * Color) :=
  triple_ko_setup ++ firstn k (cycles 60).

(** A single ko in the upper left: after the eight stones of the shape
    and a stone elsewhere, Black takes the ko at row 1, column 2. *)
Definition ko_setup : list (Coord * Color) :=
  [ at_ 0 1; at_ 0 2;  at_ 1 0; at_ 1 3;  at_ 2 1; at_ 2 2;
    at_ 8 8; at_ 1 1 ].

(** Black stones on the two neighbors of the corner point 0. *)
Definition corner_eye : Position :=
  set_stone (set_stone start 1 (Stone.mk kBlack 0)) 9 (Stone.mk kBlack 1).

End Game9.

(** * The rest of cc/position.h, cc/position.cc and their callers *)

(** [Position::is_game_over()] *)
Definition is_game_over (p : Position) : bool :=
  (2 <=? num_consecutive_passes_ p)%Z.

(** [Position::GroupAt(c)] *)
Definition GroupAt (p : Position) (c : Coord) : Group :=
  let s := stone_at p c in
  if Stone.empty s then no_group else group_at p (Stone.group_id s).

(** What the walk knows after the neighbors [seen]. *)
Definition scan_inv (p : Position) (color : Color) (seen : list Coord)
           (st : NeighborScan) : Prop :=
  (forall g, In g (opponent_groups st) <->
     exists nc, In nc seen /\ Stone.color (stone_at p nc) = OtherColor color /\
                Stone.group_id (stone_at p nc) = g) /\
  (forall g, ~ In g (opponent_groups st) ->
     GroupPool.get (scan_groups st) g = group_at p g) /\
  (forall g x, In (g, x) (captured_groups st) ->
     In x seen /\ Stone.color (stone_at p x) = OtherColor color /\
     Stone.group_id (stone_at p x) = g /\
     u16 (num_liberties (group_at p g) - 1) = 0%Z) /\
  (forall g, In g (opponent_groups st) ->
     u16 (num_liberties (group_at p g) - 1) = 0%Z ->
     exists x, In (g, x) (captured_groups st)).

(** The position and the visitors after a game on the 9x9 board (the start
    position when the game is not accepted). *)
Definition after9 (moves : list (Coord * Color)) : Position :=
  match Game9.play moves with Ok (p, _) => p | Fail _ => Game9.start end.

Definition scratch_after9 (moves : list (Coord * Color)) : Scratch :=
  match Game9.play moves with Ok (_, v) => v | Fail _ => Game9.scratch end.

(** The operations of a traversal, between two calls of [Begin]. *)
Inductive visitor_op : Type :=
| OpVisit (c : Coord)
| OpNext.

Fixpoint run_ops (ops : list visitor_op) (bv : BoardVisitor.t) : result BoardVisitor.t :=
  match ops with
  | [] => Ok bv
  | OpVisit c :: rest => run_ops rest (snd (BoardVisitor.Visit c bv))
  | OpNext :: rest => '(_, bv) <- BoardVisitor.Next bv ;; run_ops rest bv
  end.

(** The tags are epochs of the past: none exceeds the current epoch, which
    is a [uint8_t]. *)
Definition tags_bounded (epoch : Z) (tags : list Z) : Prop :=
  (0 <= epoch <= 255)%Z /\ Forall (fun tag => (0 <= tag <= epoch)%Z) tags.

(** The answers of [GroupVisitor::Visit] to a sequence of identifiers. *)
Fixpoint visit_all (ids : list GroupId) (gv : GroupVisitor.t) : list bool :=
  match ids with
  | [] => []
  | id :: rest =>
      fst (GroupVisitor.Visit id gv) :: visit_all rest (snd (GroupVisitor.Visit id gv))
  end.

(** For each identifier of a sequence, whether it occurs there for the
    first time ([seen] holds the identifiers met before). *)
Fixpoint first_seen (seen ids : list GroupId) : list bool :=
  match ids with
  | [] => []
  | id :: rest => negb (existsb (Nat.eqb id) seen) :: first_seen (id :: seen) rest
  end.

(** The color of the stone at a point. *)
Definition color_at (p : Position) (c : Coord) : Color := Stone.color (stone_at p c).

(** Two tag arrays mark the same entries, each for its own epoch. *)
Definition same_marks (e1 : Z) (t1 : list Z) (e2 : Z) (t2 : list Z) : Prop :=
  length t1 = length t2 /\
  forall i, (nth i t1 0 =? e1)%Z = (nth i t2 0 =? e2)%Z.

Definition board_visitors_agree (bv1 bv2 : BoardVisitor.t) : Prop :=
  BoardVisitor.stack_ bv1 = BoardVisitor.stack_ bv2 /\
  same_marks (BoardVisitor.epoch_ bv1) (BoardVisitor.visited_ bv1)
             (BoardVisitor.epoch_ bv2) (BoardVisitor.visited_ bv2).

Definition group_visitors_agree (gv1 gv2 : GroupVisitor.t) : Prop :=
  same_marks (GroupVisitor.epoch_ gv1) (GroupVisitor.visited_ gv1)
             (GroupVisitor.epoch_ gv2) (GroupVisitor.visited_ gv2).

Definition scratch_agree (v1 v2 : Scratch) : Prop :=
  board_visitors_agree (board_visitor_ v1) (board_visitor_ v2) /\
  group_visitors_agree (group_visitor_ v1) (group_visitor_ v2).

(** Two runs end alike: with results related by [R], or with the same
    failure. *)
Definition result_agree {A : Type} (R : A -> A -> Prop) (r1 r2 : result A) : Prop :=
  match r1, r2 with
  | Ok a, Ok b => R a b
  | Fail e1, Fail e2 => e1 = e2
  | _, _ => False
  end.

(** Visitors between two traversals that have begun fewer than 255 of
    them: the tags are epochs of the past and the epoch has not wrapped. *)
Definition scratch_fresh (kN kMaxNumGroups : nat) (v : Scratch) : Prop :=
  visitor_ready kN v /\
  tags_bounded (BoardVisitor.epoch_ (board_visitor_ v))
               (BoardVisitor.visited_ (board_visitor_ v)) /\
  BoardVisitor.epoch_ (board_visitor_ v) <> 255%Z /\
  length (GroupVisitor.visited_ (group_visitor_ v)) = kMaxNumGroups /\
  tags_bounded (GroupVisitor.epoch_ (group_visitor_ v))
               (GroupVisitor.visited_ (group_visitor_ v)) /\
  GroupVisitor.epoch_ (group_visitor_ v) <> 255%Z.

(** * Board strings (cc/position.cc, cc/test_utils.cc)

    A string is the list of its characters.  Three functions of Abseil
    are used by the source; they are written out here as the library
    documents them. *)

Definition newline : ascii := "010"%char.

(** [absl::StrSplit(str, sep)]: the pieces between the separators, the
    empty ones included; a string without separator is one piece. *)
Fixpoint StrSplit (sep : ascii) (str : list ascii) : list (list ascii) :=
  match str with
  | [] => [[]]
  | ch :: rest =>
      if Ascii.eqb ch sep then [] :: StrSplit sep rest
      else match StrSplit sep rest with
           | piece :: pieces => (ch :: piece) :: pieces
           | [] => [[ch]]
           end
  end.

(** [absl::ascii_isspace]: space, and the characters 9 to 13. *)
Definition ascii_isspace (ch : ascii) : bool :=
  (nat_of_ascii ch =? 32) || ((9 <=? nat_of_ascii ch) && (nat_of_ascii ch <=? 13)).

Fixpoint strip_leading (str : list ascii) : list ascii :=
  match str with
  | [] => []
  | ch :: rest => if ascii_isspace ch then strip_leading rest else str
  end.

(** [absl::StripAsciiWhitespace]: white space removed at both ends. *)
Definition StripAsciiWhitespace (str : list ascii) : list ascii :=
  rev (strip_leading (rev (strip_leading str))).

(** [absl::StrJoin(lines, sep)] *)
Fixpoint StrJoin (lines : list (list ascii)) (sep : list ascii) : list ascii :=
  match lines with
  | [] => []
  | [line] => line
  | line :: rest => line ++ sep ++ StrJoin rest sep
  end.

(** [std::string::resize(n, fill)] *)
Definition resize (n : nat) (fill : ascii) (str : list ascii) : list ascii :=
  firstn n str ++ repeat fill (n - length str).

Section BoardStrings.

Variable kN : nat.
Variable kMaxNumGroups : nat.

(** The character [ToSimpleString] writes for a point. *)
Definition simple_char (p : Position) (c : Coord) : ascii :=
  let color := Stone.color (stone_at p c) in
  if color_eqb color kWhite then "O"%char
  else if color_eqb color kBlack then "X"%char
  else if c =? ko_ p then "*"%char else "."%char.

Definition ToSimpleString (p : Position) : list ascii :=
  flat_map (fun row => map (fun col => simple_char p (coord_of kN row col)) (seq 0 kN)
                       ++ [newline])
           (seq 0 kN).

(** The first loop of [SplitBoardString], over the pieces of the split. *)
Fixpoint split_lines (pieces lines : list (list ascii)) : result (list (list ascii)) :=
  match pieces with
  | [] => Ok lines
  | line :: rest =>
      let stripped := StripAsciiWhitespace line in
      match stripped with
      | [] => split_lines rest lines
      | _ =>
          _ <- assert (length stripped <=? kN) ;;
          split_lines rest (lines ++ [resize kN "."%char stripped])
      end
  end.

Definition SplitBoardString (str : list ascii) : result (list (list ascii)) :=
  lines <- split_lines (StrSplit newline str) [] ;;
  _ <- assert (length lines <=? kN) ;;
  Ok (lines ++ repeat (repeat "."%char kN) (kN - length lines)).

Definition CleanBoardString (str : list ascii) : result (list ascii) :=
  lines <- SplitBoardString str ;;
  Ok (StrJoin lines [newline] ++ [newline]).

Definition parse_char (ch : ascii) : Color :=
  if Ascii.eqb ch "X"%char then kBlack
  else if Ascii.eqb ch "O"%char then kWhite
  else kEmpty.

(** The array of [ParseBoard], entry [Coord(row, col)] at index
    [row * kN + col]. *)
Definition ParseBoard (str : list ascii) : result (list Color) :=
  lines <- SplitBoardString str ;;
  Ok (flat_map (fun row => map (fun col => parse_char (nth col (nth row lines []) "."%char))
                               (seq 0 kN))
               (seq 0 kN)).

(** The loop of the constructor of [TestablePosition]. *)
Fixpoint add_parsed_stones (stones : list Color) (p : Position) (v : Scratch)
         (points : list Coord) : result (Position * Scratch) :=
  match points with
  | [] => Ok (p, v)
  | i :: rest =>
      if negb (color_eqb (nth i stones kEmpty) kEmpty) then
        '(p, v) <- AddStoneToBoard kN kMaxNumGroups p v i (nth i stones kEmpty) ;;
        add_parsed_stones stones p v rest
      else add_parsed_stones stones p v rest
  end.

(** [TestablePosition(board_str, komi, to_play, n)]; the position owns its
    two visitors. *)
Definition TestablePosition (board_str : list ascii) (komi : Q) (to_play : Color) (n : Z)
  : result (Position * Scratch) :=
  stones <- ParseBoard board_str ;;
  add_parsed_stones stones (new_position kN kMaxNumGroups komi to_play n)
                    (new_scratch kN kMaxNumGroups) (seq 0 (kN * kN)).

End BoardStrings.

(** The lines of a board string, each followed by a newline. *)
Definition unlines (lines : list (list ascii)) : list ascii :=
  flat_map (fun line => line ++ [newline]) lines.

(** A string that has no white space at its ends. *)
Definition starts_clean (str : list ascii) : Prop :=
  match str with
  | [] => True
  | ch :: _ => ascii_isspace ch = false
  end.

Definition clean_ends (str : list ascii) : Prop :=
  starts_clean str /\ starts_clean (rev str).

(** A line of a cleaned board string. *)
Definition board_line (kN : nat) (line : list ascii) : Prop :=
  length line = kN /\ ~ In newline line /\ clean_ends line.

(** * Counting virtual losses (cc/test_utils.cc)

    [CountPendingVirtualLosses] walks a search tree with a stack.  Of a
    node it reads two members only, [num_virtual_losses_applied] and
    [children]; a node owns its children, so the nodes below one node
    form a finite tree. *)

#[warnings="-register-all"] Inductive MctsNode : Type :=
| mkNode (num_virtual_losses_applied : Z) (children : list MctsNode).

Definition node_losses (node : MctsNode) : Z :=
  match node with mkNode n _ => n end.

Definition node_children (node : MctsNode) : list MctsNode :=
  match node with mkNode _ cs => cs end.

(** The number of nodes of a tree: the fuel of the walk. *)
Fixpoint tree_size (node : MctsNode) : nat :=
  match node with
  | mkNode _ cs => S (fold_right (fun child acc => tree_size child + acc) 0 cs)
  end.

(** The [while (!pending.empty())] loop; the back of the vector is the
    head of the list, and the children are pushed in their order. *)
Fixpoint count_pending_loop (fuel : nat) (pending : list MctsNode) (num : Z) : result Z :=
  match pending with
  | [] => Ok num
  | node :: rest =>
      match fuel with
      | O => Fail OutOfFuel
      | S fuel' =>
          _ <- assert (0 <=? node_losses node)%Z ;;
          count_pending_loop fuel' (rev (node_children node) ++ rest)
                             (num + node_losses node)%Z
      end
  end.

Definition CountPendingVirtualLosses (node : MctsNode) : result Z :=
  count_pending_loop (tree_size node) [node] 0%Z.

(** The sum of the virtual losses of all the nodes of a tree, and whether
    none of them is negative. *)
Fixpoint tree_losses (node : MctsNode) : Z :=
  match node with
  | mkNode n cs => (n + fold_right (fun child acc => tree_losses child + acc) 0 cs)%Z
  end.

Fixpoint tree_nonneg (node : MctsNode) : bool :=
  match node with
  | mkNode n cs => (0 <=? n)%Z && forallb tree_nonneg cs
  end.

Definition forest_size (nodes : list MctsNode) : nat :=
  fold_right (fun child acc => tree_size child + acc) 0 nodes.

Definition forest_losses (nodes : list MctsNode) : Z :=
  fold_right (fun child acc => tree_losses child + acc)%Z 0%Z nodes.

(** * Area scoring: vocabulary *)

(** The empty area of a point [c]: the points joined to [c] by a path of
    neighbors that are all empty. *)
Inductive same_area (kN : nat) (p : Position) (c : Coord) : Coord -> Prop :=
| area_start : same_area kN p c c
| area_step (x nc : Coord) :
    same_area kN p c x -> In nc (GetNeighborCoords kN x) -> color_at p nc = kEmpty ->
    same_area kN p c nc.

(** Some point of [pts] has a neighbor of color [k]. *)
Definition touched (kN : nat) (p : Position) (pts : list Coord) (k : Color) : Prop :=
  exists x nc, In x pts /\ In nc (GetNeighborCoords kN x) /\ color_at p nc = k.

(** The point is tagged for the current traversal. *)
Definition tagged (bv : BoardVisitor.t) (x : Coord) : Prop :=
  nth x (BoardVisitor.visited_ bv) 0%Z = BoardVisitor.epoch_ bv.

(** What [found_bits] records: bit 0 for Black, bit 1 for White. *)
Definition bits_mark (fb : Z) (black white : Prop) : Prop :=
  (0 <= fb < 4)%Z /\
  (Z.testbit fb 0 = true <-> black) /\ (Z.testbit fb 1 = true <-> white).

(** The state of the flood fill of the area of [c] between two
    iterations: [popped] are the points counted so far, [old] the tags
    left by the areas flooded before. *)
Definition flood_inv (kN : nat) (p : Position) (c : Coord) (old : Coord -> Prop)
           (popped : list Coord) (bv : BoardVisitor.t) (fb : Z) : Prop :=
  In c (BoardVisitor.stack_ bv ++ popped) /\
  sized kN bv /\
  NoDup (BoardVisitor.stack_ bv ++ popped) /\
  (forall y, In y (BoardVisitor.stack_ bv ++ popped) -> same_area kN p c y) /\
  (forall y, tagged bv y <-> old y \/ In y (BoardVisitor.stack_ bv ++ popped)) /\
  (forall y nc, In y popped -> In nc (GetNeighborCoords kN y) -> color_at p nc = kEmpty ->
                In nc (BoardVisitor.stack_ bv ++ popped)) /\
  bits_mark fb (touched kN p popped kBlack) (touched kN p popped kWhite).

(** The same while the neighbors of the popped point [x] are walked;
    [pre] are the neighbors seen. *)
Definition visit_inv (kN : nat) (p : Position) (c : Coord) (old : Coord -> Prop)
           (x : Coord) (popped pre : list Coord) (bv : BoardVisitor.t) (fb : Z) : Prop :=
  In c (BoardVisitor.stack_ bv ++ x :: popped) /\
  sized kN bv /\
  NoDup (BoardVisitor.stack_ bv ++ x :: popped) /\
  (forall y, In y (BoardVisitor.stack_ bv ++ x :: popped) -> same_area kN p c y) /\
  (forall y, tagged bv y <-> old y \/ In y (BoardVisitor.stack_ bv ++ x :: popped)) /\
  (forall y nc, In y popped -> In nc (GetNeighborCoords kN y) -> color_at p nc = kEmpty ->
                In nc (BoardVisitor.stack_ bv ++ x :: popped)) /\
  (forall nc, In nc pre -> color_at p nc = kEmpty ->
              In nc (BoardVisitor.stack_ bv ++ x :: popped)) /\
  bits_mark fb (touched kN p popped kBlack \/ exists nc, In nc pre /\ color_at p nc = kBlack)
               (touched kN p popped kWhite \/ exists nc, In nc pre /\ color_at p nc = kWhite).
(** What an area of [pts] points is worth: its size for Black when only
    Black stones border it, the opposite for White, nothing when both or
    none do. *)
Definition area_value (kN : nat) (p : Position) (pts : list Coord) (value : Z) : Prop :=
  (touched kN p pts kBlack /\ ~ touched kN p pts kWhite -> value = Z.of_nat (length pts)) /\
  (touched kN p pts kWhite /\ ~ touched kN p pts kBlack ->
   value = (- Z.of_nat (length pts))%Z) /\
  ((touched kN p pts kBlack <-> touched kN p pts kWhite) -> value = 0%Z).

(** [pts] is a whole area: with a point, exactly the points of its area. *)
Definition whole_area (kN : nat) (p : Position) (pts : list Coord) : Prop :=
  forall x y, In x pts -> (In y pts <-> same_area kN p x y).

Definition sum_values (values : list Z) : Z := fold_right Z.add 0%Z values.

(** The stones' share of the score: over the points [cs] in order, the
    size recorded for the group of each stone, counted once per group
    identifier ([seen] are the identifiers met before), added for Black
    and subtracted for White. *)
Fixpoint stones_score (p : Position) (seen : list GroupId) (cs : list Coord) : Z :=
  match cs with
  | [] => 0
  | c :: rest =>
      let s := stone_at p c in
      if Stone.empty s then stones_score p seen rest
      else if existsb (Nat.eqb (Stone.group_id s)) seen then stones_score p seen rest
      else ((if color_eqb (Stone.color s) kBlack
             then size (group_at p (Stone.group_id s))
             else - size (group_at p (Stone.group_id s)))
            + stones_score p (Stone.group_id s :: seen) rest)%Z
  end.

(** The state of [CalculateScore] between two points of the board:
    [done] are the points looked at, [areas] the empty areas flooded, in
    order, [values] what each was worth, [seen] the group identifiers
    counted. *)
Definition score_inv (kN kMaxNumGroups : nat) (p : Position) (done : list Coord)
           (areas : list (list Coord)) (values : list Z) (seen : list GroupId)
           (v : Scratch) : Prop :=
  sized kN (board_visitor_ v) /\
  BoardVisitor.Done (board_visitor_ v) = true /\
  (forall y, tagged (board_visitor_ v) y <-> In y (concat areas)) /\
  NoDup (concat areas) /\
  (forall y, In y (concat areas) -> on_board kN y /\ color_at p y = kEmpty) /\
  Forall (whole_area kN p) areas /\
  Forall2 (area_value kN p) areas values /\
  (forall y, In y done -> color_at p y = kEmpty -> In y (concat areas)) /\
  length (GroupVisitor.visited_ (group_visitor_ v)) = kMaxNumGroups /\
  (forall id, id < kMaxNumGroups ->
     (nth id (GroupVisitor.visited_ (group_visitor_ v)) 0
      =? GroupVisitor.epoch_ (group_visitor_ v))%Z = existsb (Nat.eqb id) seen).

(** * Chains: vocabulary *)

(** The chain of a point [c] for the color [k]: the points joined to [c]
    by a path of neighbors that all have color [k]. *)
Inductive same_chain (kN : nat) (p : Position) (k : Color) (c : Coord) : Coord -> Prop :=
| chain_start : same_chain kN p k c c
| chain_step (x nc : Coord) :
    same_chain kN p k c x -> In nc (GetNeighborCoords kN x) -> color_at p nc = k ->
    same_chain kN p k c nc.

(** The state of the flood fill of [RemoveGroup] between two iterations:
    [p0] is the position before the call, [c0] the stone it was called on,
    [rc] its color, [popped] the stones taken off so far. *)
Definition chain_inv (kN : nat) (p0 : Position) (rc : Color) (c0 : Coord)
           (popped : list Coord) (p : Position) (bv : BoardVisitor.t) : Prop :=
  In c0 (BoardVisitor.stack_ bv ++ popped) /\
  sized kN bv /\
  tags_bounded (BoardVisitor.epoch_ bv) (BoardVisitor.visited_ bv) /\
  NoDup (BoardVisitor.stack_ bv ++ popped) /\
  (forall y, In y (BoardVisitor.stack_ bv ++ popped) -> same_chain kN p0 rc c0 y) /\
  (forall y, tagged bv y <-> In y (BoardVisitor.stack_ bv ++ popped)) /\
  (forall y, In y popped -> color_at p y = kEmpty) /\
  (forall y, ~ In y popped -> stone_at p y = stone_at p0 y) /\
  (forall y nc, In y popped -> In nc (GetNeighborCoords kN y) -> color_at p0 nc = rc ->
                In nc (BoardVisitor.stack_ bv ++ popped)).

(** The same while the neighbors of the stone [x] just taken off are
    walked; [pre] are the neighbors seen. *)
Definition chain_visit_inv (kN : nat) (p0 : Position) (rc : Color) (c0 : Coord)
           (x : Coord) (popped pre : list Coord) (p : Position) (bv : BoardVisitor.t)
  : Prop :=
  In c0 (BoardVisitor.stack_ bv ++ x :: popped) /\
  sized kN bv /\
  tags_bounded (BoardVisitor.epoch_ bv) (BoardVisitor.visited_ bv) /\
  NoDup (BoardVisitor.stack_ bv ++ x :: popped) /\
  (forall y, In y (BoardVisitor.stack_ bv ++ x :: popped) -> same_chain kN p0 rc c0 y) /\
  (forall y, tagged bv y <-> In y (BoardVisitor.stack_ bv ++ x :: popped)) /\
  (forall y, In y (x :: popped) -> color_at p y = kEmpty) /\
  (forall y, ~ In y (x :: popped) -> stone_at p y = stone_at p0 y) /\
  (forall y nc, In y popped -> In nc (GetNeighborCoords kN y) -> color_at p0 nc = rc ->
                In nc (BoardVisitor.stack_ bv ++ x :: popped)) /\
  (forall nc, In nc pre -> color_at p0 nc = rc ->
              In nc (BoardVisitor.stack_ bv ++ x :: popped)).

(** A board visitor between two traversals that has begun fewer than 255
    of them. *)
Definition visitor_fresh (kN : nat) (bv : BoardVisitor.t) : Prop :=
  BoardVisitor.Done bv = true /\ sized kN bv /\
  tags_bounded (BoardVisitor.epoch_ bv) (BoardVisitor.visited_ bv) /\
  BoardVisitor.epoch_ bv <> 255%Z.
(** A liberty of the chain of [c]: an empty neighbor of one of its
    stones. *)
Definition chain_liberty (kN : nat) (p : Position) (k : Color) (c y : Coord) : Prop :=
  color_at p y = kEmpty /\
  exists z, same_chain kN p k c z /\ In y (GetNeighborCoords kN z).

(** The state of the flood fill of [MergeGroup]: [p0] is the position
    before the call, [c0] the stone it was called on, [s] that stone and
    [k] its color; [stones] and [libs] are the stones and the empty points
    counted so far, [closed] the stones whose neighbors have all been
    walked. *)
Definition merge_inv (kN : nat) (p0 : Position) (k : Color) (c0 : Coord) (s : Stone.t)
           (closed stones libs : list Coord) (p : Position) (bv : BoardVisitor.t) : Prop :=
  In c0 (BoardVisitor.stack_ bv ++ stones ++ libs) /\
  sized kN bv /\
  tags_bounded (BoardVisitor.epoch_ bv) (BoardVisitor.visited_ bv) /\
  NoDup (BoardVisitor.stack_ bv ++ stones ++ libs) /\
  (forall y, In y (BoardVisitor.stack_ bv ++ stones ++ libs) ->
             same_chain kN p0 k c0 y \/ chain_liberty kN p0 k c0 y) /\
  (forall y, In y stones -> color_at p0 y = k) /\
  (forall y, In y libs -> color_at p0 y = kEmpty) /\
  (forall y, tagged bv y <-> In y (BoardVisitor.stack_ bv ++ stones ++ libs)) /\
  (forall y, In y stones -> stone_at p y = s) /\
  (forall y, ~ In y stones -> stone_at p y = stone_at p0 y) /\
  (forall y nc, In y closed -> In nc (GetNeighborCoords kN y) ->
                color_at p0 nc <> OtherColor k ->
                In nc (BoardVisitor.stack_ bv ++ stones ++ libs)) /\
  group_at p (Stone.group_id s)
    = mkGroup (u16 (Z.of_nat (length stones))) (u16 (Z.of_nat (length libs))) /\
  (forall g, g <> Stone.group_id s -> group_at p g = group_at p0 g) /\
  length (GroupPool.slots (groups_ p)) = length (GroupPool.slots (groups_ p0)) /\
  length (stones_ p) = length (stones_ p0).
(** The board [q] is the board [p1] without the chains of the stones
    [seeds], all of color [opp]; [gone] are the points of these chains. *)
Definition removed_rel (kN : nat) (p1 : Position) (opp : Color)
           (seeds gone : list Coord) (q : Position) : Prop :=
  (forall x, In x gone <-> exists nc, In nc seeds /\ same_chain kN p1 opp nc x) /\
  (forall x, In x gone -> color_at q x = kEmpty) /\
  (forall x, ~ In x gone -> color_at q x = color_at p1 x).

(** * Groups and chains: vocabulary *)

(** The group identifier of the stone at a point. *)
Definition id_at (p : Position) (c : Coord) : GroupId := Stone.group_id (stone_at p c).

(** The group identifiers of a position name its chains: the stones next
    to each other of one color share their identifier, the stones that
    share an identifier form one chain, and no identifier in use is on the
    free list of the pool. *)
Definition groups_are_chains (kN : nat) (p : Position) : Prop :=
  length (stones_ p) = kN * kN /\
  NoDup (GroupPool.free_ids (groups_ p)) /\
  (forall g, In g (GroupPool.free_ids (groups_ p)) ->
             g < length (GroupPool.slots (groups_ p))) /\
  (forall x, color_at p x <> kEmpty ->
     id_at p x < length (GroupPool.slots (groups_ p)) /\
     ~ In (id_at p x) (GroupPool.free_ids (groups_ p))) /\
  (forall x y, color_at p x <> kEmpty -> In y (GetNeighborCoords kN x) ->
     color_at p y = color_at p x -> id_at p y = id_at p x) /\
  (forall x y, color_at p x <> kEmpty -> color_at p y <> kEmpty ->
     id_at p x = id_at p y -> same_chain kN p (color_at p x) x y).

(** * Group counters: vocabulary *)

(** The stones of a group: the points of the board whose stone carries
    the identifier. *)
Definition group_stones (kN : nat) (p : Position) (g : GroupId) : list Coord :=
  filter (fun x => negb (Stone.empty (stone_at p x)) && (Stone.group_id (stone_at p x) =? g))
         (seq 0 (kN * kN)).

(** The liberties of a group: the empty points next to one of its
    stones. *)
Definition group_liberties (kN : nat) (p : Position) (g : GroupId) : list Coord :=
  filter (fun y => Stone.empty (stone_at p y) && HasNeighboringGroup kN p y g)
         (seq 0 (kN * kN)).

(** The record of every group on the board holds the number of its stones
    and the number of its liberties. *)
Definition counts_exact (kN : nat) (p : Position) : Prop :=
  forall x, color_at p x <> kEmpty ->
    group_at p (id_at p x)
      = mkGroup (Z.of_nat (length (group_stones kN p (id_at p x))))
                (Z.of_nat (length (group_liberties kN p (id_at p x)))).

(** [n] increments of a 16-bit liberty counter. *)
Definition bump_liberties (n : nat) (g : Group) : Group :=
  mkGroup (size g) (Nat.iter n (fun z => u16 (z + 1)) (num_liberties g)).

(** What the scan of the neighbors of the new stone has done to the pool
    and which empty points it has listed, the neighbors [seen] walked. *)
Definition scan_counted (p : Position) (seen : list Coord) (st : NeighborScan) : Prop :=
  length (GroupPool.slots (scan_groups st)) = length (GroupPool.slots (groups_ p)) /\
  (forall g, ~ In g (opponent_groups st) -> GroupPool.get (scan_groups st) g = group_at p g) /\
  (forall g, In g (opponent_groups st) -> g < length (GroupPool.slots (groups_ p)) ->
     GroupPool.get (scan_groups st) g
       = mkGroup (size (group_at p g)) (u16 (num_liberties (group_at p g) - 1))) /\
  liberties st = filter (fun n => Stone.empty (stone_at p n)) seen.

(** The walk over the neighbors [seen] of a stone taken off the board,
    started on the position [p0] with an empty [other_groups]: each
    opponent group met has one liberty more. *)
Definition neighbors_counted (oc : Color) (p0 : Position) (seen : list Coord)
           (st : Position * BoardVisitor.t * list GroupId) : Prop :=
  let p := fst (fst st) in
  let og := snd st in
  stones_ p = stones_ p0 /\
  length (GroupPool.slots (groups_ p)) = length (GroupPool.slots (groups_ p0)) /\
  (forall g, In g og <->
     exists n, In n seen /\ Stone.color (stone_at p0 n) = oc /\
               Stone.group_id (stone_at p0 n) = g) /\
  (forall g, ~ In g og -> group_at p g = group_at p0 g) /\
  (forall g, In g og -> g < length (GroupPool.slots (groups_ p0)) ->
     group_at p g = bump_liberties 1 (group_at p0 g)).

(** The counters during [RemoveGroup]: a group other than the removed one
    has won one liberty for each stone taken off next to it. *)
Definition removal_counted (kN : nat) (p0 : Position) (r : GroupId) (popped : list Coord)
           (p : Position) : Prop :=
  length (GroupPool.slots (groups_ p)) = length (GroupPool.slots (groups_ p0)) /\
  forall g, g <> r -> g < length (GroupPool.slots (groups_ p0)) ->
    group_at p g
      = bump_liberties (length (filter (fun x => HasNeighboringGroup kN p0 x g) popped))
                       (group_at p0 g).

(** No group on the board is without a liberty. *)
Definition no_dead_group (kN : nat) (p : Position) : Prop :=
  forall x, color_at p x <> kEmpty -> 1 <= length (group_liberties kN p (id_at p x)).

(** * Captures: vocabulary *)

(** The number of stones on the board. *)
Definition stones_on_board (kN : nat) (p : Position) : nat :=
  length (filter (fun x => negb (Stone.empty (stone_at p x))) (seq 0 (kN * kN))).

(** The stones taken by both players. *)
Definition total_captures (p : Position) : Z :=
  (fst (num_captures_ p) + snd (num_captures_ p))%Z.

(** The moves of a game that put a stone on the board. *)
Definition stone_moves (kN : nat) (moves : list (Coord * Color)) : nat :=
  length (filter (fun m => negb (fst m =? kPass kN)) moves).

(** * Properties *)

(** ** Basic facts *)

Lemma color_eqb_eq (a b : Color) : color_eqb a b = true <-> a = b.
Proof. destruct a, b; simpl; split; congruence. Qed.

Lemma color_eqb_neq (a b : Color) : color_eqb a b = false <-> a <> b.
Proof. destruct a, b; simpl; split; congruence. Qed.

Lemma color_eqb_refl (a : Color) : color_eqb a a = true.
Proof. now destruct a. Qed.

Lemma OtherColor_neq (k : Color) : k <> kEmpty -> OtherColor k <> k.
Proof. destruct k; simpl; congruence. Qed.

Lemma OtherColor_not_empty (k : Color) : k <> kEmpty -> OtherColor k <> kEmpty.
Proof. destruct k; simpl; congruence. Qed.

Lemma empty_color (s : Stone.t) : Stone.empty s = true <-> Stone.color s = kEmpty.
Proof. unfold Stone.empty. apply color_eqb_eq. Qed.

Lemma bind_ok {A B : Type} (m : result A) (k : A -> result B) (b : B) :
  bind m k = Ok b -> exists a, m = Ok a /\ k a = Ok b.
Proof. destruct m as [a|e]; simpl; [eauto | discriminate]. Qed.

Lemma assert_ok (b : bool) (u : unit) : assert b = Ok u -> b = true.
Proof. destruct b; simpl; [reflexivity | discriminate]. Qed.

(** Inverts a hypothesis [x <- m ;; k = Ok r]. *)
Ltac bind_inv H :=
  let a := fresh "a" in
  let Hm := fresh "Hm" in
  apply bind_ok in H; destruct H as [a [Hm H]].

Lemma upd_length {A : Type} (i : nat) (x : A) (l : list A) :
  length (upd i x l) = length l.
Proof.
  revert i; induction l as [|h t IH]; intros [|j]; simpl; auto.
Qed.

Lemma nth_upd_same {A : Type} (i : nat) (x d : A) (l : list A) :
  i < length l -> nth i (upd i x l) d = x.
Proof.
  revert i; induction l as [|h t IH]; intros [|j] Hi; simpl in *; try lia; auto.
  apply IH; lia.
Qed.

Lemma nth_upd_other {A : Type} (i j : nat) (x d : A) (l : list A) :
  i <> j -> nth j (upd i x l) d = nth j l d.
Proof.
  revert i j; induction l as [|h t IH]; intros [|i] [|j] Hij; simpl; auto; try congruence.
Qed.

(** ** The neighbor table holds board points only *)

Section NeighborTable.

Variable kN : nat.

Lemma coord_of_on_board (row col : nat) :
  row < kN -> col < kN -> on_board kN (coord_of kN row col).
Proof.
  unfold on_board, coord_of. intros Hr Hc.
  apply Nat.lt_le_trans with (row * kN + kN); [lia|].
  replace (row * kN + kN) with (S row * kN) by (simpl; lia).
  apply Nat.mul_le_mono_r. lia.
Qed.

Lemma neighbors_of_on_board (row col : nat) :
  row < kN -> col < kN ->
  Forall (on_board kN) (neighbors_of kN row col).
Proof.
  intros Hr Hc. apply Forall_forall. intros nc Hin.
  unfold neighbors_of in Hin.
  repeat (apply in_app_or in Hin; destruct Hin as [Hin|Hin]);
    match type of Hin with In _ (if ?b then _ else _) => destruct b eqn:E end;
    simpl in Hin; try contradiction;
    destruct Hin as [<-|[]]; apply Nat.ltb_lt in E;
    apply coord_of_on_board; lia.
Qed.

Lemma kNeighborCoords_on_board :
  Forall (Forall (on_board kN)) (kNeighborCoords kN).
Proof.
  unfold kNeighborCoords. apply Forall_flat_map, Forall_forall.
  intros row Hrow. apply in_seq in Hrow.
  apply Forall_map, Forall_forall. intros col Hcol. apply in_seq in Hcol.
  apply neighbors_of_on_board; lia.
Qed.

Lemma GetNeighborCoords_on_board (c nc : Coord) :
  In nc (GetNeighborCoords kN c) -> on_board kN nc.
Proof.
  unfold GetNeighborCoords. intros Hin.
  destruct (Nat.lt_ge_cases c (length (kNeighborCoords kN))) as [Hlt|Hge].
  - pose proof kNeighborCoords_on_board as HF.
    rewrite Forall_forall in HF.
    specialize (HF _ (nth_In _ [] Hlt)).
    rewrite Forall_forall in HF. auto.
  - rewrite nth_overflow in Hin by assumption. contradiction.
Qed.

Lemma board_coords_on_board : Forall (on_board kN) (board_coords kN).
Proof.
  unfold board_coords. apply Forall_flat_map, Forall_forall.
  intros row Hrow. apply in_seq in Hrow.
  apply Forall_map, Forall_forall. intros col Hcol. apply in_seq in Hcol.
  apply coord_of_on_board; lia.
Qed.

Lemma on_board_not_pass (c : Coord) : on_board kN c -> c <> kPass kN.
Proof. unfold on_board, kPass. lia. Qed.

Lemma on_board_not_invalid (c : Coord) : on_board kN c -> c <> kInvalid kN.
Proof. unfold on_board, kInvalid. lia. Qed.

End NeighborTable.

(** ** What placing a stone leaves alone

    [AddStoneToBoard] writes [stones_], [groups_], [num_captures_] and [ko_];
    the player to move, the counters and the komi are the business of
    [PlayMove]. *)

Lemma same_frame_refl (p : Position) : same_frame p p.
Proof. repeat split. Qed.

Lemma same_frame_trans (p q r : Position) :
  same_frame p q -> same_frame q r -> same_frame p r.
Proof. unfold same_frame. intuition congruence. Qed.

Lemma same_frame_set_stone p c s : same_frame p (set_stone p c s).
Proof. repeat split. Qed.

Lemma same_frame_set_group p id g : same_frame p (set_group p id g).
Proof. repeat split. Qed.

Lemma same_frame_with_groups p g : same_frame p (with_groups p g).
Proof. repeat split. Qed.

Lemma same_frame_with_num_captures p nc : same_frame p (with_num_captures p nc).
Proof. repeat split. Qed.

Lemma same_frame_with_ko p k : same_frame p (with_ko p k).
Proof. repeat split. Qed.

Create HintDb frame.
#[local] Hint Resolve same_frame_refl same_frame_set_stone same_frame_set_group
  same_frame_with_groups same_frame_with_num_captures same_frame_with_ko : frame.

Section Frame.

Variable kN : nat.
Variable kMaxNumGroups : nat.

Lemma MergeGroup_loop_frame fuel s opp : forall p bv p' bv',
  MergeGroup_loop kN fuel s opp p bv = Ok (p', bv') -> same_frame p p'.
Proof.
  induction fuel as [|fuel IH]; intros p bv p' bv' H; simpl in H.
  - destruct (BoardVisitor.Done bv); inversion H; subst; auto with frame.
  - destruct (BoardVisitor.Done bv); [inversion H; subst; auto with frame|].
    bind_inv H. destruct a as [c bv1].
    destruct (color_eqb (Stone.color (stone_at p c)) kEmpty).
    + apply IH in H. eapply same_frame_trans; [|exact H]. auto with frame.
    + bind_inv H. apply IH in H.
      eapply same_frame_trans; [|exact H].
      eapply same_frame_trans; [apply same_frame_set_group | apply same_frame_set_stone].
Qed.

Lemma MergeGroup_frame p v c p' v' :
  MergeGroup kN p v c = Ok (p', v') -> same_frame p p'.
Proof.
  unfold MergeGroup. intros H. bind_inv H. bind_inv H.
  destruct a0 as [q bv]. inversion H; subst.
  apply MergeGroup_loop_frame in Hm0.
  eapply same_frame_trans; [|exact Hm0]. auto with frame.
Qed.

Lemma RemoveGroup_neighbors_frame rc oc ncs : forall p bv og p' bv' og',
  fold_left (RemoveGroup_neighbor rc oc) ncs (p, bv, og) = (p', bv', og') ->
  same_frame p p'.
Proof.
  induction ncs as [|nc ncs IH]; intros p bv og p' bv' og' H; cbn [fold_left] in H.
  - inversion H; subst; auto with frame.
  - destruct (RemoveGroup_neighbor rc oc (p, bv, og) nc) as [[q bq] oq] eqn:E.
    apply IH in H. eapply same_frame_trans; [|exact H].
    unfold RemoveGroup_neighbor in E.
    destruct (color_eqb _ oc).
    + destruct (tiny_insert _ og) as [fresh og1].
      destruct fresh; inversion E; subst; auto with frame.
    + destruct (color_eqb _ rc); inversion E; subst; auto with frame.
Qed.

Lemma RemoveGroup_loop_frame fuel rc oc id : forall p bv p' bv',
  RemoveGroup_loop kN fuel rc oc id p bv = Ok (p', bv') -> same_frame p p'.
Proof.
  induction fuel as [|fuel IH]; intros p bv p' bv' H; simpl in H.
  - destruct (BoardVisitor.Done bv); inversion H; subst; auto with frame.
  - destruct (BoardVisitor.Done bv); [inversion H; subst; auto with frame|].
    bind_inv H. destruct a as [c bv1]. bind_inv H.
    destruct (fold_left _ _ _) as [[q bq] oq] eqn:E.
    apply RemoveGroup_neighbors_frame in E. apply IH in H.
    eapply same_frame_trans; [|exact H].
    eapply same_frame_trans; [|exact E]. auto with frame.
Qed.

Lemma RemoveGroup_frame p v c p' v' :
  RemoveGroup kN kMaxNumGroups p v c = Ok (p', v') -> same_frame p p'.
Proof.
  unfold RemoveGroup. intros H. bind_inv H. bind_inv H.
  destruct a0 as [q bv]. inversion H; subst.
  eapply RemoveGroup_loop_frame; eauto.
Qed.

Lemma place_stone_frame p v c color libs ngs p' v' :
  place_stone kN p v c color libs ngs = Ok (p', v') -> same_frame p p'.
Proof.
  unfold place_stone. intros H.
  destruct ngs as [|id [|id2 others]].
  - bind_inv H. destruct a as [i pool]. inversion H; subst.
    eapply same_frame_trans; [apply same_frame_with_groups | apply same_frame_set_stone].
  - inversion H; subst.
    eapply same_frame_trans; [apply same_frame_set_group | apply same_frame_set_stone].
  - bind_inv H. destruct a as [q w]. inversion H; subst.
    apply MergeGroup_frame in Hm.
    eapply same_frame_trans; [apply same_frame_set_stone|].
    eapply same_frame_trans; [exact Hm|]. auto with frame.
Qed.

Lemma remove_captured_frame color captured : forall p v p' v',
  remove_captured kN kMaxNumGroups p v color captured = Ok (p', v') ->
  same_frame p p'.
Proof.
  induction captured as [|[id nc] rest IH]; intros p v p' v' H; simpl in H.
  - inversion H; subst; auto with frame.
  - bind_inv H. destruct a as [q w]. apply RemoveGroup_frame in Hm.
    apply IH in H. eapply same_frame_trans; [|exact H].
    eapply same_frame_trans; [|exact Hm]. auto with frame.
Qed.

Lemma update_ko_frame p captured pk oc :
  same_frame p (update_ko kN p captured pk oc).
Proof.
  unfold update_ko. destruct captured as [|[id nc] [|x l]]; auto with frame.
  destruct (_ && _); auto with frame.
Qed.

Lemma AddStoneToBoard_frame p v c color p' v' :
  AddStoneToBoard kN kMaxNumGroups p v c color = Ok (p', v') -> same_frame p p'.
Proof.
  unfold AddStoneToBoard. intros H.
  bind_inv H. destruct a as [q w]. bind_inv H. destruct a as [r x].
  inversion H; subst.
  apply place_stone_frame in Hm. apply remove_captured_frame in Hm0.
  eapply same_frame_trans; [apply same_frame_with_groups|].
  eapply same_frame_trans; [exact Hm|].
  eapply same_frame_trans; [exact Hm0|]. apply update_ko_frame.
Qed.

End Frame.

(** ** Passing *)

(** C8. [PlayMove(Pass, color)], for every position and every color
    argument: the result does not depend on the color; the stones, the
    group pool, the capture counts, the komi (and the shared visitors) are
    unchanged; ko becomes Invalid, [n] and [num_consecutive_passes] grow by
    one, [to_play] flips and [previous_move] is Pass. *)
Theorem pass_move_frame_effect (kN kMaxNumGroups : nat) (p : Position) (v : Scratch)
        (color : Color) :
  exists p',
    PlayMove kN kMaxNumGroups p v (kPass kN) color = Ok (p', v) /\
    PlayMove kN kMaxNumGroups p v (kPass kN) kEmpty = Ok (p', v) /\
    stones_ p' = stones_ p /\
    groups_ p' = groups_ p /\
    num_captures_ p' = num_captures_ p /\
    komi_ p' = komi_ p /\
    ko_ p' = kInvalid kN /\
    n_ p' = (n_ p + 1)%Z /\
    num_consecutive_passes_ p' = (num_consecutive_passes_ p + 1)%Z /\
    to_play_ p' = OtherColor (to_play_ p) /\
    previous_move_ p' = kPass kN.
Proof.
  exists (PassMove kN p). unfold PlayMove.
  rewrite Nat.eqb_refl. repeat split.
Qed.

(** ** Playing out of turn *)

Lemma PlayMove_stone_inv kN kMaxNumGroups p v c color p' v' :
  c <> kPass kN ->
  PlayMove kN kMaxNumGroups p v c color = Ok (p', v') ->
  let q := if color_eqb color kEmpty then p else with_to_play p color in
  IsMoveLegal kN q c = true /\
  exists r,
    AddStoneToBoard kN kMaxNumGroups q v c (mover p color) = Ok (r, v') /\
    p' = mkPosition (stones_ r) (groups_ r) (OtherColor (to_play_ r)) c (ko_ r)
                    (num_captures_ r) (n_ r + 1)%Z 0%Z (komi_ r).
Proof.
  intros Hc H. unfold PlayMove in H.
  apply Nat.eqb_neq in Hc. rewrite Hc in H.
  unfold mover. destruct (color_eqb color kEmpty); simpl;
    bind_inv H; apply assert_ok in Hm; bind_inv H; destruct a0 as [r w];
    inversion H; subst; (split; [assumption | exists r; split; [assumption | reflexivity]]).
Qed.

(** C10. For a non-pass coordinate [c] and a color [k] that is not Empty,
    [PlayMove(c, k)] is [PlayMove(c)] run on the position whose [to_play]
    has been set to [k]; the legality test it requires is the one of that
    position (so the suicide test is made for [k]), and on return [to_play]
    is the opposite color of [k]. *)
Theorem play_move_color_override (kN kMaxNumGroups : nat) (p : Position) (v : Scratch)
        (c : Coord) (k : Color) :
  c <> kPass kN -> k <> kEmpty ->
  PlayMove kN kMaxNumGroups p v c k
    = PlayMove kN kMaxNumGroups (with_to_play p k) v c kEmpty /\
  (forall p' v', PlayMove kN kMaxNumGroups p v c k = Ok (p', v') ->
     IsMoveLegal kN (with_to_play p k) c = true /\
     IsMoveSuicidal kN (with_to_play p k) c k = false /\
     to_play_ p' = OtherColor k).
Proof.
  intros Hc Hk. split.
  - unfold PlayMove. apply Nat.eqb_neq in Hc. rewrite Hc.
    apply color_eqb_neq in Hk. rewrite Hk. simpl. reflexivity.
  - intros p' v' H. apply PlayMove_stone_inv in H; [|assumption].
    apply color_eqb_neq in Hk. unfold mover in H. rewrite Hk in H. simpl in H.
    destruct H as [Hlegal [r [Hadd ->]]]. simpl.
    split; [assumption|]. split.
    + unfold IsMoveLegal in Hlegal. cbn [to_play_ with_to_play] in Hlegal.
      destruct (IsMoveSuicidal kN (with_to_play p k) c k); [|reflexivity].
      apply Nat.eqb_neq in Hc. rewrite Hc in Hlegal.
      destruct (negb (Stone.empty (stone_at (with_to_play p k) c))); [discriminate|].
      destruct (c =? ko_ (with_to_play p k)); discriminate.
    + apply AddStoneToBoard_frame in Hadd. destruct Hadd as [-> _]. reflexivity.
Qed.

(** ** Counting passes *)

Lemma play_moves_app kN kMaxNumGroups moves1 : forall p v moves2,
  play_moves kN kMaxNumGroups p v (moves1 ++ moves2)
  = ('(q, w) <- play_moves kN kMaxNumGroups p v moves1 ;;
     play_moves kN kMaxNumGroups q w moves2).
Proof.
  induction moves1 as [|[c color] rest IH]; intros p v moves2; simpl.
  - reflexivity.
  - destruct (PlayMove kN kMaxNumGroups p v c color) as [[q w]|e]; simpl; auto.
Qed.

Lemma PlayMove_passes kN kMaxNumGroups p v c color p' v' :
  PlayMove kN kMaxNumGroups p v c color = Ok (p', v') ->
  num_consecutive_passes_ p' =
    if c =? kPass kN then (num_consecutive_passes_ p + 1)%Z else 0%Z.
Proof.
  intros H. destruct (c =? kPass kN) eqn:E.
  - unfold PlayMove in H. rewrite E in H. inversion H; subst. reflexivity.
  - apply Nat.eqb_neq in E. apply PlayMove_stone_inv in H; [|assumption].
    destruct H as [_ [r [_ ->]]]. reflexivity.
Qed.

Lemma trailing_passes_two kN moves :
  2 <= trailing_passes kN moves ->
  exists front k1 k2, moves = front ++ [(kPass kN, k1); (kPass kN, k2)].
Proof.
  unfold trailing_passes. intros H.
  destruct (rev moves) as [|[c2 k2] [|[c1 k1] back]] eqn:E; simpl in H.
  - lia.
  - destruct (c2 =? kPass kN); lia.
  - destruct (c2 =? kPass kN) eqn:E2; [|lia].
    destruct (c1 =? kPass kN) eqn:E1; [|lia].
    apply Nat.eqb_eq in E1, E2. subst.
    exists (rev back), k1, k2.
    rewrite <- (rev_involutive moves), E. simpl.
    rewrite <- app_assoc. reflexivity.
Qed.

(** C7, amended.  From the empty board, after every sequence of
    [PlayMove] calls that the code accepts, [num_consecutive_passes] is the
    length of the run of passes that ends the sequence.  It is not capped:
    it is 0, 1 or 2 exactly as long as that run has at most two passes, and
    when it is 2 or more the last two moves were both passes. *)
Theorem passes_count_trailing_run (kN kMaxNumGroups : nat) (komi : Q) (to_play : Color)
        (n : Z) (v : Scratch) (moves : list (Coord * Color)) (p : Position) (v' : Scratch) :
  play_moves kN kMaxNumGroups (new_position kN kMaxNumGroups komi to_play n) v moves
    = Ok (p, v') ->
  num_consecutive_passes_ p = Z.of_nat (trailing_passes kN moves) /\
  ((0 <= num_consecutive_passes_ p <= 2)%Z <-> trailing_passes kN moves <= 2) /\
  ((2 <= num_consecutive_passes_ p)%Z ->
   exists front k1 k2, moves = front ++ [(kPass kN, k1); (kPass kN, k2)]).
Proof.
  intros H.
  assert (Hcount : num_consecutive_passes_ p = Z.of_nat (trailing_passes kN moves)).
  { revert p v' H. induction moves as [|[c color] front IH] using rev_ind; intros p v' H.
    - simpl in H. inversion H; subst. reflexivity.
    - rewrite play_moves_app in H. bind_inv H. destruct a as [q w].
      simpl in H. bind_inv H. destruct a as [r x]. inversion H; subst.
      apply PlayMove_passes in Hm0. apply IH in Hm.
      unfold trailing_passes in *. rewrite rev_app_distr. simpl.
      rewrite Hm0. destruct (c =? kPass kN); [rewrite Hm|]; lia. }
  split; [assumption|]. rewrite Hcount. split; [lia|].
  intros H2. apply trailing_passes_two. lia.
Qed.

Lemma passes_count_trailing_run_witness :
  exists p v',
    Game9.play [Game9.pass; Game9.at_ 2 2; Game9.pass; Game9.pass] = Ok (p, v') /\
    num_consecutive_passes_ p = 2%Z.
Proof.
  destruct (Game9.play [Game9.pass; Game9.at_ 2 2; Game9.pass; Game9.pass])
    as [[p v']|e] eqn:E; [|vm_compute in E; discriminate].
  exists p, v'. split; [reflexivity|].
  destruct (passes_count_trailing_run Game9.kN Game9.kMaxNumGroups _ _ _ _ _ E) as [-> _].
  reflexivity.
Defined.

(** C7 as stated fails: three passes in a row from the empty board are
    accepted and leave [num_consecutive_passes] at 3. *)
Lemma passes_not_capped_at_two :
  exists p v',
    Game9.play [Game9.pass; Game9.pass; Game9.pass] = Ok (p, v') /\
    ~ (0 <= num_consecutive_passes_ p <= 2)%Z.
Proof.
  eexists. eexists. split; [vm_compute; reflexivity|]. simpl. lia.
Qed.

(** ** Legality *)

Lemma other_or_same (a k : Color) :
  k <> kEmpty -> a <> kEmpty -> a <> OtherColor k -> a = k.
Proof. destruct a, k; simpl; congruence. Qed.

Lemma IsMoveSuicidal_loop_false p k (Hk : k <> kEmpty) : forall ncs,
  IsMoveSuicidal_loop p (OtherColor k) ncs = false <->
  exists nc, In nc ncs /\
    let s := stone_at p nc in
    (Stone.color s = kEmpty \/
     (Stone.color s = OtherColor k /\ num_liberties (group_at p (Stone.group_id s)) = 1%Z) \/
     (Stone.color s = k /\ (1 < num_liberties (group_at p (Stone.group_id s)))%Z)).
Proof.
  induction ncs as [|nc rest IH]; simpl.
  - split; [discriminate | intros [nc [[] _]]].
  - destruct (Stone.empty (stone_at p nc)) eqn:Ee.
    { split; [|reflexivity]. intros _. exists nc. split; [now left|].
      left. now apply empty_color. }
    assert (Hne : Stone.color (stone_at p nc) <> kEmpty).
    { intros Hc. apply empty_color in Hc. congruence. }
    destruct (color_eqb (Stone.color (stone_at p nc)) (OtherColor k)) eqn:Eo.
    + apply color_eqb_eq in Eo.
      destruct (num_liberties (group_at p (Stone.group_id (stone_at p nc))) =? 1)%Z eqn:E1.
      * split; [|reflexivity]. intros _. exists nc. split; [now left|].
        right; left. split; [assumption|]. now apply Z.eqb_eq.
      * rewrite IH. apply Z.eqb_neq in E1.
        split; intros [x [Hin Hx]].
        -- exists x. split; [now right | exact Hx].
        -- destruct Hin as [<-|Hin]; [|exists x; split; assumption].
           exfalso. simpl in Hx. destruct Hx as [Hx|[[_ Hx]|[Hx _]]];
             [congruence | congruence |].
           rewrite Hx in Eo. symmetry in Eo. revert Eo. now apply OtherColor_neq.
    + apply color_eqb_neq in Eo.
      destruct (1 <? num_liberties (group_at p (Stone.group_id (stone_at p nc))))%Z eqn:E1.
      * split; [|reflexivity]. intros _. exists nc. split; [now left|].
        right; right. split; [now apply other_or_same|]. now apply Z.ltb_lt.
      * rewrite IH. apply Z.ltb_ge in E1.
        split; intros [x [Hin Hx]].
        -- exists x. split; [now right | exact Hx].
        -- destruct Hin as [<-|Hin]; [|exists x; split; assumption].
           exfalso. simpl in Hx. destruct Hx as [Hx|[[Hx _]|[_ Hx]]];
             [congruence | congruence | lia].
Qed.

Lemma IsMoveSuicidal_false kN p c k :
  k <> kEmpty ->
  (IsMoveSuicidal kN p c k = false <-> not_suicidal kN p c k).
Proof.
  intros Hk. unfold IsMoveSuicidal, not_suicidal.
  now apply IsMoveSuicidal_loop_false.
Qed.

(** C2. For every position whose player to move is Black or White and for
    every coordinate [c]: [IsMoveLegal(c)] is true exactly when [c] is Pass,
    or the cell at [c] is empty, [c] is not the ko point and the move is not
    suicidal for [to_play]; and [IsMoveSuicidal(c, k)] is false exactly when
    some neighbor of [c] is empty, or lies in an opposite-color group with
    exactly one liberty, or in a same-color group with more than one. *)
Theorem is_move_legal_iff (kN : nat) (p : Position) (c : Coord) :
  to_play_ p <> kEmpty ->
  (IsMoveLegal kN p c = true <->
     c = kPass kN \/
     (Stone.empty (stone_at p c) = true /\ c <> ko_ p /\
      not_suicidal kN p c (to_play_ p))) /\
  (forall k, k <> kEmpty ->
     (IsMoveSuicidal kN p c k = false <-> not_suicidal kN p c k)).
Proof.
  intros Hk. split; [|intros k; apply IsMoveSuicidal_false].
  rewrite <- (IsMoveSuicidal_false kN p c Hk).
  unfold IsMoveLegal.
  destruct (c =? kPass kN) eqn:Ep.
  { apply Nat.eqb_eq in Ep. split; auto. }
  apply Nat.eqb_neq in Ep.
  destruct (Stone.empty (stone_at p c)) eqn:Ee; simpl.
  2:{ split; [discriminate|]. intros [H|[H _]]; congruence. }
  destruct (c =? ko_ p) eqn:Ek.
  { apply Nat.eqb_eq in Ek. split; [discriminate|]. intros [H|[_ [H _]]]; congruence. }
  apply Nat.eqb_neq in Ek.
  destruct (IsMoveSuicidal kN p c (to_play_ p)) eqn:Es.
  - split; [discriminate|]. intros [H|[_ [_ H]]]; congruence.
  - split; auto.
Qed.

Lemma is_move_legal_iff_witness :
  IsMoveLegal Game9.kN Game9.start 40 = true /\
  not_suicidal Game9.kN Game9.start 40 kBlack.
Proof.
  assert (Hk : to_play_ Game9.start <> kEmpty) by (simpl; discriminate).
  destruct (is_move_legal_iff Game9.kN Game9.start 40 Hk) as [Hlegal Hsui].
  split.
  - reflexivity.
  - apply Hsui; [discriminate | reflexivity].
Defined.

(** ** Ko shapes *)

Lemma IsKoish_loop_color p k (Hk : k <> kEmpty) : forall ncs k0,
  IsKoish_loop p ncs k0 = k <->
  (k0 = kEmpty /\ ncs <> [] \/ k0 = k) /\
  (forall nc, In nc ncs -> Stone.color (stone_at p nc) = k).
Proof.
  induction ncs as [|nc rest IH]; intros k0; simpl.
  - split.
    + intros ->. split; [now right | intros nc []].
    + intros [[[H0 Hne]|H0] _]; congruence.
  - destruct (Stone.empty (stone_at p nc)) eqn:Ee.
    { apply empty_color in Ee. split; [intros H; congruence|].
      intros [_ Hall]. specialize (Hall nc (or_introl eq_refl)). congruence. }
    assert (Hne : Stone.color (stone_at p nc) <> kEmpty).
    { intros Hc. apply empty_color in Hc. congruence. }
    destruct (color_eqb (Stone.color (stone_at p nc)) k0) eqn:E0; simpl.
    + apply color_eqb_eq in E0. rewrite IH. split.
      * intros [Hk0 Hall]. split.
        -- destruct Hk0 as [[Hk0 _]|Hk0]; [congruence | now right].
        -- intros x [<-|Hin]; [|auto].
           destruct Hk0 as [[Hk0 _]|Hk0]; congruence.
      * intros [Hk0 Hall]. split; [|intros x Hin; apply Hall; now right].
        right. destruct Hk0 as [[Hk0 _]|Hk0]; [congruence | assumption].
    + apply color_eqb_neq in E0.
      destruct (color_eqb k0 kEmpty) eqn:Ek0.
      * apply color_eqb_eq in Ek0. subst k0. rewrite IH. split.
        -- intros [Hk0 Hall].
           assert (Hc : Stone.color (stone_at p nc) = k).
           { destruct Hk0 as [[Hk0 _]|Hk0]; congruence. }
           split; [left; split; [reflexivity | discriminate]|].
           intros x [<-|Hin]; auto.
        -- intros [_ Hall]. split; [right; apply Hall; now left|].
           intros x Hin. apply Hall. now right.
      * apply color_eqb_neq in Ek0. split; [intros H; congruence|].
        intros [Hk0 Hall]. specialize (Hall nc (or_introl eq_refl)).
        destruct Hk0 as [[Hk0 _]|Hk0]; congruence.
Qed.

(** C3, amended.  For a color [k] that is Black or White, [IsKoish(c)]
    returns [k] exactly when [c] is empty, [c] has at least one neighbor on
    the board, and every neighbor of [c] that is on the board carries a
    stone of color [k].  Neighbors beyond the edge are not looked at, so a
    corner or an edge point is koish when its two or three neighbors have
    one color. *)
Theorem is_koish_iff (kN : nat) (p : Position) (c : Coord) (k : Color) :
  k <> kEmpty ->
  (IsKoish kN p c = k <->
   Stone.empty (stone_at p c) = true /\
   GetNeighborCoords kN c <> [] /\
   forall nc, In nc (GetNeighborCoords kN c) -> Stone.color (stone_at p nc) = k).
Proof.
  intros Hk. unfold IsKoish.
  destruct (Stone.empty (stone_at p c)); simpl.
  - rewrite (IsKoish_loop_color p Hk). split.
    + intros [[[_ Hne]|H0] Hall]; [auto | congruence].
    + intros [_ [Hne Hall]]. split; [left; split; [reflexivity | assumption] | assumption].
  - split; [intros H; congruence | intros [H _]; discriminate].
Qed.

Lemma is_koish_iff_witness :
  IsKoish Game9.kN Game9.corner_eye 0 = kBlack.
Proof.
  assert (Hk : kBlack <> kEmpty) by discriminate.
  apply (is_koish_iff Game9.kN Game9.corner_eye 0 Hk).
  split; [reflexivity|]. split; [discriminate|].
  intros nc Hin. vm_compute in Hin.
  destruct Hin as [<-|[<-|[]]]; reflexivity.
Defined.

(** C3 as stated fails: the upper left corner of the 9x9 board has two
    neighbors on the board, and with a Black stone on each of them
    [IsKoish] returns Black, not Empty. *)
Lemma corner_point_is_koish :
  length (GetNeighborCoords Game9.kN 0) < 4 /\
  Stone.empty (stone_at Game9.corner_eye 0) = true /\
  IsKoish Game9.kN Game9.corner_eye 0 = kBlack /\
  IsKoish Game9.kN Game9.corner_eye 0 <> kEmpty.
Proof.
  vm_compute. repeat split; try lia; discriminate.
Qed.

(** ** The epoch of the board visitor *)

Lemma begin_times_succ (kN k : nat) (bv : BoardVisitor.t) :
  begin_times kN (S k) bv = (bv' <- BoardVisitor.Begin kN bv ;; begin_times kN k bv').
Proof. reflexivity. Qed.

Lemma begin_times_without_clear (kN : nat) (tags : list Z) : forall (k : nat) (e : Z),
  (1 <= e <= 255)%Z -> (e + Z.of_nat k <= 256)%Z ->
  begin_times kN k (BoardVisitor.mk [] tags e)
    = Ok (BoardVisitor.mk [] tags (u8 (e + Z.of_nat k))).
Proof.
  induction k as [|k IH]; intros e He Hk; cbn [begin_times].
  - unfold u8. rewrite Z.add_0_r, Z.mod_small by lia. reflexivity.
  - unfold BoardVisitor.Begin. cbn [BoardVisitor.Done BoardVisitor.stack_ assert bind].
    cbn [BoardVisitor.epoch_ BoardVisitor.visited_].
    destruct (Z.eqb_spec e 0) as [E|_]; [lia|].
    destruct k as [|k'].
    + cbn [begin_times]. reflexivity.
    + assert (Hu : u8 (e + 1) = (e + 1)%Z) by (unfold u8; apply Z.mod_small; lia).
      rewrite Hu, IH by lia.
      replace (e + 1 + Z.of_nat (S k'))%Z with (e + Z.of_nat (S (S k')))%Z by lia.
      reflexivity.
Qed.

(** C6 fails on the code.  [Begin] tests the epoch before it increments it,
    so the tags are cleared one traversal late.  On every board, whatever
    the tags of a new visitor hold, its 256th [Begin] (each one called with
    [Done()] true) leaves the epoch at 0 and every tag at 0; in the
    traversal that starts there the first [Visit] of any point returns
    false and pushes nothing. *)
Theorem first_visit_refused_after_wrap (kN : nat) (tags : list Z) :
  exists bv,
    begin_times kN 256 (BoardVisitor.mk [] tags 0) = Ok bv /\
    BoardVisitor.Done bv = true /\
    BoardVisitor.epoch_ bv = 0%Z /\
    forall c, BoardVisitor.Visit c bv = (false, bv).
Proof.
  exists (BoardVisitor.mk [] (repeat 0%Z (kN * kN)) 0).
  split.
  - rewrite (begin_times_succ kN 255).
    change (BoardVisitor.Begin kN (BoardVisitor.mk [] tags 0))
      with (Ok (BoardVisitor.mk [] (repeat 0%Z (kN * kN)) 1)).
    cbn [bind]. rewrite begin_times_without_clear by lia. reflexivity.
  - repeat split. intros c. unfold BoardVisitor.Visit.
    cbn [BoardVisitor.visited_ BoardVisitor.epoch_].
    rewrite nth_repeat. reflexivity.
Qed.

(** One traversal earlier the visitor does what its comment says. *)
Lemma first_visit_accepted_before_wrap :
  exists bv,
    begin_times Game9.kN 255 (BoardVisitor.init Game9.kN) = Ok bv /\
    fst (BoardVisitor.Visit 0 bv) = true /\
    fst (BoardVisitor.Visit 0 (snd (BoardVisitor.Visit 0 bv))) = false.
Proof.
  eexists. split; [vm_compute; reflexivity|]. vm_compute. repeat split.
Qed.

(** ** Captured groups stay in the pool *)

Section Leak.

Variable kN : nat.
Variable kMaxNumGroups : nat.

Lemma RemoveGroup_neighbors_free_ids rc oc ncs : forall p bv og p' bv' og',
  fold_left (RemoveGroup_neighbor rc oc) ncs (p, bv, og) = (p', bv', og') ->
  GroupPool.free_ids (groups_ p') = GroupPool.free_ids (groups_ p).
Proof.
  induction ncs as [|nc ncs IH]; intros p bv og p' bv' og' H; cbn [fold_left] in H.
  - inversion H; subst; reflexivity.
  - destruct (RemoveGroup_neighbor rc oc (p, bv, og) nc) as [[q bq] oq] eqn:E.
    apply IH in H. rewrite H.
    unfold RemoveGroup_neighbor in E.
    destruct (color_eqb _ oc).
    + destruct (tiny_insert _ og) as [fresh og1].
      destruct fresh; inversion E; subst; reflexivity.
    + destruct (color_eqb _ rc); inversion E; subst; reflexivity.
Qed.

Lemma RemoveGroup_loop_free_ids fuel rc oc id : forall p bv p' bv',
  RemoveGroup_loop kN fuel rc oc id p bv = Ok (p', bv') ->
  GroupPool.free_ids (groups_ p') = GroupPool.free_ids (groups_ p).
Proof.
  induction fuel as [|fuel IH]; intros p bv p' bv' H; simpl in H.
  - destruct (BoardVisitor.Done bv); inversion H; subst; reflexivity.
  - destruct (BoardVisitor.Done bv); [inversion H; subst; reflexivity|].
    bind_inv H. destruct a as [c bv1]. bind_inv H.
    destruct (fold_left _ _ _) as [[q bq] oq] eqn:E.
    apply RemoveGroup_neighbors_free_ids in E. apply IH in H.
    rewrite H, E. reflexivity.
Qed.

(** [RemoveGroup] never gives an identifier back: the free list after the
    removal is the free list before it. *)
Lemma RemoveGroup_frees_nothing p v c p' v' :
  RemoveGroup kN kMaxNumGroups p v c = Ok (p', v') ->
  GroupPool.free_ids (groups_ p') = GroupPool.free_ids (groups_ p).
Proof.
  unfold RemoveGroup. intros H. bind_inv H. bind_inv H.
  destruct a0 as [q bv]. inversion H; subst.
  eapply RemoveGroup_loop_free_ids; eauto.
Qed.

End Leak.

(** C1 fails on the code.  After Black B9, White A9, Black A8 on the 9x9
    board the White stone is captured; its group, identifier 1, is still
    allocated with [size] 1 although no stone on the board carries the
    identifier. *)
Theorem captured_group_keeps_its_size :
  exists p v,
    Game9.play Game9.corner_capture = Ok (p, v) /\
    GroupPool.allocated (groups_ p) 1 = true /\
    size (group_at p 1) = 1%Z /\
    stones_tagged p 1 = 0 /\
    num_liberties (group_at p 1) = 0%Z.
Proof.
  eexists. eexists. split; [vm_compute; reflexivity|]. vm_compute. repeat split.
Qed.

(** C5 fails on the code.  In a triple ko on the 9x9 board with a pool of
    81 groups, every move is a legal stone played in turn; after 85 moves
    22 stones stand on the board and all 81 identifiers are allocated, and
    the 86th move, legal as well, fails in [alloc]. *)
Theorem pool_exhausted_by_captures :
  Game9.play Game9.long_triple_ko = Fail PoolExhausted /\
  exists p v,
    Game9.play (removelast Game9.long_triple_ko) = Ok (p, v) /\
    GroupPool.free_ids (groups_ p) = [] /\
    GroupPool.num_allocated (groups_ p) = Game9.kMaxNumGroups /\
    length (filter (fun s => negb (Stone.empty s)) (stones_ p)) = 22 /\
    IsMoveLegal Game9.kN p (fst (last Game9.long_triple_ko Game9.pass)) = true.
Proof.
  split; [vm_compute; reflexivity|].
  eexists. eexists. split; [vm_compute; reflexivity|]. vm_compute. repeat split.
Qed.

(** The pool size is not what matters: with 162 or 361 groups the same
    triple ko runs until every identifier is taken, 18 by the groups on the
    board and the rest by captured groups. *)
Lemma larger_pools_exhausted_too :
  forall m, In m [81; 162; 361] ->
    is_ok (Game9.play_in_pool m (Game9.triple_ko (m - 18))) = true /\
    Game9.play_in_pool m (Game9.triple_ko (m - 17)) = Fail PoolExhausted.
Proof.
  intros m [<-|[<-|[<-|[]]]]; vm_compute; split; reflexivity.
Qed.

(** ** Ko *)

Section Ko.

Variable kN : nat.
Variable kMaxNumGroups : nat.

(** Whatever the walk over the neighbors records as captured is a stone
    next to the new one. *)
Lemma scan_step_captured p color opp c st nc :
  In nc (GetNeighborCoords kN c) ->
  (forall g x, In (g, x) (captured_groups st) ->
     In x (GetNeighborCoords kN c) /\ Stone.empty (stone_at p x) = false) ->
  forall g x, In (g, x) (captured_groups (scan_step p color opp st nc)) ->
     In x (GetNeighborCoords kN c) /\ Stone.empty (stone_at p x) = false.
Proof.
  intros Hnc Hst g x. unfold scan_step.
  destruct (color_eqb (Stone.color (stone_at p nc)) kEmpty) eqn:Ee; [apply Hst|].
  destruct (color_eqb (Stone.color (stone_at p nc)) color); [apply Hst|].
  destruct (color_eqb (Stone.color (stone_at p nc)) opp); [|apply Hst].
  destruct (tiny_insert _ _) as [fresh og]. destruct fresh; [|apply Hst].
  cbn [captured_groups].
  destruct (_ =? 0)%Z; [|apply Hst].
  intros Hin. apply in_app_or in Hin.
  destruct Hin as [Hin|[Hin|[]]]; [exact (Hst g x Hin)|].
  inversion Hin; subst. split; [assumption|].
  unfold Stone.empty. exact Ee.
Qed.

Lemma scan_fold_captured p color opp c : forall ncs st,
  (forall nc, In nc ncs -> In nc (GetNeighborCoords kN c)) ->
  (forall g x, In (g, x) (captured_groups st) ->
     In x (GetNeighborCoords kN c) /\ Stone.empty (stone_at p x) = false) ->
  forall g x, In (g, x) (captured_groups (fold_left (scan_step p color opp) ncs st)) ->
     In x (GetNeighborCoords kN c) /\ Stone.empty (stone_at p x) = false.
Proof.
  induction ncs as [|nc ncs IH]; intros st Hncs Hst; cbn [fold_left].
  - exact Hst.
  - apply IH.
    + intros x Hx. apply Hncs. now right.
    + apply scan_step_captured; [apply Hncs; now left | exact Hst].
Qed.

Lemma scan_neighbors_captured p c color g x :
  In (g, x) (captured_groups (scan_neighbors kN p c color)) ->
  In x (GetNeighborCoords kN c) /\ Stone.empty (stone_at p x) = false.
Proof.
  unfold scan_neighbors. apply scan_fold_captured.
  - auto.
  - intros g' x' [].
Qed.

Lemma IsKoish_loop_with_to_play p k : forall ncs k0,
  IsKoish_loop (with_to_play p k) ncs k0 = IsKoish_loop p ncs k0.
Proof.
  induction ncs as [|nc ncs IH]; intros k0; simpl; [reflexivity|].
  change (stone_at (with_to_play p k) nc) with (stone_at p nc).
  rewrite !IH. reflexivity.
Qed.

Lemma IsKoish_with_to_play p k c :
  IsKoish kN (with_to_play p k) c = IsKoish kN p c.
Proof.
  unfold IsKoish. rewrite IsKoish_loop_with_to_play. reflexivity.
Qed.

(** The ko point that [AddStoneToBoard] leaves is decided by [update_ko]
    on the position reached after the captured groups are removed. *)
Lemma AddStoneToBoard_ko p v c color p' v' :
  AddStoneToBoard kN kMaxNumGroups p v c color = Ok (p', v') ->
  exists r,
    p' = update_ko kN r (captured_groups (scan_neighbors kN p c color))
                   (IsKoish kN p c) (OtherColor color).
Proof.
  unfold AddStoneToBoard. intros H.
  bind_inv H. destruct a as [q w]. bind_inv H. destruct a as [r x].
  inversion H; subst. exists r. reflexivity.
Qed.

Lemma update_ko_fields r captured pk oc :
  stones_ (update_ko kN r captured pk oc) = stones_ r /\
  groups_ (update_ko kN r captured pk oc) = groups_ r.
Proof.
  unfold update_ko. destruct captured as [|[id nc] [|y l]]; auto.
  destruct (_ && _); auto.
Qed.

Lemma update_ko_cases r captured pk oc :
  ko_ (update_ko kN r captured pk oc) = kInvalid kN \/
  exists g x, captured = [(g, x)] /\ ko_ (update_ko kN r captured pk oc) = x.
Proof.
  unfold update_ko. destruct captured as [|[id nc] [|y l]]; auto.
  destruct (_ && _); [right; eauto | auto].
Qed.

(** A stone played on a position never leaves the ko point on a cell
    that was empty before the move. *)
Lemma PlayMove_ko_not_on_empty p v c color p' v' k :
  on_board kN k ->
  Stone.empty (stone_at p k) = true ->
  PlayMove kN kMaxNumGroups p v c color = Ok (p', v') ->
  ko_ p' <> k.
Proof.
  intros Hk Hempty H.
  destruct (Nat.eq_dec c (kPass kN)) as [->|Hc].
  - unfold PlayMove in H. rewrite Nat.eqb_refl in H. inversion H; subst.
    simpl. intros E. symmetry in E. revert E. now apply on_board_not_invalid.
  - apply PlayMove_stone_inv in H; [|assumption].
    destruct H as [_ [r [Hadd ->]]]. cbn [ko_].
    apply AddStoneToBoard_ko in Hadd. destruct Hadd as [r0 ->].
    destruct (update_ko_cases r0
                (captured_groups
                   (scan_neighbors kN
                      (if color_eqb color kEmpty then p else with_to_play p color)
                      c (mover p color)))
                (IsKoish kN (if color_eqb color kEmpty then p else with_to_play p color) c)
                (OtherColor (mover p color))) as [E|[g [x [Hcap E]]]]; rewrite E.
    + intros E'. symmetry in E'. revert E'. now apply on_board_not_invalid.
    + assert (Hin : In (g, x) (captured_groups
                   (scan_neighbors kN
                      (if color_eqb color kEmpty then p else with_to_play p color)
                      c (mover p color)))) by (rewrite Hcap; now left).
      apply scan_neighbors_captured in Hin. destruct Hin as [_ Hx].
      intros ->. unfold stone_at in *.
      destruct (color_eqb color kEmpty); cbn [stones_ with_to_play] in Hx; congruence.
Qed.

End Ko.

(** C4. Let a [PlayMove] at [c] by the mover capture exactly one opponent
    stone from a koish point: [IsKoish(c)] is the opponent's color, the walk
    over the neighbors of [c] captures one group, at [k], that group has
    size 1, and the stone at [k] is gone after the move.  Then [k] is the ko
    point and [IsMoveLegal(k)] is false; and after one further [PlayMove],
    by either color, of a stone or a pass, the ko point is no longer [k]. *)
Theorem ko_forbids_immediate_recapture (kN kMaxNumGroups : nat)
        (p : Position) (v : Scratch) (c : Coord) (color : Color)
        (p' : Position) (v' : Scratch) (g : GroupId) (k : Coord) :
  c <> kPass kN ->
  PlayMove kN kMaxNumGroups p v c color = Ok (p', v') ->
  mover p color <> kEmpty ->
  IsKoish kN p c = OtherColor (mover p color) ->
  captured_groups (scan_neighbors kN p c (mover p color)) = [(g, k)] ->
  size (group_at p' g) = 1%Z ->
  Stone.empty (stone_at p' k) = true ->
  ko_ p' = k /\
  IsMoveLegal kN p' k = false /\
  forall (w : Scratch) (c2 : Coord) (color2 : Color) (p'' : Position) (w' : Scratch),
    PlayMove kN kMaxNumGroups p' w c2 color2 = Ok (p'', w') -> ko_ p'' <> k.
Proof.
  intros Hc Hplay Hm Hkoish Hcap Hsize Hempty.
  assert (Hk : on_board kN k).
  { apply GetNeighborCoords_on_board with (c := c).
    eapply (scan_neighbors_captured kN p c (mover p color) g).
    rewrite Hcap. now left. }
  assert (Hko : ko_ p' = k).
  { apply PlayMove_stone_inv in Hplay; [|assumption].
    destruct Hplay as [_ [r [Hadd ->]]]. cbn [ko_]. unfold group_at in Hsize. cbn [groups_] in Hsize.
    apply AddStoneToBoard_ko in Hadd. destruct Hadd as [r0 Hr].
    assert (Hscan : captured_groups
              (scan_neighbors kN (if color_eqb color kEmpty then p else with_to_play p color)
                              c (mover p color)) = [(g, k)]).
    { destruct (color_eqb color kEmpty); exact Hcap. }
    assert (Hkoish' : IsKoish kN (if color_eqb color kEmpty then p else with_to_play p color) c
                      = OtherColor (mover p color)).
    { destruct (color_eqb color kEmpty); [|rewrite IsKoish_with_to_play]; exact Hkoish. }
    rewrite Hscan, Hkoish' in Hr.
    assert (Hg : size (GroupPool.get (groups_ r0) g) = 1%Z).
    { destruct (update_ko_fields kN r0 [(g, k)] (OtherColor (mover p color))
                                 (OtherColor (mover p color))) as [_ Hgr].
      rewrite <- Hr in Hgr. rewrite <- Hgr. exact Hsize. }
    rewrite Hr. unfold update_ko, group_at.
    rewrite Hg, color_eqb_refl. reflexivity. }
  split; [assumption|]. split.
  - unfold IsMoveLegal.
    destruct (k =? kPass kN) eqn:Ep.
    { apply Nat.eqb_eq in Ep. exfalso. revert Ep. now apply on_board_not_pass. }
    rewrite Hempty, Hko, Nat.eqb_refl. reflexivity.
  - intros w c2 color2 p'' w' H2.
    eapply PlayMove_ko_not_on_empty; eauto.
Qed.

Lemma ko_forbids_immediate_recapture_witness :
  exists p v p' v',
    Game9.play Game9.ko_setup = Ok (p, v) /\
    PlayMove Game9.kN Game9.kMaxNumGroups p v 11 kEmpty = Ok (p', v') /\
    ko_ p' = 10 /\
    IsMoveLegal Game9.kN p' 10 = false /\
    forall w c2 color2 p'' w',
      PlayMove Game9.kN Game9.kMaxNumGroups p' w c2 color2 = Ok (p'', w') -> ko_ p'' <> 10.
Proof.
  eexists. eexists. eexists. eexists.
  split; [vm_compute; reflexivity|].
  match goal with
  | |- PlayMove _ _ ?P ?V _ _ = _ /\ _ =>
      split; [vm_compute; reflexivity|];
      eapply (@ko_forbids_immediate_recapture Game9.kN Game9.kMaxNumGroups P V 11 kEmpty)
  end.
  - vm_compute; discriminate.
  - vm_compute; reflexivity.
  - vm_compute; discriminate.
  - vm_compute; reflexivity.
  - vm_compute; reflexivity.
  - vm_compute; reflexivity.
  - vm_compute; reflexivity.
Defined.

Lemma play_move_color_override_witness :
  PlayMove Game9.kN Game9.kMaxNumGroups Game9.start Game9.scratch 40 kWhite
    = PlayMove Game9.kN Game9.kMaxNumGroups (with_to_play Game9.start kWhite)
               Game9.scratch 40 kEmpty /\
  exists p' v',
    PlayMove Game9.kN Game9.kMaxNumGroups Game9.start Game9.scratch 40 kWhite = Ok (p', v') /\
    IsMoveLegal Game9.kN (with_to_play Game9.start kWhite) 40 = true /\
    to_play_ p' = kBlack.
Proof.
  assert (Hc : 40 <> kPass Game9.kN) by (vm_compute; discriminate).
  assert (Hk : kWhite <> kEmpty) by discriminate.
  destruct (play_move_color_override Game9.kN Game9.kMaxNumGroups Game9.start
              Game9.scratch Hc Hk) as [Heq Hret].
  split; [exact Heq|].
  eexists. eexists.
  assert (E : PlayMove Game9.kN Game9.kMaxNumGroups Game9.start Game9.scratch 40 kWhite
              = Ok (?[p'], ?[v'])) by (vm_compute; reflexivity).
  split; [exact E|].
  destruct (Hret _ _ E) as [Hl [_ Hto]]. split; [exact Hl | exact Hto].
Defined.

(** ** Scoring: exchanging the colors *)

Lemma stone_at_swap p c : stone_at (swap_colors p) c = swap_stone (stone_at p c).
Proof.
  unfold stone_at, swap_colors. cbn [stones_ with_stones].
  change Stone.default with (swap_stone Stone.default). apply map_nth.
Qed.

Lemma empty_swap s : Stone.empty (swap_stone s) = Stone.empty s.
Proof. unfold Stone.empty, swap_stone. simpl. now destruct (Stone.color s). Qed.

Lemma swap_bits_lor fb k :
  (0 <= fb <= 3)%Z -> k <> kEmpty ->
  Z.lor (swap_bits fb) (color_code (OtherColor k)) = swap_bits (Z.lor fb (color_code k)) /\
  (0 <= Z.lor fb (color_code k) <= 3)%Z.
Proof.
  intros Hfb Hk.
  assert (H : fb = 0%Z \/ fb = 1%Z \/ fb = 2%Z \/ fb = 3%Z) by lia.
  destruct H as [-> | [-> | [-> | ->]]]; destruct k; try congruence; simpl; split;
    try reflexivity; lia.
Qed.

Section ScoreSymmetry.

Variable kN : nat.
Variable kMaxNumGroups : nat.

Lemma score_visit_swap p bv fb nc :
  (0 <= fb <= 3)%Z ->
  score_visit (swap_colors p) (bv, swap_bits fb) nc
    = (fst (score_visit p (bv, fb) nc), swap_bits (snd (score_visit p (bv, fb) nc))) /\
  (0 <= snd (score_visit p (bv, fb) nc) <= 3)%Z.
Proof.
  intros Hfb. unfold score_visit. rewrite stone_at_swap.
  unfold swap_stone. cbn [Stone.color].
  destruct (Stone.color (stone_at p nc)) eqn:E; simpl; auto.
  - destruct (@swap_bits_lor fb kBlack Hfb) as [H1 H2]; [discriminate|].
    simpl in H1, H2. rewrite H1. auto.
  - destruct (@swap_bits_lor fb kWhite Hfb) as [H1 H2]; [discriminate|].
    simpl in H1, H2. rewrite H1. auto.
Qed.

Lemma score_visits_swap p : forall ncs bv fb,
  (0 <= fb <= 3)%Z ->
  fold_left (score_visit (swap_colors p)) ncs (bv, swap_bits fb)
    = (fst (fold_left (score_visit p) ncs (bv, fb)),
       swap_bits (snd (fold_left (score_visit p) ncs (bv, fb)))) /\
  (0 <= snd (fold_left (score_visit p) ncs (bv, fb)) <= 3)%Z.
Proof.
  induction ncs as [|nc ncs IH]; intros bv fb Hfb; cbn [fold_left].
  - split; [reflexivity | exact Hfb].
  - destruct (score_visit_swap p bv nc Hfb) as [E Hr]. rewrite E.
    destruct (score_visit p (bv, fb) nc) as [bv1 fb1]. simpl in *.
    apply IH. exact Hr.
Qed.

Lemma score_empty_area_loop_swap p : forall fuel bv nv fb,
  (0 <= fb <= 3)%Z ->
  score_empty_area_loop kN fuel (swap_colors p) bv nv (swap_bits fb)
    = map_result swap_area (score_empty_area_loop kN fuel p bv nv fb).
Proof.
  induction fuel as [|fuel IH]; intros bv nv fb Hfb; simpl; [reflexivity|].
  destruct (BoardVisitor.Next bv) as [[c bv1]|e]; simpl; [|reflexivity].
  destruct (score_visits_swap p (GetNeighborCoords kN c) bv1 Hfb) as [E Hr].
  rewrite E.
  destruct (fold_left (score_visit p) (GetNeighborCoords kN c) (bv1, fb)) as [bv2 fb2].
  simpl in *.
  destruct (BoardVisitor.Done bv2); simpl; [reflexivity|].
  apply IH. exact Hr.
Qed.

Lemma score_empty_area_swap p bv :
  score_empty_area kN (swap_colors p) bv
    = map_result negate_score (score_empty_area kN p bv).
Proof.
  unfold score_empty_area.
  change 0%Z with (swap_bits 0) at 2.
  rewrite score_empty_area_loop_swap by lia.
  destruct (score_empty_area_loop kN (traversal_fuel kN) p bv 0 0)
    as [[[nv fb] bv']|e]; simpl; [|reflexivity].
  unfold negate_score, swap_bits. simpl. f_equal. f_equal.
  destruct (Z.eqb_spec fb 1) as [->|N1]; [simpl; lia|].
  destruct (Z.eqb_spec fb 2) as [->|N2]; [simpl; lia|].
  destruct (Z.eqb_spec fb 1); [contradiction|].
  destruct (Z.eqb_spec fb 2); [contradiction|]. reflexivity.
Qed.

Lemma score_point_swap p s v c :
  score_point kN (swap_colors p) ((- s)%Z, v) c
    = map_result negate_score (score_point kN p (s, v) c).
Proof.
  unfold score_point. rewrite stone_at_swap, empty_swap.
  destruct (Stone.empty (stone_at p c)) eqn:Ee.
  - destruct (BoardVisitor.Visit c (board_visitor_ v)) as [first bv].
    destruct first; [|reflexivity].
    rewrite score_empty_area_swap.
    destruct (score_empty_area kN p bv) as [[area bv']|e]; simpl; [|reflexivity].
    unfold negate_score. simpl. f_equal. f_equal. lia.
  - cbn [Stone.group_id swap_stone].
    destruct (GroupVisitor.Visit (Stone.group_id (stone_at p c)) (group_visitor_ v))
      as [first gv].
    destruct first; [|reflexivity].
    change (group_at (swap_colors p)) with (group_at p).
    cbn [Stone.color swap_stone].
    assert (Hne : Stone.color (stone_at p c) <> kEmpty).
    { intros Hc. apply empty_color in Hc. congruence. }
    destruct (Stone.color (stone_at p c)); [congruence| |]; simpl;
      unfold negate_score; simpl; f_equal; f_equal; lia.
Qed.

Lemma score_points_swap p : forall cs s v,
  score_points kN (swap_colors p) ((- s)%Z, v) cs
    = map_result negate_score (score_points kN p (s, v) cs).
Proof.
  induction cs as [|c cs IH]; intros s v; cbn [score_points].
  - reflexivity.
  - rewrite score_point_swap.
    destruct (score_point kN p (s, v) c) as [[s1 v1]|e]; cbn [bind map_result];
      [|reflexivity].
    unfold negate_score at 1. cbn [fst snd]. apply IH.
Qed.

(** The integer score of the position with the colors exchanged is the
    opposite of the score, with the same effect on the visitors. *)
Lemma board_score_swap p v :
  board_score kN kMaxNumGroups (swap_colors p) v
    = map_result negate_score (board_score kN kMaxNumGroups p v).
Proof.
  unfold board_score.
  destruct (BoardVisitor.Begin kN (board_visitor_ v)) as [bv|e]; simpl; [|reflexivity].
  change 0%Z with (- 0)%Z at 1. apply score_points_swap.
Qed.

End ScoreSymmetry.

(** ** Scoring: every traversal ends within its fuel *)

Lemma filter_upd_tagged (e : Z) : forall (l : list Z) (i : nat),
  i < length l -> nth i l 0%Z <> e ->
  length (filter (fun tag => negb (tag =? e)%Z) (upd i e l)) + 1
    = length (filter (fun tag => negb (tag =? e)%Z) l).
Proof.
  induction l as [|h t IH]; intros [|j] Hi Hne; simpl in *; try lia.
  - rewrite Z.eqb_refl. simpl.
    destruct (Z.eqb_spec h e); [contradiction|]. simpl. lia.
  - destruct (negb (h =? e)%Z); simpl; rewrite <- (IH j); try lia; assumption.
Qed.

Section Traversal.

Variable kN : nat.
Variable kMaxNumGroups : nat.

Lemma Visit_measure c bv :
  sized kN bv -> on_board kN c ->
  let r := BoardVisitor.Visit c bv in
  sized kN (snd r) /\
  (if fst r
   then BoardVisitor.stack_ (snd r) = c :: BoardVisitor.stack_ bv /\
        traversal_measure (snd r) + 1 = traversal_measure bv
   else snd r = bv).
Proof.
  intros Hs Hc. unfold BoardVisitor.Visit.
  destruct (Z.eqb_spec (nth c (BoardVisitor.visited_ bv) 0%Z) (BoardVisitor.epoch_ bv))
    as [E|E]; simpl.
  - split; [assumption | reflexivity].
  - split; [unfold sized; simpl; rewrite upd_length; exact Hs|].
    split; [reflexivity|].
    unfold traversal_measure, unvisited. simpl.
    pose proof (@filter_upd_tagged (BoardVisitor.epoch_ bv) (BoardVisitor.visited_ bv) c)
      as H.
    unfold sized in Hs. unfold on_board in Hc. rewrite <- Hs in Hc.
    specialize (H Hc E). lia.
Qed.

Lemma Visit_measure_le c bv :
  sized kN bv -> on_board kN c ->
  sized kN (snd (BoardVisitor.Visit c bv)) /\
  traversal_measure (snd (BoardVisitor.Visit c bv)) <= traversal_measure bv.
Proof.
  intros Hs Hc. destruct (Visit_measure Hs Hc) as [Hs' H].
  split; [assumption|].
  destruct (fst (BoardVisitor.Visit c bv)); [lia | rewrite H; lia].
Qed.

Lemma score_visits_measure p : forall ncs bv fb,
  sized kN bv -> Forall (on_board kN) ncs ->
  sized kN (fst (fold_left (score_visit p) ncs (bv, fb))) /\
  traversal_measure (fst (fold_left (score_visit p) ncs (bv, fb))) <= traversal_measure bv.
Proof.
  induction ncs as [|nc ncs IH]; intros bv fb Hs Hall; cbn [fold_left].
  - simpl. auto.
  - inversion Hall as [|x l Hnc Hrest]; subst.
    unfold score_visit at 2 4.
    destruct (color_eqb (Stone.color (stone_at p nc)) kEmpty).
    + destruct (Visit_measure_le Hs Hnc) as [Hs1 Hm1].
      destruct (IH (snd (BoardVisitor.Visit nc bv)) fb Hs1 Hrest) as [Hs2 Hm2].
      split; [assumption | lia].
    + apply IH; assumption.
Qed.

Lemma neighbors_on_board c : Forall (on_board kN) (GetNeighborCoords kN c).
Proof. apply Forall_forall. intros nc. apply GetNeighborCoords_on_board. Qed.

(** The flood fill of an empty area returns, with nothing left pending. *)
Lemma score_empty_area_loop_total p : forall fuel bv nv fb,
  sized kN bv -> BoardVisitor.Done bv = false -> traversal_measure bv <= fuel ->
  exists nv' fb' bv',
    score_empty_area_loop kN fuel p bv nv fb = Ok (nv', fb', bv') /\
    sized kN bv' /\ BoardVisitor.Done bv' = true.
Proof.
  induction fuel as [|fuel IH]; intros bv nv fb Hs Hd Hm.
  - exfalso. unfold traversal_measure, BoardVisitor.Done in *.
    destruct (BoardVisitor.stack_ bv); [discriminate | simpl in Hm; lia].
  - cbn [score_empty_area_loop]. unfold BoardVisitor.Next.
    destruct bv as [stack visited epoch].
    destruct stack as [|c rest]; [discriminate|]. cbn [BoardVisitor.stack_ bind].
    cbn [BoardVisitor.visited_ BoardVisitor.epoch_].
    set (bv1 := BoardVisitor.mk rest visited epoch).
    assert (Hs1 : sized kN bv1) by exact Hs.
    assert (Hm1 : traversal_measure bv1 <= fuel).
    { unfold traversal_measure, unvisited in *. simpl in *. lia. }
    destruct (score_visits_measure p fb Hs1 (neighbors_on_board c)) as [Hs2 Hm2].
    destruct (fold_left (score_visit p) (GetNeighborCoords kN c) (bv1, fb))
      as [bv2 fb2]. cbn [fst] in Hs2, Hm2.
    destruct (BoardVisitor.Done bv2) eqn:Hd2; cbn [negb].
    + exists (nv + 1)%Z, fb2, bv2. auto.
    + apply IH; [assumption | assumption | lia].
Qed.

Lemma score_empty_area_total p bv :
  sized kN bv -> BoardVisitor.Done bv = false ->
  traversal_measure bv <= traversal_fuel kN ->
  exists area bv',
    score_empty_area kN p bv = Ok (area, bv') /\
    sized kN bv' /\ BoardVisitor.Done bv' = true.
Proof.
  intros Hs Hd Hm. unfold score_empty_area.
  destruct (score_empty_area_loop_total p 0%Z 0%Z Hs Hd Hm)
    as [nv [fb [bv' [E [Hs' Hd']]]]].
  rewrite E. cbn [bind]. eauto.
Qed.

Lemma ready_measure bv :
  sized kN bv -> BoardVisitor.Done bv = true -> traversal_measure bv <= traversal_fuel kN.
Proof.
  intros Hs Hd. unfold traversal_measure, traversal_fuel, unvisited, BoardVisitor.Done in *.
  destruct (BoardVisitor.stack_ bv); [|discriminate]. simpl.
  pose proof (filter_length_le (fun tag => negb (tag =? BoardVisitor.epoch_ bv)%Z)
                               (BoardVisitor.visited_ bv)) as H.
  unfold sized in Hs. lia.
Qed.

Lemma score_point_total p s v c :
  sized kN (board_visitor_ v) -> BoardVisitor.Done (board_visitor_ v) = true ->
  on_board kN c ->
  exists s' v',
    score_point kN p (s, v) c = Ok (s', v') /\
    sized kN (board_visitor_ v') /\ BoardVisitor.Done (board_visitor_ v') = true.
Proof.
  intros Hs Hd Hc. unfold score_point.
  destruct (Stone.empty (stone_at p c)).
  - destruct (Visit_measure Hs Hc) as [Hs1 Hv].
    destruct (BoardVisitor.Visit c (board_visitor_ v)) as [first bv1].
    cbn [fst snd] in *. destruct first.
    + destruct Hv as [Hstack Hm].
      assert (Hd1 : BoardVisitor.Done bv1 = false).
      { unfold BoardVisitor.Done. rewrite Hstack. reflexivity. }
      assert (Hm1 : traversal_measure bv1 <= traversal_fuel kN).
      { pose proof (ready_measure Hs Hd). lia. }
      destruct (score_empty_area_total p Hs1 Hd1 Hm1) as [area [bv' [E [Hs' Hd']]]].
      rewrite E. cbn [bind]. eauto.
    + subst bv1. eauto.
  - destruct (GroupVisitor.Visit _ _) as [first gv].
    destruct first; [destruct (color_eqb _ kBlack)|]; eauto.
Qed.

Lemma score_points_total p : forall cs s v,
  sized kN (board_visitor_ v) -> BoardVisitor.Done (board_visitor_ v) = true ->
  Forall (on_board kN) cs ->
  exists s' v', score_points kN p (s, v) cs = Ok (s', v').
Proof.
  induction cs as [|c cs IH]; intros s v Hs Hd Hall; cbn [score_points].
  - eauto.
  - inversion Hall as [|x l Hc Hrest]; subst.
    destruct (score_point_total p s v Hs Hd Hc) as [s1 [v1 [E [Hs1 Hd1]]]].
    rewrite E. cbn [bind]. apply IH; assumption.
Qed.

(** With the visitors between two traversals, the score is computed. *)
Lemma board_score_total p v :
  visitor_ready kN v -> exists s v', board_score kN kMaxNumGroups p v = Ok (s, v').
Proof.
  intros [Hd Hs]. unfold board_score, BoardVisitor.Begin.
  rewrite Hd. cbn [assert bind].
  apply score_points_total.
  - unfold sized. cbn [board_visitor_ BoardVisitor.visited_].
    destruct (BoardVisitor.epoch_ (board_visitor_ v) =? 0)%Z;
      [apply repeat_length | exact Hs].
  - cbn [board_visitor_]. unfold BoardVisitor.Done in *. exact Hd.
  - apply board_coords_on_board.
Qed.

End Traversal.

(** ** Scoring: the empty board *)

Section EmptyBoard.

Variable kN : nat.
Variable kMaxNumGroups : nat.
Variable p : Position.
Hypothesis board_empty : forall c, Stone.empty (stone_at p c) = true.

Lemma score_visits_empty : forall ncs bv fb,
  snd (fold_left (score_visit p) ncs (bv, fb)) = fb.
Proof.
  induction ncs as [|nc ncs IH]; intros bv fb; cbn [fold_left]; [reflexivity|].
  unfold score_visit at 2.
  pose proof (board_empty nc) as He. unfold Stone.empty in He. rewrite He.
  apply IH.
Qed.

Lemma score_empty_area_loop_empty : forall fuel bv nv fb nv' fb' bv',
  score_empty_area_loop kN fuel p bv nv fb = Ok (nv', fb', bv') -> fb' = fb.
Proof.
  induction fuel as [|fuel IH]; intros bv nv fb nv' fb' bv' H; simpl in H;
    [discriminate|].
  bind_inv H. destruct a as [c bv1].
  pose proof (score_visits_empty (GetNeighborCoords kN c) bv1 fb) as Hfb.
  destruct (fold_left (score_visit p) (GetNeighborCoords kN c) (bv1, fb)) as [bv2 fb2].
  simpl in Hfb. subst fb2.
  destruct (BoardVisitor.Done bv2); simpl in H.
  - inversion H; subst. reflexivity.
  - apply IH in H. exact H.
Qed.

Lemma score_empty_area_empty bv area bv' :
  score_empty_area kN p bv = Ok (area, bv') -> area = 0%Z.
Proof.
  unfold score_empty_area. intros H. bind_inv H. destruct a as [[nv fb] bv1].
  apply score_empty_area_loop_empty in Hm. subst fb.
  inversion H; subst. reflexivity.
Qed.

Lemma score_point_empty s v c s' v' :
  score_point kN p (s, v) c = Ok (s', v') -> s' = s.
Proof.
  unfold score_point. rewrite board_empty.
  destruct (BoardVisitor.Visit c (board_visitor_ v)) as [first bv].
  destruct first; intros H.
  - bind_inv H. destruct a as [area bv1].
    apply score_empty_area_empty in Hm. inversion H; subst. lia.
  - inversion H; subst. reflexivity.
Qed.

Lemma score_points_empty : forall cs s v s' v',
  score_points kN p (s, v) cs = Ok (s', v') -> s' = s.
Proof.
  induction cs as [|c cs IH]; intros s v s' v' H; cbn [score_points] in H.
  - inversion H; subst. reflexivity.
  - bind_inv H. destruct a as [s1 v1].
    apply score_point_empty in Hm. apply IH in H. congruence.
Qed.

Lemma board_score_empty v s v' :
  board_score kN kMaxNumGroups p v = Ok (s, v') -> s = 0%Z.
Proof.
  unfold board_score. intros H. bind_inv H.
  apply score_points_empty in H. exact H.
Qed.

End EmptyBoard.

(** ** Scoring symmetry *)



(** ** The fuel of the model is never what stops a move *)

Lemma flat_map_rows_length {A : Type} (g : nat -> nat -> A) (kN : nat) : forall rows,
  length (flat_map (fun row => map (g row) (seq 0 kN)) rows) = length rows * kN.
Proof.
  induction rows as [|row rows IH]; simpl; [reflexivity|].
  rewrite length_app, length_map, length_seq, IH. reflexivity.
Qed.

Lemma kNeighborCoords_length (kN : nat) : length (kNeighborCoords kN) = kN * kN.
Proof.
  unfold kNeighborCoords. rewrite flat_map_rows_length, length_seq. reflexivity.
Qed.

Lemma neighbors_nonempty_on_board (kN : nat) (c : Coord) :
  GetNeighborCoords kN c <> [] -> on_board kN c.
Proof.
  unfold GetNeighborCoords, on_board. intros H.
  destruct (Nat.lt_ge_cases c (kN * kN)) as [Hlt|Hge]; [assumption|].
  exfalso. apply H. apply nth_overflow. rewrite kNeighborCoords_length. exact Hge.
Qed.

Section Fuel.

Variable kN : nat.
Variable kMaxNumGroups : nat.

Lemma Begin_ready bv bv' :
  sized kN bv -> BoardVisitor.Begin kN bv = Ok bv' ->
  sized kN bv' /\ BoardVisitor.Done bv' = true.
Proof.
  unfold BoardVisitor.Begin. intros Hs H. bind_inv H. apply assert_ok in Hm.
  inversion H; subst. split.
  - unfold sized. simpl. destruct (_ =? 0)%Z; [apply repeat_length | exact Hs].
  - exact Hm.
Qed.

Lemma Begin_fails_on_assert bv e :
  BoardVisitor.Begin kN bv = Fail e -> e <> OutOfFuel.
Proof.
  unfold BoardVisitor.Begin, assert. destruct (BoardVisitor.Done bv); simpl; intros H;
    inversion H; discriminate.
Qed.

Lemma Next_measure bv c bv' :
  BoardVisitor.Next bv = Ok (c, bv') ->
  (sized kN bv -> sized kN bv') /\ traversal_measure bv' + 1 = traversal_measure bv.
Proof.
  unfold BoardVisitor.Next. destruct bv as [stack visited epoch]. simpl.
  destruct stack as [|x rest]; intros H; inversion H; subst.
  split; [auto|]. unfold traversal_measure, unvisited. simpl. lia.
Qed.

Lemma Next_not_done bv :
  BoardVisitor.Done bv = false -> exists c bv', BoardVisitor.Next bv = Ok (c, bv').
Proof.
  unfold BoardVisitor.Done, BoardVisitor.Next.
  destruct (BoardVisitor.stack_ bv); [discriminate | eauto].
Qed.

Lemma MergeGroup_visits_measure p opp : forall ncs bv,
  sized kN bv -> Forall (on_board kN) ncs ->
  sized kN (fold_left (MergeGroup_visit p opp) ncs bv) /\
  traversal_measure (fold_left (MergeGroup_visit p opp) ncs bv) <= traversal_measure bv.
Proof.
  induction ncs as [|nc ncs IH]; intros bv Hs Hall; cbn [fold_left].
  - auto.
  - inversion Hall as [|x l Hnc Hrest]; subst.
    unfold MergeGroup_visit at 2 4.
    destruct (negb (color_eqb (Stone.color (stone_at p nc)) opp)).
    + destruct (Visit_measure_le Hs Hnc) as [Hs1 Hm1].
      destruct (IH (snd (BoardVisitor.Visit nc bv)) Hs1 Hrest) as [Hs2 Hm2].
      split; [assumption | lia].
    + apply IH; assumption.
Qed.

Lemma MergeGroup_loop_fuel s opp : forall fuel p bv,
  sized kN bv -> traversal_measure bv <= fuel ->
  loop_within_fuel kN (MergeGroup_loop kN fuel s opp p bv).
Proof.
  induction fuel as [|fuel IH]; intros p bv Hs Hm; cbn [MergeGroup_loop].
  - destruct (BoardVisitor.Done bv) eqn:Hd; [exact Hs|]. exfalso.
    unfold traversal_measure, BoardVisitor.Done in *.
    destruct (BoardVisitor.stack_ bv); [discriminate | simpl in Hm; lia].
  - destruct (BoardVisitor.Done bv) eqn:Hd; [exact Hs|].
    destruct (Next_not_done bv Hd) as [c [bv1 E]]. rewrite E. cbn [bind].
    destruct (Next_measure bv E) as [Hs1 Hm1]. specialize (Hs1 Hs).
    destruct (color_eqb (Stone.color (stone_at p c)) kEmpty).
    + apply IH; [assumption | lia].
    + destruct (color_eqb (Stone.color (stone_at p c)) (Stone.color s));
        cbn [assert bind]; [|discriminate].
      match goal with
      | |- context [fold_left (MergeGroup_visit ?q opp) _ bv1] =>
          destruct (MergeGroup_visits_measure q opp Hs1 (neighbors_on_board kN c))
            as [Hs2 Hm2]
      end.
      apply IH; [assumption | lia].
Qed.

Lemma seeded_measure bv c :
  sized kN bv -> BoardVisitor.Done bv = true -> on_board kN c ->
  sized kN (snd (BoardVisitor.Visit c bv)) /\
  traversal_measure (snd (BoardVisitor.Visit c bv)) <= traversal_fuel kN.
Proof.
  intros Hs Hd Hc. destruct (Visit_measure_le Hs Hc) as [Hs1 Hm1].
  pose proof (ready_measure Hs Hd). split; [assumption | lia].
Qed.

Lemma MergeGroup_fuel p v c :
  sized kN (board_visitor_ v) -> on_board kN c ->
  within_fuel kN (MergeGroup kN p v c).
Proof.
  intros Hs Hc. unfold MergeGroup.
  destruct (BoardVisitor.Begin kN (board_visitor_ v)) as [bv|e] eqn:E; cbn [bind].
  2:{ apply Begin_fails_on_assert in E. exact E. }
  destruct (Begin_ready Hs E) as [Hs1 Hd1].
  destruct (seeded_measure Hs1 Hd1 Hc) as [Hs2 Hm2].
  match goal with
  | |- context [MergeGroup_loop kN ?f ?s ?o ?q ?b] =>
      pose proof (@MergeGroup_loop_fuel s o f q b Hs2 Hm2) as H;
      destruct (MergeGroup_loop kN f s o q b) as [[q' b']|e']
  end; cbn [bind]; exact H.
Qed.

Lemma RemoveGroup_neighbors_measure rc oc : forall ncs p bv og,
  sized kN bv -> Forall (on_board kN) ncs ->
  let r := fold_left (RemoveGroup_neighbor rc oc) ncs (p, bv, og) in
  sized kN (snd (fst r)) /\ traversal_measure (snd (fst r)) <= traversal_measure bv.
Proof.
  induction ncs as [|nc ncs IH]; intros p bv og Hs Hall; cbn [fold_left].
  - simpl. auto.
  - inversion Hall as [|x l Hnc Hrest]; subst.
    destruct (Visit_measure_le Hs Hnc) as [Hs1 Hm1].
    unfold RemoveGroup_neighbor at 2 4.
    destruct (color_eqb (Stone.color (stone_at p nc)) oc).
    + destruct (tiny_insert _ og) as [fresh og1]. destruct fresh; apply IH; assumption.
    + destruct (color_eqb (Stone.color (stone_at p nc)) rc).
      * destruct (IH p (snd (BoardVisitor.Visit nc bv)) og Hs1 Hrest) as [Hs2 Hm2].
        split; [assumption | lia].
      * apply IH; assumption.
Qed.

Lemma RemoveGroup_loop_fuel rc oc id : forall fuel p bv,
  sized kN bv -> traversal_measure bv <= fuel ->
  loop_within_fuel kN (RemoveGroup_loop kN fuel rc oc id p bv).
Proof.
  induction fuel as [|fuel IH]; intros p bv Hs Hm; cbn [RemoveGroup_loop].
  - destruct (BoardVisitor.Done bv) eqn:Hd; [exact Hs|]. exfalso.
    unfold traversal_measure, BoardVisitor.Done in *.
    destruct (BoardVisitor.stack_ bv); [discriminate | simpl in Hm; lia].
  - destruct (BoardVisitor.Done bv) eqn:Hd; [exact Hs|].
    destruct (Next_not_done bv Hd) as [c [bv1 E]]. rewrite E. cbn [bind].
    destruct (Next_measure bv E) as [Hs1 Hm1]. specialize (Hs1 Hs).
    destruct (Stone.group_id (stone_at p c) =? id); cbn [assert bind]; [|discriminate].
    pose proof (RemoveGroup_neighbors_measure rc oc (set_stone p c Stone.default) []
                  Hs1 (neighbors_on_board kN c)) as H.
    destruct (fold_left (RemoveGroup_neighbor rc oc) (GetNeighborCoords kN c)
                        (set_stone p c Stone.default, bv1, [])) as [[q bq] oq].
    cbn [fst snd] in H. destruct H as [Hs2 Hm2].
    apply IH; [assumption | lia].
Qed.

Lemma RemoveGroup_fuel p v c :
  sized kN (board_visitor_ v) -> on_board kN c ->
  within_fuel kN (RemoveGroup kN kMaxNumGroups p v c).
Proof.
  intros Hs Hc. unfold RemoveGroup.
  destruct (BoardVisitor.Begin kN (board_visitor_ v)) as [bv|e] eqn:E; cbn [bind].
  2:{ apply Begin_fails_on_assert in E. exact E. }
  destruct (Begin_ready Hs E) as [Hs1 Hd1].
  destruct (seeded_measure Hs1 Hd1 Hc) as [Hs2 Hm2].
  match goal with
  | |- context [RemoveGroup_loop kN ?f ?a ?b ?i ?q ?w] =>
      pose proof (@RemoveGroup_loop_fuel a b i f q w Hs2 Hm2) as H;
      destruct (RemoveGroup_loop kN f a b i q w) as [[q' b']|e']
  end; cbn [bind]; exact H.
Qed.

Lemma remove_captured_fuel color : forall captured p v,
  sized kN (board_visitor_ v) ->
  (forall g x, In (g, x) captured -> on_board kN x) ->
  within_fuel kN (remove_captured kN kMaxNumGroups p v color captured).
Proof.
  induction captured as [|[id nc] rest IH]; intros p v Hs Hall; cbn [remove_captured].
  - exact Hs.
  - match goal with
    | |- context [RemoveGroup kN kMaxNumGroups ?q v nc] =>
        pose proof (@RemoveGroup_fuel q v nc Hs (Hall id nc (or_introl eq_refl))) as H;
        destruct (RemoveGroup kN kMaxNumGroups q v nc) as [[q' v']|e]
    end; cbn [bind]; [|exact H].
    apply IH; [exact H|]. intros g x Hin. apply (Hall g x). now right.
Qed.

Lemma place_stone_fuel p v c color libs ngs :
  sized kN (board_visitor_ v) -> on_board kN c ->
  within_fuel kN (place_stone kN p v c color libs ngs).
Proof.
  intros Hs Hc. unfold place_stone. destruct ngs as [|id [|id2 others]].
  - unfold GroupPool.alloc. destruct (GroupPool.free_ids (groups_ p)); cbn [bind];
      [discriminate | exact Hs].
  - exact Hs.
  - match goal with
    | |- context [MergeGroup kN ?q v c] =>
        pose proof (@MergeGroup_fuel q v c Hs Hc) as H;
        destruct (MergeGroup kN q v c) as [[q' v']|e]
    end; cbn [bind]; exact H.
Qed.

Lemma IsMoveLegal_on_board p c :
  IsMoveLegal kN p c = true -> c <> kPass kN -> on_board kN c.
Proof.
  unfold IsMoveLegal. intros H Hc. apply Nat.eqb_neq in Hc. rewrite Hc in H.
  apply neighbors_nonempty_on_board. intros Hn.
  unfold IsMoveSuicidal in H. rewrite Hn in H. simpl in H.
  destruct (negb _); [discriminate|]. destruct (c =? ko_ p); discriminate.
Qed.

Lemma AddStoneToBoard_fuel p v c color :
  sized kN (board_visitor_ v) -> on_board kN c ->
  within_fuel kN (AddStoneToBoard kN kMaxNumGroups p v c color).
Proof.
  intros Hs Hc. unfold AddStoneToBoard.
  match goal with
  | |- context [place_stone kN ?q v c color ?l ?n] =>
      pose proof (@place_stone_fuel q v c color l n Hs Hc) as H;
      destruct (place_stone kN q v c color l n) as [[q1 v1]|e]
  end; cbn [bind]; [|exact H].
  match goal with
  | |- context [remove_captured kN kMaxNumGroups q1 v1 color ?cap] =>
      assert (Hcap : forall g x, In (g, x) cap -> on_board kN x)
  end.
  { intros g x Hin. apply scan_neighbors_captured in Hin.
    destruct Hin as [Hin _]. eapply GetNeighborCoords_on_board; eauto. }
  match goal with
  | |- context [remove_captured kN kMaxNumGroups q1 v1 color ?cap] =>
      pose proof (@remove_captured_fuel color cap q1 v1 H Hcap) as H2;
      destruct (remove_captured kN kMaxNumGroups q1 v1 color cap) as [[q2 v2]|e]
  end; cbn [bind]; exact H2.
Qed.

(** Whatever the position and the move, [PlayMove] in the model returns or
    fails on an assertion of the source or on [alloc]: the fuel given to
    the traversals is enough. *)
Lemma PlayMove_fuel p v c color :
  sized kN (board_visitor_ v) ->
  within_fuel kN (PlayMove kN kMaxNumGroups p v c color).
Proof.
  intros Hs. unfold PlayMove.
  destruct (c =? kPass kN) eqn:Ep; [exact Hs|]. apply Nat.eqb_neq in Ep.
  destruct (color_eqb color kEmpty).
  - destruct (IsMoveLegal kN p c) eqn:El; cbn [assert bind]; [|discriminate].
    pose proof (@AddStoneToBoard_fuel p v c (to_play_ p) Hs (@IsMoveLegal_on_board _ c El Ep))
      as H.
    destruct (AddStoneToBoard kN kMaxNumGroups p v c (to_play_ p)) as [[q w]|e];
      cbn [bind]; exact H.
  - destruct (IsMoveLegal kN (with_to_play p color) c) eqn:El; cbn [assert bind];
      [|discriminate].
    pose proof (@AddStoneToBoard_fuel (with_to_play p color) v c color Hs
                  (@IsMoveLegal_on_board _ c El Ep)) as H.
    destruct (AddStoneToBoard kN kMaxNumGroups (with_to_play p color) v c color)
      as [[q w]|e]; cbn [bind]; exact H.
Qed.

End Fuel.

(** * Further properties of the code *)

(** ** What a stone move does to the counters *)

(** A stone played by [PlayMove] adds one to [n], resets
    [num_consecutive_passes], records the point as [previous_move], hands
    the turn to the opponent of the color that played, and keeps the
    komi. *)
Theorem play_move_stone_counters (kN kMaxNumGroups : nat) (p : Position) (v : Scratch)
        (c : Coord) (color : Color) (p' : Position) (v' : Scratch) :
  c <> kPass kN ->
  PlayMove kN kMaxNumGroups p v c color = Ok (p', v') ->
  n_ p' = (n_ p + 1)%Z /\
  num_consecutive_passes_ p' = 0%Z /\
  previous_move_ p' = c /\
  to_play_ p' = OtherColor (mover p color) /\
  komi_ p' = komi_ p /\
  is_game_over p' = false.
Proof.
  intros Hc H. apply PlayMove_stone_inv in H; [|assumption].
  destruct H as [_ [r [Hadd ->]]]. cbn.
  apply AddStoneToBoard_frame in Hadd.
  destruct Hadd as [Hto [_ [Hn [_ Hk]]]].
  rewrite Hto, Hn, Hk. unfold mover.
  destruct (color_eqb color kEmpty); repeat split.
Qed.

Lemma play_move_stone_counters_witness :
  exists p' v',
    PlayMove Game9.kN Game9.kMaxNumGroups Game9.start Game9.scratch 40 kEmpty = Ok (p', v') /\
    n_ p' = 1%Z /\ previous_move_ p' = 40 /\ to_play_ p' = kWhite.
Proof.
  eexists. eexists.
  assert (E : PlayMove Game9.kN Game9.kMaxNumGroups Game9.start Game9.scratch 40 kEmpty
              = Ok (?[p'], ?[v'])) by (vm_compute; reflexivity).
  split; [exact E|].
  assert (Hc : 40 <> kPass Game9.kN) by (vm_compute; discriminate).
  destruct (@play_move_stone_counters Game9.kN Game9.kMaxNumGroups Game9.start
              Game9.scratch 40 kEmpty _ _ Hc E) as [Hn [_ [Hp [Ht _]]]].
  split; [exact Hn|]. split; [exact Hp | exact Ht].
Defined.

(** ** Illegal moves *)

Lemma IsMoveSuicidal_loop_with_to_play p k oc : forall ncs,
  IsMoveSuicidal_loop (with_to_play p k) oc ncs = IsMoveSuicidal_loop p oc ncs.
Proof.
  induction ncs as [|nc ncs IH]; simpl; [reflexivity|].
  change (stone_at (with_to_play p k) nc) with (stone_at p nc).
  change (group_at (with_to_play p k)) with (group_at p).
  rewrite IH. reflexivity.
Qed.

Lemma IsMoveSuicidal_with_to_play kN p k c color :
  IsMoveSuicidal kN (with_to_play p k) c color = IsMoveSuicidal kN p c color.
Proof. unfold IsMoveSuicidal. apply IsMoveSuicidal_loop_with_to_play. Qed.

(** [PlayMove] stops on its assertion, before anything is written, when
    the point is occupied, or is the ko point, or the move is suicidal for
    the color that plays. *)
Theorem play_move_rejects_illegal (kN kMaxNumGroups : nat) (p : Position) (v : Scratch)
        (c : Coord) (color : Color) :
  c <> kPass kN ->
  Stone.empty (stone_at p c) = false \/ c = ko_ p \/
    IsMoveSuicidal kN p c (mover p color) = true ->
  PlayMove kN kMaxNumGroups p v c color = Fail AssertionFailed.
Proof.
  intros Hc Hbad. unfold PlayMove. apply Nat.eqb_neq in Hc. rewrite Hc.
  assert (Hl : IsMoveLegal kN (if color_eqb color kEmpty then p else with_to_play p color) c
               = false).
  { unfold IsMoveLegal. rewrite Hc. unfold mover in Hbad.
    destruct (color_eqb color kEmpty).
    - destruct Hbad as [He|[Hk|Hs]].
      + rewrite He. reflexivity.
      + destruct (negb _); [reflexivity|]. subst c. rewrite Nat.eqb_refl. reflexivity.
      + destruct (negb _); [reflexivity|]. destruct (c =? ko_ p); [reflexivity|].
        rewrite Hs. reflexivity.
    - change (stone_at (with_to_play p color) c) with (stone_at p c).
      cbn [ko_ to_play_ with_to_play].
      rewrite IsMoveSuicidal_with_to_play.
      destruct Hbad as [He|[Hk|Hs]].
      + rewrite He. reflexivity.
      + destruct (negb _); [reflexivity|]. subst c. rewrite Nat.eqb_refl. reflexivity.
      + destruct (negb _); [reflexivity|]. destruct (c =? ko_ p); [reflexivity|].
        rewrite Hs. reflexivity. }
  destruct (color_eqb color kEmpty); rewrite Hl; reflexivity.
Qed.

Lemma play_move_rejects_illegal_witness :
  exists p v,
    Game9.play Game9.corner_capture = Ok (p, v) /\
    PlayMove Game9.kN Game9.kMaxNumGroups p v 1 kEmpty = Fail AssertionFailed.
Proof.
  eexists. eexists. split; [vm_compute; reflexivity|].
  apply play_move_rejects_illegal.
  - vm_compute. discriminate.
  - left. vm_compute. reflexivity.
Defined.

(** ** When the game is over *)

Lemma passes_after_moves kN kMaxNumGroups : forall moves p v p' v',
  play_moves kN kMaxNumGroups p v moves = Ok (p', v') ->
  num_consecutive_passes_ p' =
    if leading_passes kN (rev moves) =? length moves
    then (num_consecutive_passes_ p + Z.of_nat (length moves))%Z
    else Z.of_nat (trailing_passes kN moves).
Proof.
  induction moves as [|[c color] front IH] using rev_ind; intros p v p' v' H.
  - simpl in H. inversion H; subst. simpl. lia.
  - rewrite play_moves_app in H. bind_inv H. destruct a as [q w].
    simpl in H. bind_inv H. destruct a as [r x]. inversion H; subst.
    apply PlayMove_passes in Hm0. apply IH in Hm.
    unfold trailing_passes in *. rewrite rev_app_distr, length_app. simpl.
    rewrite Hm0. destruct (c =? kPass kN).
    + rewrite Hm. replace (length front + 1) with (S (length front)) by lia.
      simpl. destruct (leading_passes kN (rev front) =? length front); lia.
    + destruct (length front + 1) eqn:E; [lia|]. simpl. reflexivity.
Qed.

Lemma trailing_passes_after_two kN front k1 k2 :
  2 <= trailing_passes kN (front ++ [(kPass kN, k1); (kPass kN, k2)]).
Proof.
  unfold trailing_passes. rewrite rev_app_distr. simpl.
  rewrite Nat.eqb_refl. lia.
Qed.

Lemma trailing_passes_le kN moves : trailing_passes kN moves <= length moves.
Proof.
  unfold trailing_passes. rewrite <- length_rev.
  induction (rev moves) as [|[c k] l IH]; simpl; [lia|].
  destruct (c =? kPass kN); lia.
Qed.

(** In a game played from the empty board, [is_game_over()] holds exactly
    when the last two moves were both passes; a stone played afterwards
    makes it false again. *)
Theorem game_over_iff_two_passes (kN kMaxNumGroups : nat) (komi : Q) (to_play : Color)
        (n : Z) (v : Scratch) (moves : list (Coord * Color)) (p : Position) (v' : Scratch) :
  play_moves kN kMaxNumGroups (new_position kN kMaxNumGroups komi to_play n) v moves
    = Ok (p, v') ->
  (is_game_over p = true <->
   exists front k1 k2, moves = front ++ [(kPass kN, k1); (kPass kN, k2)]).
Proof.
  intros H. apply passes_after_moves in H. cbn [num_consecutive_passes_ new_position] in H.
  assert (Hn : num_consecutive_passes_ p = Z.of_nat (trailing_passes kN moves)).
  { rewrite H. destruct (leading_passes kN (rev moves) =? length moves) eqn:E; [|reflexivity].
    apply Nat.eqb_eq in E. unfold trailing_passes. rewrite E. lia. }
  unfold is_game_over. rewrite Hn. split.
  - intros Hg. apply Z.leb_le in Hg. apply trailing_passes_two. lia.
  - intros [front [k1 [k2 ->]]]. apply Z.leb_le.
    pose proof (trailing_passes_after_two kN front k1 k2). lia.
Qed.

Lemma game_over_iff_two_passes_witness :
  exists p v',
    Game9.play [Game9.at_ 2 2; Game9.pass; Game9.pass] = Ok (p, v') /\
    is_game_over p = true.
Proof.
  eexists. eexists.
  assert (E : Game9.play [Game9.at_ 2 2; Game9.pass; Game9.pass] = Ok (?[p], ?[v']))
    by (vm_compute; reflexivity).
  split; [exact E|].
  apply (proj2 (@game_over_iff_two_passes Game9.kN Game9.kMaxNumGroups _ _ _ _ _ _ _ E)).
  exists [Game9.at_ 2 2], kEmpty, kEmpty. reflexivity.
Defined.

(** ** Which groups a new stone captures *)

Lemma tiny_insert_fresh x s :
  fst (tiny_insert x s) = true <-> ~ In x s.
Proof.
  unfold tiny_insert. destruct (existsb (Nat.eqb x) s) eqn:E; simpl.
  - split; [discriminate|]. intros H. exfalso. apply H.
    apply existsb_exists in E. destruct E as [y [Hy Hxy]].
    apply Nat.eqb_eq in Hxy. now subst.
  - split; [|reflexivity]. intros _ Hin.
    assert (existsb (Nat.eqb x) s = true); [|congruence].
    apply existsb_exists. exists x. split; [assumption | apply Nat.eqb_refl].
Qed.

Lemma tiny_insert_members x s y :
  In y (snd (tiny_insert x s)) <-> y = x \/ In y s.
Proof.
  unfold tiny_insert. destruct (existsb (Nat.eqb x) s) eqn:E; simpl.
  - split; [auto|]. intros [->|H]; [|assumption].
    apply existsb_exists in E. destruct E as [z [Hz Hxz]].
    apply Nat.eqb_eq in Hxz. now subst.
  - rewrite in_app_iff. simpl. intuition.
Qed.

Lemma pool_get_set_other pool id g id' :
  id <> id' -> GroupPool.get (GroupPool.set pool id g) id' = GroupPool.get pool id'.
Proof. intros H. unfold GroupPool.get, GroupPool.set. simpl. now apply nth_upd_other. Qed.

Section CaptureRule.

Variable kN : nat.
Variable p : Position.
Variable color : Color.
Hypothesis color_player : color <> kEmpty.

Lemma scan_step_inv seen st nc :
  scan_inv p color seen st ->
  scan_inv p color (seen ++ [nc]) (scan_step p color (OtherColor color) st nc).
Proof.
  intros [Ha [Hb [Hc Hd]]].
  assert (Hseen : forall (Q : Coord -> Prop),
            (exists x, In x (seen ++ [nc]) /\ Q x) <-> (exists x, In x seen /\ Q x) \/ Q nc).
  { intros Q. split.
    - intros [x [Hin HQ]]. apply in_app_or in Hin. destruct Hin as [Hin|[<-|[]]]; eauto.
    - intros [[x [Hin HQ]]|HQ]; [exists x | exists nc]; split; auto; apply in_or_app;
        [now left | right; now left]. }
  assert (Hmono : forall g x,
            In x seen /\ Stone.color (stone_at p x) = OtherColor color /\
            Stone.group_id (stone_at p x) = g /\
            u16 (num_liberties (group_at p g) - 1) = 0%Z ->
            In x (seen ++ [nc]) /\ Stone.color (stone_at p x) = OtherColor color /\
            Stone.group_id (stone_at p x) = g /\
            u16 (num_liberties (group_at p g) - 1) = 0%Z).
  { intros g x [H1 H2]. split; [apply in_or_app; now left | exact H2]. }
  assert (Hkeep : Stone.color (stone_at p nc) <> OtherColor color ->
                  scan_inv p color (seen ++ [nc]) st).
  { intros Hne. split; [|split; [|split]].
    - intros g. split.
      + intros Hg. apply Ha in Hg. destruct Hg as [x [Hin Hx]]. exists x.
        split; [apply in_or_app; now left | exact Hx].
      + intros [x [Hin [Hx1 Hx2]]]. apply Ha.
        apply in_app_or in Hin. destruct Hin as [Hin|[<-|[]]]; [eauto | congruence].
    - exact Hb.
    - intros g x Hin. apply Hmono. now apply Hc.
    - exact Hd. }
  unfold scan_step.
  destruct (color_eqb (Stone.color (stone_at p nc)) kEmpty) eqn:Ee.
  { apply color_eqb_eq in Ee. apply Hkeep.
    rewrite Ee. intros E. symmetry in E. revert E. now apply OtherColor_not_empty. }
  destruct (color_eqb (Stone.color (stone_at p nc)) color) eqn:Es.
  { apply color_eqb_eq in Es. apply Hkeep.
    rewrite Es. intros E. symmetry in E. revert E. now apply OtherColor_neq. }
  destruct (color_eqb (Stone.color (stone_at p nc)) (OtherColor color)) eqn:Eo.
  2:{ apply color_eqb_neq in Eo. now apply Hkeep. }
  apply color_eqb_eq in Eo.
  pose proof (tiny_insert_fresh (Stone.group_id (stone_at p nc)) (opponent_groups st)) as Hf.
  pose proof (tiny_insert_members (Stone.group_id (stone_at p nc)) (opponent_groups st)) as Hmem.
  destruct (tiny_insert (Stone.group_id (stone_at p nc)) (opponent_groups st))
    as [fresh og] eqn:Eti. cbn [fst snd] in Hf, Hmem.
  assert (Hog : forall g, In g og <->
            exists x, In x (seen ++ [nc]) /\ Stone.color (stone_at p x) = OtherColor color /\
                      Stone.group_id (stone_at p x) = g).
  { intros g. rewrite Hmem, Hseen, Ha. split.
    - intros [->|H]; [right; auto | left; exact H].
    - intros [H|[_ H]]; [right; exact H | left; now symmetry]. }
  destruct fresh.
  - assert (Hnew : ~ In (Stone.group_id (stone_at p nc)) (opponent_groups st))
      by (now apply Hf).
    pose proof (Hb _ Hnew) as Hget. rewrite Hget.
    split; [exact Hog|]. cbn [opponent_groups scan_groups captured_groups].
    split; [|split].
    + intros g Hg. rewrite pool_get_set_other.
      * apply Hb. intros Hin. apply Hg. apply Hmem. now right.
      * intros E. apply Hg. apply Hmem. now left.
    + intros g x Hin.
      destruct (u16 (num_liberties (group_at p (Stone.group_id (stone_at p nc))) - 1) =? 0)%Z
        eqn:E0; [|now apply Hmono, Hc].
      apply in_app_or in Hin. destruct Hin as [Hin|[Hin|[]]]; [now apply Hmono, Hc|].
      inversion Hin; subst. apply Z.eqb_eq in E0.
      split; [apply in_or_app; right; now left|]. auto.
    + intros g Hg Hlib. apply Hmem in Hg. destruct Hg as [->|Hg].
      * apply Z.eqb_eq in Hlib. rewrite Hlib. exists nc. apply in_or_app. right. now left.
      * destruct (Hd g Hg Hlib) as [x Hx]. exists x.
        destruct (_ =? 0)%Z; [apply in_or_app; now left | exact Hx].
  - assert (Hold : In (Stone.group_id (stone_at p nc)) (opponent_groups st)).
    { destruct (in_dec Nat.eq_dec (Stone.group_id (stone_at p nc)) (opponent_groups st))
        as [Hin|Hnin]; [assumption|]. apply Hf in Hnin. discriminate. }
    split; [|split; [exact Hb | split; [intros g x Hin; now apply Hmono, Hc | exact Hd]]].
    intros g. rewrite Hseen, Ha. split; [auto|].
    intros [H|[_ H]]; [exact H|]. subst g. now apply Ha.
Qed.

Lemma scan_fold_inv : forall ncs seen st,
  scan_inv p color seen st ->
  scan_inv p color (seen ++ ncs) (fold_left (scan_step p color (OtherColor color)) ncs st).
Proof.
  induction ncs as [|nc ncs IH]; intros seen st H; cbn [fold_left].
  - rewrite app_nil_r. exact H.
  - replace (seen ++ nc :: ncs) with ((seen ++ [nc]) ++ ncs)
      by (rewrite <- app_assoc; reflexivity).
    apply IH. now apply scan_step_inv.
Qed.

Lemma scan_neighbors_inv c :
  scan_inv p color (GetNeighborCoords kN c) (scan_neighbors kN p c color).
Proof.
  unfold scan_neighbors.
  apply (scan_fold_inv (GetNeighborCoords kN c) (seen := [])).
  split; [|split; [|split]]; cbn [opponent_groups captured_groups scan_groups].
  - intros g. split; [intros [] | intros [nc [[] _]]].
  - reflexivity.
  - intros g x [].
  - intros g [].
Qed.

End CaptureRule.

(** A new stone of color [color] at [c] captures a group exactly when a
    neighbor of [c] holds an opponent stone of that group and the group
    has one liberty left; every captured entry names such a neighbor. *)
Theorem capture_rule (kN : nat) (p : Position) (c : Coord) (color : Color) (g : GroupId) :
  color <> kEmpty ->
  (0 <= num_liberties (group_at p g) < 65536)%Z ->
  ((exists x, In (g, x) (captured_groups (scan_neighbors kN p c color))) <->
   (exists nc, In nc (GetNeighborCoords kN c) /\
               Stone.color (stone_at p nc) = OtherColor color /\
               Stone.group_id (stone_at p nc) = g) /\
   num_liberties (group_at p g) = 1%Z) /\
  (forall x, In (g, x) (captured_groups (scan_neighbors kN p c color)) ->
     In x (GetNeighborCoords kN c) /\
     Stone.color (stone_at p x) = OtherColor color /\
     Stone.group_id (stone_at p x) = g).
Proof.
  intros Hcolor Hrange.
  destruct (scan_neighbors_inv kN p Hcolor c) as [Ha [_ [Hc Hd]]].
  assert (Hone : u16 (num_liberties (group_at p g) - 1) = 0%Z <->
                 num_liberties (group_at p g) = 1%Z).
  { unfold u16. split.
    - intros H. destruct (Z.eq_dec (num_liberties (group_at p g)) 0) as [E|E].
      + rewrite E in H. vm_compute in H. discriminate.
      + rewrite Z.mod_small in H by lia. lia.
    - intros ->. reflexivity. }
  split.
  - split.
    + intros [x Hin]. destruct (Hc g x Hin) as [H1 [H2 [H3 H4]]].
      split; [exists x; auto | now apply Hone].
    + intros [Hnc Hlib]. apply Hd; [now apply Ha | now apply Hone].
  - intros x Hin. destruct (Hc g x Hin) as [H1 [H2 [H3 _]]]. auto.
Qed.

Lemma capture_rule_witness :
  exists x,
    In (1, x) (captured_groups
                 (scan_neighbors Game9.kN (after9 (firstn 2 Game9.corner_capture)) 9 kBlack)).
Proof.
  assert (Hk : kBlack <> kEmpty) by discriminate.
  assert (Hr : (0 <= num_liberties (group_at (after9 (firstn 2 Game9.corner_capture)) 1%nat)
                < 65536)%Z) by (vm_compute; split; congruence).
  destruct (@capture_rule Game9.kN (after9 (firstn 2 Game9.corner_capture)) 9 kBlack 1
                          Hk Hr) as [[_ Hcap] _].
  apply Hcap. split; [|vm_compute; reflexivity].
  exists 0. split; [vm_compute; auto|]. split; vm_compute; reflexivity.
Defined.

(** ** Where the ko point can be *)

Lemma update_ko_inv kN r captured pk oc :
  ko_ (update_ko kN r captured pk oc) <> kInvalid kN ->
  exists g, captured = [(g, ko_ (update_ko kN r captured pk oc))] /\
            size (group_at r g) = 1%Z /\ pk = oc.
Proof.
  unfold update_ko. destruct captured as [|[id nc] [|y l]]; simpl; try congruence.
  destruct (size (group_at r id) =? 1)%Z eqn:E1; simpl; [|congruence].
  destruct (color_eqb pk oc) eqn:E2; simpl; [|congruence].
  intros _. exists id. apply Z.eqb_eq in E1. apply color_eqb_eq in E2. auto.
Qed.

(** After a stone is played, the ko point is Invalid or it is a neighbor
    of the stone that held an opponent stone before the move, and the
    point played was koish for the opponent's color; the ko point is
    never the point just played. *)
Theorem ko_point_is_adjacent (kN kMaxNumGroups : nat) (p : Position) (v : Scratch)
        (c : Coord) (color : Color) (p' : Position) (v' : Scratch) :
  c <> kPass kN ->
  mover p color <> kEmpty ->
  PlayMove kN kMaxNumGroups p v c color = Ok (p', v') ->
  ko_ p' = kInvalid kN \/
  (In (ko_ p') (GetNeighborCoords kN c) /\
   on_board kN (ko_ p') /\
   Stone.color (stone_at p (ko_ p')) = OtherColor (mover p color) /\
   IsKoish kN p c = OtherColor (mover p color) /\
   ko_ p' <> c).
Proof.
  intros Hc Hm H. apply PlayMove_stone_inv in H; [|assumption].
  destruct H as [Hlegal [r [Hadd ->]]]. cbn [ko_].
  apply AddStoneToBoard_ko in Hadd. destruct Hadd as [r0 ->].
  set (q := if color_eqb color kEmpty then p else with_to_play p color) in *.
  assert (Hscan : scan_neighbors kN q c (mover p color)
                  = scan_neighbors kN p c (mover p color)).
  { unfold q. destruct (color_eqb color kEmpty); reflexivity. }
  assert (Hkoish : IsKoish kN q c = IsKoish kN p c).
  { unfold q. destruct (color_eqb color kEmpty); [reflexivity|].
    apply IsKoish_with_to_play. }
  assert (Hq : stone_at q c = stone_at p c).
  { unfold q. destruct (color_eqb color kEmpty); reflexivity. }
  rewrite Hscan, Hkoish.
  remember (captured_groups (scan_neighbors kN p c (mover p color))) as cap eqn:Ecap.
  remember (ko_ (update_ko kN r0 cap (IsKoish kN p c) (OtherColor (mover p color))))
    as k eqn:Ek.
  destruct (Nat.eq_dec k (kInvalid kN)) as [E|E]; [left; exact E | right].
  rewrite Ek in E. apply update_ko_inv in E. rewrite <- Ek in E.
  destruct E as [g [Hcap [_ Hk]]].
  destruct (scan_neighbors_inv kN p Hm c) as [_ [_ [Hc3 _]]].
  assert (Hin : In (g, k) cap) by (rewrite Hcap; now left).
  rewrite Ecap in Hin. destruct (Hc3 g k Hin) as [H1 [H2 _]].
  split; [exact H1|]. split; [eapply GetNeighborCoords_on_board; exact H1|].
  split; [exact H2|]. split; [exact Hk|].
  intros E. rewrite E in H2.
  unfold IsMoveLegal in Hlegal. apply Nat.eqb_neq in Hc. rewrite Hc, Hq in Hlegal.
  destruct (Stone.empty (stone_at p c)) eqn:Ee; [|discriminate].
  apply empty_color in Ee. rewrite Ee in H2. symmetry in H2. revert H2.
  now apply OtherColor_not_empty.
Qed.

Lemma ko_point_is_adjacent_witness :
  exists p' v',
    PlayMove Game9.kN Game9.kMaxNumGroups (after9 Game9.ko_setup)
             (scratch_after9 Game9.ko_setup) 11 kEmpty = Ok (p', v') /\
    In (ko_ p') (GetNeighborCoords Game9.kN 11) /\ ko_ p' = 10.
Proof.
  eexists. eexists.
  assert (E : PlayMove Game9.kN Game9.kMaxNumGroups (after9 Game9.ko_setup)
                       (scratch_after9 Game9.ko_setup) 11 kEmpty = Ok (?[p'], ?[v']))
    by (vm_compute; reflexivity).
  split; [exact E|].
  assert (Hc : 11 <> kPass Game9.kN) by (vm_compute; discriminate).
  assert (Hm : mover (after9 Game9.ko_setup) kEmpty <> kEmpty) by (vm_compute; discriminate).
  destruct (@ko_point_is_adjacent Game9.kN Game9.kMaxNumGroups _ _ 11 kEmpty _ _ Hc Hm E)
    as [Hinv|[Hin _]].
  - vm_compute in Hinv. discriminate.
  - split; [exact Hin | reflexivity].
Defined.

(** ** The free list after a move *)

Lemma scan_step_free_ids p color opp st nc :
  GroupPool.free_ids (scan_groups (scan_step p color opp st nc))
    = GroupPool.free_ids (scan_groups st).
Proof.
  unfold scan_step.
  destruct (color_eqb _ kEmpty); [reflexivity|].
  destruct (color_eqb _ color); [reflexivity|].
  destruct (color_eqb _ opp); [|reflexivity].
  destruct (tiny_insert _ _) as [fresh og]. destruct fresh; reflexivity.
Qed.

Lemma scan_fold_free_ids p color opp : forall ncs st,
  GroupPool.free_ids (scan_groups (fold_left (scan_step p color opp) ncs st))
    = GroupPool.free_ids (scan_groups st).
Proof.
  induction ncs as [|nc ncs IH]; intros st; cbn [fold_left]; [reflexivity|].
  rewrite IH. apply scan_step_free_ids.
Qed.

Lemma MergeGroup_loop_free_ids kN s opp : forall fuel p bv p' bv',
  MergeGroup_loop kN fuel s opp p bv = Ok (p', bv') ->
  GroupPool.free_ids (groups_ p') = GroupPool.free_ids (groups_ p).
Proof.
  induction fuel as [|fuel IH]; intros p bv p' bv' H; simpl in H.
  - destruct (BoardVisitor.Done bv); inversion H; subst; reflexivity.
  - destruct (BoardVisitor.Done bv); [inversion H; subst; reflexivity|].
    bind_inv H. destruct a as [c bv1].
    destruct (color_eqb (Stone.color (stone_at p c)) kEmpty).
    + apply IH in H. rewrite H. reflexivity.
    + bind_inv H. apply IH in H. rewrite H. reflexivity.
Qed.

Lemma remove_captured_free_ids kN kMaxNumGroups color : forall captured p v p' v',
  remove_captured kN kMaxNumGroups p v color captured = Ok (p', v') ->
  GroupPool.free_ids (groups_ p') = GroupPool.free_ids (groups_ p).
Proof.
  induction captured as [|[id nc] rest IH]; intros p v p' v' H; simpl in H.
  - inversion H; subst. reflexivity.
  - bind_inv H. destruct a as [q w]. apply RemoveGroup_frees_nothing in Hm.
    apply IH in H. rewrite H, Hm. reflexivity.
Qed.

Lemma free_all_free_ids : forall others pool,
  GroupPool.free_ids (fold_left (fun pool i => GroupPool.free i pool) others pool)
    = rev others ++ GroupPool.free_ids pool.
Proof.
  induction others as [|i others IH]; intros pool; simpl; [reflexivity|].
  rewrite IH. simpl. rewrite <- app_assoc. reflexivity.
Qed.

(** The free list after [AddStoneToBoard] is decided by the same-color
    groups around the new stone alone: one identifier is taken when there
    is none, nothing changes when there is one, and the identifiers of all
    but the first are given back when there are several.  The groups that
    the stone captures give nothing back. *)
Theorem free_list_after_stone (kN kMaxNumGroups : nat) (p : Position) (v : Scratch)
        (c : Coord) (color : Color) (p' : Position) (v' : Scratch) :
  AddStoneToBoard kN kMaxNumGroups p v c color = Ok (p', v') ->
  GroupPool.free_ids (groups_ p') =
    match neighbor_groups (scan_neighbors kN p c color) with
    | [] => tl (GroupPool.free_ids (groups_ p))
    | [_] => GroupPool.free_ids (groups_ p)
    | _ :: others => rev others ++ GroupPool.free_ids (groups_ p)
    end.
Proof.
  unfold AddStoneToBoard. intros H.
  bind_inv H. destruct a as [q w]. bind_inv H. destruct a as [r x].
  inversion H; subst. clear H.
  destruct (update_ko_fields kN r (captured_groups (scan_neighbors kN p c color))
                             (IsKoish kN p c) (OtherColor color)) as [_ Hg].
  rewrite Hg. apply remove_captured_free_ids in Hm0. rewrite Hm0.
  assert (Hscan : GroupPool.free_ids (scan_groups (scan_neighbors kN p c color))
                  = GroupPool.free_ids (groups_ p)).
  { unfold scan_neighbors. rewrite scan_fold_free_ids. reflexivity. }
  unfold place_stone in Hm.
  destruct (neighbor_groups (scan_neighbors kN p c color)) as [|id [|id2 others]].
  - bind_inv Hm. destruct a as [i pool]. inversion Hm; subst. cbn.
    unfold GroupPool.alloc in Hm1. cbn [groups_ with_groups] in Hm1. rewrite Hscan in Hm1.
    destruct (GroupPool.free_ids (groups_ p)); [discriminate|].
    inversion Hm1; subst. reflexivity.
  - inversion Hm; subst. cbn. exact Hscan.
  - bind_inv Hm. destruct a as [q' w']. inversion Hm; subst. cbn [groups_ with_groups].
    rewrite free_all_free_ids. cbn [GroupPool.free GroupPool.free_ids rev].
    rewrite <- app_assoc. cbn [app]. do 2 f_equal.
    unfold MergeGroup in Hm1. bind_inv Hm1. bind_inv Hm1. destruct a0 as [q2 b2].
    inversion Hm1; subst. apply MergeGroup_loop_free_ids in Hm3. rewrite Hm3.
    cbn. exact Hscan.
Qed.

Lemma free_list_after_stone_witness :
  exists p' v',
    AddStoneToBoard Game9.kN Game9.kMaxNumGroups (after9 (firstn 2 Game9.corner_capture))
                    (scratch_after9 (firstn 2 Game9.corner_capture)) 9 kBlack = Ok (p', v') /\
    GroupPool.free_ids (groups_ p')
      = tl (GroupPool.free_ids (groups_ (after9 (firstn 2 Game9.corner_capture)))).
Proof.
  eexists. eexists.
  assert (E : AddStoneToBoard Game9.kN Game9.kMaxNumGroups
                (after9 (firstn 2 Game9.corner_capture))
                (scratch_after9 (firstn 2 Game9.corner_capture)) 9 kBlack
              = Ok (?[p'], ?[v'])) by (vm_compute; reflexivity).
  split; [exact E|].
  rewrite (@free_list_after_stone _ _ _ _ _ _ _ _ E). reflexivity.
Defined.

(** ** The visitors within their first 255 traversals *)

Lemma Forall_upd {A : Type} (P : A -> Prop) (x : A) : forall (l : list A) (i : nat),
  P x -> Forall P l -> Forall P (upd i x l).
Proof.
  induction l as [|h t IH]; intros [|j] Hx Hl; simpl; auto;
    inversion Hl; subst; constructor; auto.
Qed.

Lemma nth_bounded_tag epoch tags i :
  tags_bounded epoch tags -> (0 <= nth i tags 0 <= epoch)%Z.
Proof.
  intros [He Hall]. destruct (Nat.lt_ge_cases i (length tags)) as [Hlt|Hge].
  - rewrite Forall_forall in Hall. apply Hall. now apply nth_In.
  - rewrite nth_overflow by assumption. lia.
Qed.

Lemma tags_bounded_zeros n epoch :
  (0 <= epoch <= 255)%Z -> tags_bounded epoch (repeat 0%Z n).
Proof.
  intros He. split; [assumption|]. apply Forall_forall. intros t Ht.
  apply repeat_spec in Ht. subst. lia.
Qed.

Lemma tags_bounded_next epoch tags :
  tags_bounded epoch tags -> epoch <> 255%Z -> tags_bounded (epoch + 1) tags.
Proof.
  intros [He Hall] Hne. split; [lia|].
  eapply Forall_impl; [|exact Hall]. simpl. intros t Ht. lia.
Qed.

Section BoardVisitorFacts.

Variable kN : nat.

Lemma run_ops_keeps_tag c : forall ops bv bv',
  c < length (BoardVisitor.visited_ bv) ->
  nth c (BoardVisitor.visited_ bv) 0%Z = BoardVisitor.epoch_ bv ->
  run_ops ops bv = Ok bv' ->
  BoardVisitor.Visit c bv' = (false, bv').
Proof.
  induction ops as [|[x|] ops IH]; intros bv bv' Hc Htag H; cbn [run_ops] in H.
  - inversion H; subst. unfold BoardVisitor.Visit. rewrite Htag, Z.eqb_refl. reflexivity.
  - apply IH in H; [exact H| |]; unfold BoardVisitor.Visit;
      destruct (negb _); cbn [snd BoardVisitor.visited_ BoardVisitor.epoch_]; auto.
    + rewrite upd_length. exact Hc.
    + destruct (Nat.eq_dec x c) as [->|Hne].
      * now apply nth_upd_same.
      * rewrite nth_upd_other by assumption. exact Htag.
  - bind_inv H. destruct a as [y bv1]. unfold BoardVisitor.Next in Hm.
    destruct (BoardVisitor.stack_ bv); inversion Hm; subst.
    apply IH in H; auto.
Qed.

(** Within a traversal a point is pushed at most once: after [Visit(c)],
    whatever [Visit] and [Next] calls follow before the next [Begin], a
    further [Visit(c)] returns false and changes nothing. *)
Theorem visit_pushes_at_most_once (bv : BoardVisitor.t) (c : Coord)
        (ops : list visitor_op) (bv' : BoardVisitor.t) :
  sized kN bv -> on_board kN c ->
  run_ops ops (snd (BoardVisitor.Visit c bv)) = Ok bv' ->
  BoardVisitor.Visit c bv' = (false, bv').
Proof.
  intros Hs Hc H. unfold sized in Hs. unfold on_board in Hc. rewrite <- Hs in Hc.
  eapply run_ops_keeps_tag; [| |exact H]; unfold BoardVisitor.Visit;
    destruct (Z.eqb_spec (nth c (BoardVisitor.visited_ bv) 0%Z) (BoardVisitor.epoch_ bv));
    cbn [negb snd BoardVisitor.visited_ BoardVisitor.epoch_]; auto.
  - rewrite upd_length. exact Hc.
  - now apply nth_upd_same.
Qed.

Lemma run_ops_fresh c : forall ops bv bv',
  nth c (BoardVisitor.visited_ bv) 0%Z <> BoardVisitor.epoch_ bv ->
  ~ In (OpVisit c) ops ->
  run_ops ops bv = Ok bv' ->
  nth c (BoardVisitor.visited_ bv') 0%Z <> BoardVisitor.epoch_ bv'.
Proof.
  induction ops as [|[x|] ops IH]; intros bv bv' Htag Hnot H; cbn [run_ops] in H.
  - inversion H; subst. exact Htag.
  - apply IH in H; [exact H| |intros Hin; apply Hnot; now right].
    unfold BoardVisitor.Visit.
    destruct (negb _); cbn [snd BoardVisitor.visited_ BoardVisitor.epoch_]; auto.
    rewrite nth_upd_other; [exact Htag|].
    intros ->. apply Hnot. now left.
  - bind_inv H. destruct a as [y bv1]. unfold BoardVisitor.Next in Hm.
    destruct (BoardVisitor.stack_ bv); inversion Hm; subst.
    apply IH in H; auto. intros Hin. apply Hnot. now right.
Qed.

Lemma run_ops_bounded : forall ops bv bv',
  sized kN bv ->
  tags_bounded (BoardVisitor.epoch_ bv) (BoardVisitor.visited_ bv) ->
  run_ops ops bv = Ok bv' ->
  sized kN bv' /\ tags_bounded (BoardVisitor.epoch_ bv') (BoardVisitor.visited_ bv') /\
  BoardVisitor.epoch_ bv' = BoardVisitor.epoch_ bv.
Proof.
  induction ops as [|[x|] ops IH]; intros bv bv' Hs Hb H; cbn [run_ops] in H.
  - inversion H; subst. auto.
  - apply IH in H.
    + destruct H as [H1 [H2 H3]]. split; [exact H1|]. split; [exact H2|].
      rewrite H3. unfold BoardVisitor.Visit. destruct (negb _); reflexivity.
    + unfold BoardVisitor.Visit, sized in *.
      destruct (negb _); cbn [snd BoardVisitor.visited_]; [rewrite upd_length|]; exact Hs.
    + unfold BoardVisitor.Visit.
      destruct (negb _); cbn [snd BoardVisitor.visited_ BoardVisitor.epoch_]; [|exact Hb].
      destruct Hb as [He Hall]. split; [exact He|].
      apply Forall_upd; [lia | exact Hall].
  - bind_inv H. destruct a as [y bv1]. unfold BoardVisitor.Next in Hm.
    destruct (BoardVisitor.stack_ bv); inversion Hm; subst.
    apply IH in H; auto.
Qed.

(** As long as the epoch has not reached 255, [Begin] starts a traversal
    in which no point is tagged: the first [Visit(c)] of the traversal,
    whatever was visited or popped before it, returns true and pushes
    [c].  The tags stay bounded by the epoch, so this holds for each of
    the first 255 traversals of a visitor. *)
Theorem first_visit_accepted (bv bv0 : BoardVisitor.t) (ops : list visitor_op)
        (c : Coord) (bv' : BoardVisitor.t) :
  sized kN bv ->
  tags_bounded (BoardVisitor.epoch_ bv) (BoardVisitor.visited_ bv) ->
  BoardVisitor.epoch_ bv <> 255%Z ->
  BoardVisitor.Begin kN bv = Ok bv0 ->
  ~ In (OpVisit c) ops ->
  run_ops ops bv0 = Ok bv' ->
  BoardVisitor.Visit c bv'
    = (true, BoardVisitor.mk (c :: BoardVisitor.stack_ bv')
                             (upd c (BoardVisitor.epoch_ bv') (BoardVisitor.visited_ bv'))
                             (BoardVisitor.epoch_ bv')) /\
  sized kN bv' /\
  tags_bounded (BoardVisitor.epoch_ bv') (BoardVisitor.visited_ bv') /\
  BoardVisitor.epoch_ bv' = (BoardVisitor.epoch_ bv + 1)%Z.
Proof.
  intros Hs Hb Hne Hbegin Hnot Hrun.
  unfold BoardVisitor.Begin in Hbegin. bind_inv Hbegin. inversion Hbegin; subst bv0.
  clear Hbegin.
  assert (He : (0 <= BoardVisitor.epoch_ bv <= 255)%Z) by (destruct Hb; assumption).
  assert (Hu : u8 (BoardVisitor.epoch_ bv + 1) = (BoardVisitor.epoch_ bv + 1)%Z).
  { unfold u8. apply Z.mod_small. lia. }
  rewrite Hu in Hrun.
  set (tags0 := if (BoardVisitor.epoch_ bv =? 0)%Z then repeat 0%Z (kN * kN)
                else BoardVisitor.visited_ bv) in *.
  assert (Hb0 : tags_bounded (BoardVisitor.epoch_ bv) tags0).
  { unfold tags0. destruct (BoardVisitor.epoch_ bv =? 0)%Z;
      [apply tags_bounded_zeros; exact He | exact Hb]. }
  assert (Hs0 : length tags0 = kN * kN).
  { unfold tags0. destruct (BoardVisitor.epoch_ bv =? 0)%Z;
      [apply repeat_length | exact Hs]. }
  assert (Hfresh : nth c tags0 0%Z <> (BoardVisitor.epoch_ bv + 1)%Z).
  { pose proof (@nth_bounded_tag _ _ c Hb0). lia. }
  set (bv1 := BoardVisitor.mk (BoardVisitor.stack_ bv) tags0 (BoardVisitor.epoch_ bv + 1))
    in *.
  pose proof (@run_ops_fresh c ops bv1 bv' Hfresh Hnot Hrun) as Hc.
  destruct (@run_ops_bounded ops bv1 bv' Hs0 (@tags_bounded_next _ _ Hb0 Hne) Hrun)
    as [Hs' [Hb' He']].
  split; [|auto].
  unfold BoardVisitor.Visit.
  destruct (Z.eqb_spec (nth c (BoardVisitor.visited_ bv') 0%Z) (BoardVisitor.epoch_ bv'));
    [contradiction | reflexivity].
Qed.

End BoardVisitorFacts.

Lemma visit_pushes_at_most_once_witness :
  BoardVisitor.Visit 5
    (snd (BoardVisitor.Visit 3 (snd (BoardVisitor.Visit 5
       (BoardVisitor.mk [] (repeat 0%Z 81) 1)))))
  = (false,
     snd (BoardVisitor.Visit 3 (snd (BoardVisitor.Visit 5
       (BoardVisitor.mk [] (repeat 0%Z 81) 1))))).
Proof.
  apply (@visit_pushes_at_most_once 9 (BoardVisitor.mk [] (repeat 0%Z 81) 1) 5 [OpVisit 3]).
  - reflexivity.
  - unfold on_board. simpl. lia.
  - reflexivity.
Defined.

Lemma first_visit_accepted_witness :
  fst (BoardVisitor.Visit 5
         (snd (BoardVisitor.Visit 3 (BoardVisitor.mk [] (repeat 0%Z 81) 1)))) = true.
Proof.
  assert (Hs : sized 9 (BoardVisitor.init 9)) by reflexivity.
  assert (Hb : tags_bounded (BoardVisitor.epoch_ (BoardVisitor.init 9))
                            (BoardVisitor.visited_ (BoardVisitor.init 9))).
  { apply tags_bounded_zeros. simpl. lia. }
  assert (Hne : BoardVisitor.epoch_ (BoardVisitor.init 9) <> 255%Z) by (simpl; lia).
  assert (Hnot : ~ In (OpVisit 5) [OpVisit 3]).
  { intros [H|[]]; discriminate. }
  assert (E0 : BoardVisitor.Begin 9 (BoardVisitor.init 9)
               = Ok (BoardVisitor.mk [] (repeat 0%Z 81) 1)) by reflexivity.
  assert (E1 : run_ops [OpVisit 3] (BoardVisitor.mk [] (repeat 0%Z 81) 1)
               = Ok (snd (BoardVisitor.Visit 3 (BoardVisitor.mk [] (repeat 0%Z 81) 1))))
    by reflexivity.
  destruct (@first_visit_accepted 9 _ _ _ 5 _ Hs Hb Hne E0 Hnot E1) as [Hv _].
  rewrite Hv. reflexivity.
Defined.

(** *** GroupVisitor *)

Lemma visit_all_first_seen : forall ids gv seen,
  (forall id, id < length (GroupVisitor.visited_ gv) ->
     (nth id (GroupVisitor.visited_ gv) 0 =? GroupVisitor.epoch_ gv)%Z
       = existsb (Nat.eqb id) seen) ->
  Forall (fun id => id < length (GroupVisitor.visited_ gv)) ids ->
  visit_all ids gv = first_seen seen ids.
Proof.
  induction ids as [|id ids IH]; intros gv seen Hinv Hall; cbn [visit_all first_seen];
    [reflexivity|].
  inversion Hall as [|x l Hid Hrest]; subst.
  unfold GroupVisitor.Visit at 1 2.
  rewrite (Hinv id Hid).
  destruct (existsb (Nat.eqb id) seen) eqn:Es; cbn [negb fst snd]; f_equal.
  - apply IH; [|exact Hrest]. intros x Hx. cbn [existsb].
    destruct (Nat.eqb_spec x id) as [->|Hne]; cbn [orb]; [|now apply Hinv].
    rewrite (Hinv id Hid). exact Es.
  - apply IH; cbn [GroupVisitor.visited_ GroupVisitor.epoch_].
    + intros x Hx. rewrite upd_length in Hx. cbn [existsb].
      destruct (Nat.eqb_spec x id) as [->|Hne]; cbn [orb].
      * rewrite nth_upd_same by assumption. apply Z.eqb_refl.
      * rewrite nth_upd_other by auto. now apply Hinv.
    + rewrite upd_length. exact Hrest.
Qed.

(** As long as the epoch has not reached 255, a [GroupVisitor] answers
    true exactly the first time it is shown an identifier after [Begin]:
    the answers to a sequence of identifiers mark the first occurrences in
    the sequence. *)
Theorem group_visit_true_first_time (kMaxNumGroups : nat) (gv : GroupVisitor.t)
        (ids : list GroupId) :
  length (GroupVisitor.visited_ gv) = kMaxNumGroups ->
  tags_bounded (GroupVisitor.epoch_ gv) (GroupVisitor.visited_ gv) ->
  GroupVisitor.epoch_ gv <> 255%Z ->
  Forall (fun id => id < kMaxNumGroups) ids ->
  visit_all ids (GroupVisitor.Begin kMaxNumGroups gv) = first_seen [] ids.
Proof.
  intros Hlen Hb Hne Hids.
  assert (He : (0 <= GroupVisitor.epoch_ gv <= 255)%Z) by (destruct Hb; assumption).
  assert (Hu : u8 (GroupVisitor.epoch_ gv + 1) = (GroupVisitor.epoch_ gv + 1)%Z).
  { unfold u8. apply Z.mod_small. lia. }
  set (tags0 := if (GroupVisitor.epoch_ gv =? 0)%Z then repeat 0%Z kMaxNumGroups
                else GroupVisitor.visited_ gv).
  assert (Hb0 : tags_bounded (GroupVisitor.epoch_ gv) tags0).
  { unfold tags0. destruct (GroupVisitor.epoch_ gv =? 0)%Z;
      [apply tags_bounded_zeros; exact He | exact Hb]. }
  assert (Hs0 : length tags0 = kMaxNumGroups).
  { unfold tags0. destruct (GroupVisitor.epoch_ gv =? 0)%Z;
      [apply repeat_length | exact Hlen]. }
  apply visit_all_first_seen; unfold GroupVisitor.Begin;
    cbn [GroupVisitor.visited_ GroupVisitor.epoch_]; fold tags0.
  - intros id _. rewrite Hu. cbn [existsb].
    pose proof (@nth_bounded_tag _ _ id Hb0). apply Z.eqb_neq. lia.
  - rewrite Hs0. exact Hids.
Qed.

Lemma group_visit_true_first_time_witness :
  visit_all [3; 7; 3; 0; 7] (GroupVisitor.Begin 81 (GroupVisitor.init 81))
    = [true; true; false; true; false].
Proof.
  rewrite (@group_visit_true_first_time 81 (GroupVisitor.init 81) [3; 7; 3; 0; 7]).
  - reflexivity.
  - reflexivity.
  - apply tags_bounded_zeros. simpl. lia.
  - simpl. lia.
  - repeat constructor.
Defined.

(** ** The neighbor table *)

Lemma nth_flat_map_rows {A : Type} (g : nat -> nat -> A) (kN : nat) (d : A) :
  forall n s row col,
    row < n -> col < kN ->
    nth (row * kN + col) (flat_map (fun r => map (g r) (seq 0 kN)) (seq s n)) d
      = g (s + row) col.
Proof.
  induction n as [|n IH]; intros s row col Hr Hc; [lia|].
  cbn [seq flat_map]. destruct row as [|row].
  - rewrite app_nth1 by (rewrite length_map, length_seq; simpl; lia).
    simpl. rewrite Nat.add_0_r.
    rewrite (nth_indep _ d (g s 0)) by (rewrite length_map, length_seq; lia).
    change (g s 0) with ((fun c => g s c) 0).
    rewrite map_nth. rewrite seq_nth by assumption. reflexivity.
  - rewrite app_nth2 by (rewrite length_map, length_seq; simpl; lia).
    rewrite length_map, length_seq.
    replace (S row * kN + col - kN) with (row * kN + col) by (simpl; lia).
    rewrite IH by lia. f_equal. lia.
Qed.

Lemma GetNeighborCoords_lookup (kN row col : nat) :
  row < kN -> col < kN ->
  GetNeighborCoords kN (coord_of kN row col) = neighbors_of kN row col.
Proof.
  intros Hr Hc. unfold GetNeighborCoords, kNeighborCoords, coord_of.
  rewrite (nth_flat_map_rows (fun r c => neighbors_of kN r c) [] 0 Hr Hc). reflexivity.
Qed.

Lemma coord_of_injective (kN row col row' col' : nat) :
  col < kN -> col' < kN ->
  coord_of kN row col = coord_of kN row' col' -> row = row' /\ col = col'.
Proof.
  unfold coord_of. intros Hc Hc' H.
  apply (Nat.div_mod_unique kN); try assumption. lia.
Qed.

Lemma In_neighbors_of (kN row col x : nat) :
  In x (neighbors_of kN row col) <->
  (0 < col /\ x = coord_of kN row (col - 1)) \/
  (col < kN - 1 /\ x = coord_of kN row (col + 1)) \/
  (0 < row /\ x = coord_of kN (row - 1) col) \/
  (row < kN - 1 /\ x = coord_of kN (row + 1) col).
Proof.
  unfold neighbors_of. rewrite !in_app_iff.
  destruct (Nat.ltb_spec 0 col); destruct (Nat.ltb_spec col (kN - 1));
    destruct (Nat.ltb_spec 0 row); destruct (Nat.ltb_spec row (kN - 1));
    simpl; intuition (try lia; auto).
Qed.

(** The table holds, for every point of the board, exactly the points one
    step away in its row or in its column, at most four of them; so being
    a neighbor is symmetric and no point is its own neighbor. *)
Theorem neighbors_are_the_adjacent_points (kN row col row' col' : nat) :
  row < kN -> col < kN -> row' < kN -> col' < kN ->
  (In (coord_of kN row' col') (GetNeighborCoords kN (coord_of kN row col)) <->
   (row' = row /\ (col' + 1 = col \/ col' = col + 1)) \/
   (col' = col /\ (row' + 1 = row \/ row' = row + 1))) /\
  (In (coord_of kN row' col') (GetNeighborCoords kN (coord_of kN row col)) <->
   In (coord_of kN row col) (GetNeighborCoords kN (coord_of kN row' col'))) /\
  ~ In (coord_of kN row col) (GetNeighborCoords kN (coord_of kN row col)) /\
  length (GetNeighborCoords kN (coord_of kN row col)) <= 4.
Proof.
  intros Hr Hc Hr' Hc'.
  assert (Hchar : forall r c r' c', r < kN -> c < kN -> r' < kN -> c' < kN ->
            (In (coord_of kN r' c') (GetNeighborCoords kN (coord_of kN r c)) <->
             (r' = r /\ (c' + 1 = c \/ c' = c + 1)) \/
             (c' = c /\ (r' + 1 = r \/ r' = r + 1)))).
  { intros r c r' c' H1 H2 H3 H4.
    rewrite GetNeighborCoords_lookup by assumption. rewrite In_neighbors_of. split.
    - intros [[H E]|[[H E]|[[H E]|[H E]]]]; apply coord_of_injective in E; try lia.
    - intros [[-> [H|H]]|[-> [H|H]]].
      + left. split; [lia|]. f_equal. lia.
      + right; left. split; [lia|]. f_equal. lia.
      + right; right; left. split; [lia|]. f_equal. lia.
      + right; right; right. split; [lia|]. f_equal. lia. }
  split; [now apply Hchar|]. split; [|split].
  - rewrite !Hchar by assumption. lia.
  - rewrite Hchar by assumption. lia.
  - rewrite GetNeighborCoords_lookup by assumption. unfold neighbors_of.
    rewrite !length_app.
    destruct (0 <? col); destruct (col <? kN - 1); destruct (0 <? row);
      destruct (row <? kN - 1); simpl; lia.
Qed.

Lemma neighbors_are_the_adjacent_points_witness :
  In (coord_of 9 4 5) (GetNeighborCoords 9 (coord_of 9 4 4)) /\
  ~ In (coord_of 9 5 5) (GetNeighborCoords 9 (coord_of 9 4 4)).
Proof.
  assert (H4 : 4 < 9) by lia. assert (H5 : 5 < 9) by lia.
  split.
  - apply (proj1 (neighbors_are_the_adjacent_points H4 H4 H4 H5)). left. lia.
  - intros Hin. apply (proj1 (neighbors_are_the_adjacent_points H4 H4 H5 H5)) in Hin. lia.
Defined.

(** ** What a move changes on the board *)

Lemma upd_beyond {A : Type} (i : nat) (x : A) (l : list A) :
  length l <= i -> upd i x l = l.
Proof.
  revert i; induction l as [|h t IH]; intros [|j] Hi; simpl in *; try lia; auto.
  f_equal. apply IH. lia.
Qed.

Lemma color_at_set_stone_same p c s :
  c < length (stones_ p) -> color_at (set_stone p c s) c = Stone.color s.
Proof.
  intros Hc. unfold color_at, stone_at, set_stone. cbn [stones_ with_stones].
  now rewrite nth_upd_same.
Qed.

Lemma color_at_set_stone_other p c s x :
  x <> c -> color_at (set_stone p c s) x = color_at p x.
Proof.
  intros Hx. unfold color_at, stone_at, set_stone. cbn [stones_ with_stones].
  rewrite nth_upd_other; auto.
Qed.

Lemma color_at_set_default p c :
  color_at (set_stone p c Stone.default) c = kEmpty.
Proof.
  destruct (Nat.lt_ge_cases c (length (stones_ p))) as [H|H].
  - now rewrite color_at_set_stone_same.
  - unfold color_at, stone_at, set_stone. cbn [stones_ with_stones].
    rewrite upd_beyond by exact H. now rewrite nth_overflow.
Qed.

Lemma color_at_set_same_color p c s x :
  Stone.color s = color_at p c -> color_at (set_stone p c s) x = color_at p x.
Proof.
  intros Hs. destruct (Nat.eq_dec x c) as [->|Hx]; [|now apply color_at_set_stone_other].
  destruct (Nat.lt_ge_cases c (length (stones_ p))) as [H|H].
  - now rewrite color_at_set_stone_same.
  - unfold color_at, stone_at, set_stone. cbn [stones_ with_stones].
    now rewrite upd_beyond.
Qed.

Lemma set_stone_length p c s : length (stones_ (set_stone p c s)) = length (stones_ p).
Proof. unfold set_stone. cbn [stones_ with_stones]. apply upd_length. Qed.

Section ColorFrame.

Variable kN : nat.
Variable kMaxNumGroups : nat.

Lemma RemoveGroup_neighbor_fold rc oc : forall ncs p bv og p' bv' og',
  fold_left (RemoveGroup_neighbor rc oc) ncs (p, bv, og) = (p', bv', og') ->
  stones_ p' = stones_ p /\
  (forall x, In x (BoardVisitor.stack_ bv') ->
     In x (BoardVisitor.stack_ bv) \/ color_at p x = rc).
Proof.
  induction ncs as [|nc ncs IH]; intros p bv og p' bv' og' H; cbn [fold_left] in H.
  - inversion H; subst. auto.
  - unfold RemoveGroup_neighbor at 2 in H.
    destruct (color_eqb (Stone.color (stone_at p nc)) oc) eqn:Eo.
    + destruct (tiny_insert (Stone.group_id (stone_at p nc)) og) as [[|] og1].
      * apply IH in H. exact H.
      * apply IH in H. exact H.
    + destruct (color_eqb (Stone.color (stone_at p nc)) rc) eqn:Er.
      * apply IH in H. destruct H as [Hs Hst]. split; [exact Hs|].
        intros x Hx. apply Hst in Hx. destruct Hx as [Hx|Hx]; [|now right].
        unfold BoardVisitor.Visit in Hx. destruct (negb _); cbn [snd BoardVisitor.stack_] in Hx.
        -- destruct Hx as [<-|Hx]; [|now left]. right. now apply color_eqb_eq.
        -- now left.
      * apply IH in H. exact H.
Qed.

Lemma RemoveGroup_loop_colors rc oc id : forall fuel p bv p' bv',
  (forall x, In x (BoardVisitor.stack_ bv) -> color_at p x = rc \/ color_at p x = kEmpty) ->
  RemoveGroup_loop kN fuel rc oc id p bv = Ok (p', bv') ->
  length (stones_ p') = length (stones_ p) /\
  forall x, color_at p' x = color_at p x \/ (color_at p x = rc /\ color_at p' x = kEmpty).
Proof.
  induction fuel as [|fuel IH]; intros p bv p' bv' Hst H; cbn [RemoveGroup_loop] in H.
  - destruct (BoardVisitor.Done bv); [|discriminate]. inversion H; subst. auto.
  - destruct (BoardVisitor.Done bv); [inversion H; subst; auto|].
    bind_inv H. destruct a as [c bv1]. bind_inv H.
    unfold BoardVisitor.Next in Hm.
    destruct (BoardVisitor.stack_ bv) as [|c0 rest] eqn:Es; [discriminate|].
    inversion Hm; subst c0 bv1. clear Hm.
    destruct (fold_left _ _ _) as [[p2 bv2] og2] eqn:Ef.
    apply RemoveGroup_neighbor_fold in Ef. destruct Ef as [Hs2 Hst2].
    cbn [BoardVisitor.stack_] in Hst2.
    assert (Hcol2 : forall x, color_at p2 x = color_at (set_stone p c Stone.default) x).
    { intros x. unfold color_at, stone_at. now rewrite Hs2. }
    apply IH in H.
    + destruct H as [Hlen Hrel]. split.
      * rewrite Hlen, Hs2. apply set_stone_length.
      * intros x. specialize (Hrel x). rewrite Hcol2 in Hrel.
        destruct (Nat.eq_dec x c) as [->|Hx].
        -- rewrite color_at_set_default in Hrel.
           assert (Hp' : color_at p' c = kEmpty) by (destruct Hrel as [E|[_ E]]; exact E).
           destruct (Hst c (or_introl eq_refl)) as [E|E].
           ++ right. auto.
           ++ left. congruence.
        -- rewrite color_at_set_stone_other in Hrel by exact Hx. exact Hrel.
    + intros x Hx. rewrite Hcol2. apply Hst2 in Hx.
      destruct (Nat.eq_dec x c) as [->|Hne].
      * right. apply color_at_set_default.
      * rewrite color_at_set_stone_other by exact Hne.
        destruct Hx as [Hx|Hx].
        -- apply Hst. now right.
        -- left. rewrite color_at_set_stone_other in Hx by exact Hne. exact Hx.
Qed.

Lemma RemoveGroup_colors p v c p' v' :
  RemoveGroup kN kMaxNumGroups p v c = Ok (p', v') ->
  length (stones_ p') = length (stones_ p) /\
  forall x, color_at p' x = color_at p x \/
            (color_at p x = color_at p c /\ color_at p' x = kEmpty).
Proof.
  unfold RemoveGroup. intros H. bind_inv H. bind_inv H. destruct a0 as [q bv].
  inversion H; subst. clear H.
  apply RemoveGroup_loop_colors in Hm0; [exact Hm0|].
  unfold BoardVisitor.Begin in Hm. bind_inv Hm. apply assert_ok in Hm1.
  inversion Hm; subst a. clear Hm.
  unfold BoardVisitor.Done in Hm1.
  destruct (BoardVisitor.stack_ (board_visitor_ v)) eqn:Es; [|discriminate].
  intros x Hx. unfold BoardVisitor.Visit in Hx.
  destruct (negb _); cbn [snd BoardVisitor.stack_] in Hx; rewrite ?Es in Hx.
  - destruct Hx as [<-|[]]. now left.
  - destruct Hx.
Qed.

Lemma remove_captured_colors color opp : forall captured p v p' v',
  (forall g x, In (g, x) captured -> color_at p x = opp \/ color_at p x = kEmpty) ->
  remove_captured kN kMaxNumGroups p v color captured = Ok (p', v') ->
  length (stones_ p') = length (stones_ p) /\
  forall x, color_at p' x = color_at p x \/ (color_at p x = opp /\ color_at p' x = kEmpty).
Proof.
  induction captured as [|[id nc] rest IH]; intros p v p' v' Hseed H;
    cbn [remove_captured] in H.
  - inversion H; subst. auto.
  - bind_inv H. destruct a as [p1 v1].
    apply RemoveGroup_colors in Hm. destruct Hm as [Hlen1 Hrel1].
    change (length (stones_ p1) = length (stones_ p)) in Hlen1.
    assert (Hrel : forall x, color_at p1 x = color_at p x \/
                             (color_at p x = opp /\ color_at p1 x = kEmpty)).
    { intros x. specialize (Hrel1 x).
      change (color_at p1 x = color_at p x \/
              (color_at p x = color_at p nc /\ color_at p1 x = kEmpty)) in Hrel1.
      destruct Hrel1 as [E|[E1 E2]]; [now left|].
      destruct (Hseed id nc (or_introl eq_refl)) as [E|E].
      - right. split; congruence.
      - left. congruence. }
    apply IH in H.
    + destruct H as [Hlen2 Hrel2]. split; [congruence|].
      intros x. destruct (Hrel2 x) as [E|[E1 E2]]; destruct (Hrel x) as [F|[F1 F2]].
      * left. congruence.
      * right. split; congruence.
      * right. split; congruence.
      * right. split; congruence.
    + intros g x Hin. destruct (Hrel x) as [E|[E1 E2]]; [|now right].
      rewrite E. apply (Hseed g x). now right.
Qed.

Lemma MergeGroup_loop_colors s opp : forall fuel p bv p' bv',
  MergeGroup_loop kN fuel s opp p bv = Ok (p', bv') ->
  length (stones_ p') = length (stones_ p) /\ forall x, color_at p' x = color_at p x.
Proof.
  induction fuel as [|fuel IH]; intros p bv p' bv' H; cbn [MergeGroup_loop] in H.
  - destruct (BoardVisitor.Done bv); [|discriminate]. inversion H; subst. auto.
  - destruct (BoardVisitor.Done bv); [inversion H; subst; auto|].
    bind_inv H. destruct a as [c bv1].
    destruct (color_eqb (Stone.color (stone_at p c)) kEmpty).
    + apply IH in H. exact H.
    + bind_inv H. apply assert_ok in Hm0. apply color_eqb_eq in Hm0.
      apply IH in H. destruct H as [Hlen Hrel]. split.
      * rewrite Hlen, set_stone_length. reflexivity.
      * intros x. rewrite Hrel.
        match goal with
        | |- color_at (set_stone ?q c s) x = _ =>
            rewrite (@color_at_set_same_color q c s x); [reflexivity|]
        end.
        symmetry. exact Hm0.
Qed.

Lemma MergeGroup_colors p v c p' v' :
  MergeGroup kN p v c = Ok (p', v') ->
  length (stones_ p') = length (stones_ p) /\ forall x, color_at p' x = color_at p x.
Proof.
  unfold MergeGroup. intros H. bind_inv H. bind_inv H. destruct a0 as [q bv].
  inversion H; subst. clear H.
  apply MergeGroup_loop_colors in Hm0. exact Hm0.
Qed.

Lemma place_stone_colors p v c color libs ngs p' v' :
  c < length (stones_ p) ->
  place_stone kN p v c color libs ngs = Ok (p', v') ->
  length (stones_ p') = length (stones_ p) /\
  color_at p' c = color /\
  forall x, x <> c -> color_at p' x = color_at p x.
Proof.
  intros Hc H. unfold place_stone in H. destruct ngs as [|id [|id2 others]].
  - bind_inv H. destruct a as [g pool]. inversion H; subst. clear H.
    split; [rewrite set_stone_length; reflexivity|]. split.
    + rewrite color_at_set_stone_same by exact Hc. reflexivity.
    + intros x Hx. rewrite color_at_set_stone_other by exact Hx. reflexivity.
  - inversion H; subst. clear H.
    split; [rewrite set_stone_length; reflexivity|]. split.
    + rewrite color_at_set_stone_same by exact Hc. reflexivity.
    + intros x Hx. rewrite color_at_set_stone_other by exact Hx. reflexivity.
  - bind_inv H. destruct a as [q w]. inversion H; subst. clear H.
    apply MergeGroup_colors in Hm. destruct Hm as [Hlen Hrel].
    split; [|split].
    + change (length (stones_ q) = length (stones_ p)). rewrite Hlen. apply set_stone_length.
    + change (color_at q c = color). rewrite Hrel.
      rewrite color_at_set_stone_same by exact Hc. reflexivity.
    + intros x Hx. change (color_at q x = color_at p x). rewrite Hrel.
      now rewrite color_at_set_stone_other.
Qed.

Lemma AddStoneToBoard_colors p v c color p' v' :
  color <> kEmpty -> c < length (stones_ p) -> color_at p c = kEmpty ->
  AddStoneToBoard kN kMaxNumGroups p v c color = Ok (p', v') ->
  length (stones_ p') = length (stones_ p) /\
  color_at p' c = color /\
  forall x, x <> c ->
    color_at p' x = color_at p x \/
    (color_at p x = OtherColor color /\ color_at p' x = kEmpty).
Proof.
  intros Hcol Hc Hempty H. unfold AddStoneToBoard in H.
  bind_inv H. destruct a as [p1 v1]. bind_inv H. destruct a as [p2 v2].
  inversion H; subst. clear H.
  apply place_stone_colors in Hm; [|exact Hc].
  destruct Hm as [Hlen1 [Hc1 Hrel1]].
  change (length (stones_ p1) = length (stones_ p)) in Hlen1.
  assert (Hrel1' : forall x, x <> c -> color_at p1 x = color_at p x) by exact Hrel1.
  clear Hrel1.
  apply (@remove_captured_colors color (OtherColor color)) in Hm0.
  - destruct Hm0 as [Hlen2 Hrel2].
    destruct (update_ko_fields kN p2 (captured_groups (scan_neighbors kN p c color))
                (IsKoish kN p c) (OtherColor color)) as [Hst _].
    unfold color_at, stone_at. rewrite Hst. fold (stone_at p2). 
    split; [congruence|]. split.
    + change (color_at p2 c = color).
      destruct (Hrel2 c) as [E|[E _]]; [congruence|].
      exfalso. rewrite Hc1 in E. symmetry in E. now apply OtherColor_neq in E.
    + intros x Hx. change (color_at p2 x = color_at p x \/
                           (color_at p x = OtherColor color /\ color_at p2 x = kEmpty)).
      rewrite <- (Hrel1' x Hx). apply Hrel2.
  - intros g x Hin. left.
    destruct (@scan_neighbors_inv kN p color Hcol c) as [_ [_ [Hcap _]]].
    destruct (Hcap g x Hin) as [_ [Hx _]].
    assert (x <> c).
    { intros ->. unfold color_at in Hempty. rewrite Hempty in Hx.
      symmetry in Hx. now apply OtherColor_not_empty in Hx. }
    rewrite Hrel1' by assumption. exact Hx.
Qed.

(** A stone move fills the point played, which was empty, with a stone of
    the color that moved.  Every other point keeps its color, except that
    stones of the opponent may leave the board: the mover's own stones
    stay, and no stone appears anywhere else. *)
Theorem stone_move_changes_board (p : Position) (v : Scratch) (c : Coord) (k : Color)
        (p' : Position) (v' : Scratch) :
  length (stones_ p) = kN * kN ->
  mover p k <> kEmpty ->
  c <> kPass kN ->
  PlayMove kN kMaxNumGroups p v c k = Ok (p', v') ->
  color_at p c = kEmpty /\
  color_at p' c = mover p k /\
  (forall x, x <> c ->
     color_at p' x = color_at p x \/
     (color_at p x = OtherColor (mover p k) /\ color_at p' x = kEmpty)) /\
  length (stones_ p') = kN * kN.
Proof.
  intros Hlen Hm Hc H.
  destruct (@PlayMove_stone_inv kN kMaxNumGroups p v c k p' v' Hc H) as [Hlegal [r [Hadd Hp']]].
  set (q := if color_eqb k kEmpty then p else with_to_play p k) in *.
  assert (Hq : stones_ q = stones_ p) by (unfold q; destruct (color_eqb k kEmpty); reflexivity).
  assert (Hcq : forall x, color_at q x = color_at p x).
  { intros x. unfold color_at, stone_at. now rewrite Hq. }
  assert (Hon : on_board kN c) by (apply (@IsMoveLegal_on_board kN q c Hlegal Hc)).
  assert (Hempty : color_at p c = kEmpty).
  { rewrite <- Hcq. unfold IsMoveLegal in Hlegal.
    apply Nat.eqb_neq in Hc. rewrite Hc in Hlegal.
    destruct (Stone.empty (stone_at q c)) eqn:E; [|discriminate].
    now apply empty_color. }
  apply AddStoneToBoard_colors in Hadd.
  - destruct Hadd as [Hl [Hcc Hrel]].
    assert (Hcp' : forall x, color_at p' x = color_at r x) by (intros x; now subst p').
    split; [exact Hempty|]. split; [now rewrite Hcp'|]. split.
    + intros x Hx. rewrite Hcp', <- Hcq. now apply Hrel.
    + subst p'. cbn [stones_]. congruence.
  - exact Hm.
  - rewrite Hq, Hlen. exact Hon.
  - now rewrite Hcq.
Qed.

End ColorFrame.

Lemma stone_move_changes_board_witness :
  color_at Game9.start 40 = kEmpty /\
  exists p' v', PlayMove 9 81 Game9.start Game9.scratch 40 kEmpty = Ok (p', v') /\
    color_at p' 40 = kBlack.
Proof.
  assert (E : PlayMove 9 81 Game9.start Game9.scratch 40 kEmpty
              = Ok (after9 [(40, kEmpty)], scratch_after9 [(40, kEmpty)]))
    by (vm_compute; reflexivity).
  assert (Hlen : length (stones_ Game9.start) = 9 * 9) by reflexivity.
  assert (Hm : mover Game9.start kEmpty <> kEmpty) by (vm_compute; discriminate).
  assert (Hc : 40 <> kPass 9) by (vm_compute; lia).
  destruct (@stone_move_changes_board 9 81 _ _ _ _ _ _ Hlen Hm Hc E) as [H1 [H2 _]].
  split; [exact H1|]. eexists; eexists. split; [exact E|]. exact H2.
Defined.

(** ** The traversals of a game terminate *)

(** [MergeGroup] and [RemoveGroup] flood the board with a stack and a tag
    per point; each of their loops ends within [2 * kN * kN] iterations.
    So a game, whatever the moves and the position it starts from, never
    stops for lack of fuel: it is played to its end or stops on a failure
    of the source (an assertion, an empty stack, the group pool), and the
    tag array keeps its size. *)
Theorem games_end_within_fuel (kN kMaxNumGroups : nat) (moves : list (Coord * Color))
        (p : Position) (v : Scratch) :
  sized kN (board_visitor_ v) ->
  play_moves kN kMaxNumGroups p v moves <> Fail OutOfFuel /\
  forall p' v', play_moves kN kMaxNumGroups p v moves = Ok (p', v') ->
                sized kN (board_visitor_ v').
Proof.
  revert p v. induction moves as [|[c k] moves IH]; intros p v Hs; cbn [play_moves].
  - split; [discriminate|]. intros p' v' H. inversion H; subst. exact Hs.
  - pose proof (@PlayMove_fuel kN kMaxNumGroups p v c k Hs) as H.
    destruct (PlayMove kN kMaxNumGroups p v c k) as [[q w]|e]; cbn [bind].
    + apply IH. exact H.
    + split; [|discriminate]. intros E. inversion E; subst. now apply H.
Qed.

Lemma games_end_within_fuel_witness :
  play_moves 9 81 Game9.start Game9.scratch Game9.corner_capture <> Fail OutOfFuel.
Proof.
  assert (Hs : sized 9 (board_visitor_ Game9.scratch)) by reflexivity.
  exact (proj1 (@games_end_within_fuel 9 81 Game9.corner_capture Game9.start
                  Game9.scratch Hs)).
Defined.

(** ** The score does not depend on the history of the visitors *)

Lemma same_marks_upd e1 t1 e2 t2 i :
  same_marks e1 t1 e2 t2 -> same_marks e1 (upd i e1 t1) e2 (upd i e2 t2).
Proof.
  intros [Hlen H]. split; [now rewrite !upd_length|].
  intros j. destruct (Nat.eq_dec j i) as [->|Hne].
  - destruct (Nat.lt_ge_cases i (length t1)) as [Hlt|Hge].
    + rewrite !nth_upd_same by lia. now rewrite !Z.eqb_refl.
    + rewrite !upd_beyond by lia. apply H.
  - rewrite !nth_upd_other by auto. apply H.
Qed.

Lemma BoardVisit_agree c bv1 bv2 :
  board_visitors_agree bv1 bv2 ->
  fst (BoardVisitor.Visit c bv1) = fst (BoardVisitor.Visit c bv2) /\
  board_visitors_agree (snd (BoardVisitor.Visit c bv1)) (snd (BoardVisitor.Visit c bv2)).
Proof.
  intros [Hst Hm]. unfold BoardVisitor.Visit. rewrite (proj2 Hm c).
  destruct (negb _); cbn [fst snd]; split; try reflexivity.
  - split; cbn [BoardVisitor.stack_ BoardVisitor.visited_ BoardVisitor.epoch_].
    + now rewrite Hst.
    + now apply same_marks_upd.
  - split; assumption.
Qed.

Lemma GroupVisit_agree id gv1 gv2 :
  group_visitors_agree gv1 gv2 ->
  fst (GroupVisitor.Visit id gv1) = fst (GroupVisitor.Visit id gv2) /\
  group_visitors_agree (snd (GroupVisitor.Visit id gv1)) (snd (GroupVisitor.Visit id gv2)).
Proof.
  intros Hm. unfold GroupVisitor.Visit. rewrite (proj2 Hm id).
  destruct (negb _); cbn [fst snd]; split; try reflexivity; [|assumption].
  unfold group_visitors_agree. cbn [GroupVisitor.visited_ GroupVisitor.epoch_].
  now apply same_marks_upd.
Qed.

Section ScoreAgree.

Variable kN : nat.
Variable kMaxNumGroups : nat.
Variable p : Position.

Lemma score_visits_agree : forall ncs bv1 bv2 fb,
  board_visitors_agree bv1 bv2 ->
  snd (fold_left (score_visit p) ncs (bv1, fb))
    = snd (fold_left (score_visit p) ncs (bv2, fb)) /\
  board_visitors_agree (fst (fold_left (score_visit p) ncs (bv1, fb)))
                       (fst (fold_left (score_visit p) ncs (bv2, fb))).
Proof.
  induction ncs as [|nc ncs IH]; intros bv1 bv2 fb H; cbn [fold_left].
  - split; [reflexivity | exact H].
  - unfold score_visit at 2 4 6 8.
    destruct (color_eqb (Stone.color (stone_at p nc)) kEmpty).
    + apply IH. now apply BoardVisit_agree.
    + now apply IH.
Qed.

Lemma score_empty_area_loop_agree : forall fuel bv1 bv2 nv fb,
  board_visitors_agree bv1 bv2 ->
  result_agree (fun a b => fst a = fst b /\ board_visitors_agree (snd a) (snd b))
               (score_empty_area_loop kN fuel p bv1 nv fb)
               (score_empty_area_loop kN fuel p bv2 nv fb).
Proof.
  induction fuel as [|fuel IH]; intros bv1 bv2 nv fb H; cbn [score_empty_area_loop].
  - reflexivity.
  - unfold BoardVisitor.Next. destruct H as [Hst Hm]. rewrite Hst.
    destruct (BoardVisitor.stack_ bv2) as [|c rest]; cbn [bind]; [reflexivity|].
    match goal with
    | |- context [fold_left (score_visit p) ?l (?b1, fb)] =>
        match goal with
        | |- context [fold_left (score_visit p) l (?b2, fb)] =>
            lazymatch b1 with
            | b2 => fail
            | _ => destruct (@score_visits_agree l b1 b2 fb) as [Hfb Hbv]
            end
        end
    end.
    { split; [reflexivity | exact Hm]. }
    destruct (fold_left (score_visit p) _ (_, fb)) as [b1 f1].
    destruct (fold_left (score_visit p) _ (_, fb)) as [b2 f2].
    cbn [fst snd] in Hfb, Hbv. subst f2.
    assert (Hd : BoardVisitor.Done b1 = BoardVisitor.Done b2).
    { unfold BoardVisitor.Done. now rewrite (proj1 Hbv). }
    rewrite Hd. destruct (negb (BoardVisitor.Done b2)).
    + now apply IH.
    + cbn [result_agree fst snd]. auto.
Qed.

Lemma score_empty_area_agree bv1 bv2 :
  board_visitors_agree bv1 bv2 ->
  result_agree (fun a b => fst a = fst b /\ board_visitors_agree (snd a) (snd b))
               (score_empty_area kN p bv1) (score_empty_area kN p bv2).
Proof.
  intros H. unfold score_empty_area.
  pose proof (@score_empty_area_loop_agree (traversal_fuel kN) bv1 bv2 0%Z 0%Z H) as L.
  destruct (score_empty_area_loop kN (traversal_fuel kN) p bv1 0 0) as [[[n1 f1] b1]|e1];
    destruct (score_empty_area_loop kN (traversal_fuel kN) p bv2 0 0) as [[[n2 f2] b2]|e2];
    cbn [result_agree bind fst snd] in *; try contradiction; [|exact L].
  destruct L as [E Hb]. inversion E; subst. auto.
Qed.

Lemma score_point_agree s v1 v2 c :
  scratch_agree v1 v2 ->
  result_agree (fun a b => fst a = fst b /\ scratch_agree (snd a) (snd b))
               (score_point kN p (s, v1) c) (score_point kN p (s, v2) c).
Proof.
  intros [Hb Hg]. unfold score_point.
  destruct (Stone.empty (stone_at p c)).
  - destruct (@BoardVisit_agree c _ _ Hb) as [Hf Hb'].
    destruct (BoardVisitor.Visit c (board_visitor_ v1)) as [f1 b1].
    destruct (BoardVisitor.Visit c (board_visitor_ v2)) as [f2 b2].
    cbn [fst snd] in Hf, Hb'. subst f2. destruct f1.
    + pose proof (score_empty_area_agree Hb') as L.
      destruct (score_empty_area kN p b1) as [[a1 c1]|e1];
        destruct (score_empty_area kN p b2) as [[a2 c2]|e2];
        cbn [result_agree bind fst snd] in *; try contradiction; [|exact L].
      destruct L as [-> Hc]. split; [reflexivity|]. split; assumption.
    + cbn [result_agree fst snd]. split; [reflexivity|]. split; assumption.
  - destruct (@GroupVisit_agree (Stone.group_id (stone_at p c)) _ _ Hg) as [Hf Hg'].
    destruct (GroupVisitor.Visit _ (group_visitor_ v1)) as [f1 g1].
    destruct (GroupVisitor.Visit _ (group_visitor_ v2)) as [f2 g2].
    cbn [fst snd] in Hf, Hg'. subst f2.
    destruct f1; [destruct (color_eqb _ kBlack)|];
      cbn [result_agree fst snd]; (split; [reflexivity|]; split; assumption).
Qed.

Lemma score_points_agree : forall cs s v1 v2,
  scratch_agree v1 v2 ->
  result_agree (fun a b => fst a = fst b /\ scratch_agree (snd a) (snd b))
               (score_points kN p (s, v1) cs) (score_points kN p (s, v2) cs).
Proof.
  induction cs as [|c cs IH]; intros s v1 v2 H; cbn [score_points].
  - cbn [result_agree fst snd]. auto.
  - pose proof (@score_point_agree s v1 v2 c H) as L.
    destruct (score_point kN p (s, v1) c) as [[s1 w1]|e1];
      destruct (score_point kN p (s, v2) c) as [[s2 w2]|e2];
      cbn [result_agree bind fst snd] in *; try contradiction; [|exact L].
    destruct L as [-> Hw]. now apply IH.
Qed.

Lemma fresh_marks n e t :
  tags_bounded e t -> e <> 255%Z ->
  forall i,
    (nth i (if (e =? 0)%Z then repeat 0%Z n else t) 0 =? u8 (e + 1))%Z = false.
Proof.
  intros Hb Hne i.
  assert (He : (0 <= e <= 255)%Z) by (destruct Hb; assumption).
  assert (Hu : u8 (e + 1) = (e + 1)%Z) by (unfold u8; apply Z.mod_small; lia).
  rewrite Hu. apply Z.eqb_neq.
  assert (Hb0 : tags_bounded e (if (e =? 0)%Z then repeat 0%Z n else t)).
  { destruct (e =? 0)%Z; [now apply tags_bounded_zeros | exact Hb]. }
  pose proof (@nth_bounded_tag _ _ i Hb0). lia.
Qed.

Lemma board_score_agree v1 v2 :
  scratch_fresh kN kMaxNumGroups v1 -> scratch_fresh kN kMaxNumGroups v2 ->
  result_agree (fun a b => fst a = fst b /\ scratch_agree (snd a) (snd b))
               (board_score kN kMaxNumGroups p v1) (board_score kN kMaxNumGroups p v2).
Proof.
  intros [[Hd1 Hs1] [Hb1 [Hn1 [Hl1 [Hg1 Hm1]]]]] [[Hd2 Hs2] [Hb2 [Hn2 [Hl2 [Hg2 Hm2]]]]].
  unfold board_score, BoardVisitor.Begin. rewrite Hd1, Hd2. cbn [assert bind].
  apply score_points_agree. split.
  - split; cbn [board_visitor_ BoardVisitor.stack_ BoardVisitor.visited_
                BoardVisitor.epoch_].
    + unfold BoardVisitor.Done in Hd1, Hd2.
      destruct (BoardVisitor.stack_ (board_visitor_ v1)); [|discriminate].
      destruct (BoardVisitor.stack_ (board_visitor_ v2)); [|discriminate]. reflexivity.
    + split.
      * destruct (_ =? 0)%Z; destruct (_ =? 0)%Z; rewrite ?repeat_length; congruence.
      * intros i. rewrite (fresh_marks (kN * kN) Hb1 Hn1), (fresh_marks (kN * kN) Hb2 Hn2).
        reflexivity.
  - unfold group_visitors_agree, GroupVisitor.Begin.
    cbn [group_visitor_ GroupVisitor.visited_ GroupVisitor.epoch_]. split.
    + destruct (_ =? 0)%Z; destruct (_ =? 0)%Z; rewrite ?repeat_length; congruence.
    + intros i. rewrite (fresh_marks kMaxNumGroups Hg1 Hm1), (fresh_marks kMaxNumGroups Hg2 Hm2).
      reflexivity.
Qed.

(** The score of a position is the same whatever traversals the shared
    visitors served before, as long as each of them has begun fewer than
    255: two runs of [CalculateScore] from two such visitor states return
    the same score. *)
Theorem score_independent_of_visitors (v1 v2 : Scratch) :
  scratch_fresh kN kMaxNumGroups v1 -> scratch_fresh kN kMaxNumGroups v2 ->
  exists (s : Q) (v1' v2' : Scratch),
    CalculateScore kN kMaxNumGroups p v1 = Ok (s, v1') /\
    CalculateScore kN kMaxNumGroups p v2 = Ok (s, v2') /\
    scratch_agree v1' v2'.
Proof.
  intros H1 H2.
  pose proof (board_score_agree H1 H2) as L.
  destruct (@board_score_total kN kMaxNumGroups p v1 (proj1 H1)) as [s1 [w1 E1]].
  destruct (@board_score_total kN kMaxNumGroups p v2 (proj1 H2)) as [s2 [w2 E2]].
  rewrite E1, E2 in L. cbn [result_agree fst snd] in L. destruct L as [-> Hw].
  exists (inject_Z s2 - komi_ p)%Q, w1, w2.
  unfold CalculateScore. rewrite E1, E2. cbn [bind]. auto.
Qed.

End ScoreAgree.

Lemma score_independent_of_visitors_witness :
  exists (s : Q) (v1' v2' : Scratch),
    CalculateScore 9 81 Game9.corner_eye Game9.scratch = Ok (s, v1') /\
    CalculateScore 9 81 Game9.corner_eye (scratch_after9 Game9.corner_capture)
      = Ok (s, v2') /\
    scratch_agree v1' v2'.
Proof.
  apply score_independent_of_visitors.
  - split; [split; reflexivity|]. split; [|split; [|split; [|split]]].
    + apply tags_bounded_zeros. simpl. lia.
    + simpl. lia.
    + reflexivity.
    + apply tags_bounded_zeros. simpl. lia.
    + simpl. lia.
  - split; [split; reflexivity|]. split; [|split; [|split; [|split]]].
    + split; [vm_compute; split; discriminate|].
      vm_compute. repeat constructor; discriminate.
    + vm_compute. discriminate.
    + reflexivity.
    + split; [vm_compute; split; discriminate|].
      vm_compute. repeat constructor; discriminate.
    + vm_compute. discriminate.
Defined.

(** ** Board strings *)

Lemma StrSplit_line sep : forall line rest,
  ~ In sep line -> StrSplit sep (line ++ sep :: rest) = line :: StrSplit sep rest.
Proof.
  induction line as [|ch line IH]; intros rest Hnot; cbn [app StrSplit].
  - rewrite Ascii.eqb_refl. reflexivity.
  - destruct (Ascii.eqb_spec ch sep) as [->|Hne].
    + exfalso. apply Hnot. now left.
    + rewrite IH; [reflexivity|]. intros Hin. apply Hnot. now right.
Qed.

Lemma StrSplit_unlines : forall lines,
  Forall (fun line => ~ In newline line) lines ->
  StrSplit newline (unlines lines) = lines ++ [[]].
Proof.
  induction lines as [|line lines IH]; intros Hall; [reflexivity|].
  inversion Hall as [|x l Hline Hrest]; subst.
  unfold unlines. cbn [flat_map]. rewrite <- app_assoc. cbn [app].
  rewrite StrSplit_line by exact Hline. fold (unlines lines).
  rewrite IH by exact Hrest. reflexivity.
Qed.

Lemma StrSplit_pieces sep : forall str,
  Forall (fun piece => ~ In sep piece) (StrSplit sep str).
Proof.
  induction str as [|ch str IH]; cbn [StrSplit].
  - constructor; [intros [] | constructor].
  - destruct (Ascii.eqb_spec ch sep) as [->|Hne].
    + constructor; [intros [] | exact IH].
    + destruct (StrSplit sep str) as [|piece pieces].
      * constructor; [|constructor]. intros [H|[]]. congruence.
      * inversion IH as [|x l Hp Hps]; subst. constructor; [|exact Hps].
        intros [H|H]; [congruence | contradiction].
Qed.

Lemma strip_leading_suffix : forall str,
  exists pre, str = pre ++ strip_leading str.
Proof.
  induction str as [|ch str [pre IH]]; cbn [strip_leading].
  - exists []. reflexivity.
  - destruct (ascii_isspace ch).
    + exists (ch :: pre). cbn [app]. now rewrite <- IH.
    + exists []. reflexivity.
Qed.

Lemma strip_leading_clean : forall str, starts_clean (strip_leading str).
Proof.
  induction str as [|ch str IH]; cbn [strip_leading]; [exact I|].
  destruct (ascii_isspace ch) eqn:E; [exact IH | exact E].
Qed.

Lemma strip_leading_id str : starts_clean str -> strip_leading str = str.
Proof.
  destruct str as [|ch str]; cbn [starts_clean strip_leading]; [reflexivity|].
  intros ->. reflexivity.
Qed.

Lemma starts_clean_prefix a b : starts_clean (a ++ b) -> starts_clean a.
Proof. destruct a; [intros _; exact I | exact (fun H => H)]. Qed.

Lemma Strip_clean_ends str : clean_ends (StripAsciiWhitespace str).
Proof.
  unfold StripAsciiWhitespace, clean_ends. rewrite rev_involutive.
  split; [|apply strip_leading_clean].
  destruct (strip_leading_suffix (rev (strip_leading str))) as [pre E].
  apply (f_equal (@rev ascii)) in E. rewrite rev_involutive, rev_app_distr in E.
  apply starts_clean_prefix with (b := rev pre). rewrite <- E.
  apply strip_leading_clean.
Qed.

Lemma Strip_id str : clean_ends str -> StripAsciiWhitespace str = str.
Proof.
  intros [H1 H2]. unfold StripAsciiWhitespace.
  rewrite (@strip_leading_id _ H1), (@strip_leading_id _ H2). apply rev_involutive.
Qed.

Lemma Strip_members str ch : In ch (StripAsciiWhitespace str) -> In ch str.
Proof.
  unfold StripAsciiWhitespace. intros H. apply in_rev in H.
  destruct (strip_leading_suffix (rev (strip_leading str))) as [pre1 E1].
  assert (H1 : In ch (rev (strip_leading str))).
  { rewrite E1. apply in_or_app. now right. }
  apply in_rev in H1.
  destruct (strip_leading_suffix str) as [pre2 E2].
  rewrite E2. apply in_or_app. now right.
Qed.

Lemma rev_repeat {A : Type} (x : A) : forall n, rev (repeat x n) = repeat x n.
Proof.
  induction n as [|n IH]; [reflexivity|].
  cbn [repeat rev]. rewrite IH. symmetry. apply repeat_cons.
Qed.

Lemma dots_line kN : 0 < kN -> board_line kN (repeat "."%char kN).
Proof.
  intros Hk. split; [apply repeat_length|]. split.
  - intros H. apply repeat_spec in H. discriminate.
  - unfold clean_ends. rewrite rev_repeat.
    destruct kN; [lia|]. split; reflexivity.
Qed.

Lemma resize_line kN str :
  0 < kN -> str <> [] -> length str <= kN -> ~ In newline str -> clean_ends str ->
  board_line kN (resize kN "."%char str).
Proof.
  intros Hk Hne Hlen Hnl [H1 H2]. unfold resize.
  rewrite firstn_all2 by exact Hlen. split; [|split].
  - rewrite length_app, repeat_length. lia.
  - intros H. apply in_app_or in H. destruct H as [H|H]; [contradiction|].
    apply repeat_spec in H. discriminate.
  - split.
    + destruct str; [congruence | exact H1].
    + rewrite rev_app_distr, rev_repeat.
      destruct (kN - length str); [exact H2 | reflexivity].
Qed.

Lemma resize_full kN str : length str = kN -> resize kN "."%char str = str.
Proof.
  intros H. unfold resize. rewrite firstn_all2 by lia.
  rewrite H, Nat.sub_diag. apply app_nil_r.
Qed.

Section BoardStringFacts.

Variable kN : nat.
Hypothesis board_not_empty : 0 < kN.

Lemma split_lines_of_board_lines : forall lines acc,
  Forall (board_line kN) lines ->
  split_lines kN (lines ++ [[]]) acc = Ok (acc ++ lines).
Proof.
  induction lines as [|line lines IH]; intros acc Hall.
  - cbn [app split_lines]. change (StripAsciiWhitespace []) with (@nil ascii).
    now rewrite app_nil_r.
  - inversion Hall as [|x l [Hlen [Hnl Hce]] Hrest]; subst.
    cbn [app split_lines]. rewrite (Strip_id Hce).
    destruct line as [|ch line]; [simpl in board_not_empty; lia|].
    rewrite Nat.leb_refl. cbn [assert bind].
    rewrite resize_full by reflexivity.
    rewrite IH by exact Hrest. rewrite <- app_assoc. reflexivity.
Qed.

Lemma SplitBoardString_unlines lines :
  length lines = kN -> Forall (board_line kN) lines ->
  SplitBoardString kN (unlines lines) = Ok lines.
Proof.
  intros Hlen Hall. unfold SplitBoardString.
  rewrite StrSplit_unlines.
  2:{ eapply Forall_impl; [|exact Hall]. intros l [_ [H _]]. exact H. }
  rewrite split_lines_of_board_lines by exact Hall. cbn [bind app].
  rewrite Hlen, Nat.leb_refl, Nat.sub_diag. cbn [assert bind repeat].
  now rewrite app_nil_r.
Qed.

Lemma split_lines_board_lines : forall pieces acc lines,
  Forall (fun piece => ~ In newline piece) pieces ->
  Forall (board_line kN) acc ->
  split_lines kN pieces acc = Ok lines ->
  Forall (board_line kN) lines.
Proof.
  induction pieces as [|piece pieces IH]; intros acc lines Hp Hacc H;
    cbn [split_lines] in H.
  - inversion H; subst. exact Hacc.
  - inversion Hp as [|x l Hpiece Hrest]; subst.
    destruct (StripAsciiWhitespace piece) as [|ch stripped] eqn:E.
    + eapply IH; eassumption.
    + bind_inv H. apply assert_ok in Hm. apply Nat.leb_le in Hm.
      eapply IH; [exact Hrest | | exact H].
      apply Forall_app. split; [exact Hacc|]. constructor; [|constructor].
      apply resize_line; try assumption.
      * discriminate.
      * intros Hin. apply Hpiece. apply Strip_members. now rewrite E.
      * rewrite <- E. apply Strip_clean_ends.
Qed.

Lemma SplitBoardString_board_lines str lines :
  SplitBoardString kN str = Ok lines ->
  length lines = kN /\ Forall (board_line kN) lines.
Proof.
  unfold SplitBoardString. intros H. bind_inv H. bind_inv H.
  apply assert_ok in Hm0. apply Nat.leb_le in Hm0. inversion H; subst. clear H.
  split.
  - rewrite length_app, repeat_length. lia.
  - apply Forall_app. split.
    + eapply split_lines_board_lines; [apply StrSplit_pieces | constructor | exact Hm].
    + apply Forall_forall. intros l Hl. apply repeat_spec in Hl. subst.
      now apply dots_line.
Qed.

Lemma StrJoin_unlines : forall lines,
  lines <> [] -> StrJoin lines [newline] ++ [newline] = unlines lines.
Proof.
  induction lines as [|line [|line2 lines] IH]; intros Hne; [congruence| |].
  - unfold unlines. cbn [StrJoin flat_map]. now rewrite app_nil_r.
  - change (StrJoin (line :: line2 :: lines) [newline])
      with (line ++ [newline] ++ StrJoin (line2 :: lines) [newline]).
    rewrite <- !app_assoc. rewrite IH by discriminate.
    unfold unlines. cbn [flat_map]. now rewrite <- !app_assoc.
Qed.

(** [CleanBoardString] brings a board string to a normal form: cleaning
    the cleaned string returns it unchanged, and the cleaned string is
    parsed to the same board as the original. *)
Theorem clean_board_string_idempotent (str cleaned : list ascii) :
  CleanBoardString kN str = Ok cleaned ->
  CleanBoardString kN cleaned = Ok cleaned /\
  ParseBoard kN cleaned = ParseBoard kN str /\
  length cleaned = kN * (kN + 1).
Proof.
  unfold CleanBoardString, ParseBoard. intros H. bind_inv H.
  inversion H; subst. clear H.
  destruct (@SplitBoardString_board_lines _ _ Hm) as [Hlen Hall].
  assert (Hne : a <> []) by (intros ->; simpl in Hlen; lia).
  rewrite (@StrJoin_unlines _ Hne).
  rewrite (@SplitBoardString_unlines _ Hlen Hall), Hm. cbn [bind].
  rewrite (@StrJoin_unlines _ Hne). split; [reflexivity|]. split; [reflexivity|].
  clear Hm Hne. rewrite <- Hlen at 1. clear Hlen.
  induction Hall as [|line lines [Hl _] _ IH]; [reflexivity|].
  unfold unlines in *. cbn [flat_map length]. rewrite !length_app, IH, Hl.
  simpl. lia.
Qed.

End BoardStringFacts.

Lemma nth_map_seq {A : Type} (f : nat -> A) (d : A) (n i : nat) :
  i < n -> nth i (map f (seq 0 n)) d = f i.
Proof.
  intros Hi. rewrite (nth_indep _ d (f 0)) by (rewrite length_map, length_seq; exact Hi).
  rewrite map_nth, seq_nth by exact Hi. reflexivity.
Qed.

Lemma flat_map_ext_in {A B : Type} (f g : A -> list B) : forall l,
  (forall x, In x l -> f x = g x) -> flat_map f l = flat_map g l.
Proof.
  induction l as [|x l IH]; intros H; [reflexivity|].
  cbn [flat_map]. rewrite (H x (or_introl eq_refl)), IH; [reflexivity|].
  intros y Hy. apply H. now right.
Qed.

Lemma map_flat_map {A B C : Type} (f : B -> C) (g : A -> list B) : forall l,
  map f (flat_map g l) = flat_map (fun x => map f (g x)) l.
Proof.
  induction l as [|x l IH]; [reflexivity|].
  cbn [flat_map]. now rewrite map_app, IH.
Qed.

Lemma flat_map_map_lines {A B : Type} (f : A -> list B) (g : list B -> list B) : forall l,
  flat_map (fun x => g (f x)) l = flat_map g (map f l).
Proof.
  induction l as [|x l IH]; [reflexivity|]. cbn [flat_map map]. now rewrite IH.
Qed.

Section SimpleString.

Variable kN : nat.

Lemma simple_char_not_space p c : ascii_isspace (simple_char p c) = false.
Proof.
  unfold simple_char. destruct (color_eqb _ kWhite); [reflexivity|].
  destruct (color_eqb _ kBlack); [reflexivity|]. destruct (c =? ko_ p); reflexivity.
Qed.

Lemma simple_char_not_newline p c : simple_char p c <> newline.
Proof.
  unfold simple_char. destruct (color_eqb _ kWhite); [discriminate|].
  destruct (color_eqb _ kBlack); [discriminate|]. destruct (c =? ko_ p); discriminate.
Qed.

Lemma parse_simple_char p c : parse_char (simple_char p c) = color_at p c.
Proof.
  unfold simple_char, color_at. destruct (Stone.color (stone_at p c)); cbn [color_eqb].
  - destruct (c =? ko_ p); reflexivity.
  - reflexivity.
  - reflexivity.
Qed.

Lemma simple_row_line p row :
  0 < kN ->
  board_line kN (map (fun col => simple_char p (coord_of kN row col)) (seq 0 kN)).
Proof.
  intros Hk. split; [now rewrite length_map, length_seq|]. split.
  - intros H. apply in_map_iff in H. destruct H as [col [E _]].
    now apply simple_char_not_newline in E.
  - assert (Hall : forall l : list nat,
              starts_clean (map (fun col => simple_char p (coord_of kN row col)) l)).
    { intros [|x l]; [exact I | apply simple_char_not_space]. }
    split; [apply Hall|]. rewrite <- map_rev. apply Hall.
Qed.

(** Reading back the string written by [ToSimpleString] gives the colors
    of the position, point by point: a ko mark is read as an empty
    point. *)
Theorem parse_board_of_simple_string (p : Position) :
  ParseBoard kN (ToSimpleString kN p) = Ok (map (color_at p) (board_coords kN)).
Proof.
  destruct (Nat.eq_dec kN 0) as [E|E].
  - unfold ParseBoard, ToSimpleString, board_coords. rewrite E. reflexivity.
  - assert (Hk : 0 < kN) by lia.
    set (rows := map (fun row => map (fun col => simple_char p (coord_of kN row col))
                                     (seq 0 kN)) (seq 0 kN)).
    assert (Hs : ToSimpleString kN p = unlines rows).
    { unfold ToSimpleString, unlines, rows.
      apply (flat_map_map_lines
               (fun row => map (fun col => simple_char p (coord_of kN row col)) (seq 0 kN))
               (fun line => line ++ [newline])). }
    unfold ParseBoard. rewrite Hs, (SplitBoardString_unlines Hk).
    + cbn [bind]. f_equal. unfold board_coords. rewrite map_flat_map.
      apply flat_map_ext_in. intros row Hrow. apply in_seq in Hrow.
      rewrite map_map. apply map_ext_in. intros col Hcol. apply in_seq in Hcol.
      unfold rows. rewrite nth_map_seq by lia. rewrite nth_map_seq by lia.
      apply parse_simple_char.
    + unfold rows. now rewrite length_map, length_seq.
    + apply Forall_forall. intros line Hline. unfold rows in Hline.
      apply in_map_iff in Hline. destruct Hline as [row [<- _]].
      now apply simple_row_line.
Qed.

(** The string written by [ToSimpleString] is already clean. *)
Theorem simple_string_is_clean (p : Position) :
  0 < kN -> CleanBoardString kN (ToSimpleString kN p) = Ok (ToSimpleString kN p).
Proof.
  intros Hk.
  set (rows := map (fun row => map (fun col => simple_char p (coord_of kN row col))
                                   (seq 0 kN)) (seq 0 kN)).
  assert (Hs : ToSimpleString kN p = unlines rows).
  { unfold ToSimpleString, unlines, rows.
    apply (flat_map_map_lines
             (fun row => map (fun col => simple_char p (coord_of kN row col)) (seq 0 kN))
             (fun line => line ++ [newline])). }
  unfold CleanBoardString. rewrite Hs, (SplitBoardString_unlines Hk).
  - cbn [bind]. rewrite StrJoin_unlines; [reflexivity|].
    unfold rows. destruct kN; [lia | discriminate].
  - unfold rows. now rewrite length_map, length_seq.
  - apply Forall_forall. intros line Hline. unfold rows in Hline.
    apply in_map_iff in Hline. destruct Hline as [row [<- _]].
    now apply simple_row_line.
Qed.

End SimpleString.

Lemma clean_board_string_idempotent_witness :
  CleanBoardString 3 ["X"; "."; newline; " "; "O"; " "]%char
    = Ok ["X"; "."; "."; newline; "O"; "."; "."; newline; "."; "."; "."; newline]%char /\
  CleanBoardString 3
      ["X"; "."; "."; newline; "O"; "."; "."; newline; "."; "."; "."; newline]%char
    = Ok ["X"; "."; "."; newline; "O"; "."; "."; newline; "."; "."; "."; newline]%char.
Proof.
  assert (Hk : 0 < 3) by lia.
  assert (E : CleanBoardString 3 ["X"; "."; newline; " "; "O"; " "]%char
              = Ok ["X"; "."; "."; newline; "O"; "."; "."; newline; "."; "."; "."; newline]%char)
    by reflexivity.
  split; [exact E|].
  exact (proj1 (@clean_board_string_idempotent 3 Hk _ _ E)).
Defined.

Lemma simple_string_is_clean_witness :
  CleanBoardString 9 (ToSimpleString 9 Game9.corner_eye)
    = Ok (ToSimpleString 9 Game9.corner_eye).
Proof.
  apply simple_string_is_clean. lia.
Defined.

(** ** Positions built from a board string *)

Section TestablePositionFacts.

Variable kN : nat.
Variable kMaxNumGroups : nat.

Lemma add_parsed_stones_colors stones : forall n i p v p' v',
  i + n = kN * kN ->
  length (stones_ p) = kN * kN ->
  (forall x, x < i -> color_at p x = nth x stones kEmpty \/ color_at p x = kEmpty) ->
  (forall x, i <= x -> color_at p x = kEmpty) ->
  add_parsed_stones kN kMaxNumGroups stones p v (seq i n) = Ok (p', v') ->
  same_frame p p' /\
  forall x, color_at p' x = nth x stones kEmpty \/ color_at p' x = kEmpty.
Proof.
  induction n as [|n IH]; intros i p v p' v' Hin Hlen Hlow Hhigh H;
    cbn [seq add_parsed_stones] in H.
  - inversion H; subst. split; [apply same_frame_refl|].
    intros x. destruct (Nat.lt_ge_cases x i); [now apply Hlow | right; now apply Hhigh].
  - destruct (color_eqb (nth i stones kEmpty) kEmpty) eqn:Ec; cbn [negb] in H.
    + apply IH in H; try assumption; try lia.
      * intros x Hx. destruct (Nat.eq_dec x i) as [->|Hne].
        -- right. apply Hhigh. lia.
        -- apply Hlow. lia.
      * intros x Hx. apply Hhigh. lia.
    + bind_inv H. destruct a as [p1 v1].
      apply color_eqb_neq in Ec.
      pose proof (@AddStoneToBoard_frame kN kMaxNumGroups _ _ _ _ _ _ Hm) as Hf.
      apply AddStoneToBoard_colors in Hm; [|exact Ec | lia | apply Hhigh; lia].
      destruct Hm as [Hlen1 [Hi Hrel]].
      apply IH in H.
      * destruct H as [Hf2 Hall]. split; [|exact Hall].
        eapply same_frame_trans; eassumption.
      * lia.
      * congruence.
      * intros x Hx. destruct (Nat.eq_dec x i) as [->|Hne]; [now left|].
        destruct (Hrel x Hne) as [E|[_ E]]; [|now right].
        rewrite E. apply Hlow. lia.
      * intros x Hx. assert (Hne : x <> i) by lia.
        destruct (Hrel x Hne) as [E|[_ E]]; [|exact E].
        rewrite E. apply Hhigh. lia.
Qed.

(** A position built from a board string holds no stone that the string
    does not show: every point is empty or has the color parsed for it
    (stones of the string may have been captured while the board was
    filled).  The player to move, the move number and komi are those given
    to the constructor. *)
Theorem testable_position_stones (board_str : list ascii) (komi : Q) (to_play : Color)
        (n : Z) (p : Position) (v : Scratch) :
  TestablePosition kN kMaxNumGroups board_str komi to_play n = Ok (p, v) ->
  exists stones,
    ParseBoard kN board_str = Ok stones /\
    (forall x, color_at p x = nth x stones kEmpty \/ color_at p x = kEmpty) /\
    to_play_ p = to_play /\ n_ p = n /\ komi_ p = komi /\
    num_consecutive_passes_ p = 0%Z.
Proof.
  unfold TestablePosition. intros H. bind_inv H. exists a. split; [exact Hm|].
  apply (@add_parsed_stones_colors a (kN * kN) 0) in H.
  - destruct H as [[H1 [_ [H3 [H4 H5]]]] Hall]. cbn in H1, H3, H4, H5. auto.
  - reflexivity.
  - unfold new_position. cbn [stones_]. apply repeat_length.
  - intros x Hx. lia.
  - intros x _. unfold color_at, stone_at, new_position. cbn [stones_].
    destruct (Nat.lt_ge_cases x (kN * kN)) as [Hlt|Hge].
    + rewrite nth_repeat_lt by exact Hlt. reflexivity.
    + rewrite nth_overflow by (rewrite repeat_length; exact Hge). reflexivity.
Qed.

End TestablePositionFacts.

Lemma testable_position_stones_witness :
  exists p v,
    TestablePosition 3 9 ["X"; "O"; "."; newline; "O"; "."; "."; newline]%char
                     (15 # 2) kWhite 7 = Ok (p, v) /\
    color_at p 0 = kEmpty /\ to_play_ p = kWhite.
Proof.
  eexists; eexists.
  assert (E : TestablePosition 3 9 ["X"; "O"; "."; newline; "O"; "."; "."; newline]%char
                               (15 # 2) kWhite 7 = Ok (?[p], ?[v]))
    by (vm_compute; reflexivity).
  split; [exact E|].
  destruct (@testable_position_stones 3 9 _ _ _ _ _ _ E) as [stones [_ [_ [H _]]]].
  split; [reflexivity | exact H].
Defined.

(** ** Counting virtual losses *)

Lemma forest_size_app a b : forest_size (a ++ b) = forest_size a + forest_size b.
Proof. induction a as [|x a IH]; simpl; [reflexivity|]. unfold forest_size in *. lia. Qed.

Lemma forest_size_rev a : forest_size (rev a) = forest_size a.
Proof.
  induction a as [|x a IH]; [reflexivity|].
  cbn [rev]. rewrite forest_size_app, IH. simpl. lia.
Qed.

Lemma forest_losses_app a b :
  forest_losses (a ++ b) = (forest_losses a + forest_losses b)%Z.
Proof. induction a as [|x a IH]; simpl; [reflexivity|]. unfold forest_losses in *. lia. Qed.

Lemma forest_losses_rev a : forest_losses (rev a) = forest_losses a.
Proof.
  induction a as [|x a IH]; [reflexivity|].
  cbn [rev]. rewrite forest_losses_app, IH. simpl. lia.
Qed.

Lemma forallb_rev {A : Type} (f : A -> bool) (l : list A) :
  forallb f (rev l) = forallb f l.
Proof.
  induction l as [|x l IH]; [reflexivity|].
  cbn [rev forallb]. rewrite forallb_app, IH. simpl. rewrite andb_true_r. apply andb_comm.
Qed.

Lemma count_pending_loop_spec : forall fuel pending num,
  forest_size pending <= fuel ->
  count_pending_loop fuel pending num
    = if forallb tree_nonneg pending then Ok (num + forest_losses pending)%Z
      else Fail AssertionFailed.
Proof.
  induction fuel as [|fuel IH]; intros pending num Hfuel.
  - destruct pending as [|[n cs] rest]; [|simpl in Hfuel; lia].
    simpl. f_equal. lia.
  - destruct pending as [|[n cs] rest]; [simpl; f_equal; lia|].
    cbn [count_pending_loop node_losses node_children forallb tree_nonneg].
    destruct (0 <=? n)%Z; cbn [assert bind andb]; [|reflexivity].
    rewrite IH.
    + rewrite forallb_app, forallb_rev.
      destruct (forallb tree_nonneg cs && forallb tree_nonneg rest); [|reflexivity].
      f_equal. rewrite forest_losses_app, forest_losses_rev.
      change (forest_losses (mkNode n cs :: rest))
        with (n + forest_losses cs + forest_losses rest)%Z.
      lia.
    + rewrite forest_size_app, forest_size_rev.
      change (forest_size (mkNode n cs :: rest))
        with (S (forest_size cs) + forest_size rest) in Hfuel.
      lia.
Qed.

(** The walk with a stack returns the sum of the virtual losses of all the
    nodes of the tree when none of them is negative, and fails its
    assertion when one is; it visits every node once and never runs out
    of fuel. *)
Theorem count_pending_is_the_sum (node : MctsNode) :
  CountPendingVirtualLosses node
    = if tree_nonneg node then Ok (tree_losses node) else Fail AssertionFailed.
Proof.
  unfold CountPendingVirtualLosses. rewrite count_pending_loop_spec.
  - cbn [forallb]. rewrite andb_true_r.
    destruct (tree_nonneg node); [|reflexivity]. f_equal.
    unfold forest_losses. cbn [fold_right]. lia.
  - unfold forest_size. cbn [fold_right]. lia.
Qed.

(** ** Area scoring *)

Lemma bits_mark_iff fb (B W B' W' : Prop) :
  bits_mark fb B W -> (B <-> B') -> (W <-> W') -> bits_mark fb B' W'.
Proof. unfold bits_mark. intuition. Qed.

Lemma bits_mark_lor fb (B W : Prop) k :
  k <> kEmpty -> bits_mark fb B W ->
  bits_mark (Z.lor fb (color_code k)) (B \/ k = kBlack) (W \/ k = kWhite).
Proof.
  intros Hk [Hr [HB HW]].
  assert (Hfb : fb = 0%Z \/ fb = 1%Z \/ fb = 2%Z \/ fb = 3%Z) by lia.
  unfold bits_mark. rewrite !Z.lor_spec, !orb_true_iff.
  destruct k; [congruence| |]; cbn [color_code].
  - split.
    + destruct Hfb as [E|[E|[E|E]]]; subst fb; simpl; lia.
    + change (Z.testbit 1 0) with true. change (Z.testbit 1 1) with false.
      split; [tauto|]. rewrite HW. split; [intros [H|H]; [now left | discriminate]|].
      intros [H|H]; [now left | discriminate].
  - split.
    + destruct Hfb as [E|[E|[E|E]]]; subst fb; simpl; lia.
    + change (Z.testbit 2 0) with false. change (Z.testbit 2 1) with true.
      split; [|tauto]. rewrite HB. split; [intros [H|H]; [now left | discriminate]|].
      intros [H|H]; [now left | discriminate].
Qed.

Lemma bits_mark_value fb (B W : Prop) :
  bits_mark fb B W ->
  ((fb =? 1)%Z = true <-> B /\ ~ W) /\ ((fb =? 2)%Z = true <-> W /\ ~ B).
Proof.
  intros [Hr [HB HW]].
  assert (Hfb : fb = 0%Z \/ fb = 1%Z \/ fb = 2%Z \/ fb = 3%Z) by lia.
  rewrite <- HB, <- HW.
  destruct Hfb as [E|[E|[E|E]]]; subst fb; simpl; intuition congruence.
Qed.

Lemma tagged_upd bv nc y :
  nc < length (BoardVisitor.visited_ bv) ->
  tagged (BoardVisitor.mk (nc :: BoardVisitor.stack_ bv)
                          (upd nc (BoardVisitor.epoch_ bv) (BoardVisitor.visited_ bv))
                          (BoardVisitor.epoch_ bv)) y
  <-> y = nc \/ tagged bv y.
Proof.
  intros Hnc. unfold tagged. cbn [BoardVisitor.visited_ BoardVisitor.epoch_].
  destruct (Nat.eq_dec y nc) as [->|Hne].
  - rewrite nth_upd_same by exact Hnc. tauto.
  - rewrite nth_upd_other by auto. tauto.
Qed.

Section Flood.

Variable kN : nat.
Variable p : Position.
Variable c : Coord.
Variable old : Coord -> Prop.
Hypothesis old_outside : forall y, same_area kN p c y -> ~ old y.

Lemma score_visit_flood x popped pre nc post bv fb :
  GetNeighborCoords kN x = pre ++ nc :: post ->
  visit_inv kN p c old x popped pre bv fb ->
  visit_inv kN p c old x popped (pre ++ [nc])
            (fst (score_visit p (bv, fb) nc)) (snd (score_visit p (bv, fb) nc)).
Proof.
  intros HN [Hin0 [Hs [Hnd [Har [Htag [Hcl [Hpre Hbits]]]]]]].
  assert (Hnc : In nc (GetNeighborCoords kN x)) by (rewrite HN; apply in_elt).
  assert (Hx : same_area kN p c x) by (apply Har; apply in_elt).
  unfold score_visit.
  destruct (color_eqb (color_at p nc) kEmpty) eqn:Ec;
    unfold color_at in Ec; rewrite Ec.
  - apply color_eqb_eq in Ec. fold (color_at p nc) in Ec.
    assert (Hanc : same_area kN p c nc) by (eapply area_step; eassumption).
    assert (Hb' : forall k, k <> kEmpty ->
              ((exists n, In n (pre ++ [nc]) /\ color_at p n = k) <->
               (exists n, In n pre /\ color_at p n = k))).
    { intros k Hk. split; intros [n [Hin Hn]]; exists n.
      - apply in_app_or in Hin. destruct Hin as [Hin|[<-|[]]]; [auto|congruence].
      - split; [apply in_or_app; now left | exact Hn]. }
    unfold BoardVisitor.Visit.
    destruct (Z.eqb_spec (nth nc (BoardVisitor.visited_ bv) 0%Z) (BoardVisitor.epoch_ bv))
      as [Et|Et]; cbn [negb fst snd].
    + (* seen before *)
      split; [exact Hin0|]. split; [exact Hs|]. split; [exact Hnd|]. split; [exact Har|].
      split; [exact Htag|]. split; [exact Hcl|]. split.
      * intros n Hin Hn. apply in_app_or in Hin. destruct Hin as [Hin|[<-|[]]]; [auto|].
        destruct (proj1 (Htag nc) Et) as [Ho|Hin]; [|exact Hin].
        exfalso. exact (old_outside Hanc Ho).
      * eapply bits_mark_iff; [exact Hbits | |];
          (split; (intros [H|H]; [now left | right; apply Hb'; [discriminate | exact H]])).
    + (* pushed *)
      assert (Hlt : nc < length (BoardVisitor.visited_ bv)).
      { rewrite Hs. apply (GetNeighborCoords_on_board kN x nc Hnc). }
      assert (Hfresh : ~ In nc (BoardVisitor.stack_ bv ++ x :: popped)).
      { intros Hin. apply Et. apply Htag. now right. }
      split; [cbn [BoardVisitor.stack_ app]; right; exact Hin0|].
      split; [unfold sized; cbn [BoardVisitor.visited_]; rewrite upd_length; exact Hs|].
      cbn [BoardVisitor.stack_].
      split; [cbn [app]; constructor; assumption|].
      split; [intros y [<-|Hy]; [exact Hanc | now apply Har]|].
      split.
      { intros y. rewrite (tagged_upd bv y Hlt), Htag. cbn [app In]. intuition. }
      split; [intros y n Hy Hn He; right; eapply Hcl; eassumption|].
      split.
      * intros n Hin Hn. apply in_app_or in Hin. destruct Hin as [Hin|[<-|[]]].
        -- right. now apply Hpre.
        -- now left.
      * eapply bits_mark_iff; [exact Hbits | |];
          (split; (intros [H|H]; [now left | right; apply Hb'; [discriminate | exact H]])).
  - apply color_eqb_neq in Ec. fold (color_at p nc) in Ec.
    cbn [fst snd].
    split; [exact Hin0|].
    split; [exact Hs|]. split; [exact Hnd|]. split; [exact Har|].
    split; [exact Htag|]. split; [exact Hcl|]. split.
    + intros n Hin Hn. apply in_app_or in Hin. destruct Hin as [Hin|[<-|[]]]; [auto|].
      contradiction.
    + fold (color_at p nc).
      eapply bits_mark_iff; [apply (bits_mark_lor Ec Hbits) | |].
      * split.
        -- intros [[H|[n [Hin Hn]]]|H].
           ++ now left.
           ++ right. exists n. split; [apply in_or_app; now left | exact Hn].
           ++ right. exists nc. split; [apply in_or_app; right; now left | exact H].
        -- intros [H|[n [Hin Hn]]]; [left; now left|].
           apply in_app_or in Hin. destruct Hin as [Hin|[<-|[]]].
           ++ left. right. now exists n.
           ++ now right.
      * split.
        -- intros [[H|[n [Hin Hn]]]|H].
           ++ now left.
           ++ right. exists n. split; [apply in_or_app; now left | exact Hn].
           ++ right. exists nc. split; [apply in_or_app; right; now left | exact H].
        -- intros [H|[n [Hin Hn]]]; [left; now left|].
           apply in_app_or in Hin. destruct Hin as [Hin|[<-|[]]].
           ++ left. right. now exists n.
           ++ now right.
Qed.

Lemma score_visits_flood x popped : forall post pre bv fb,
  GetNeighborCoords kN x = pre ++ post ->
  visit_inv kN p c old x popped pre bv fb ->
  visit_inv kN p c old x popped (GetNeighborCoords kN x)
            (fst (fold_left (score_visit p) post (bv, fb)))
            (snd (fold_left (score_visit p) post (bv, fb))).
Proof.
  induction post as [|nc post IH]; intros pre bv fb HN H; cbn [fold_left].
  - rewrite app_nil_r in HN. rewrite HN. exact H.
  - pose proof (@score_visit_flood x popped pre nc post bv fb HN H) as H1.
    destruct (score_visit p (bv, fb) nc) as [bv1 fb1]. cbn [fst snd] in H1.
    apply (IH (pre ++ [nc])); [|exact H1].
    rewrite <- app_assoc. exact HN.
Qed.

Lemma flood_pop x rest popped visited epoch fb :
  flood_inv kN p c old popped (BoardVisitor.mk (x :: rest) visited epoch) fb ->
  visit_inv kN p c old x popped [] (BoardVisitor.mk rest visited epoch) fb.
Proof.
  intros [Hin0 [Hs [Hnd [Har [Htag [Hcl Hbits]]]]]]. cbn [BoardVisitor.stack_] in *.
  assert (Hmem : forall y, In y (rest ++ x :: popped) <-> In y ((x :: rest) ++ popped)).
  { intros y. cbn [app In]. rewrite !in_app_iff. cbn [In]. tauto. }
  split; [cbn [BoardVisitor.stack_]; apply Hmem; exact Hin0|].
  split; [exact Hs|]. cbn [BoardVisitor.stack_].
  split.
  { eapply Permutation_NoDup; [|exact Hnd]. cbn [app]. apply Permutation_middle. }
  split; [intros y Hy; apply Har, Hmem, Hy|].
  split; [intros y; rewrite Hmem; apply Htag|].
  split; [intros y n Hy Hn He; apply Hmem; eapply Hcl; eassumption|].
  split; [intros n []|].
  eapply bits_mark_iff; [exact Hbits | |]; (split; [now left|]);
    (intros [H|[n [[] _]]]; exact H).
Qed.

Lemma flood_counted x popped bv fb :
  visit_inv kN p c old x popped (GetNeighborCoords kN x) bv fb ->
  flood_inv kN p c old (x :: popped) bv fb.
Proof.
  intros [Hin0 [Hs [Hnd [Har [Htag [Hcl [Hpre Hbits]]]]]]].
  split; [exact Hin0|].
  split; [exact Hs|]. split; [exact Hnd|]. split; [exact Har|]. split; [exact Htag|].
  split.
  - intros y n [<-|Hy] Hn He; [now apply Hpre | eapply Hcl; eassumption].
  - eapply bits_mark_iff; [exact Hbits | |].
    + split.
      * intros [[y [n [Hy H]]]|[n [Hn H]]].
        -- exists y, n. split; [now right | exact H].
        -- exists x, n. split; [now left|]. split; assumption.
      * intros [y [n [[<-|Hy] [Hn H]]]].
        -- right. now exists n.
        -- left. now exists y, n.
    + split.
      * intros [[y [n [Hy H]]]|[n [Hn H]]].
        -- exists y, n. split; [now right | exact H].
        -- exists x, n. split; [now left|]. split; assumption.
      * intros [y [n [[<-|Hy] [Hn H]]]].
        -- right. now exists n.
        -- left. now exists y, n.
Qed.

Lemma score_empty_area_loop_flood : forall fuel bv nv fb popped,
  flood_inv kN p c old popped bv fb ->
  BoardVisitor.Done bv = false -> traversal_measure bv <= fuel ->
  exists fb' bv' popped',
    score_empty_area_loop kN fuel p bv nv fb
      = Ok ((nv + Z.of_nat (length popped') - Z.of_nat (length popped))%Z, fb', bv') /\
    flood_inv kN p c old popped' bv' fb' /\ BoardVisitor.Done bv' = true.
Proof.
  induction fuel as [|fuel IH]; intros bv nv fb popped Hinv Hd Hm.
  - exfalso. unfold traversal_measure, BoardVisitor.Done in *.
    destruct (BoardVisitor.stack_ bv); [discriminate | simpl in Hm; lia].
  - cbn [score_empty_area_loop]. unfold BoardVisitor.Next.
    destruct bv as [stack visited epoch].
    destruct stack as [|x rest]; [discriminate|]. cbn [BoardVisitor.stack_ bind].
    cbn [BoardVisitor.visited_ BoardVisitor.epoch_].
    set (bv1 := BoardVisitor.mk rest visited epoch).
    assert (Hs1 : sized kN bv1) by exact (proj1 (proj2 Hinv)).
    assert (Hm1 : traversal_measure bv1 <= fuel).
    { unfold traversal_measure, unvisited in *. simpl in *. lia. }
    destruct (score_visits_measure p fb Hs1 (neighbors_on_board kN x)) as [Hs2 Hm2].
    pose proof (@score_visits_flood x popped (GetNeighborCoords kN x) [] bv1 fb eq_refl
                  (@flood_pop x rest popped visited epoch fb Hinv)) as Hv.
    apply flood_counted in Hv.
    destruct (fold_left (score_visit p) (GetNeighborCoords kN x) (bv1, fb))
      as [bv2 fb2]. cbn [fst snd] in Hs2, Hm2, Hv.
    destruct (BoardVisitor.Done bv2) eqn:Hd2; cbn [negb].
    + exists fb2, bv2, (x :: popped). split; [|auto].
      do 3 f_equal. cbn [length]. lia.
    + destruct (IH bv2 (nv + 1)%Z fb2 (x :: popped) Hv Hd2) as [fb' [bv' [popped' [E H]]]];
        [lia|].
      exists fb', bv', popped'. split; [|exact H].
      rewrite E. do 3 f_equal. cbn [length]. lia.
Qed.

End Flood.
Lemma In_GetNeighborCoords kN row col row' col' :
  row < kN -> col < kN -> row' < kN -> col' < kN ->
  (In (coord_of kN row' col') (GetNeighborCoords kN (coord_of kN row col)) <->
   (row' = row /\ (col' + 1 = col \/ col' = col + 1)) \/
   (col' = col /\ (row' + 1 = row \/ row' = row + 1))).
Proof.
  intros H1 H2 H3 H4.
  rewrite GetNeighborCoords_lookup by assumption. rewrite In_neighbors_of. split.
  - intros [[H E]|[[H E]|[[H E]|[H E]]]]; apply coord_of_injective in E; try lia.
  - intros [[-> [H|H]]|[-> [H|H]]].
    + left. split; [lia|]. f_equal. lia.
    + right; left. split; [lia|]. f_equal. lia.
    + right; right; left. split; [lia|]. f_equal. lia.
    + right; right; right. split; [lia|]. f_equal. lia.
Qed.

Lemma on_board_coord_of kN c :
  on_board kN c -> c / kN < kN /\ c mod kN < kN /\ c = coord_of kN (c / kN) (c mod kN).
Proof.
  unfold on_board, coord_of. intros Hc.
  assert (Hk : kN <> 0) by (intros ->; simpl in Hc; lia).
  split; [apply Nat.Div0.div_lt_upper_bound; exact Hc|].
  split; [now apply Nat.mod_upper_bound|].
  rewrite (Nat.div_mod_eq c kN) at 1. lia.
Qed.

Lemma neighbors_symmetric kN a b :
  In a (GetNeighborCoords kN b) -> In b (GetNeighborCoords kN a).
Proof.
  intros H.
  assert (Hb : on_board kN b).
  { apply neighbors_nonempty_on_board. intros E. rewrite E in H. destruct H. }
  assert (Ha : on_board kN a) by (apply (GetNeighborCoords_on_board kN b a H)).
  destruct (on_board_coord_of Ha) as [A1 [A2 A3]].
  destruct (on_board_coord_of Hb) as [B1 [B2 B3]].
  rewrite A3, B3 in H |- *.
  apply In_GetNeighborCoords in H; try assumption.
  apply In_GetNeighborCoords; try assumption. lia.
Qed.

Section Areas.

Variable kN : nat.
Variable p : Position.

Lemma area_on_board a b : on_board kN a -> same_area kN p a b -> on_board kN b.
Proof.
  intros Ha H. induction H as [|x nc Hx IH Hnc He]; [exact Ha|].
  apply (GetNeighborCoords_on_board kN x nc Hnc).
Qed.

Lemma area_empty a b : color_at p a = kEmpty -> same_area kN p a b -> color_at p b = kEmpty.
Proof. intros Ha H. destruct H; assumption. Qed.

Lemma area_trans a b d : same_area kN p a b -> same_area kN p b d -> same_area kN p a d.
Proof.
  intros Hab Hbd. induction Hbd as [|x nc Hx IH Hnc He]; [exact Hab|].
  eapply area_step; eassumption.
Qed.

Lemma area_sym a b : color_at p a = kEmpty -> same_area kN p a b -> same_area kN p b a.
Proof.
  intros Ha H. induction H as [|x nc Hx IH Hnc He]; [constructor|].
  apply area_trans with (b := x); [|exact IH].
  apply area_step with (x := nc); [constructor | now apply neighbors_symmetric |].
  now apply area_empty with (a := a).
Qed.

Lemma score_empty_area_flood c bv :
  sized kN bv -> BoardVisitor.stack_ bv = [c] -> tagged bv c ->
  (forall y, same_area kN p c y -> y <> c -> ~ tagged bv y) ->
  traversal_measure bv <= traversal_fuel kN ->
  exists value bv' pts,
    score_empty_area kN p bv = Ok (value, bv') /\
    sized kN bv' /\ BoardVisitor.Done bv' = true /\
    NoDup pts /\ (forall y, In y pts <-> same_area kN p c y) /\
    (forall y, tagged bv' y <-> tagged bv y \/ In y pts) /\
    area_value kN p pts value.
Proof.
  intros Hs Hst Htc Hout Hm.
  set (old := fun y => tagged bv y /\ y <> c).
  assert (Hold : forall y, same_area kN p c y -> ~ old y).
  { intros y Hy [Ht Hne]. exact (Hout y Hy Hne Ht). }
  assert (Hinv : flood_inv kN p c old [] bv 0).
  { unfold flood_inv. rewrite Hst. cbn [app].
    split; [now left|]. split; [exact Hs|].
    split; [constructor; [intros [] | constructor]|].
    split; [intros y [<-|[]]; constructor|].
    split.
    { intros y. unfold old. cbn [In]. split.
      - intros Ht. destruct (Nat.eq_dec y c) as [->|Hne]; [right; now left | now left].
      - intros [[Ht _]|[<-|[]]]; assumption. }
    split; [intros y nc []|].
    split; [lia|]. split; (split; [discriminate|]); intros [y [nc [[] _]]]. }
  assert (Hd : BoardVisitor.Done bv = false) by (unfold BoardVisitor.Done; now rewrite Hst).
  destruct (@score_empty_area_loop_flood kN p c old Hold (traversal_fuel kN) bv 0%Z 0%Z []
              Hinv Hd Hm) as [fb [bv' [pts [E [Hinv' Hd']]]]].
  unfold score_empty_area. rewrite E. cbn [bind length].
  destruct Hinv' as [Hin0 [Hs' [Hnd [Har [Htag [Hcl Hbits]]]]]].
  unfold BoardVisitor.Done in Hd'.
  destruct (BoardVisitor.stack_ bv') eqn:Est; [|discriminate]. cbn [app] in *.
  exists (if (fb =? 1)%Z then (0 + Z.of_nat (length pts) - 0)%Z
          else if (fb =? 2)%Z then (- (0 + Z.of_nat (length pts) - 0))%Z else 0%Z), bv', pts.
  split; [reflexivity|]. split; [exact Hs'|].
  split; [unfold BoardVisitor.Done; now rewrite Est|].
  split; [exact Hnd|].
  split.
  { intros y. split; [apply Har|].
    intros Hy. induction Hy as [|x nc Hx IH Hnc He]; [exact Hin0|].
    eapply Hcl; eassumption. }
  split.
  { intros y. rewrite Htag. unfold old. split.
    - intros [[Ht _]|Hy]; [now left | now right].
    - intros [Ht|Hy]; [|now right].
      destruct (Nat.eq_dec y c) as [->|Hne]; [right; exact Hin0 | now left]. }
  destruct (bits_mark_value Hbits) as [H1 H2].
  unfold area_value. replace (0 + Z.of_nat (length pts) - 0)%Z with (Z.of_nat (length pts)) by lia.
  split; [|split].
  - intros HB. apply H1 in HB. now rewrite HB.
  - intros HW. apply H2 in HW. rewrite HW. clear H1 H2.
    destruct (Z.eqb_spec fb 1) as [E1|E1]; [|reflexivity].
    apply Z.eqb_eq in HW. lia.
  - intros Hiff.
    destruct (fb =? 1)%Z; [destruct (proj1 H1 eq_refl); tauto|].
    destruct (fb =? 2)%Z; [destruct (proj1 H2 eq_refl); tauto|]. reflexivity.
Qed.

End Areas.
Lemma sum_values_app a b : sum_values (a ++ b) = (sum_values a + sum_values b)%Z.
Proof.
  unfold sum_values. induction a as [|x a IH]; cbn [app fold_right]; [reflexivity|].
  rewrite IH. lia.
Qed.

Lemma In_board_coords kN c : on_board kN c -> In c (board_coords kN).
Proof.
  intros Hc. destruct (on_board_coord_of Hc) as [H1 [H2 H3]].
  unfold board_coords. apply in_flat_map. exists (c / kN).
  split; [apply in_seq; lia|]. apply in_map_iff. exists (c mod kN).
  split; [now symmetry | apply in_seq; lia].
Qed.

Section AreaScore.

Variable kN : nat.
Variable kMaxNumGroups : nat.
Variable p : Position.
Hypothesis ids_in_pool :
  forall c, color_at p c <> kEmpty -> Stone.group_id (stone_at p c) < kMaxNumGroups.

Lemma score_point_areas done areas values seen s v c :
  on_board kN c ->
  score_inv kN kMaxNumGroups p done areas values seen v ->
  exists s' v' areas' values' seen',
    score_point kN p (s, v) c = Ok (s', v') /\
    score_inv kN kMaxNumGroups p (done ++ [c]) areas' values' seen' v' /\
    forall rest,
      (s' - sum_values values' + stones_score p seen' rest
       = s - sum_values values + stones_score p seen (c :: rest))%Z.
Proof.
  intros Hc [Hs [Hd [Htag [Hnd [Hmem [Hwhole [Hval [Hdone [Hlen Hgv]]]]]]]]].
  unfold score_point. cbn [stones_score].
  destruct (Stone.empty (stone_at p c)) eqn:Ee.
  - (* an empty point *)
    apply empty_color in Ee. fold (color_at p c) in Ee.
    destruct (Visit_measure Hs Hc) as [Hs1 Hv].
    pose proof (ready_measure Hs Hd) as Hready.
    assert (Hstack : BoardVisitor.stack_ (board_visitor_ v) = []).
    { unfold BoardVisitor.Done in Hd.
      destruct (BoardVisitor.stack_ (board_visitor_ v)); [reflexivity | discriminate]. }
    assert (Hlt : c < length (BoardVisitor.visited_ (board_visitor_ v))).
    { rewrite Hs. exact Hc. }
    unfold BoardVisitor.Visit in *.
    destruct (Z.eqb_spec (nth c (BoardVisitor.visited_ (board_visitor_ v)) 0%Z)
                         (BoardVisitor.epoch_ (board_visitor_ v))) as [Et|Et];
      cbn [negb fst snd] in *.
    + (* flooded before *)
      exists s, (with_board_visitor v (board_visitor_ v)), areas, values, seen.
      split; [reflexivity|]. split; [|reflexivity].
      split; [exact Hs|]. split; [exact Hd|]. split; [exact Htag|]. split; [exact Hnd|].
      split; [exact Hmem|]. split; [exact Hwhole|]. split; [exact Hval|].
      split; [|split; assumption].
      intros y Hy He. apply in_app_or in Hy. destruct Hy as [Hy|[<-|[]]]; [auto|].
      apply Htag. exact Et.
    + (* a new area *)
      destruct Hv as [Hst1 Hm1].
      set (bv1 := BoardVisitor.mk (c :: BoardVisitor.stack_ (board_visitor_ v))
                    (upd c (BoardVisitor.epoch_ (board_visitor_ v))
                         (BoardVisitor.visited_ (board_visitor_ v)))
                    (BoardVisitor.epoch_ (board_visitor_ v))) in *.
      assert (Htag1 : forall y, tagged bv1 y <-> y = c \/ In y (concat areas)).
      { intros y. unfold bv1. rewrite (tagged_upd _ y Hlt). now rewrite Htag. }
      assert (Hnew : ~ In c (concat areas)) by (intros Hin; apply Et; now apply Htag).
      assert (Hout : forall y, same_area kN p c y -> ~ In y (concat areas)).
      { intros y Hy Hin. apply Hnew.
        apply in_concat in Hin. destruct Hin as [a [Ha Hya]].
        apply in_concat. exists a. split; [exact Ha|].
        rewrite Forall_forall in Hwhole. apply (Hwhole a Ha y c Hya).
        now apply area_sym. }
      destruct (@score_empty_area_flood kN p c bv1) as [value [bv' [pts H]]].
      * exact Hs1.
      * unfold bv1. cbn [BoardVisitor.stack_]. now rewrite Hstack.
      * apply Htag1. now left.
      * intros y Hy Hne Ht. apply Htag1 in Ht. destruct Ht as [->|Hin]; [congruence|].
        exact (Hout y Hy Hin).
      * lia.
      * destruct H as [E [Hs' [Hd' [Hndp [Hpts [Htag' Hvalue]]]]]].
        rewrite E. cbn [bind].
        exists (s + value)%Z, (with_board_visitor v bv'), (areas ++ [pts]),
               (values ++ [value]), seen.
        split; [reflexivity|].
        assert (Hcat : forall y, In y (concat (areas ++ [pts])) <->
                                 In y (concat areas) \/ In y pts).
        { intros y. rewrite concat_app, in_app_iff. cbn [concat]. now rewrite app_nil_r. }
        split.
        -- split; [exact Hs'|]. split; [exact Hd'|]. cbn [board_visitor_ with_board_visitor].
           split.
           { intros y. rewrite Hcat, Htag', Htag1. split; [|tauto].
             intros [[->|H]|H]; [right; apply Hpts; constructor | now left | now right]. }
           split.
           { rewrite concat_app. cbn [concat]. rewrite app_nil_r.
             apply NoDup_app; [exact Hnd | exact Hndp|].
             intros y Hy Hyp. apply Hpts in Hyp. exact (Hout y Hyp Hy). }
           split.
           { intros y Hy. apply Hcat in Hy. destruct Hy as [Hy|Hy]; [now apply Hmem|].
             apply Hpts in Hy. split.
             - now apply area_on_board with (p := p) (a := c).
             - now apply area_empty with (kN := kN) (a := c). }
           split.
           { apply Forall_app. split; [exact Hwhole|]. constructor; [|constructor].
             intros x y Hx. apply Hpts in Hx. rewrite Hpts. split.
             - intros Hy. apply area_trans with (b := c); [now apply area_sym | exact Hy].
             - intros Hy. now apply area_trans with (b := x). }
           split.
           { apply Forall2_app; [exact Hval|]. constructor; [exact Hvalue | constructor]. }
           split; [|split; assumption].
           intros y Hy He. apply Hcat. apply in_app_or in Hy.
           destruct Hy as [Hy|[<-|[]]]; [left; now apply Hdone|].
           right. apply Hpts. constructor.
        -- intros rest. rewrite sum_values_app. unfold sum_values at 2.
           cbn [fold_right]. lia.
  - (* a stone *)
    assert (Hne : color_at p c <> kEmpty).
    { intros E. apply empty_color in E. unfold color_at in E. congruence. }
    pose proof (ids_in_pool c Hne) as Hid.
    unfold GroupVisitor.Visit. rewrite (Hgv _ Hid).
    destruct (existsb (Nat.eqb (Stone.group_id (stone_at p c))) seen) eqn:Eseen;
      cbn [negb].
    + exists s, (with_group_visitor v (group_visitor_ v)), areas, values, seen.
      split; [reflexivity|]. split; [|reflexivity].
      split; [exact Hs|]. split; [exact Hd|]. split; [exact Htag|]. split; [exact Hnd|].
      split; [exact Hmem|]. split; [exact Hwhole|]. split; [exact Hval|].
      split; [|split; assumption].
      intros y Hy He. apply in_app_or in Hy. destruct Hy as [Hy|[<-|[]]]; [auto|].
      contradiction.
    + set (id := Stone.group_id (stone_at p c)) in *.
      set (gv' := GroupVisitor.mk (GroupVisitor.epoch_ (group_visitor_ v))
                    (upd id (GroupVisitor.epoch_ (group_visitor_ v))
                         (GroupVisitor.visited_ (group_visitor_ v)))).
      exists (if color_eqb (Stone.color (stone_at p c)) kBlack
              then (s + size (group_at p id))%Z else (s - size (group_at p id))%Z),
             (with_group_visitor v gv'), areas, values, (id :: seen).
      split; [destruct (color_eqb _ kBlack); reflexivity|].
      split.
      * split; [exact Hs|]. split; [exact Hd|]. split; [exact Htag|]. split; [exact Hnd|].
        split; [exact Hmem|]. split; [exact Hwhole|]. split; [exact Hval|].
        split.
        { intros y Hy He. apply in_app_or in Hy. destruct Hy as [Hy|[<-|[]]]; [auto|].
          contradiction. }
        cbn [group_visitor_ with_group_visitor gv' GroupVisitor.visited_
             GroupVisitor.epoch_].
        split; [now rewrite upd_length|].
        intros x Hx. cbn [existsb].
        destruct (Nat.eqb_spec x id) as [->|Hxne]; cbn [orb].
        -- rewrite nth_upd_same by lia. apply Z.eqb_refl.
        -- rewrite nth_upd_other by auto. now apply Hgv.
      * intros rest. destruct (color_eqb _ kBlack); lia.
Qed.

Lemma score_points_areas : forall rest done areas values seen s v,
  Forall (on_board kN) rest ->
  score_inv kN kMaxNumGroups p done areas values seen v ->
  exists s' v' areas' values' seen',
    score_points kN p (s, v) rest = Ok (s', v') /\
    score_inv kN kMaxNumGroups p (done ++ rest) areas' values' seen' v' /\
    (s' - sum_values values' = s - sum_values values + stones_score p seen rest)%Z.
Proof.
  induction rest as [|c rest IH]; intros done areas values seen s v Hall Hinv;
    cbn [score_points].
  - exists s, v, areas, values, seen. rewrite app_nil_r.
    split; [reflexivity|]. split; [exact Hinv|]. cbn [stones_score]. lia.
  - inversion Hall as [|x l Hc Hrest]; subst.
    destruct (@score_point_areas done areas values seen s v c Hc Hinv)
      as [s1 [v1 [areas1 [values1 [seen1 [E [Hinv1 Heq]]]]]]].
    rewrite E. cbn [bind].
    destruct (IH (done ++ [c]) areas1 values1 seen1 s1 v1 Hrest Hinv1)
      as [s2 [v2 [areas2 [values2 [seen2 [E2 [Hinv2 Heq2]]]]]]].
    exists s2, v2, areas2, values2, seen2.
    split; [exact E2|]. split; [now rewrite <- app_assoc in Hinv2|].
    specialize (Heq rest). lia.
Qed.


End AreaScore.


(** ** Capturing takes a chain off the board *)

Lemma tagged_pushed bv nc y :
  nc < length (BoardVisitor.visited_ bv) ->
  tagged (snd (BoardVisitor.Visit nc bv)) y <-> y = nc \/ tagged bv y.
Proof.
  intros Hnc. unfold BoardVisitor.Visit.
  destruct (Z.eqb_spec (nth nc (BoardVisitor.visited_ bv) 0%Z) (BoardVisitor.epoch_ bv))
    as [E|E]; cbn [negb snd].
  - split; [now right|]. intros [->|H]; [exact E | exact H].
  - now apply tagged_upd.
Qed.

Lemma Visit_bounded nc bv :
  tags_bounded (BoardVisitor.epoch_ bv) (BoardVisitor.visited_ bv) ->
  tags_bounded (BoardVisitor.epoch_ (snd (BoardVisitor.Visit nc bv)))
               (BoardVisitor.visited_ (snd (BoardVisitor.Visit nc bv))).
Proof.
  intros Hb. unfold BoardVisitor.Visit.
  destruct (negb _); cbn [snd BoardVisitor.visited_ BoardVisitor.epoch_]; [|exact Hb].
  destruct Hb as [He Hall]. split; [exact He|]. apply Forall_upd; [lia | exact Hall].
Qed.

Lemma Visit_stack nc bv :
  BoardVisitor.stack_ (snd (BoardVisitor.Visit nc bv)) = BoardVisitor.stack_ bv /\
  tagged bv nc
  \/
  BoardVisitor.stack_ (snd (BoardVisitor.Visit nc bv)) = nc :: BoardVisitor.stack_ bv /\
  ~ tagged bv nc.
Proof.
  unfold BoardVisitor.Visit, tagged.
  destruct (Z.eqb_spec (nth nc (BoardVisitor.visited_ bv) 0%Z) (BoardVisitor.epoch_ bv))
    as [E|E]; cbn [negb snd BoardVisitor.stack_]; [left | right]; auto.
Qed.

Lemma Visit_sized kN nc bv : sized kN bv -> sized kN (snd (BoardVisitor.Visit nc bv)).
Proof.
  unfold sized, BoardVisitor.Visit. intros Hs.
  destruct (negb _); cbn [snd BoardVisitor.visited_]; [now rewrite upd_length | exact Hs].
Qed.

Lemma Visit_epoch nc bv :
  BoardVisitor.epoch_ (snd (BoardVisitor.Visit nc bv)) = BoardVisitor.epoch_ bv.
Proof. unfold BoardVisitor.Visit. destruct (negb _); reflexivity. Qed.

Lemma RemoveGroup_neighbors_epoch rc oc : forall ncs p bv og,
  BoardVisitor.epoch_ (snd (fst (fold_left (RemoveGroup_neighbor rc oc) ncs (p, bv, og))))
    = BoardVisitor.epoch_ bv.
Proof.
  induction ncs as [|nc ncs IH]; intros p bv og; cbn [fold_left]; [reflexivity|].
  unfold RemoveGroup_neighbor at 2.
  destruct (color_eqb _ oc).
  - destruct (tiny_insert _ og) as [[|] og1]; apply IH.
  - destruct (color_eqb _ rc); [|apply IH].
    rewrite IH. apply Visit_epoch.
Qed.

Lemma RemoveGroup_loop_epoch kN rc oc id : forall fuel p bv p' bv',
  RemoveGroup_loop kN fuel rc oc id p bv = Ok (p', bv') ->
  BoardVisitor.epoch_ bv' = BoardVisitor.epoch_ bv.
Proof.
  induction fuel as [|fuel IH]; intros p bv p' bv' H; cbn [RemoveGroup_loop] in H.
  - destruct (BoardVisitor.Done bv); [|discriminate]. now inversion H.
  - destruct (BoardVisitor.Done bv); [now inversion H|].
    bind_inv H. destruct a as [x bv1]. bind_inv H.
    unfold BoardVisitor.Next in Hm.
    destruct (BoardVisitor.stack_ bv); [discriminate|]. inversion Hm; subst. clear Hm.
    pose proof (RemoveGroup_neighbors_epoch rc oc (GetNeighborCoords kN x)
                  (set_stone p x Stone.default)
                  (BoardVisitor.mk l (BoardVisitor.visited_ bv) (BoardVisitor.epoch_ bv)) [])
      as He.
    destruct (fold_left _ _ _) as [[p2 bv2] og2]. cbn [fst snd] in He.
    apply IH in H. rewrite H, He. reflexivity.
Qed.

Section ChainRemoval.

Variable kN : nat.
Variable p0 : Position.
Variable rc : Color.
Variable c0 : Coord.
Hypothesis rc_stone : rc <> kEmpty.

Lemma RemoveGroup_neighbor_chain x popped pre nc post p bv og :
  GetNeighborCoords kN x = pre ++ nc :: post ->
  chain_visit_inv kN p0 rc c0 x popped pre p bv ->
  chain_visit_inv kN p0 rc c0 x popped (pre ++ [nc])
    (fst (fst (RemoveGroup_neighbor rc (OtherColor rc) (p, bv, og) nc)))
    (snd (fst (RemoveGroup_neighbor rc (OtherColor rc) (p, bv, og) nc))).
Proof.
  intros HN [Hin0 [Hs [Hb [Hnd [Hch [Htag [Hpop [Hrest [Hcl Hpre]]]]]]]]].
  assert (Hnc : In nc (GetNeighborCoords kN x)) by (rewrite HN; apply in_elt).
  assert (Hx : same_chain kN p0 rc c0 x) by (apply Hch; apply in_elt).
  assert (Hrestc : forall y, ~ In y (x :: popped) -> color_at p y = color_at p0 y).
  { intros y Hy. unfold color_at. now rewrite (Hrest y Hy). }
  assert (Hcur : In nc (x :: popped) \/ color_at p nc = color_at p0 nc).
  { destruct (in_dec Nat.eq_dec nc (x :: popped)) as [H|H]; [now left | right; auto]. }
  assert (Hpre' : forall bv', 
            (forall y, In y (BoardVisitor.stack_ bv ++ x :: popped) ->
                        In y (BoardVisitor.stack_ bv' ++ x :: popped)) ->
            (color_at p0 nc = rc -> In nc (BoardVisitor.stack_ bv' ++ x :: popped)) ->
            forall n, In n (pre ++ [nc]) -> color_at p0 n = rc ->
                      In n (BoardVisitor.stack_ bv' ++ x :: popped)).
  { intros bv' Hmono Hn n Hin He. apply in_app_or in Hin.
    destruct Hin as [Hin|[<-|[]]]; [apply Hmono; now apply Hpre | now apply Hn]. }
  unfold RemoveGroup_neighbor. fold (color_at p nc).
  destruct (color_eqb (color_at p nc) (OtherColor rc)) eqn:Eo.
  - (* a stone of the other color *)
    apply color_eqb_eq in Eo.
    assert (Hgoal : chain_visit_inv kN p0 rc c0 x popped (pre ++ [nc]) p bv).
    { split; [exact Hin0|]. split; [exact Hs|]. split; [exact Hb|]. split; [exact Hnd|].
      split; [exact Hch|]. split; [exact Htag|]. split; [exact Hpop|].
      split; [exact Hrest|]. split; [exact Hcl|].
      apply Hpre'; [auto|]. intros He.
      destruct Hcur as [H|H]; [apply in_or_app; now right|].
      exfalso. rewrite H, He in Eo. symmetry in Eo. now apply OtherColor_neq in Eo. }
    destruct (tiny_insert (Stone.group_id (stone_at p nc)) og) as [[|] og1];
      cbn [fst snd]; exact Hgoal.
  - destruct (color_eqb (color_at p nc) rc) eqn:Er; cbn [fst snd].
    + (* a stone of the chain *)
      apply color_eqb_eq in Er.
      assert (Hout : ~ In nc (x :: popped)).
      { intros H. apply Hpop in H. congruence. }
      assert (He0 : color_at p0 nc = rc) by (rewrite <- (Hrestc nc Hout); exact Er).
      assert (Hcnc : same_chain kN p0 rc c0 nc) by (eapply chain_step; eassumption).
      assert (Hlt : nc < length (BoardVisitor.visited_ bv)).
      { rewrite Hs. apply (GetNeighborCoords_on_board kN x nc Hnc). }
      assert (Hmem : forall y, In y (BoardVisitor.stack_ (snd (BoardVisitor.Visit nc bv))
                                     ++ x :: popped) <->
                               y = nc \/ In y (BoardVisitor.stack_ bv ++ x :: popped)).
      { intros y. destruct (Visit_stack nc bv) as [[E Ht]|[E Ht]]; rewrite E.
        - split; [now right|]. intros [->|H]; [now apply Htag | exact H].
        - cbn [app In]. split; intros [H|H]; auto. }
      split; [apply Hmem; now right|]. split; [now apply Visit_sized|].
      split; [now apply Visit_bounded|].
      split.
      { destruct (Visit_stack nc bv) as [[E Ht]|[E Ht]]; rewrite E; [exact Hnd|].
        cbn [app]. constructor; [|exact Hnd]. intros H. apply Ht. now apply Htag. }
      split; [intros y Hy; apply Hmem in Hy; destruct Hy as [->|Hy]; auto|].
      split; [intros y; rewrite (tagged_pushed bv y Hlt), Hmem, Htag; tauto|].
      split; [exact Hpop|]. split; [exact Hrest|].
      split; [intros y n Hy Hn He; apply Hmem; right; eapply Hcl; eassumption|].
      apply Hpre'; [intros y Hy; apply Hmem; now right|].
      intros _. apply Hmem. now left.
    + (* an empty point *)
      apply color_eqb_neq in Eo. apply color_eqb_neq in Er.
      split; [exact Hin0|]. split; [exact Hs|]. split; [exact Hb|]. split; [exact Hnd|].
      split; [exact Hch|]. split; [exact Htag|]. split; [exact Hpop|].
      split; [exact Hrest|]. split; [exact Hcl|].
      apply Hpre'; [auto|]. intros He.
      destruct Hcur as [H|H]; [apply in_or_app; now right|].
      exfalso. apply Er. now rewrite H.
Qed.

Lemma RemoveGroup_neighbors_chain x popped : forall post pre p bv og,
  GetNeighborCoords kN x = pre ++ post ->
  chain_visit_inv kN p0 rc c0 x popped pre p bv ->
  chain_visit_inv kN p0 rc c0 x popped (GetNeighborCoords kN x)
    (fst (fst (fold_left (RemoveGroup_neighbor rc (OtherColor rc)) post (p, bv, og))))
    (snd (fst (fold_left (RemoveGroup_neighbor rc (OtherColor rc)) post (p, bv, og)))).
Proof.
  induction post as [|nc post IH]; intros pre p bv og HN H; cbn [fold_left].
  - rewrite app_nil_r in HN. rewrite HN. exact H.
  - pose proof (@RemoveGroup_neighbor_chain x popped pre nc post p bv og HN H) as H1.
    destruct (RemoveGroup_neighbor rc (OtherColor rc) (p, bv, og) nc) as [[p1 bv1] og1].
    cbn [fst snd] in H1. apply (IH (pre ++ [nc])); [|exact H1].
    rewrite <- app_assoc. exact HN.
Qed.

Lemma chain_pop x rest popped p visited epoch :
  chain_inv kN p0 rc c0 popped p (BoardVisitor.mk (x :: rest) visited epoch) ->
  chain_visit_inv kN p0 rc c0 x popped [] (set_stone p x Stone.default)
                  (BoardVisitor.mk rest visited epoch).
Proof.
  intros [Hin0 [Hs [Hb [Hnd [Hch [Htag [Hpop [Hrest Hcl]]]]]]]].
  cbn [BoardVisitor.stack_] in *.
  assert (Hmem : forall y, In y (rest ++ x :: popped) <-> In y ((x :: rest) ++ popped)).
  { intros y. cbn [app In]. rewrite !in_app_iff. cbn [In]. tauto. }
  split; [apply Hmem; exact Hin0|]. split; [exact Hs|]. split; [exact Hb|].
  split.
  { eapply Permutation_NoDup; [|exact Hnd]. cbn [app]. apply Permutation_middle. }
  split; [intros y Hy; apply Hch, Hmem, Hy|].
  split; [intros y; rewrite Hmem; apply Htag|].
  split.
  { intros y Hy. destruct (Nat.eq_dec y x) as [->|Hne]; [apply color_at_set_default|].
    rewrite color_at_set_stone_other by exact Hne.
    destruct Hy as [Hy|Hy]; [congruence | now apply Hpop]. }
  split.
  { intros y Hy. unfold stone_at, set_stone. cbn [stones_ with_stones].
    rewrite nth_upd_other by (intros ->; apply Hy; now left).
    apply Hrest. intros H. apply Hy. now right. }
  split; [intros y n Hy Hn He; apply Hmem; eapply Hcl; eassumption|].
  intros n [].
Qed.

Lemma chain_counted x popped p bv :
  chain_visit_inv kN p0 rc c0 x popped (GetNeighborCoords kN x) p bv ->
  chain_inv kN p0 rc c0 (x :: popped) p bv.
Proof.
  intros [Hin0 [Hs [Hb [Hnd [Hch [Htag [Hpop [Hrest [Hcl Hpre]]]]]]]]].
  split; [exact Hin0|]. split; [exact Hs|]. split; [exact Hb|]. split; [exact Hnd|].
  split; [exact Hch|]. split; [exact Htag|]. split; [exact Hpop|]. split; [exact Hrest|].
  intros y n [<-|Hy] Hn He; [now apply Hpre | eapply Hcl; eassumption].
Qed.

Lemma RemoveGroup_loop_chain id : forall fuel p bv popped p' bv',
  chain_inv kN p0 rc c0 popped p bv ->
  RemoveGroup_loop kN fuel rc (OtherColor rc) id p bv = Ok (p', bv') ->
  exists popped', chain_inv kN p0 rc c0 popped' p' bv' /\ BoardVisitor.stack_ bv' = [].
Proof.
  induction fuel as [|fuel IH]; intros p bv popped p' bv' Hinv H;
    cbn [RemoveGroup_loop] in H.
  - unfold BoardVisitor.Done in H.
    destruct (BoardVisitor.stack_ bv) eqn:Es; [|discriminate].
    inversion H; subst. exists popped. auto.
  - unfold BoardVisitor.Done in H.
    destruct (BoardVisitor.stack_ bv) as [|x rest] eqn:Es.
    { inversion H; subst. exists popped. auto. }
    unfold BoardVisitor.Next in H. rewrite Es in H. cbn [bind] in H.
    bind_inv H.
    destruct bv as [stack visited epoch]. cbn [BoardVisitor.stack_] in Es. subst stack.
    cbn [BoardVisitor.visited_ BoardVisitor.epoch_] in H.
    pose proof (@RemoveGroup_neighbors_chain x popped (GetNeighborCoords kN x) []
                  (set_stone p x Stone.default) (BoardVisitor.mk rest visited epoch) []
                  eq_refl (@chain_pop x rest popped p visited epoch Hinv)) as Hv.
    apply chain_counted in Hv.
    destruct (fold_left (RemoveGroup_neighbor rc (OtherColor rc)) (GetNeighborCoords kN x)
                        (set_stone p x Stone.default, BoardVisitor.mk rest visited epoch, []))
      as [[p2 bv2] og2].
    cbn [fst snd] in Hv. eapply IH; eassumption.
Qed.

(** When the stones of the chain all carry the identifier [id], the
    assertion of the loop holds at every stone it pops. *)
Lemma RemoveGroup_loop_run id :
  (forall y, same_chain kN p0 rc c0 y -> Stone.group_id (stone_at p0 y) = id) ->
  forall fuel p bv popped,
    chain_inv kN p0 rc c0 popped p bv ->
    match RemoveGroup_loop kN fuel rc (OtherColor rc) id p bv with
    | Ok (p', bv') =>
        exists popped', chain_inv kN p0 rc c0 popped' p' bv' /\ BoardVisitor.stack_ bv' = []
    | Fail e => e = OutOfFuel
    end.
Proof.
  intros Hid. induction fuel as [|fuel IH]; intros p bv popped Hinv;
    cbn [RemoveGroup_loop].
  - unfold BoardVisitor.Done.
    destruct (BoardVisitor.stack_ bv) eqn:Es; [|reflexivity].
    exists popped. auto.
  - unfold BoardVisitor.Done.
    destruct (BoardVisitor.stack_ bv) as [|x rest] eqn:Es.
    { exists popped. auto. }
    unfold BoardVisitor.Next. rewrite Es. cbn [bind].
    destruct bv as [stack visited epoch]. cbn [BoardVisitor.stack_] in Es. subst stack.
    cbn [BoardVisitor.visited_ BoardVisitor.epoch_].
    assert (Hx : Stone.group_id (stone_at p x) = id).
    { destruct Hinv as [_ [_ [_ [Hnd [Hch [_ [_ [Hrest _]]]]]]]].
      cbn [BoardVisitor.stack_ app] in *.
      rewrite Hrest.
      - apply Hid. apply Hch. now left.
      - intros Hin. inversion Hnd as [|a l Hnot _]; subst. apply Hnot.
        apply in_or_app. now right. }
    rewrite Hx, Nat.eqb_refl. cbn [assert bind].
    pose proof (@RemoveGroup_neighbors_chain x popped (GetNeighborCoords kN x) []
                  (set_stone p x Stone.default) (BoardVisitor.mk rest visited epoch) []
                  eq_refl (@chain_pop x rest popped p visited epoch Hinv)) as Hv.
    apply chain_counted in Hv.
    destruct (fold_left (RemoveGroup_neighbor rc (OtherColor rc)) (GetNeighborCoords kN x)
                        (set_stone p x Stone.default, BoardVisitor.mk rest visited epoch, []))
      as [[p2 bv2] og2].
    cbn [fst snd] in Hv. now apply IH with (popped := x :: popped).
Qed.

End ChainRemoval.

Lemma Begin_fresh kN bv bv0 :
  visitor_fresh kN bv -> BoardVisitor.Begin kN bv = Ok bv0 ->
  BoardVisitor.stack_ bv0 = [] /\ sized kN bv0 /\
  tags_bounded (BoardVisitor.epoch_ bv0) (BoardVisitor.visited_ bv0) /\
  BoardVisitor.epoch_ bv0 = (BoardVisitor.epoch_ bv + 1)%Z /\
  forall y, ~ tagged bv0 y.
Proof.
  intros [Hd [Hs [Hb Hne]]] H. unfold BoardVisitor.Begin in H. rewrite Hd in H.
  cbn [assert bind] in H. inversion H; subst bv0. clear H.
  assert (He : (0 <= BoardVisitor.epoch_ bv <= 255)%Z) by (destruct Hb; assumption).
  assert (Hu : u8 (BoardVisitor.epoch_ bv + 1) = (BoardVisitor.epoch_ bv + 1)%Z).
  { unfold u8. apply Z.mod_small. lia. }
  cbn [BoardVisitor.stack_ BoardVisitor.visited_ BoardVisitor.epoch_].
  split.
  { unfold BoardVisitor.Done in Hd. destruct (BoardVisitor.stack_ bv); [reflexivity|discriminate]. }
  split.
  { unfold sized. cbn [BoardVisitor.visited_].
    destruct (BoardVisitor.epoch_ bv =? 0)%Z; [apply repeat_length | exact Hs]. }
  split.
  { rewrite Hu. apply tags_bounded_next; [|exact Hne].
    destruct (BoardVisitor.epoch_ bv =? 0)%Z; [now apply tags_bounded_zeros | exact Hb]. }
  split; [exact Hu|].
  intros y Ht. unfold tagged in Ht. cbn [BoardVisitor.visited_ BoardVisitor.epoch_] in Ht.
  pose proof (fresh_marks (kN * kN) Hb Hne y) as F. apply Z.eqb_neq in F. contradiction.
Qed.

Section RemoveGroupFacts.

Variable kN : nat.
Variable kMaxNumGroups : nat.

Lemma RemoveGroup_chain p v c p' v' :
  visitor_fresh kN (board_visitor_ v) -> on_board kN c -> color_at p c <> kEmpty ->
  RemoveGroup kN kMaxNumGroups p v c = Ok (p', v') ->
  (exists gone,
     NoDup gone /\
     (forall x, In x gone <-> same_chain kN p (color_at p c) c x) /\
     (forall x, In x gone -> color_at p' x = kEmpty) /\
     (forall x, ~ In x gone -> stone_at p' x = stone_at p x)) /\
  BoardVisitor.Done (board_visitor_ v') = true /\
  sized kN (board_visitor_ v') /\
  tags_bounded (BoardVisitor.epoch_ (board_visitor_ v'))
               (BoardVisitor.visited_ (board_visitor_ v')) /\
  BoardVisitor.epoch_ (board_visitor_ v')
    = (BoardVisitor.epoch_ (board_visitor_ v) + 1)%Z.
Proof.
  intros Hf Hc Hne H. unfold RemoveGroup in H. fold (color_at p c) in H.
  bind_inv H. bind_inv H. destruct a0 as [q bv]. inversion H; subst. clear H.
  destruct (Begin_fresh Hf Hm) as [Hst [Hs [Hb [He Hnot]]]].
  set (bv1 := snd (BoardVisitor.Visit c a)) in *.
  assert (Hlt : c < length (BoardVisitor.visited_ a)) by (rewrite Hs; exact Hc).
  assert (Hst1 : BoardVisitor.stack_ bv1 = [c]).
  { unfold bv1. destruct (Visit_stack c a) as [[_ Ht]|[E _]].
    - exfalso. exact (Hnot c Ht).
    - rewrite E, Hst. reflexivity. }
  assert (Hinv : chain_inv kN p (color_at p c) c [] p bv1).
  { unfold chain_inv. rewrite Hst1. cbn [app].
    split; [now left|]. split; [now apply Visit_sized|].
    split; [now apply Visit_bounded|].
    split; [constructor; [intros [] | constructor]|].
    split; [intros y [<-|[]]; constructor|].
    split.
    { intros y. unfold bv1. rewrite (tagged_pushed a y Hlt). cbn [In]. split.
      - intros [->|Ht]; [now left | exfalso; exact (Hnot y Ht)].
      - intros [<-|[]]. now left. }
    split; [intros y []|]. split; [reflexivity|]. intros y nc []. }
  pose proof (RemoveGroup_loop_epoch _ _ _ _ _ _ _ Hm0) as Hep.
  apply (@RemoveGroup_loop_chain kN p (color_at p c) c Hne) with (popped := []) in Hm0;
    [|exact Hinv].
  destruct Hm0 as [popped [[Hin0 [Hs' [Hb' [Hnd [Hch [Htag [Hpop [Hrest Hcl]]]]]]]] Hst']].
  rewrite Hst' in *. cbn [app] in *.
  assert (Hall : forall x, same_chain kN p (color_at p c) c x -> In x popped).
  { intros x Hx. induction Hx as [|y nc Hy IH Hnc Hk]; [exact Hin0|].
    eapply Hcl; eassumption. }
  cbn [board_visitor_].
  split.
  { exists popped. split; [exact Hnd|]. split; [|split; assumption].
    intros x. split; [apply Hch | apply Hall]. }
  split; [unfold BoardVisitor.Done; now rewrite Hst'|].
  split; [exact Hs'|]. split; [exact Hb'|].
  rewrite Hep. unfold bv1. rewrite Visit_epoch. exact He.
Qed.

End RemoveGroupFacts.
(** ** Merging recounts the chain and its liberties *)

Lemma u16_succ n : u16 (u16 n + 1) = u16 (n + 1).
Proof. unfold u16. apply Zplus_mod_idemp_l. Qed.

Lemma pool_get_set_same pool id g :
  id < length (GroupPool.slots pool) -> GroupPool.get (GroupPool.set pool id g) id = g.
Proof. intros H. unfold GroupPool.get, GroupPool.set. simpl. now apply nth_upd_same. Qed.

Lemma pop_to_stones {A : Type} (x : A) (rest a b : list A) :
  Permutation ((x :: rest) ++ a ++ b) (rest ++ (x :: a) ++ b).
Proof. cbn [app]. apply Permutation_middle. Qed.

Lemma pop_to_libs {A : Type} (x : A) (rest a b : list A) :
  Permutation ((x :: rest) ++ a ++ b) (rest ++ a ++ x :: b).
Proof.
  cbn [app]. rewrite !app_assoc. apply Permutation_middle.
Qed.

Lemma chain_on_board kN p k c y : on_board kN c -> same_chain kN p k c y -> on_board kN y.
Proof.
  intros Hc H. induction H as [|x nc Hx IH Hnc He]; [exact Hc|].
  apply (GetNeighborCoords_on_board kN x nc Hnc).
Qed.

Lemma chain_color kN p k c y : color_at p c = k -> same_chain kN p k c y -> color_at p y = k.
Proof. intros Hc H. destruct H; assumption. Qed.

Section Merge.

Variable kN : nat.
Variable p0 : Position.
Variable c0 : Coord.
Variable s : Stone.t.
Hypothesis c0_on_board : on_board kN c0.
Hypothesis s_stone : Stone.color s <> kEmpty.
Hypothesis c0_color : color_at p0 c0 = Stone.color s.
Hypothesis board_size : length (stones_ p0) = kN * kN.
Hypothesis id_in_pool : Stone.group_id s < length (GroupPool.slots (groups_ p0)).

Lemma merge_colors closed stones libs p bv y :
  merge_inv kN p0 (Stone.color s) c0 s closed stones libs p bv ->
  color_at p y = color_at p0 y.
Proof.
  intros [_ [_ [_ [_ [_ [Hst [_ [_ [Hs [Hr _]]]]]]]]]].
  destruct (in_dec Nat.eq_dec y stones) as [H|H].
  - unfold color_at at 1. rewrite (Hs y H). symmetry. now apply Hst.
  - unfold color_at. now rewrite (Hr y H).
Qed.

Lemma merge_reached_on_board y :
  same_chain kN p0 (Stone.color s) c0 y \/ chain_liberty kN p0 (Stone.color s) c0 y ->
  on_board kN y.
Proof.
  intros [H|[_ [z [_ Hz]]]].
  - now apply chain_on_board with (p := p0) (k := Stone.color s) (c := c0).
  - apply (GetNeighborCoords_on_board kN z y Hz).
Qed.

Lemma MergeGroup_visit_merge x closed stones libs pre nc post p bv :
  GetNeighborCoords kN x = pre ++ nc :: post ->
  In x stones ->
  merge_inv kN p0 (Stone.color s) c0 s closed stones libs p bv ->
  (forall n, In n pre -> color_at p0 n <> OtherColor (Stone.color s) ->
             In n (BoardVisitor.stack_ bv ++ stones ++ libs)) ->
  merge_inv kN p0 (Stone.color s) c0 s closed stones libs p
            (MergeGroup_visit p (OtherColor (Stone.color s)) bv nc) /\
  (forall n, In n (pre ++ [nc]) -> color_at p0 n <> OtherColor (Stone.color s) ->
             In n (BoardVisitor.stack_
                     (MergeGroup_visit p (OtherColor (Stone.color s)) bv nc)
                   ++ stones ++ libs)).
Proof.
  intros HN Hxs Hinv Hpre.
  pose proof (fun y => @merge_colors closed stones libs p bv y Hinv) as Hcol.
  destruct Hinv as [Hin0 [Hs [Hb [Hnd [Hre [Hst [Hli [Htag [Hss [Hsr [Hcl Hgr]]]]]]]]]]].
  assert (Hnc : In nc (GetNeighborCoords kN x)) by (rewrite HN; apply in_elt).
  assert (Hx : same_chain kN p0 (Stone.color s) c0 x).
  { destruct (Hre x) as [H|[H _]]; [apply in_or_app; right; apply in_or_app; now left
                                   | exact H |].
    rewrite (Hst x Hxs) in H. contradiction. }
  unfold MergeGroup_visit. fold (color_at p nc). rewrite Hcol.
  destruct (color_eqb (color_at p0 nc) (OtherColor (Stone.color s))) eqn:Eo; cbn [negb].
  - apply color_eqb_eq in Eo. split.
    + repeat (split; [assumption|]). assumption.
    + intros n Hin Hn. apply in_app_or in Hin. destruct Hin as [Hin|[<-|[]]]; [auto|].
      contradiction.
  - apply color_eqb_neq in Eo.
    assert (Hreach : same_chain kN p0 (Stone.color s) c0 nc \/
                     chain_liberty kN p0 (Stone.color s) c0 nc).
    { destruct (color_at p0 nc) eqn:Ek.
      - right. split; [exact Ek|]. exists x. auto.
      - left. apply chain_step with (x := x); [exact Hx | exact Hnc|].
        rewrite Ek. destruct (Stone.color s); simpl in Eo; congruence.
      - left. apply chain_step with (x := x); [exact Hx | exact Hnc|].
        rewrite Ek. destruct (Stone.color s); simpl in Eo; congruence. }
    assert (Hlt : nc < length (BoardVisitor.visited_ bv)).
    { rewrite Hs. apply (GetNeighborCoords_on_board kN x nc Hnc). }
    assert (Hmem : forall y, In y (BoardVisitor.stack_ (snd (BoardVisitor.Visit nc bv))
                                   ++ stones ++ libs) <->
                             y = nc \/ In y (BoardVisitor.stack_ bv ++ stones ++ libs)).
    { intros y. destruct (Visit_stack nc bv) as [[E Ht]|[E Ht]]; rewrite E.
      - split; [now right|]. intros [->|H]; [now apply Htag | exact H].
      - cbn [app In]. split; intros [H|H]; auto. }
    split.
    + split; [apply Hmem; now right|]. split; [now apply Visit_sized|].
      split; [now apply Visit_bounded|].
      split.
      { destruct (Visit_stack nc bv) as [[E Ht]|[E Ht]]; rewrite E; [exact Hnd|].
        cbn [app]. constructor; [|exact Hnd]. intros H. apply Ht. now apply Htag. }
      split; [intros y Hy; apply Hmem in Hy; destruct Hy as [->|Hy]; auto|].
      split; [exact Hst|]. split; [exact Hli|].
      split; [intros y; rewrite (tagged_pushed bv y Hlt), Hmem, Htag; tauto|].
      split; [exact Hss|]. split; [exact Hsr|].
      split; [intros y n Hy Hn He; apply Hmem; right; eapply Hcl; eassumption|].
      exact Hgr.
    + intros n Hin Hn. apply Hmem. apply in_app_or in Hin.
      destruct Hin as [Hin|[<-|[]]]; [right; now apply Hpre | now left].
Qed.

Lemma MergeGroup_visits_merge x closed stones libs p : forall post pre bv,
  GetNeighborCoords kN x = pre ++ post ->
  In x stones ->
  merge_inv kN p0 (Stone.color s) c0 s closed stones libs p bv ->
  (forall n, In n pre -> color_at p0 n <> OtherColor (Stone.color s) ->
             In n (BoardVisitor.stack_ bv ++ stones ++ libs)) ->
  merge_inv kN p0 (Stone.color s) c0 s closed stones libs p
            (fold_left (MergeGroup_visit p (OtherColor (Stone.color s))) post bv) /\
  (forall n, In n (GetNeighborCoords kN x) ->
             color_at p0 n <> OtherColor (Stone.color s) ->
             In n (BoardVisitor.stack_
                     (fold_left (MergeGroup_visit p (OtherColor (Stone.color s))) post bv)
                   ++ stones ++ libs)).
Proof.
  induction post as [|nc post IH]; intros pre bv HN Hx Hinv Hpre; cbn [fold_left].
  - rewrite app_nil_r in HN. rewrite HN. auto.
  - destruct (@MergeGroup_visit_merge x closed stones libs pre nc post p bv HN Hx Hinv Hpre)
      as [Hinv1 Hpre1].
    apply (IH (pre ++ [nc])); [|assumption..].
    rewrite <- app_assoc. exact HN.
Qed.

Lemma merge_stack_color x rest visited epoch stones libs p :
  merge_inv kN p0 (Stone.color s) c0 s stones stones libs p
            (BoardVisitor.mk (x :: rest) visited epoch) ->
  color_at p x = color_at p0 x /\
  (color_at p0 x = kEmpty \/ color_at p0 x = Stone.color s).
Proof.
  intros Hinv. split; [eapply merge_colors; exact Hinv|].
  destruct Hinv as [_ [_ [_ [_ [Hre _]]]]]. cbn [BoardVisitor.stack_] in Hre.
  destruct (Hre x (or_introl eq_refl)) as [H|[H _]]; [right | now left].
  now apply chain_color with (kN := kN) (c := c0).
Qed.

Lemma merge_step_liberty x rest visited epoch stones libs p :
  merge_inv kN p0 (Stone.color s) c0 s stones stones libs p
            (BoardVisitor.mk (x :: rest) visited epoch) ->
  color_at p0 x = kEmpty ->
  merge_inv kN p0 (Stone.color s) c0 s stones stones (x :: libs)
            (set_group p (Stone.group_id s)
               (mkGroup (size (group_at p (Stone.group_id s)))
                        (u16 (num_liberties (group_at p (Stone.group_id s)) + 1))))
            (BoardVisitor.mk rest visited epoch).
Proof.
  intros Hinv Ee.
  destruct Hinv as [Hin0 [Hs [Hb [Hnd [Hre [Hst [Hli [Htag [Hss [Hsr [Hcl
                   [Hg [Hgo [Hpl Hsl]]]]]]]]]]]]]].
  cbn [BoardVisitor.stack_] in *.
  assert (Hidp : Stone.group_id s < length (GroupPool.slots (groups_ p))).
  { rewrite Hpl. exact id_in_pool. }
  assert (Hperm := pop_to_libs x rest stones libs).
  split; [eapply Permutation_in; [exact Hperm | exact Hin0]|].
  split; [exact Hs|]. split; [exact Hb|].
  split; [eapply Permutation_NoDup; [exact Hperm | exact Hnd]|].
  split; [intros y Hy; apply Hre; eapply Permutation_in;
          [apply Permutation_sym; exact Hperm | exact Hy]|].
  split; [exact Hst|].
  split; [intros y [<-|Hy]; [exact Ee | now apply Hli]|].
  split.
  { intros y. split; intros Hy.
    - eapply Permutation_in; [exact Hperm|]. apply (proj1 (Htag y)). exact Hy.
    - apply (proj2 (Htag y)).
      eapply Permutation_in; [apply Permutation_sym; exact Hperm | exact Hy]. }
  split; [exact Hss|]. split; [exact Hsr|].
  split.
  { intros y n Hy Hn He. eapply Permutation_in; [exact Hperm|].
    eapply Hcl; eassumption. }
  split.
  { unfold group_at, set_group. cbn [groups_ with_groups].
    rewrite pool_get_set_same by exact Hidp.
    fold (group_at p (Stone.group_id s)). rewrite Hg.
    cbn [size num_liberties length]. f_equal.
    rewrite Nat2Z.inj_succ, u16_succ. reflexivity. }
  split.
  { intros g Hne. unfold group_at, set_group. cbn [groups_ with_groups].
    rewrite pool_get_set_other by auto. now apply Hgo. }
  split; [|exact Hsl].
  unfold set_group. cbn [groups_ with_groups GroupPool.set GroupPool.slots].
  now rewrite upd_length.
Qed.

Lemma merge_step_stone x rest visited epoch stones libs p :
  merge_inv kN p0 (Stone.color s) c0 s stones stones libs p
            (BoardVisitor.mk (x :: rest) visited epoch) ->
  color_at p0 x = Stone.color s ->
  merge_inv kN p0 (Stone.color s) c0 s (x :: stones) (x :: stones) libs
    (set_stone
       (set_group p (Stone.group_id s)
          (mkGroup (u16 (size (group_at p (Stone.group_id s)) + 1))
                   (num_liberties (group_at p (Stone.group_id s))))) x s)
    (fold_left
       (MergeGroup_visit
          (set_stone
             (set_group p (Stone.group_id s)
                (mkGroup (u16 (size (group_at p (Stone.group_id s)) + 1))
                         (num_liberties (group_at p (Stone.group_id s))))) x s)
          (OtherColor (Stone.color s)))
       (GetNeighborCoords kN x) (BoardVisitor.mk rest visited epoch)).
Proof.
  intros Hinv Hm.
  destruct Hinv as [Hin0 [Hs [Hb [Hnd [Hre [Hst [Hli [Htag [Hss [Hsr [Hcl
                   [Hg [Hgo [Hpl Hsl]]]]]]]]]]]]]].
  cbn [BoardVisitor.stack_] in *.
  assert (Hxr : same_chain kN p0 (Stone.color s) c0 x \/
                chain_liberty kN p0 (Stone.color s) c0 x) by (apply Hre; now left).
  assert (Hxb : on_board kN x) by (now apply merge_reached_on_board).
  assert (Hidp : Stone.group_id s < length (GroupPool.slots (groups_ p))).
  { rewrite Hpl. exact id_in_pool. }
  set (p1 := set_stone
               (set_group p (Stone.group_id s)
                  (mkGroup (u16 (size (group_at p (Stone.group_id s)) + 1))
                           (num_liberties (group_at p (Stone.group_id s))))) x s).
  set (bv1 := BoardVisitor.mk rest visited epoch).
  assert (Hxlt : x < length (stones_ p)).
  { rewrite Hsl, board_size. exact Hxb. }
  assert (Hperm := pop_to_stones x rest stones libs).
  assert (Hinv1 : merge_inv kN p0 (Stone.color s) c0 s stones (x :: stones) libs p1 bv1).
  { split; [eapply Permutation_in; [exact Hperm | exact Hin0]|].
    split; [exact Hs|]. split; [exact Hb|].
    split; [eapply Permutation_NoDup; [exact Hperm | exact Hnd]|].
    split; [intros y Hy; apply Hre; eapply Permutation_in;
            [apply Permutation_sym; exact Hperm | exact Hy]|].
    split; [intros y [<-|Hy]; [exact Hm | now apply Hst]|].
    split; [exact Hli|].
    split.
    { intros y. split; intros Hy.
      - eapply Permutation_in; [exact Hperm|]. apply (proj1 (Htag y)). exact Hy.
      - apply (proj2 (Htag y)).
        eapply Permutation_in; [apply Permutation_sym; exact Hperm | exact Hy]. }
    split.
    { intros y Hy. unfold p1, stone_at, set_stone.
      cbn [stones_ with_stones set_group with_groups].
      destruct (Nat.eq_dec y x) as [->|Hne].
      - now rewrite nth_upd_same.
      - rewrite nth_upd_other by auto. destruct Hy as [Hy|Hy]; [congruence|].
        now apply Hss. }
    split.
    { intros y Hy. unfold p1, stone_at, set_stone.
      cbn [stones_ with_stones set_group with_groups].
      rewrite nth_upd_other by (intros ->; apply Hy; now left).
      apply Hsr. intros Hin. apply Hy. now right. }
    split.
    { intros y n Hy Hn He. eapply Permutation_in; [exact Hperm|].
      eapply Hcl; eassumption. }
    split.
    { unfold p1, group_at, set_stone, set_group. cbn [groups_ with_stones with_groups].
      rewrite pool_get_set_same by exact Hidp.
      fold (group_at p (Stone.group_id s)). rewrite Hg.
      cbn [size num_liberties length]. f_equal.
      rewrite Nat2Z.inj_succ, u16_succ. reflexivity. }
    split.
    { intros g Hne. unfold p1, group_at, set_stone, set_group.
      cbn [groups_ with_stones with_groups].
      rewrite pool_get_set_other by auto. now apply Hgo. }
    split.
    - unfold p1, set_stone, set_group.
      cbn [groups_ with_stones with_groups GroupPool.set GroupPool.slots].
      now rewrite upd_length.
    - unfold p1, set_stone, set_group. cbn [stones_ with_stones with_groups].
      now rewrite upd_length. }
  destruct (@MergeGroup_visits_merge x stones (x :: stones) libs p1
              (GetNeighborCoords kN x) [] bv1 eq_refl (or_introl eq_refl) Hinv1)
    as [Hinv2 Hcl2]; [intros n []|].
  destruct Hinv2 as [A1 [A2 [A3 [A4 [A5 [A6 [A7 [A8 [A9 [A10 [A11 A12]]]]]]]]]]].
  repeat (split; [assumption|]).
  split; [|exact A12].
  intros y n [<-|Hy] Hn He; [now apply Hcl2 | eapply A11; eassumption].
Qed.

(** The loop ends with the whole chain counted, or runs out of fuel: its
    assertion holds at every stone it pops. *)
Lemma MergeGroup_loop_run : forall fuel p bv stones libs,
  merge_inv kN p0 (Stone.color s) c0 s stones stones libs p bv ->
  match MergeGroup_loop kN fuel s (OtherColor (Stone.color s)) p bv with
  | Ok (p', bv') =>
      exists stones' libs',
        merge_inv kN p0 (Stone.color s) c0 s stones' stones' libs' p' bv' /\
        BoardVisitor.stack_ bv' = []
  | Fail e => e = OutOfFuel
  end.
Proof.
  induction fuel as [|fuel IH]; intros p bv stones libs Hinv; cbn [MergeGroup_loop].
  - unfold BoardVisitor.Done.
    destruct (BoardVisitor.stack_ bv) eqn:Es; [|reflexivity].
    exists stones, libs. auto.
  - unfold BoardVisitor.Done.
    destruct (BoardVisitor.stack_ bv) as [|x rest] eqn:Es.
    { exists stones, libs. auto. }
    unfold BoardVisitor.Next. rewrite Es. cbn [bind].
    destruct bv as [stack visited epoch]. cbn [BoardVisitor.stack_] in Es. subst stack.
    cbn [BoardVisitor.visited_ BoardVisitor.epoch_].
    destruct (merge_stack_color Hinv) as [Hcol Hk].
    fold (color_at p x). rewrite Hcol.
    destruct (color_eqb (color_at p0 x) kEmpty) eqn:Ee.
    + apply color_eqb_eq in Ee. apply IH with (stones := stones) (libs := x :: libs).
      now apply merge_step_liberty.
    + apply color_eqb_neq in Ee. destruct Hk as [Hk|Hk]; [contradiction|].
      rewrite Hk, color_eqb_refl. cbn [assert bind].
      apply IH with (stones := x :: stones) (libs := libs).
      now apply merge_step_stone.
Qed.

Lemma MergeGroup_loop_merge fuel p bv stones libs p' bv' :
  merge_inv kN p0 (Stone.color s) c0 s stones stones libs p bv ->
  MergeGroup_loop kN fuel s (OtherColor (Stone.color s)) p bv = Ok (p', bv') ->
  exists stones' libs',
    merge_inv kN p0 (Stone.color s) c0 s stones' stones' libs' p' bv' /\
    BoardVisitor.stack_ bv' = [].
Proof.
  intros Hinv H. pose proof (@MergeGroup_loop_run fuel p bv stones libs Hinv) as R.
  rewrite H in R. exact R.
Qed.

End Merge.
Lemma MergeGroup_visits_epoch p opp : forall ncs bv,
  BoardVisitor.epoch_ (fold_left (MergeGroup_visit p opp) ncs bv) = BoardVisitor.epoch_ bv.
Proof.
  induction ncs as [|nc ncs IH]; intros bv; cbn [fold_left]; [reflexivity|].
  rewrite IH. unfold MergeGroup_visit. destruct (negb _); [apply Visit_epoch | reflexivity].
Qed.

Lemma MergeGroup_loop_epoch kN s opp : forall fuel p bv p' bv',
  MergeGroup_loop kN fuel s opp p bv = Ok (p', bv') ->
  BoardVisitor.epoch_ bv' = BoardVisitor.epoch_ bv.
Proof.
  induction fuel as [|fuel IH]; intros p bv p' bv' H; cbn [MergeGroup_loop] in H.
  - destruct (BoardVisitor.Done bv); [|discriminate]. now inversion H.
  - destruct (BoardVisitor.Done bv); [now inversion H|].
    bind_inv H. destruct a as [x bv1].
    unfold BoardVisitor.Next in Hm.
    destruct (BoardVisitor.stack_ bv); [discriminate|]. inversion Hm; subst. clear Hm.
    destruct (color_eqb _ kEmpty).
    + apply IH in H. exact H.
    + bind_inv H. apply IH in H. rewrite H, MergeGroup_visits_epoch. reflexivity.
Qed.

Section MergeGroupFacts.

Variable kN : nat.

Lemma MergeGroup_chain p v c p' v' :
  visitor_fresh kN (board_visitor_ v) -> on_board kN c -> color_at p c <> kEmpty ->
  length (stones_ p) = kN * kN ->
  Stone.group_id (stone_at p c) < length (GroupPool.slots (groups_ p)) ->
  MergeGroup kN p v c = Ok (p', v') ->
  (exists stones libs,
     NoDup stones /\ NoDup libs /\
     (forall y, In y stones <-> same_chain kN p (color_at p c) c y) /\
     (forall y, In y libs <-> chain_liberty kN p (color_at p c) c y) /\
     group_at p' (Stone.group_id (stone_at p c))
       = mkGroup (u16 (Z.of_nat (length stones))) (u16 (Z.of_nat (length libs))) /\
     (forall y, In y stones -> stone_at p' y = stone_at p c) /\
     (forall y, ~ In y stones -> stone_at p' y = stone_at p y) /\
     (forall g, g <> Stone.group_id (stone_at p c) -> group_at p' g = group_at p g)) /\
  BoardVisitor.Done (board_visitor_ v') = true /\
  sized kN (board_visitor_ v') /\
  tags_bounded (BoardVisitor.epoch_ (board_visitor_ v'))
               (BoardVisitor.visited_ (board_visitor_ v')) /\
  BoardVisitor.epoch_ (board_visitor_ v')
    = (BoardVisitor.epoch_ (board_visitor_ v) + 1)%Z.
Proof.
  intros Hf Hc Hne Hlen Hid H. unfold MergeGroup in H.
  set (s := stone_at p c) in *.
  bind_inv H. bind_inv H. destruct a0 as [q bv]. inversion H; subst p' v'. clear H.
  destruct (Begin_fresh Hf Hm) as [Hst [Hs [Hb [He Hnot]]]].
  set (bv1 := snd (BoardVisitor.Visit c a)) in *.
  assert (Hlt : c < length (BoardVisitor.visited_ a)) by (rewrite Hs; exact Hc).
  assert (Hst1 : BoardVisitor.stack_ bv1 = [c]).
  { unfold bv1. destruct (Visit_stack c a) as [[_ Ht]|[E _]].
    - exfalso. exact (Hnot c Ht).
    - rewrite E, Hst. reflexivity. }
  assert (Hk : color_at p c = Stone.color s) by reflexivity.
  assert (Hks : Stone.color s <> kEmpty) by (rewrite <- Hk; exact Hne).
  set (p1 := set_group p (Stone.group_id s) (mkGroup 0 0)) in *.
  assert (Hinv : merge_inv kN p (Stone.color s) c s [] [] [] p1 bv1).
  { unfold merge_inv. rewrite Hst1. cbn [app].
    split; [now left|]. split; [now apply Visit_sized|].
    split; [now apply Visit_bounded|].
    split; [constructor; [intros [] | constructor]|].
    split; [intros y [<-|[]]; left; constructor|].
    split; [intros y []|]. split; [intros y []|].
    split.
    { intros y. unfold bv1. rewrite (tagged_pushed a y Hlt). cbn [In]. split.
      - intros [->|Ht]; [now left | exfalso; exact (Hnot y Ht)].
      - intros [<-|[]]. now left. }
    split; [intros y []|]. split; [reflexivity|]. split; [intros y nc []|].
    split.
    { unfold p1, group_at, set_group. cbn [groups_ with_groups].
      now rewrite pool_get_set_same. }
    split.
    { intros g Hg. unfold p1, group_at, set_group. cbn [groups_ with_groups].
      now rewrite pool_get_set_other by auto. }
    split; [|reflexivity].
    unfold p1, set_group. cbn [groups_ with_groups GroupPool.set GroupPool.slots].
    now rewrite upd_length. }
  pose proof (MergeGroup_loop_epoch _ _ _ _ _ _ Hm0) as Hep.
  apply (@MergeGroup_loop_merge kN p c s Hc Hks Hk Hlen Hid) with (stones := []) (libs := [])
    in Hm0; [|exact Hinv].
  destruct Hm0 as [stones [libs [Hinv' Hst']]].
  destruct Hinv' as [Hin0 [Hs' [Hb' [Hnd [Hre [Hsc [Hli [Htag [Hss [Hsr [Hcl
                    [Hg [Hgo [Hpl Hsl]]]]]]]]]]]]]].
  rewrite Hst' in *. cbn [app] in *. rewrite Hk.
  assert (Hopp : OtherColor (Stone.color s) <> Stone.color s) by now apply OtherColor_neq.
  assert (Hopp' : OtherColor (Stone.color s) <> kEmpty) by now apply OtherColor_not_empty.
  assert (Hins : forall y, In y (stones ++ libs) -> color_at p y = Stone.color s ->
                           In y stones).
  { intros y Hy Hcy. apply in_app_or in Hy. destruct Hy as [Hy|Hy]; [exact Hy|].
    apply Hli in Hy. congruence. }
  assert (Hinl : forall y, In y (stones ++ libs) -> color_at p y = kEmpty -> In y libs).
  { intros y Hy Hcy. apply in_app_or in Hy. destruct Hy as [Hy|Hy]; [|exact Hy].
    apply Hsc in Hy. congruence. }
  assert (HA : forall y, In y stones <-> same_chain kN p (Stone.color s) c y).
  { intros y. split.
    - intros Hy. destruct (Hre y) as [H|[H _]]; [apply in_or_app; now left | exact H|].
      apply Hsc in Hy. congruence.
    - intros Hy. induction Hy as [|z nc Hz IH Hnc Hcn].
      + now apply Hins.
      + apply Hins; [|exact Hcn]. apply (Hcl z nc IH Hnc). congruence. }
  split.
  { exists stones, libs.
    split; [now apply NoDup_app_remove_r in Hnd|].
    split; [now apply NoDup_app_remove_l in Hnd|].
    split; [exact HA|].
    split.
    { intros y. split.
      - intros Hy. destruct (Hre y) as [H|H]; [apply in_or_app; now right | | exact H].
        apply chain_color in H; [|exact Hk]. apply Hli in Hy. congruence.
      - intros [Hey [z [Hz Hyz]]]. apply Hinl; [|exact Hey].
        apply (Hcl z y); [now apply HA | exact Hyz | congruence]. }
    split; [exact Hg|]. split; [exact Hss|]. split; [exact Hsr | exact Hgo]. }
  cbn [board_visitor_ with_board_visitor].
  split; [unfold BoardVisitor.Done; now rewrite Hst'|].
  split; [exact Hs'|]. split; [exact Hb'|].
  rewrite Hep. unfold bv1. rewrite Visit_epoch. exact He.
Qed.

End MergeGroupFacts.
(** After [RemoveGroup] on a stone, the points of its chain, the stones of
    its color joined to it by paths of such stones, are empty and every
    other point of the board is as before. *)
Theorem remove_group_removes_the_chain (kN kMaxNumGroups : nat) (p : Position)
        (v : Scratch) (c : Coord) (p' : Position) (v' : Scratch) :
  visitor_fresh kN (board_visitor_ v) -> on_board kN c -> color_at p c <> kEmpty ->
  RemoveGroup kN kMaxNumGroups p v c = Ok (p', v') ->
  forall x,
    (same_chain kN p (color_at p c) c x -> color_at p' x = kEmpty) /\
    (~ same_chain kN p (color_at p c) c x -> color_at p' x = color_at p x).
Proof.
  intros Hf Hc Hne H x.
  destruct (@RemoveGroup_chain kN kMaxNumGroups p v c p' v' Hf Hc Hne H)
    as [[gone [_ [Hg [He Hr]]]] _].
  split.
  - intros Hx. apply He. now apply Hg.
  - intros Hx. unfold color_at. rewrite Hr; [reflexivity|]. intros Hin. apply Hx. now apply Hg.
Qed.

Lemma remove_group_removes_the_chain_witness :
  exists p' v',
    RemoveGroup 9 81 (after9 [Game9.at_ 0 0; Game9.at_ 0 1; Game9.at_ 1 0])
                (scratch_after9 [Game9.at_ 0 0; Game9.at_ 0 1; Game9.at_ 1 0]) 0
      = Ok (p', v') /\
    color_at p' 0 = kEmpty /\ color_at p' 9 = kEmpty.
Proof.
  eexists; eexists.
  assert (E : RemoveGroup 9 81 (after9 [Game9.at_ 0 0; Game9.at_ 0 1; Game9.at_ 1 0])
                (scratch_after9 [Game9.at_ 0 0; Game9.at_ 0 1; Game9.at_ 1 0]) 0
              = Ok (?[p'], ?[v'])) by (vm_compute; reflexivity).
  split; [exact E|].
  assert (Hf : visitor_fresh 9 (board_visitor_
                 (scratch_after9 [Game9.at_ 0 0; Game9.at_ 0 1; Game9.at_ 1 0]))).
  { split; [reflexivity|]. split; [reflexivity|]. split; [|vm_compute; discriminate].
    split; [vm_compute; split; discriminate|].
    vm_compute. repeat constructor; discriminate. }
  assert (Hc : on_board 9 0) by (unfold on_board; simpl; lia).
  assert (Hne : color_at (after9 [Game9.at_ 0 0; Game9.at_ 0 1; Game9.at_ 1 0]) 0 <> kEmpty)
    by (vm_compute; discriminate).
  pose proof (@remove_group_removes_the_chain 9 81 _ _ 0 _ _ Hf Hc Hne E) as H.
  split.
  - apply (proj1 (H 0)). constructor.
  - apply (proj1 (H 9)). apply chain_step with (x := 0); [constructor | |reflexivity].
    vm_compute. auto.
Defined.


(** ** A move takes the captured chains off the board *)

Lemma chain_trans kN p k a b d :
  same_chain kN p k a b -> same_chain kN p k b d -> same_chain kN p k a d.
Proof.
  intros Hab Hbd. induction Hbd as [|x nc Hx IH Hnc He]; [exact Hab|].
  eapply chain_step; eassumption.
Qed.

Lemma chain_sym kN p k a b :
  color_at p a = k -> same_chain kN p k a b -> same_chain kN p k b a.
Proof.
  intros Ha H. induction H as [|x nc Hx IH Hnc He]; [constructor|].
  apply chain_trans with (b := x); [|exact IH].
  apply chain_step with (x := nc); [constructor | now apply neighbors_symmetric |].
  now apply chain_color with (kN := kN) (c := a).
Qed.

Lemma chain_agree kN p q k a b :
  (forall y, color_at p y = k -> color_at q y = k) ->
  same_chain kN p k a b -> same_chain kN q k a b.
Proof.
  intros Hpq H. induction H as [|x nc Hx IH Hnc He]; [constructor|].
  apply chain_step with (x := x); auto.
Qed.

Lemma RemoveGroup_neighbors_visitor kN rc oc : forall ncs p bv og,
  sized kN bv -> tags_bounded (BoardVisitor.epoch_ bv) (BoardVisitor.visited_ bv) ->
  sized kN (snd (fst (fold_left (RemoveGroup_neighbor rc oc) ncs (p, bv, og)))) /\
  tags_bounded
    (BoardVisitor.epoch_ (snd (fst (fold_left (RemoveGroup_neighbor rc oc) ncs (p, bv, og)))))
    (BoardVisitor.visited_ (snd (fst (fold_left (RemoveGroup_neighbor rc oc) ncs (p, bv, og))))).
Proof.
  induction ncs as [|nc ncs IH]; intros p bv og Hs Hb; cbn [fold_left]; [auto|].
  unfold RemoveGroup_neighbor at 2 4 6.
  destruct (color_eqb _ oc).
  - destruct (tiny_insert _ og) as [[|] og1]; now apply IH.
  - destruct (color_eqb _ rc); [|now apply IH].
    apply IH; [now apply Visit_sized | now apply Visit_bounded].
Qed.

Lemma RemoveGroup_loop_visitor kN rc oc id : forall fuel p bv p' bv',
  sized kN bv -> tags_bounded (BoardVisitor.epoch_ bv) (BoardVisitor.visited_ bv) ->
  RemoveGroup_loop kN fuel rc oc id p bv = Ok (p', bv') ->
  BoardVisitor.Done bv' = true /\ sized kN bv' /\
  tags_bounded (BoardVisitor.epoch_ bv') (BoardVisitor.visited_ bv').
Proof.
  induction fuel as [|fuel IH]; intros p bv p' bv' Hs Hb H; cbn [RemoveGroup_loop] in H.
  - destruct (BoardVisitor.Done bv) eqn:Hd; [|discriminate]. inversion H; subst. auto.
  - destruct (BoardVisitor.Done bv) eqn:Hd; [inversion H; subst; auto|].
    bind_inv H. destruct a as [x bv1]. bind_inv H.
    unfold BoardVisitor.Next in Hm.
    destruct (BoardVisitor.stack_ bv); [discriminate|]. inversion Hm; subst. clear Hm.
    destruct (@RemoveGroup_neighbors_visitor kN rc oc (GetNeighborCoords kN x)
                (set_stone p x Stone.default)
                (BoardVisitor.mk l (BoardVisitor.visited_ bv) (BoardVisitor.epoch_ bv)) []
                Hs Hb) as [Hs2 Hb2].
    destruct (fold_left _ _ _) as [[p2 bv2] og2]. cbn [fst snd] in Hs2, Hb2.
    eapply IH; eassumption.
Qed.

Lemma RemoveGroup_visitor kN kMaxNumGroups p v c p' v' :
  visitor_fresh kN (board_visitor_ v) ->
  RemoveGroup kN kMaxNumGroups p v c = Ok (p', v') ->
  BoardVisitor.Done (board_visitor_ v') = true /\ sized kN (board_visitor_ v') /\
  tags_bounded (BoardVisitor.epoch_ (board_visitor_ v'))
               (BoardVisitor.visited_ (board_visitor_ v')) /\
  BoardVisitor.epoch_ (board_visitor_ v')
    = (BoardVisitor.epoch_ (board_visitor_ v) + 1)%Z.
Proof.
  intros Hf H. unfold RemoveGroup in H.
  bind_inv H. bind_inv H. destruct a0 as [q bv]. inversion H; subst. clear H.
  destruct (Begin_fresh Hf Hm) as [Hst [Hs [Hb [He Hnot]]]].
  pose proof (RemoveGroup_loop_epoch _ _ _ _ _ _ _ Hm0) as Hep.
  apply RemoveGroup_loop_visitor with (kN := kN) in Hm0;
    [|now apply Visit_sized | now apply Visit_bounded].
  destruct Hm0 as [Hd' [Hs' Hb']]. cbn [board_visitor_].
  split; [exact Hd'|]. split; [exact Hs'|]. split; [exact Hb'|].
  rewrite Hep, Visit_epoch. exact He.
Qed.

Lemma MergeGroup_visits_visitor kN p opp : forall ncs bv,
  sized kN bv -> tags_bounded (BoardVisitor.epoch_ bv) (BoardVisitor.visited_ bv) ->
  sized kN (fold_left (MergeGroup_visit p opp) ncs bv) /\
  tags_bounded (BoardVisitor.epoch_ (fold_left (MergeGroup_visit p opp) ncs bv))
               (BoardVisitor.visited_ (fold_left (MergeGroup_visit p opp) ncs bv)).
Proof.
  induction ncs as [|nc ncs IH]; intros bv Hs Hb; cbn [fold_left]; [auto|].
  apply IH; unfold MergeGroup_visit; destruct (negb _); auto;
    [now apply Visit_sized | now apply Visit_bounded].
Qed.

Lemma MergeGroup_loop_visitor kN s opp : forall fuel p bv p' bv',
  sized kN bv -> tags_bounded (BoardVisitor.epoch_ bv) (BoardVisitor.visited_ bv) ->
  MergeGroup_loop kN fuel s opp p bv = Ok (p', bv') ->
  BoardVisitor.Done bv' = true /\ sized kN bv' /\
  tags_bounded (BoardVisitor.epoch_ bv') (BoardVisitor.visited_ bv').
Proof.
  induction fuel as [|fuel IH]; intros p bv p' bv' Hs Hb H; cbn [MergeGroup_loop] in H.
  - destruct (BoardVisitor.Done bv) eqn:Hd; [|discriminate]. inversion H; subst. auto.
  - destruct (BoardVisitor.Done bv) eqn:Hd; [inversion H; subst; auto|].
    bind_inv H. destruct a as [x bv1].
    unfold BoardVisitor.Next in Hm.
    destruct (BoardVisitor.stack_ bv); [discriminate|]. inversion Hm; subst. clear Hm.
    destruct (color_eqb _ kEmpty).
    + eapply IH; [| |exact H]; assumption.
    + bind_inv H.
      match type of H with
      | MergeGroup_loop _ _ _ _ _ (fold_left (MergeGroup_visit ?q _) ?l ?b) = _ =>
          destruct (@MergeGroup_visits_visitor kN q opp l b Hs Hb) as [Hs2 Hb2]
      end.
      eapply IH; [| |exact H]; assumption.
Qed.

Lemma MergeGroup_visitor kN p v c p' v' :
  visitor_fresh kN (board_visitor_ v) ->
  MergeGroup kN p v c = Ok (p', v') ->
  BoardVisitor.Done (board_visitor_ v') = true /\ sized kN (board_visitor_ v') /\
  tags_bounded (BoardVisitor.epoch_ (board_visitor_ v'))
               (BoardVisitor.visited_ (board_visitor_ v')) /\
  BoardVisitor.epoch_ (board_visitor_ v')
    = (BoardVisitor.epoch_ (board_visitor_ v) + 1)%Z.
Proof.
  intros Hf H. unfold MergeGroup in H.
  bind_inv H. bind_inv H. destruct a0 as [q bv]. inversion H; subst. clear H.
  destruct (Begin_fresh Hf Hm) as [Hst [Hs [Hb [He Hnot]]]].
  pose proof (MergeGroup_loop_epoch _ _ _ _ _ _ Hm0) as Hep.
  apply MergeGroup_loop_visitor with (kN := kN) in Hm0;
    [|now apply Visit_sized | now apply Visit_bounded].
  destruct Hm0 as [Hd' [Hs' Hb']]. cbn [board_visitor_ with_board_visitor].
  split; [exact Hd'|]. split; [exact Hs'|]. split; [exact Hb'|].
  rewrite Hep, Visit_epoch. exact He.
Qed.

Section CapturedChains.

Variable kN : nat.
Variable kMaxNumGroups : nat.
Variable p1 : Position.
Variable opp : Color.
Hypothesis opp_stone : opp <> kEmpty.

Lemma chain_after_removal seeds gone q nc :
  removed_rel kN p1 opp seeds gone q ->
  color_at p1 nc = opp -> ~ In nc gone ->
  forall x, same_chain kN q opp nc x <-> same_chain kN p1 opp nc x.
Proof.
  intros [Hg [He Hr]] Hnc Hout x. split.
  - apply chain_agree. intros y Hy.
    destruct (in_dec Nat.eq_dec y gone) as [Hin|Hin].
    + apply He in Hin. congruence.
    + now rewrite <- (Hr y Hin).
  - intros H. induction H as [|z n Hz IH Hn Hcn]; [constructor|].
    apply chain_step with (x := z); [exact IH | exact Hn|].
    rewrite Hr; [exact Hcn|]. intros Hin.
    apply Hg in Hin. destruct Hin as [seed [Hseed Hch]].
    apply Hout. apply Hg. exists seed. split; [exact Hseed|].
    apply chain_trans with (b := n); [exact Hch|].
    apply chain_sym; [exact Hnc|].
    apply chain_step with (x := z); assumption.
Qed.

Lemma remove_captured_chains color : forall captured seeds gone p v p' v',
  (forall g nc, In (g, nc) captured -> on_board kN nc /\ color_at p1 nc = opp) ->
  removed_rel kN p1 opp seeds gone p ->
  BoardVisitor.Done (board_visitor_ v) = true -> sized kN (board_visitor_ v) ->
  tags_bounded (BoardVisitor.epoch_ (board_visitor_ v))
               (BoardVisitor.visited_ (board_visitor_ v)) ->
  (BoardVisitor.epoch_ (board_visitor_ v) + Z.of_nat (length captured) <= 255)%Z ->
  remove_captured kN kMaxNumGroups p v color captured = Ok (p', v') ->
  exists gone',
    removed_rel kN p1 opp (seeds ++ map snd captured) gone' p' /\
    BoardVisitor.Done (board_visitor_ v') = true /\ sized kN (board_visitor_ v') /\
    tags_bounded (BoardVisitor.epoch_ (board_visitor_ v'))
                 (BoardVisitor.visited_ (board_visitor_ v')) /\
    BoardVisitor.epoch_ (board_visitor_ v')
      = (BoardVisitor.epoch_ (board_visitor_ v) + Z.of_nat (length captured))%Z.
Proof.
  induction captured as [|[g nc] rest IH]; intros seeds gone p v p' v' Hseeds Hrel
    Hd Hs Hb Hep H; cbn [remove_captured] in H.
  - inversion H; subst. exists gone. cbn [map length]. rewrite app_nil_r.
    split; [exact Hrel|]. repeat (split; [assumption|]). simpl. lia.
  - bind_inv H. destruct a as [q1 v1].
    match type of Hm with
    | RemoveGroup _ _ ?q _ _ = _ => set (q0 := q) in *
    end.
    assert (Hq0 : forall x, color_at q0 x = color_at p x) by reflexivity.
    assert (Hf : visitor_fresh kN (board_visitor_ v)).
    { split; [exact Hd|]. split; [exact Hs|]. split; [exact Hb|].
      cbn [length] in Hep. lia. }
    destruct (Hseeds g nc (or_introl eq_refl)) as [Hon Hcnc].
    destruct (@RemoveGroup_visitor kN kMaxNumGroups q0 v nc q1 v1 Hf Hm)
      as [Hd1 [Hs1 [Hb1 He1]]].
    destruct Hrel as [Hg [He Hr]].
    assert (Hnext : exists gone1, removed_rel kN p1 opp (seeds ++ [nc]) gone1 q1).
    { destruct (in_dec Nat.eq_dec nc gone) as [Hin|Hout].
      - (* the chain went with an earlier stone *)
        exists gone.
        assert (Hsame : forall x, color_at q1 x = color_at p x).
        { intros x. destruct (@RemoveGroup_colors kN kMaxNumGroups q0 v nc q1 v1 Hm) as [_ Hc].
          destruct (Hc x) as [E|[E1 E2]]; [now rewrite E|].
          rewrite E2. rewrite !Hq0 in E1. rewrite E1. symmetry. now apply He. }
        split; [|split].
        + intros x. rewrite Hg. split.
          * intros [seed [Hs0 Hc]]. exists seed. split; [apply in_or_app; now left | exact Hc].
          * intros [seed [Hs0 Hc]]. apply in_app_or in Hs0.
            destruct Hs0 as [Hs0|[<-|[]]]; [now exists seed|].
            apply Hg in Hin. destruct Hin as [seed0 [Hs0 Hc0]].
            exists seed0. split; [exact Hs0|]. now apply chain_trans with (b := nc).
        + intros x Hx. rewrite Hsame. now apply He.
        + intros x Hx. rewrite Hsame. now apply Hr.
      - (* the chain is on the board *)
        assert (Hcq : color_at q0 nc = opp) by (rewrite Hq0, (Hr nc Hout); exact Hcnc).
        assert (Hne : color_at q0 nc <> kEmpty) by (rewrite Hcq; exact opp_stone).
        destruct (@RemoveGroup_chain kN kMaxNumGroups q0 v nc q1 v1 Hf Hon Hne Hm)
          as [[popped [Hnd [Hpop [Hpe Hpr]]]] _].
        rewrite Hcq in Hpop.
        assert (Hprc : forall x, ~ In x popped -> color_at q1 x = color_at q0 x).
        { intros x Hx. unfold color_at. now rewrite (Hpr x Hx). }
        assert (Hchain : forall x, In x popped <-> same_chain kN p1 opp nc x).
        { intros x. rewrite Hpop.
          apply (@chain_after_removal seeds gone q0 nc); [|exact Hcnc | exact Hout].
          split; [exact Hg|]. split; assumption. }
        exists (gone ++ popped). split; [|split].
        + intros x. rewrite in_app_iff, Hg, Hchain. split.
          * intros [[seed [Hs0 Hc]]|Hc].
            -- exists seed. split; [apply in_or_app; now left | exact Hc].
            -- exists nc. split; [apply in_or_app; right; now left | exact Hc].
          * intros [seed [Hs0 Hc]]. apply in_app_or in Hs0.
            destruct Hs0 as [Hs0|[<-|[]]]; [left; now exists seed | now right].
        + intros x Hx. destruct (in_dec Nat.eq_dec x popped) as [Hp|Hp]; [now apply Hpe|].
          rewrite (Hprc x Hp), Hq0. apply in_app_or in Hx.
          destruct Hx as [Hx|Hx]; [now apply He | contradiction].
        + intros x Hx. rewrite Hprc by (intros Hp; apply Hx; apply in_or_app; now right).
          rewrite Hq0. apply Hr. intros Hin. apply Hx. apply in_or_app. now left. }
    destruct Hnext as [gone1 Hrel1].
    apply (IH (seeds ++ [nc]) gone1) in H; try assumption.
    + destruct H as [gone' [Hrel' [Hd' [Hs' [Hb' He']]]]].
      exists gone'. cbn [map snd]. rewrite <- app_assoc in Hrel'. cbn [app] in Hrel'.
      split; [exact Hrel'|]. repeat (split; [assumption|]).
      rewrite He', He1. cbn [length]. lia.
    + intros g' n' Hin. apply (Hseeds g' n'). now right.
    + rewrite He1. cbn [length] in Hep. lia.
Qed.

End CapturedChains.
Lemma neighbors_at_most_four kN c : length (GetNeighborCoords kN c) <= 4.
Proof.
  destruct (Nat.lt_ge_cases c (kN * kN)) as [Hlt|Hge].
  - destruct (@on_board_coord_of kN c Hlt) as [H1 [H2 H3]].
    rewrite H3, GetNeighborCoords_lookup by assumption.
    unfold neighbors_of. rewrite !length_app.
    destruct (0 <? c mod kN); destruct (c mod kN <? kN - 1); destruct (0 <? c / kN);
      destruct (c / kN <? kN - 1); simpl; lia.
  - unfold GetNeighborCoords. rewrite nth_overflow; [simpl; lia|].
    now rewrite kNeighborCoords_length.
Qed.

Lemma scan_fold_captured_length p color opp : forall ncs st,
  length (captured_groups (fold_left (scan_step p color opp) ncs st))
    <= length (captured_groups st) + length ncs.
Proof.
  induction ncs as [|nc ncs IH]; intros st; cbn [fold_left length]; [lia|].
  eapply Nat.le_trans; [apply IH|].
  assert (H : length (captured_groups (scan_step p color opp st nc))
              <= S (length (captured_groups st))).
  { unfold scan_step.
    destruct (color_eqb _ kEmpty); [simpl; lia|].
    destruct (color_eqb _ color); [simpl; lia|].
    destruct (color_eqb _ opp); [|lia].
    destruct (tiny_insert _ _) as [[|] og]; [|lia].
    cbn [captured_groups]. destruct (_ =? 0)%Z; [|lia].
    rewrite length_app. simpl. lia. }
  lia.
Qed.

Lemma captured_at_most_four kN p c color :
  length (captured_groups (scan_neighbors kN p c color)) <= 4.
Proof.
  unfold scan_neighbors.
  eapply Nat.le_trans; [apply scan_fold_captured_length|].
  cbn [captured_groups length]. apply neighbors_at_most_four.
Qed.

Section MoveChains.

Variable kN : nat.
Variable kMaxNumGroups : nat.

Lemma place_stone_visitor p v c color libs ngs p' v' :
  visitor_fresh kN (board_visitor_ v) ->
  place_stone kN p v c color libs ngs = Ok (p', v') ->
  BoardVisitor.Done (board_visitor_ v') = true /\ sized kN (board_visitor_ v') /\
  tags_bounded (BoardVisitor.epoch_ (board_visitor_ v'))
               (BoardVisitor.visited_ (board_visitor_ v')) /\
  (BoardVisitor.epoch_ (board_visitor_ v) <= BoardVisitor.epoch_ (board_visitor_ v')
   <= BoardVisitor.epoch_ (board_visitor_ v) + 1)%Z.
Proof.
  intros Hf H. pose proof Hf as [Hd [Hs [Hb Hne]]].
  unfold place_stone in H. destruct ngs as [|id [|id2 others]].
  - bind_inv H. destruct a as [g pool]. inversion H; subst.
    repeat (split; [assumption|]). lia.
  - inversion H; subst. repeat (split; [assumption|]). lia.
  - bind_inv H. destruct a as [q w]. inversion H; subst. clear H.
    destruct (@MergeGroup_visitor kN _ _ _ _ _ Hf Hm) as [Hd' [Hs' [Hb' He']]].
    repeat (split; [assumption|]). lia.
Qed.

Lemma AddStoneToBoard_chains p v c color p' v' :
  color <> kEmpty -> on_board kN c -> length (stones_ p) = kN * kN ->
  color_at p c = kEmpty ->
  BoardVisitor.Done (board_visitor_ v) = true -> sized kN (board_visitor_ v) ->
  tags_bounded (BoardVisitor.epoch_ (board_visitor_ v))
               (BoardVisitor.visited_ (board_visitor_ v)) ->
  (BoardVisitor.epoch_ (board_visitor_ v) < 250)%Z ->
  AddStoneToBoard kN kMaxNumGroups p v c color = Ok (p', v') ->
  (forall x, x <> c ->
     (color_at p' x = kEmpty <->
      color_at p x = kEmpty \/
      exists g nc, In (g, nc) (captured_groups (scan_neighbors kN p c color)) /\
                   same_chain kN p (OtherColor color) nc x)) /\
  BoardVisitor.Done (board_visitor_ v') = true /\ sized kN (board_visitor_ v') /\
  tags_bounded (BoardVisitor.epoch_ (board_visitor_ v'))
               (BoardVisitor.visited_ (board_visitor_ v')) /\
  (BoardVisitor.epoch_ (board_visitor_ v) <= BoardVisitor.epoch_ (board_visitor_ v')
   <= BoardVisitor.epoch_ (board_visitor_ v) + 5)%Z.
Proof.
  intros Hcol Hc Hlen Hempty Hd Hs Hb Hep H. unfold AddStoneToBoard in H.
  set (sc := scan_neighbors kN p c color) in *.
  bind_inv H. destruct a as [pl v1]. bind_inv H. destruct a as [p2 v2].
  inversion H; subst p' v'. clear H.
  assert (Hf : visitor_fresh kN (board_visitor_ v)).
  { split; [exact Hd|]. split; [exact Hs|]. split; [exact Hb | lia]. }
  destruct (@place_stone_visitor _ _ _ _ _ _ _ _ Hf Hm) as [Hd1 [Hs1 [Hb1 He1]]].
  apply place_stone_colors in Hm; [|cbn [stones_ with_groups]; rewrite Hlen; exact Hc].
  destruct Hm as [_ [Hcc Hpl]].
  assert (Hplc : forall x, x <> c -> color_at pl x = color_at p x) by exact Hpl.
  clear Hpl.
  assert (Hopp : OtherColor color <> kEmpty) by now apply OtherColor_not_empty.
  assert (Hoc : OtherColor color <> color) by now apply OtherColor_neq.
  assert (Hseeds : forall g nc, In (g, nc) (captured_groups sc) ->
            In nc (GetNeighborCoords kN c) /\ color_at p nc = OtherColor color /\ nc <> c).
  { intros g nc Hin.
    destruct (@scan_neighbors_inv kN p color Hcol c) as [_ [_ [Hcap _]]].
    destruct (Hcap g nc Hin) as [Hn [Hk _]].
    split; [exact Hn|]. split; [exact Hk|]. intros ->.
    unfold color_at in Hempty. congruence. }
  pose proof (captured_at_most_four kN p c color) as Hfour. fold sc in Hfour.
  destruct (@remove_captured_chains kN kMaxNumGroups pl (OtherColor color) Hopp color
              (captured_groups sc) [] [] pl v1 p2 v2) as [gone [Hrel [Hd2 [Hs2 [Hb2 He2]]]]];
    try assumption.
  { intros g nc Hin. destruct (Hseeds g nc Hin) as [Hn [Hk Hne]].
    split; [apply (GetNeighborCoords_on_board kN c nc Hn)|].
    rewrite Hplc by exact Hne. exact Hk. }
  { split; [|split].
    - intros x. split; [intros [] | intros [nc [[] _]]].
    - intros x [].
    - reflexivity. }
  { lia. }
  destruct Hrel as [Hg [Hge Hgr]]. cbn [app] in Hg.
  assert (Hchain : forall nc x, same_chain kN pl (OtherColor color) nc x <->
                                same_chain kN p (OtherColor color) nc x).
  { intros nc x. split; apply chain_agree; intros y Hy.
    - destruct (Nat.eq_dec y c) as [->|Hne]; [congruence|]. now rewrite <- Hplc.
    - destruct (Nat.eq_dec y c) as [->|Hne]; [congruence|]. now rewrite Hplc. }
  destruct (update_ko_fields kN p2 (captured_groups sc) (IsKoish kN p c) (OtherColor color))
    as [Hst _].
  assert (Hfin : forall x, color_at (update_ko kN p2 (captured_groups sc) (IsKoish kN p c)
                                               (OtherColor color)) x = color_at p2 x).
  { intros x. unfold color_at, stone_at. now rewrite Hst. }
  split.
  { intros x Hx. rewrite Hfin. split.
    - intros He. destruct (in_dec Nat.eq_dec x gone) as [Hin|Hout].
      + right. apply Hg in Hin. destruct Hin as [nc [Hnc Hch]].
        apply in_map_iff in Hnc. destruct Hnc as [[g n] [E Hin]]. cbn [snd] in E. subst n.
        exists g, nc. split; [exact Hin | now apply Hchain].
      + left. rewrite <- (Hplc x Hx), <- (Hgr x Hout). exact He.
    - intros [He|[g [nc [Hin Hch]]]].
      + destruct (in_dec Nat.eq_dec x gone) as [Hi|Hout]; [now apply Hge|].
        rewrite (Hgr x Hout), (Hplc x Hx). exact He.
      + apply Hge. apply Hg. exists nc. split; [|now apply Hchain].
        apply in_map_iff. exists (g, nc). auto. }
  repeat (split; [assumption|]).
  assert (Z.of_nat (length (captured_groups sc)) <= 4)%Z by lia. lia.
Qed.


End MoveChains.


(** ** Group identifiers name chains *)

Lemma stone_on_board kN p x :
  length (stones_ p) = kN * kN -> color_at p x <> kEmpty -> on_board kN x.
Proof.
  intros Hlen Hx. unfold on_board. rewrite <- Hlen.
  destruct (Nat.lt_ge_cases x (length (stones_ p))) as [H|H]; [exact H|].
  exfalso. apply Hx. unfold color_at, stone_at. now rewrite nth_overflow.
Qed.

Lemma chain_same_group kN p x y :
  groups_are_chains kN p -> color_at p x <> kEmpty ->
  same_chain kN p (color_at p x) x y -> id_at p y = id_at p x.
Proof.
  intros [_ [_ [_ [_ [Hadj _]]]]] Hx H.
  induction H as [|z nc Hz IH Hnc Hk]; [reflexivity|].
  rewrite <- IH. assert (Hcz : color_at p z = color_at p x).
  { now apply chain_color with (kN := kN) (c := x). }
  apply Hadj; [congruence | exact Hnc | congruence].
Qed.

Lemma chain_inv_start kN p c bv a :
  visitor_fresh kN bv -> BoardVisitor.Begin kN bv = Ok a -> on_board kN c ->
  chain_inv kN p (color_at p c) c [] p (snd (BoardVisitor.Visit c a)) /\
  BoardVisitor.Done (snd (BoardVisitor.Visit c a)) = false.
Proof.
  intros Hf Hm Hc.
  destruct (Begin_fresh Hf Hm) as [Hst [Hs [Hb [He Hnot]]]].
  set (bv1 := snd (BoardVisitor.Visit c a)) in *.
  assert (Hlt : c < length (BoardVisitor.visited_ a)) by (rewrite Hs; exact Hc).
  assert (Hst1 : BoardVisitor.stack_ bv1 = [c]).
  { unfold bv1. destruct (Visit_stack c a) as [[_ Ht]|[E _]].
    - exfalso. exact (Hnot c Ht).
    - rewrite E, Hst. reflexivity. }
  split; [|unfold BoardVisitor.Done; now rewrite Hst1].
  unfold chain_inv. rewrite Hst1. cbn [app].
  split; [now left|]. split; [now apply Visit_sized|].
  split; [now apply Visit_bounded|].
  split; [constructor; [intros [] | constructor]|].
  split; [intros y [<-|[]]; constructor|].
  split.
  { intros y. unfold bv1. rewrite (tagged_pushed a y Hlt). cbn [In]. split.
    - intros [->|Ht]; [now left | exfalso; exact (Hnot y Ht)].
    - intros [<-|[]]. now left. }
  split; [intros y []|]. split; [reflexivity|]. intros y nc [].
Qed.

Lemma Begin_succeeds kN bv :
  BoardVisitor.Done bv = true -> exists a, BoardVisitor.Begin kN bv = Ok a.
Proof. intros Hd. unfold BoardVisitor.Begin. rewrite Hd. cbn [assert bind]. eauto. Qed.

Section Success.

Variable kN : nat.
Variable kMaxNumGroups : nat.

Lemma RemoveGroup_succeeds p v c :
  (forall y, same_chain kN p (color_at p c) c y -> id_at p y = id_at p c) ->
  visitor_fresh kN (board_visitor_ v) -> on_board kN c -> color_at p c <> kEmpty ->
  exists p' v', RemoveGroup kN kMaxNumGroups p v c = Ok (p', v').
Proof.
  intros Hid Hf Hc Hne. pose proof Hf as [Hd [Hs _]].
  destruct (@Begin_succeeds kN _ Hd) as [a Ha].
  destruct (@chain_inv_start kN p c _ a Hf Ha Hc) as [Hinv Hnd].
  destruct (@Begin_ready kN _ _ Hs Ha) as [Hs1 Hd1].
  destruct (@seeded_measure kN _ c Hs1 Hd1 Hc) as [Hs2 Hm2].
  unfold RemoveGroup. rewrite Ha. cbn [bind]. fold (color_at p c). fold (id_at p c).
  pose proof (@RemoveGroup_loop_run kN p (color_at p c) c Hne (id_at p c) Hid
                (traversal_fuel kN) p _ [] Hinv) as R.
  pose proof (@RemoveGroup_loop_fuel kN (color_at p c) (OtherColor (color_at p c))
                (id_at p c) (traversal_fuel kN) p _ Hs2 Hm2) as F.
  destruct (RemoveGroup_loop kN (traversal_fuel kN) (color_at p c)
              (OtherColor (color_at p c)) (id_at p c) p (snd (BoardVisitor.Visit c a)))
    as [[q bv]|e]; cbn [bind].
  - eauto.
  - exfalso. apply F. exact R.
Qed.

End Success.
Lemma merge_inv_start kN p c bv a :
  visitor_fresh kN bv -> BoardVisitor.Begin kN bv = Ok a -> on_board kN c ->
  Stone.group_id (stone_at p c) < length (GroupPool.slots (groups_ p)) ->
  merge_inv kN p (Stone.color (stone_at p c)) c (stone_at p c) [] [] []
            (set_group p (Stone.group_id (stone_at p c)) (mkGroup 0 0))
            (snd (BoardVisitor.Visit c a)).
Proof.
  intros Hf Hm Hc Hid.
  destruct (Begin_fresh Hf Hm) as [Hst [Hs [Hb [He Hnot]]]].
  set (bv1 := snd (BoardVisitor.Visit c a)) in *.
  assert (Hlt : c < length (BoardVisitor.visited_ a)) by (rewrite Hs; exact Hc).
  assert (Hst1 : BoardVisitor.stack_ bv1 = [c]).
  { unfold bv1. destruct (Visit_stack c a) as [[_ Ht]|[E _]].
    - exfalso. exact (Hnot c Ht).
    - rewrite E, Hst. reflexivity. }
  unfold merge_inv. rewrite Hst1. cbn [app].
  split; [now left|]. split; [now apply Visit_sized|].
  split; [now apply Visit_bounded|].
  split; [constructor; [intros [] | constructor]|].
  split; [intros y [<-|[]]; left; constructor|].
  split; [intros y []|]. split; [intros y []|].
  split.
  { intros y. unfold bv1. rewrite (tagged_pushed a y Hlt). cbn [In]. split.
    - intros [->|Ht]; [now left | exfalso; exact (Hnot y Ht)].
    - intros [<-|[]]. now left. }
  split; [intros y []|]. split; [reflexivity|]. split; [intros y nc []|].
  split.
  { unfold group_at, set_group. cbn [groups_ with_groups].
    now rewrite pool_get_set_same. }
  split.
  { intros g Hg. unfold group_at, set_group. cbn [groups_ with_groups].
    now rewrite pool_get_set_other by auto. }
  split; [|reflexivity].
  unfold set_group. cbn [groups_ with_groups GroupPool.set GroupPool.slots].
  now rewrite upd_length.
Qed.

Lemma MergeGroup_succeeds kN p v c :
  visitor_fresh kN (board_visitor_ v) -> on_board kN c -> color_at p c <> kEmpty ->
  length (stones_ p) = kN * kN ->
  Stone.group_id (stone_at p c) < length (GroupPool.slots (groups_ p)) ->
  exists p' v', MergeGroup kN p v c = Ok (p', v').
Proof.
  intros Hf Hc Hne Hlen Hid. pose proof Hf as [Hd [Hs _]].
  destruct (@Begin_succeeds kN _ Hd) as [a Ha].
  pose proof (@merge_inv_start kN p c _ a Hf Ha Hc Hid) as Hinv.
  destruct (@Begin_ready kN _ _ Hs Ha) as [Hs1 Hd1].
  destruct (@seeded_measure kN _ c Hs1 Hd1 Hc) as [Hs2 Hm2].
  unfold MergeGroup. rewrite Ha. cbn [bind].
  pose proof (@MergeGroup_loop_run kN p c (stone_at p c) Hc Hne eq_refl Hlen Hid
                (traversal_fuel kN) _ _ [] [] Hinv) as R.
  pose proof (@MergeGroup_loop_fuel kN (stone_at p c)
                (OtherColor (Stone.color (stone_at p c))) (traversal_fuel kN)
                (set_group p (Stone.group_id (stone_at p c)) (mkGroup 0 0)) _ Hs2 Hm2) as F.
  destruct (MergeGroup_loop kN (traversal_fuel kN) (stone_at p c)
              (OtherColor (Stone.color (stone_at p c)))
              (set_group p (Stone.group_id (stone_at p c)) (mkGroup 0 0))
              (snd (BoardVisitor.Visit c a)))
    as [[q bv]|e]; cbn [bind].
  - eauto.
  - exfalso. apply F. exact R.
Qed.

Lemma RemoveGroup_neighbors_slots rc oc : forall ncs p bv og,
  length (GroupPool.slots
            (groups_ (fst (fst (fold_left (RemoveGroup_neighbor rc oc) ncs (p, bv, og))))))
    = length (GroupPool.slots (groups_ p)).
Proof.
  induction ncs as [|nc ncs IH]; intros p bv og; cbn [fold_left]; [reflexivity|].
  unfold RemoveGroup_neighbor at 2.
  destruct (color_eqb _ oc).
  - destruct (tiny_insert _ og) as [[|] og1]; rewrite IH; [|reflexivity].
    unfold set_group. cbn [groups_ with_groups GroupPool.set GroupPool.slots].
    apply upd_length.
  - destruct (color_eqb _ rc); apply IH.
Qed.

Lemma RemoveGroup_loop_slots kN rc oc id : forall fuel p bv p' bv',
  RemoveGroup_loop kN fuel rc oc id p bv = Ok (p', bv') ->
  length (GroupPool.slots (groups_ p')) = length (GroupPool.slots (groups_ p)).
Proof.
  induction fuel as [|fuel IH]; intros p bv p' bv' H; cbn [RemoveGroup_loop] in H.
  - destruct (BoardVisitor.Done bv); [|discriminate]. now inversion H.
  - destruct (BoardVisitor.Done bv); [now inversion H|].
    bind_inv H. destruct a as [x bv1]. bind_inv H.
    pose proof (RemoveGroup_neighbors_slots rc oc (GetNeighborCoords kN x)
                  (set_stone p x Stone.default) bv1 []) as Hl.
    destruct (fold_left _ _ _) as [[p2 bv2] og2]. cbn [fst snd] in Hl.
    apply IH in H. rewrite H, Hl. reflexivity.
Qed.

Lemma RemoveGroup_slots kN kMaxNumGroups p v c p' v' :
  RemoveGroup kN kMaxNumGroups p v c = Ok (p', v') ->
  length (GroupPool.slots (groups_ p')) = length (GroupPool.slots (groups_ p)).
Proof.
  unfold RemoveGroup. intros H. bind_inv H. bind_inv H. destruct a0 as [q bv].
  inversion H; subst. now apply RemoveGroup_loop_slots in Hm0.
Qed.

Section Consistency.

Variable kN : nat.
Variable kMaxNumGroups : nat.

(** A chain that does not meet the chain taken off the board is still a
    chain afterwards. *)
Lemma chain_survives p p' rc c gone x y :
  (forall z, In z gone <-> same_chain kN p rc c z) ->
  (forall z, ~ In z gone -> stone_at p' z = stone_at p z) ->
  color_at p c = rc ->
  ~ In x gone ->
  same_chain kN p (color_at p x) x y ->
  same_chain kN p' (color_at p x) x y /\ ~ In y gone.
Proof.
  intros Hg Hr Hc Hx H.
  induction H as [|z nc Hz [IH1 IH2] Hnc Hk]; [split; [constructor | exact Hx]|].
  assert (Hout : ~ In nc gone).
  { intros Hin. apply Hx. apply Hg.
    assert (Hcn : same_chain kN p rc c nc) by now apply Hg.
    assert (Hrc : color_at p x = rc).
    { rewrite <- Hk. now apply chain_color with (kN := kN) (c := c). }
    rewrite Hrc in *.
    apply chain_trans with (b := nc); [exact Hcn|].
    apply chain_sym; [exact Hrc|].
    apply chain_step with (x := z); assumption. }
  split; [|exact Hout].
  apply chain_step with (x := z); [exact IH1 | exact Hnc|].
  unfold color_at. rewrite (Hr nc Hout). exact Hk.
Qed.

Lemma RemoveGroup_consistent p v c p' v' :
  groups_are_chains kN p ->
  visitor_fresh kN (board_visitor_ v) -> on_board kN c -> color_at p c <> kEmpty ->
  RemoveGroup kN kMaxNumGroups p v c = Ok (p', v') ->
  groups_are_chains kN p'.
Proof.
  intros Hwf Hf Hc Hne H.
  destruct (@RemoveGroup_chain kN kMaxNumGroups p v c p' v' Hf Hc Hne H)
    as [[gone [_ [Hg [He Hr]]]] _].
  pose proof (@RemoveGroup_frees_nothing kN kMaxNumGroups p v c p' v' H) as Hfree.
  pose proof (@RemoveGroup_slots kN kMaxNumGroups p v c p' v' H) as Hslots.
  destruct (@RemoveGroup_colors kN kMaxNumGroups p v c p' v' H) as [Hlen _].
  destruct Hwf as [W1 [W2 [W3 [W4 [W5 W6]]]]].
  assert (Hkeep : forall x, color_at p' x <> kEmpty ->
            ~ In x gone /\ stone_at p' x = stone_at p x).
  { intros x Hx. assert (Hout : ~ In x gone) by (intros Hin; apply Hx; now apply He).
    split; [exact Hout | now apply Hr]. }
  assert (Hcol : forall x, color_at p' x <> kEmpty -> color_at p' x = color_at p x).
  { intros x Hx. unfold color_at. now rewrite (proj2 (Hkeep x Hx)). }
  assert (Hid : forall x, color_at p' x <> kEmpty -> id_at p' x = id_at p x).
  { intros x Hx. unfold id_at. now rewrite (proj2 (Hkeep x Hx)). }
  split; [rewrite Hlen; exact W1|]. rewrite Hfree, Hslots.
  split; [exact W2|]. split; [exact W3|].
  split.
  { intros x Hx. rewrite (Hid x Hx). apply W4. rewrite <- (Hcol x Hx). exact Hx. }
  split.
  { intros x y Hx Hy Hk.
    assert (Hy' : color_at p' y <> kEmpty) by congruence.
    rewrite (Hid x Hx), (Hid y Hy').
    apply W5; [rewrite <- (Hcol x Hx); exact Hx | exact Hy|].
    rewrite <- (Hcol x Hx), <- (Hcol y Hy'). exact Hk. }
  intros x y Hx Hy Hxy.
  rewrite (Hid x Hx), (Hid y Hy) in Hxy.
  rewrite (Hcol x Hx).
  refine (proj1 (@chain_survives p p' (color_at p c) c gone x y Hg Hr eq_refl
                   (proj1 (Hkeep x Hx)) _)).
  apply W6; [rewrite <- (Hcol x Hx); exact Hx | rewrite <- (Hcol y Hy); exact Hy | exact Hxy].
Qed.

End Consistency.
Section AddStone.

Variable kN : nat.
Variable pa : Position.
Variable c : Coord.
Variable color : Color.
Hypothesis pa_consistent : groups_are_chains kN pa.
Hypothesis c_empty : color_at pa c = kEmpty.
Hypothesis c_on_board : on_board kN c.
Hypothesis color_stone : color <> kEmpty.

Lemma set_stone_color_other p x s y : y <> x -> color_at (set_stone p x s) y = color_at p y.
Proof. intros H. now apply color_at_set_stone_other. Qed.

Lemma chain_with_new_stone p' k x y :
  (forall z, z <> c -> color_at p' z = color_at pa z) ->
  k <> kEmpty ->
  same_chain kN pa k x y -> same_chain kN p' k x y.
Proof.
  intros Hsame Hk. apply chain_agree. intros z Hz.
  rewrite Hsame; [exact Hz|]. intros ->. congruence.
Qed.

(** A stone put on the empty point [c] with the identifier [g] of all its
    neighbors of the same color, or with an identifier no stone has. *)
Lemma add_stone_consistent g pool' :
  length (GroupPool.slots pool') = length (GroupPool.slots (groups_ pa)) ->
  NoDup (GroupPool.free_ids pool') ->
  (forall h, In h (GroupPool.free_ids pool') -> In h (GroupPool.free_ids (groups_ pa))) ->
  g < length (GroupPool.slots pool') ->
  ~ In g (GroupPool.free_ids pool') ->
  (forall nc, In nc (GetNeighborCoords kN c) -> color_at pa nc = color -> id_at pa nc = g) ->
  (forall y, color_at pa y <> kEmpty -> id_at pa y = g ->
     exists nb, In nb (GetNeighborCoords kN c) /\ color_at pa nb = color /\
                id_at pa nb = g) ->
  groups_are_chains kN (set_stone (with_groups pa pool') c (Stone.mk color g)).
Proof.
  intros Hslots Hnd Hsub Hg Hgfree Hfriends Hused.
  destruct pa_consistent as [W1 [W2 [W3 [W4 [W5 W6]]]]].
  set (pl := set_stone (with_groups pa pool') c (Stone.mk color g)).
  assert (Hclt : c < length (stones_ pa)) by (rewrite W1; exact c_on_board).
  assert (Hcc : color_at pl c = color).
  { unfold pl. now rewrite color_at_set_stone_same. }
  assert (Hic : id_at pl c = g).
  { unfold pl, id_at, stone_at, set_stone. cbn [stones_ with_stones with_groups].
    now rewrite nth_upd_same. }
  assert (Hso : forall z, z <> c -> stone_at pl z = stone_at pa z).
  { intros z Hz. unfold pl, stone_at, set_stone. cbn [stones_ with_stones with_groups].
    now rewrite nth_upd_other by auto. }
  assert (Hco : forall z, z <> c -> color_at pl z = color_at pa z).
  { intros z Hz. unfold color_at. now rewrite Hso. }
  assert (Hio : forall z, z <> c -> id_at pl z = id_at pa z).
  { intros z Hz. unfold id_at. now rewrite Hso. }
  assert (Hchain : forall k x y, k <> kEmpty -> same_chain kN pa k x y ->
                                 same_chain kN pl k x y).
  { intros k x y Hk. now apply chain_with_new_stone. }
  assert (Hnb : forall nb, In nb (GetNeighborCoords kN c) -> color_at pa nb = color ->
                           nb <> c /\ same_chain kN pl color c nb).
  { intros nb Hin Hk. assert (Hne : nb <> c) by (intros ->; congruence).
    split; [exact Hne|]. apply chain_step with (x := c); [constructor | exact Hin|].
    now rewrite Hco. }
  split; [unfold pl, set_stone; cbn [stones_ with_stones with_groups];
          now rewrite upd_length|].
  change (groups_ pl) with pool'.
  split; [exact Hnd|].
  split; [intros h Hh; rewrite Hslots; apply W3; now apply Hsub|].
  split.
  { intros x Hx. destruct (Nat.eq_dec x c) as [->|Hne].
    - rewrite Hic. auto.
    - rewrite (Hio x Hne). rewrite (Hco x Hne) in Hx. destruct (W4 x Hx) as [A B].
      split; [now rewrite Hslots | intros Hin; apply B; now apply Hsub]. }
  split.
  { intros x y Hx Hy Hk.
    destruct (Nat.eq_dec x c) as [->|Hxc]; destruct (Nat.eq_dec y c) as [->|Hyc];
      [reflexivity | | |].
    - rewrite Hic, (Hio y Hyc). apply Hfriends; [exact Hy|].
      rewrite <- (Hco y Hyc), Hk. exact Hcc.
    - rewrite Hic, (Hio x Hxc). symmetry. apply Hfriends; [now apply neighbors_symmetric|].
      rewrite <- (Hco x Hxc), <- Hk. exact Hcc.
    - rewrite (Hio x Hxc), (Hio y Hyc).
      rewrite (Hco x Hxc) in Hx. rewrite (Hco x Hxc), (Hco y Hyc) in Hk. now apply W5. }
  intros x y Hx Hy Hxy.
  destruct (Nat.eq_dec x c) as [->|Hxc]; destruct (Nat.eq_dec y c) as [->|Hyc].
  - constructor.
  - rewrite Hcc. rewrite Hic, (Hio y Hyc) in Hxy. rewrite (Hco y Hyc) in Hy.
    destruct (Hused y Hy (eq_sym Hxy)) as [nb [Hin [Hk Hi]]].
    destruct (Hnb nb Hin Hk) as [Hne Hcn].
    apply chain_trans with (b := nb); [exact Hcn|].
    apply Hchain; [exact color_stone|]. rewrite <- Hk.
    apply W6; [congruence | exact Hy | congruence].
  - rewrite (Hio x Hxc), Hic in Hxy. rewrite (Hco x Hxc) in Hx |- *.
    destruct (Hused x Hx Hxy) as [nb [Hin [Hk Hi]]].
    destruct (Hnb nb Hin Hk) as [Hne Hcn].
    assert (Hxn : same_chain kN pa (color_at pa x) x nb).
    { apply W6; [exact Hx | congruence | congruence]. }
    assert (Hkx : color_at pa x = color).
    { rewrite <- Hk. symmetry. now apply chain_color with (kN := kN) (c := x). }
    rewrite Hkx in *.
    apply chain_trans with (b := nb); [now apply Hchain|].
    apply chain_step with (x := nb); [constructor | now apply neighbors_symmetric|].
    exact Hcc.
  - rewrite (Hio x Hxc), (Hio y Hyc) in Hxy.
    rewrite (Hco x Hxc) in Hx |- *. rewrite (Hco y Hyc) in Hy.
    apply Hchain; [exact Hx|]. now apply W6.
Qed.

End AddStone.
Lemma free_all_slots : forall others pool,
  GroupPool.slots (fold_left (fun pool i => GroupPool.free i pool) others pool)
    = GroupPool.slots pool.
Proof.
  induction others as [|i others IH]; intros pool; simpl; [reflexivity|].
  now rewrite IH.
Qed.

Section MergeStone.

Variable kN : nat.
Variable pa : Position.
Variable c : Coord.
Variable color : Color.
Variable id : GroupId.
Variable merged : list GroupId.
Variable stones : list Coord.
Variable q : Position.
Hypothesis pa_consistent : groups_are_chains kN pa.
Hypothesis c_empty : color_at pa c = kEmpty.
Hypothesis c_on_board : on_board kN c.
Hypothesis color_stone : color <> kEmpty.
Hypothesis friends :
  forall g, In g (id :: merged) <->
            exists nc, In nc (GetNeighborCoords kN c) /\ color_at pa nc = color /\
                       id_at pa nc = g.
Hypothesis friends_distinct : NoDup (id :: merged).
Hypothesis stones_chain :
  forall y, In y stones <->
            same_chain kN (set_stone pa c (Stone.mk color id)) color c y.
Hypothesis q_chain : forall y, In y stones -> stone_at q y = Stone.mk color id.
Hypothesis q_rest :
  forall y, ~ In y stones -> stone_at q y = stone_at (set_stone pa c (Stone.mk color id)) y.
Hypothesis q_length : length (stones_ q) = length (stones_ pa).
Hypothesis q_free : GroupPool.free_ids (groups_ q) = GroupPool.free_ids (groups_ pa).
Hypothesis q_slots :
  length (GroupPool.slots (groups_ q)) = length (GroupPool.slots (groups_ pa)).

Lemma merge_stones_consistent :
  groups_are_chains kN
    (with_groups q (fold_left (fun pool i => GroupPool.free i pool) merged (groups_ q))).
Proof.
  destruct pa_consistent as [W1 [W2 [W3 [W4 [W5 W6]]]]].
  set (pm := set_stone pa c (Stone.mk color id)) in *.
  set (pl := with_groups q (fold_left (fun pool i => GroupPool.free i pool) merged
                                      (groups_ q))).
  assert (Hclt : c < length (stones_ pa)) by (rewrite W1; exact c_on_board).
  assert (Hpmc : color_at pm c = color).
  { unfold pm. now rewrite color_at_set_stone_same. }
  assert (Hpmo : forall z, z <> c -> stone_at pm z = stone_at pa z).
  { intros z Hz. unfold pm, stone_at, set_stone. cbn [stones_ with_stones].
    now rewrite nth_upd_other by auto. }
  assert (Hpmco : forall z, z <> c -> color_at pm z = color_at pa z).
  { intros z Hz. unfold color_at. now rewrite Hpmo. }
  assert (Hcin : In c stones) by (apply stones_chain; constructor).
  assert (Hscol : forall y, In y stones -> color_at pm y = color).
  { intros y Hy. apply stones_chain in Hy.
    now apply chain_color with (kN := kN) (c := c). }
  (* the stones of the merged chain, seen from the old position *)
  assert (Hin_ids : forall y, In y stones -> y <> c -> In (id_at pa y) (id :: merged)).
  { intros y Hy. apply stones_chain in Hy.
    induction Hy as [|z nc Hz IH Hnc Hk]; [congruence|]. intros Hne.
    rewrite (Hpmco nc Hne) in Hk.
    destruct (Nat.eq_dec z c) as [->|Hzc].
    - apply friends. exists nc. auto.
    - assert (Hzk : color_at pa z = color).
      { rewrite <- (Hpmco z Hzc). now apply chain_color with (kN := kN) (c := c). }
      replace (id_at pa nc) with (id_at pa z); [now apply IH|].
      symmetry. apply W5; [congruence | exact Hnc | congruence]. }
  assert (Hids_in : forall y, color_at pa y <> kEmpty -> In (id_at pa y) (id :: merged) ->
                              In y stones).
  { intros y Hy Hin. apply friends in Hin. destruct Hin as [nb [Hnb [Hk Hi]]].
    assert (Hnbc : nb <> c) by (intros ->; congruence).
    apply stones_chain.
    apply chain_trans with (b := nb).
    - apply chain_step with (x := c); [constructor | exact Hnb|].
      now rewrite Hpmco.
    - apply (@chain_with_new_stone kN pa c c_empty pm color nb y Hpmco color_stone).
      rewrite <- Hk. apply W6; [congruence | exact Hy | congruence]. }
  (* the new position *)
  assert (Hplc : forall z, color_at pl z = color_at pm z).
  { intros z. unfold pl, color_at, stone_at. cbn [stones_ with_groups].
    fold (stone_at q z). destruct (in_dec Nat.eq_dec z stones) as [Hz|Hz].
    - rewrite (q_chain z Hz). cbn [Stone.color]. symmetry. now apply Hscol.
    - now rewrite (q_rest z Hz). }
  assert (Hpli : forall z, In z stones -> id_at pl z = id).
  { intros z Hz. unfold pl, id_at, stone_at. cbn [stones_ with_groups].
    fold (stone_at q z). now rewrite (q_chain z Hz). }
  assert (Hplo : forall z, ~ In z stones -> id_at pl z = id_at pa z /\ z <> c).
  { intros z Hz. assert (Hzc : z <> c) by (intros ->; contradiction).
    split; [|exact Hzc]. unfold pl, id_at, stone_at. cbn [stones_ with_groups].
    fold (stone_at q z). rewrite (q_rest z Hz). fold (stone_at pm z). now rewrite Hpmo. }
  assert (Hpl_chain : forall k x y, same_chain kN pm k x y -> same_chain kN pl k x y).
  { intros k x y. apply chain_agree. intros z Hz. now rewrite Hplc. }
  assert (Hfree : GroupPool.free_ids (groups_ pl) = rev merged ++ GroupPool.free_ids (groups_ pa)).
  { unfold pl. cbn [groups_ with_groups]. now rewrite free_all_free_ids, q_free. }
  assert (Hslots : length (GroupPool.slots (groups_ pl))
                   = length (GroupPool.slots (groups_ pa))).
  { unfold pl. cbn [groups_ with_groups]. now rewrite free_all_slots. }
  assert (Hused : forall g, In g (id :: merged) ->
            g < length (GroupPool.slots (groups_ pa)) /\
            ~ In g (GroupPool.free_ids (groups_ pa))).
  { intros g Hg. apply friends in Hg. destruct Hg as [nb [_ [Hk <-]]].
    apply W4. congruence. }
  split; [unfold pl; cbn [stones_ with_groups]; now rewrite q_length|].
  rewrite Hfree, Hslots.
  split.
  { apply NoDup_app.
    - apply NoDup_rev. now inversion friends_distinct.
    - exact W2.
    - intros g Hg Hf. apply in_rev in Hg. apply (proj2 (Hused g (or_intror Hg))). exact Hf. }
  split.
  { intros g Hg. apply in_app_or in Hg. destruct Hg as [Hg|Hg]; [|now apply W3].
    apply in_rev in Hg. apply (Hused g). now right. }
  split.
  { intros x Hx. rewrite Hplc in Hx.
    destruct (in_dec Nat.eq_dec x stones) as [Hs|Hs].
    - rewrite (Hpli x Hs). destruct (Hused id (or_introl eq_refl)) as [A B].
      split; [exact A|]. intros Hin. apply in_app_or in Hin.
      destruct Hin as [Hin|Hin]; [|contradiction].
      apply in_rev in Hin. inversion friends_distinct; contradiction.
    - destruct (Hplo x Hs) as [Hi Hxc]. rewrite Hi. rewrite (Hpmco x Hxc) in Hx.
      destruct (W4 x Hx) as [A B]. split; [exact A|]. intros Hin.
      apply in_app_or in Hin. destruct Hin as [Hin|Hin]; [|contradiction].
      apply in_rev in Hin. apply Hs. apply Hids_in; [exact Hx | now right]. }
  split.
  { intros x y Hx Hy Hk. rewrite !Hplc in *.
    destruct (in_dec Nat.eq_dec x stones) as [Hsx|Hsx];
      destruct (in_dec Nat.eq_dec y stones) as [Hsy|Hsy].
    - now rewrite (Hpli x Hsx), (Hpli y Hsy).
    - exfalso. apply Hsy. apply stones_chain.
      apply chain_step with (x := x); [now apply stones_chain | exact Hy|].
      rewrite Hk. now apply Hscol.
    - exfalso. apply Hsx. apply stones_chain.
      apply chain_step with (x := y);
        [now apply stones_chain | now apply neighbors_symmetric|].
      rewrite <- Hk. now apply Hscol.
    - destruct (Hplo x Hsx) as [Hix Hxc]. destruct (Hplo y Hsy) as [Hiy Hyc].
      rewrite Hix, Hiy. rewrite (Hpmco x Hxc) in Hx, Hk. rewrite (Hpmco y Hyc) in Hk.
      now apply W5. }
  intros x y Hx Hy Hxy. rewrite !Hplc in *.
  destruct (in_dec Nat.eq_dec x stones) as [Hsx|Hsx];
    destruct (in_dec Nat.eq_dec y stones) as [Hsy|Hsy].
  - rewrite (Hscol x Hsx). apply Hpl_chain.
    apply chain_trans with (b := c); [|now apply stones_chain].
    apply chain_sym; [exact Hpmc | now apply stones_chain].
  - exfalso. destruct (Hplo y Hsy) as [Hiy Hyc]. rewrite (Hpli x Hsx), Hiy in Hxy.
    apply Hsy. apply Hids_in; [now rewrite <- (Hpmco y Hyc) | rewrite <- Hxy; now left].
  - exfalso. destruct (Hplo x Hsx) as [Hix Hxc]. rewrite (Hpli y Hsy), Hix in Hxy.
    apply Hsx. apply Hids_in; [now rewrite <- (Hpmco x Hxc) | rewrite Hxy; now left].
  - destruct (Hplo x Hsx) as [Hix Hxc]. destruct (Hplo y Hsy) as [Hiy Hyc].
    rewrite Hix, Hiy in Hxy. rewrite (Hpmco x Hxc) in Hx |- *. rewrite (Hpmco y Hyc) in Hy.
    apply Hpl_chain.
    apply (@chain_with_new_stone kN pa c c_empty pm (color_at pa x) x y Hpmco Hx).
    now apply W6.
Qed.

End MergeStone.
Lemma tiny_insert_NoDup x s : NoDup s -> NoDup (snd (tiny_insert x s)).
Proof.
  intros Hnd. unfold tiny_insert. destruct (existsb (Nat.eqb x) s) eqn:E; cbn [snd].
  - exact Hnd.
  - apply NoDup_app; [exact Hnd | constructor; [intros [] | constructor]|].
    intros a Ha [E0|[]]. subst a.
    assert (Hex : existsb (Nat.eqb x) s = true).
    { apply existsb_exists. exists x. split; [exact Ha | apply Nat.eqb_refl]. }
    congruence.
Qed.

Section ScanFacts.

Variable kN : nat.
Variable p : Position.
Variable color : Color.
Hypothesis color_stone : color <> kEmpty.

Lemma scan_step_friends seen st nc :
  (forall g, In g (neighbor_groups st) <->
     exists n, In n seen /\ color_at p n = color /\ id_at p n = g) ->
  NoDup (neighbor_groups st) ->
  (forall g x, In (g, x) (captured_groups st) -> In g (opponent_groups st)) ->
  NoDup (map fst (captured_groups st)) ->
  (forall g, In g (neighbor_groups (scan_step p color (OtherColor color) st nc)) <->
     exists n, In n (seen ++ [nc]) /\ color_at p n = color /\ id_at p n = g) /\
  NoDup (neighbor_groups (scan_step p color (OtherColor color) st nc)) /\
  (forall g x, In (g, x) (captured_groups (scan_step p color (OtherColor color) st nc)) ->
     In g (opponent_groups (scan_step p color (OtherColor color) st nc))) /\
  NoDup (map fst (captured_groups (scan_step p color (OtherColor color) st nc))) /\
  length (GroupPool.slots (scan_groups (scan_step p color (OtherColor color) st nc)))
    = length (GroupPool.slots (scan_groups st)).
Proof.
  intros Hfr Hnd Hcap Hcnd.
  assert (Hext : forall (same : Prop) g,
            (same <-> (color_at p nc = color /\ id_at p nc = g)) ->
            ((exists n, In n seen /\ color_at p n = color /\ id_at p n = g) \/ same <->
             exists n, In n (seen ++ [nc]) /\ color_at p n = color /\ id_at p n = g)).
  { intros same g Hsame. split.
    - intros [[n [Hn H]]|H].
      + exists n. split; [apply in_or_app; now left | exact H].
      + exists nc. split; [apply in_or_app; right; now left | now apply Hsame].
    - intros [n [Hn H]]. apply in_app_or in Hn. destruct Hn as [Hn|[<-|[]]].
      + left. now exists n.
      + right. now apply Hsame. }
  unfold scan_step. fold (color_at p nc). fold (id_at p nc).
  destruct (color_eqb (color_at p nc) kEmpty) eqn:Ee.
  { apply color_eqb_eq in Ee. cbn [neighbor_groups captured_groups opponent_groups scan_groups].
    split; [|auto]. intros g. rewrite Hfr. rewrite <- (Hext False g); [tauto|].
    split; [tauto|]. intros [H _]. congruence. }
  destruct (color_eqb (color_at p nc) color) eqn:Ec.
  { apply color_eqb_eq in Ec. cbn [neighbor_groups captured_groups opponent_groups scan_groups].
    split.
    - intros g. rewrite tiny_insert_members, Hfr.
      rewrite <- (Hext (g = id_at p nc) g); [tauto|]. split; [auto|]. intros [_ H]. auto.
    - split; [now apply tiny_insert_NoDup | auto]. }
  apply color_eqb_neq in Ec.
  assert (Hsame : forall g, In g (neighbor_groups st) <->
            exists n, In n (seen ++ [nc]) /\ color_at p n = color /\ id_at p n = g).
  { intros g. rewrite Hfr. rewrite <- (Hext False g); [tauto|].
    split; [tauto|]. intros [H _]. congruence. }
  destruct (color_eqb (color_at p nc) (OtherColor color)); [|auto].
  pose proof (tiny_insert_fresh (id_at p nc) (opponent_groups st)) as Hfresh.
  pose proof (tiny_insert_members (id_at p nc) (opponent_groups st)) as Hmem.
  destruct (tiny_insert (id_at p nc) (opponent_groups st)) as [[|] og]; cbn [fst snd] in *;
    [|auto].
  assert (Hnew : ~ In (id_at p nc) (opponent_groups st)) by (now apply Hfresh).
  cbn [neighbor_groups captured_groups opponent_groups scan_groups].
  split; [exact Hsame|]. split; [exact Hnd|].
  split; [|split].
  - intros g x Hin. apply Hmem.
    destruct (_ =? 0)%Z; [|right; eapply Hcap; eassumption].
    apply in_app_or in Hin. destruct Hin as [Hin|[E|[]]].
    + right. eapply Hcap; eassumption.
    + inversion E; subst. now left.
  - destruct (_ =? 0)%Z; [|exact Hcnd].
    rewrite map_app. cbn [map fst]. apply NoDup_app; [exact Hcnd | |].
    + constructor; [intros [] | constructor].
    + intros g Hg [<-|[]]. apply Hnew.
      apply in_map_iff in Hg. destruct Hg as [[g' x] [E Hin]]. cbn [fst] in E. subst g'.
      eapply Hcap; eassumption.
  - cbn [GroupPool.set GroupPool.slots]. apply upd_length.
Qed.

Lemma scan_fold_friends : forall ncs seen st,
  (forall g, In g (neighbor_groups st) <->
     exists n, In n seen /\ color_at p n = color /\ id_at p n = g) ->
  NoDup (neighbor_groups st) ->
  (forall g x, In (g, x) (captured_groups st) -> In g (opponent_groups st)) ->
  NoDup (map fst (captured_groups st)) ->
  (forall g, In g (neighbor_groups (fold_left (scan_step p color (OtherColor color)) ncs st)) <->
     exists n, In n (seen ++ ncs) /\ color_at p n = color /\ id_at p n = g) /\
  NoDup (neighbor_groups (fold_left (scan_step p color (OtherColor color)) ncs st)) /\
  NoDup (map fst (captured_groups (fold_left (scan_step p color (OtherColor color)) ncs st))) /\
  length (GroupPool.slots (scan_groups (fold_left (scan_step p color (OtherColor color)) ncs st)))
    = length (GroupPool.slots (scan_groups st)).
Proof.
  induction ncs as [|nc ncs IH]; intros seen st Hfr Hnd Hcap Hcnd; cbn [fold_left].
  - rewrite app_nil_r. auto.
  - destruct (@scan_step_friends seen st nc Hfr Hnd Hcap Hcnd) as [A [B [C [D E]]]].
    destruct (IH (seen ++ [nc]) _ A B C D) as [A' [B' [D' E']]].
    rewrite <- app_assoc in A'. cbn [app] in A'.
    split; [exact A'|]. split; [exact B'|]. split; [exact D'|]. now rewrite E'.
Qed.

Lemma scan_neighbors_friends c :
  (forall g, In g (neighbor_groups (scan_neighbors kN p c color)) <->
     exists n, In n (GetNeighborCoords kN c) /\ color_at p n = color /\ id_at p n = g) /\
  NoDup (neighbor_groups (scan_neighbors kN p c color)) /\
  NoDup (map fst (captured_groups (scan_neighbors kN p c color))) /\
  length (GroupPool.slots (scan_groups (scan_neighbors kN p c color)))
    = length (GroupPool.slots (groups_ p)) /\
  GroupPool.free_ids (scan_groups (scan_neighbors kN p c color))
    = GroupPool.free_ids (groups_ p).
Proof.
  unfold scan_neighbors.
  destruct (@scan_fold_friends (GetNeighborCoords kN c) []
              (mkScan (groups_ p) [] [] [] [])) as [A [B [C D]]].
  - intros g. cbn [neighbor_groups]. split; [intros [] | intros [n [[] _]]].
  - constructor.
  - intros g x [].
  - constructor.
  - cbn [app] in A. split; [exact A|]. split; [exact B|]. split; [exact C|].
    split; [exact D|]. apply scan_fold_free_ids.
Qed.

End ScanFacts.
Lemma MergeGroup_loop_slots kN s opp : forall fuel p bv p' bv',
  MergeGroup_loop kN fuel s opp p bv = Ok (p', bv') ->
  length (GroupPool.slots (groups_ p')) = length (GroupPool.slots (groups_ p)).
Proof.
  induction fuel as [|fuel IH]; intros p bv p' bv' H; cbn [MergeGroup_loop] in H.
  - destruct (BoardVisitor.Done bv); [|discriminate]. now inversion H.
  - destruct (BoardVisitor.Done bv); [now inversion H|].
    bind_inv H. destruct a as [x bv1].
    destruct (color_eqb _ kEmpty).
    + apply IH in H. rewrite H. unfold set_group.
      cbn [groups_ with_groups GroupPool.set GroupPool.slots]. apply upd_length.
    + bind_inv H. apply IH in H. rewrite H. unfold set_stone, set_group.
      cbn [groups_ with_stones with_groups GroupPool.set GroupPool.slots]. apply upd_length.
Qed.

Lemma MergeGroup_pool kN p v c p' v' :
  MergeGroup kN p v c = Ok (p', v') ->
  length (GroupPool.slots (groups_ p')) = length (GroupPool.slots (groups_ p)) /\
  GroupPool.free_ids (groups_ p') = GroupPool.free_ids (groups_ p).
Proof.
  unfold MergeGroup. intros H. bind_inv H. bind_inv H. destruct a0 as [q bv].
  inversion H; subst. clear H. split.
  - apply MergeGroup_loop_slots in Hm0. rewrite Hm0. unfold set_group.
    cbn [groups_ with_groups GroupPool.set GroupPool.slots]. apply upd_length.
  - apply MergeGroup_loop_free_ids in Hm0. rewrite Hm0. reflexivity.
Qed.

Section PlaceStone.

Variable kN : nat.

Lemma place_stone_consistent pa v c color libs ngs :
  groups_are_chains kN pa -> color_at pa c = kEmpty -> on_board kN c ->
  color <> kEmpty ->
  visitor_fresh kN (board_visitor_ v) ->
  (forall g, In g ngs <->
     exists n, In n (GetNeighborCoords kN c) /\ color_at pa n = color /\ id_at pa n = g) ->
  NoDup ngs ->
  (ngs <> [] \/ GroupPool.free_ids (groups_ pa) <> []) ->
  exists pl v1,
    place_stone kN pa v c color libs ngs = Ok (pl, v1) /\
    groups_are_chains kN pl /\
    (forall x, x <> c -> color_at pa x <> color -> stone_at pl x = stone_at pa x).
Proof.
  intros Hwf Hce Hc Hcol Hf Hngs Hnd Hroom.
  pose proof Hwf as [W1 [W2 [W3 [W4 [W5 W6]]]]].
  assert (Hclt : c < length (stones_ pa)) by (rewrite W1; exact Hc).
  assert (Hother : forall pool' g x, x <> c ->
            stone_at (set_stone (with_groups pa pool') c (Stone.mk color g)) x
              = stone_at pa x).
  { intros pool' g x Hx. unfold stone_at, set_stone. cbn [stones_ with_stones with_groups].
    now rewrite nth_upd_other by auto. }
  unfold place_stone. destruct ngs as [|id [|id2 others]].
  - (* a new group *)
    destruct Hroom as [Hroom|Hroom]; [congruence|].
    unfold GroupPool.alloc.
    destruct (GroupPool.free_ids (groups_ pa)) as [|id rest] eqn:Efree; [congruence|].
    cbn [bind]. eexists; eexists. split; [reflexivity|].
    split.
    + refine (@add_stone_consistent kN pa c color Hwf Hce Hc Hcol _ _ _ _ _ _ _ _ _).
      * cbn [GroupPool.slots]. apply upd_length.
      * cbn [GroupPool.free_ids]. now inversion W2.
      * cbn [GroupPool.free_ids]. intros h Hh. rewrite Efree. now right.
      * cbn [GroupPool.slots]. rewrite upd_length. apply W3. now left.
      * cbn [GroupPool.free_ids]. now inversion W2.
      * intros nc Hnc Hk. exfalso. apply (proj2 (Hngs (id_at pa nc))). now exists nc.
      * intros y Hy Hi. exfalso. apply (proj2 (W4 y Hy)). rewrite Hi. now left.
    + intros x Hx _. apply Hother. exact Hx.
  - (* one neighboring group *)
    destruct (proj1 (Hngs id) (or_introl eq_refl)) as [nb [Hnb [Hk Hi]]].
    assert (Hnbs : color_at pa nb <> kEmpty) by congruence.
    destruct (W4 nb Hnbs) as [A B]. rewrite Hi in A, B.
    eexists; eexists. split; [reflexivity|]. split.
    + unfold set_group.
      refine (@add_stone_consistent kN pa c color Hwf Hce Hc Hcol _ _ _ _ _ _ _ _ _).
      * cbn [GroupPool.set GroupPool.slots]. apply upd_length.
      * exact W2.
      * intros h Hh. exact Hh.
      * cbn [GroupPool.set GroupPool.slots]. now rewrite upd_length.
      * exact B.
      * intros nc Hnc Hkc.
        assert (Hin : In (id_at pa nc) [id]) by (apply Hngs; now exists nc).
        destruct Hin as [E|[]]. now symmetry.
      * intros y Hy Hiy. now exists nb.
    + intros x Hx _. unfold set_group. apply Hother. exact Hx.
  - (* several: merge *)
    destruct (proj1 (Hngs id) (or_introl eq_refl)) as [nb [Hnb [Hk Hi]]].
    assert (Hnbs : color_at pa nb <> kEmpty) by congruence.
    destruct (W4 nb Hnbs) as [A B]. rewrite Hi in A, B.
    set (pm := set_stone pa c (Stone.mk color id)).
    assert (Hpmc : stone_at pm c = Stone.mk color id).
    { unfold pm, stone_at, set_stone. cbn [stones_ with_stones]. now rewrite nth_upd_same. }
    assert (Hpmcol : color_at pm c <> kEmpty).
    { unfold color_at. rewrite Hpmc. exact Hcol. }
    assert (Hpml : length (stones_ pm) = kN * kN).
    { unfold pm, set_stone. cbn [stones_ with_stones]. now rewrite upd_length. }
    assert (Hpmid : Stone.group_id (stone_at pm c) < length (GroupPool.slots (groups_ pm))).
    { rewrite Hpmc. exact A. }
    destruct (@MergeGroup_succeeds kN pm v c Hf Hc Hpmcol Hpml Hpmid) as [q [w E]].
    rewrite E. cbn [bind]. eexists; eexists. split; [reflexivity|].
    destruct (@MergeGroup_chain kN pm v c q w Hf Hc Hpmcol Hpml Hpmid E)
      as [[stones [libs' [_ [_ [Hst [_ [_ [Hqs [Hqr _]]]]]]]]] _].
    destruct (@MergeGroup_pool kN pm v c q w E) as [Hqslots Hqfree].
    destruct (@MergeGroup_colors kN pm v c q w E) as [Hqlen _].
    assert (Hck : color_at pm c = color) by (unfold color_at; now rewrite Hpmc).
    rewrite Hck in Hst. rewrite Hpmc in Hqs.
    split.
    + apply (@merge_stones_consistent kN pa c color id (id2 :: others) stones q);
        try assumption.
      * rewrite Hqlen. unfold pm, set_stone. cbn [stones_ with_stones]. apply upd_length.
    + intros x Hx Hkx.
      change (stone_at q x = stone_at pa x).
      rewrite Hqr.
      * unfold pm, stone_at, set_stone. cbn [stones_ with_stones].
        now rewrite nth_upd_other by auto.
      * intros Hin. apply Hst in Hin. apply chain_color in Hin; [|exact Hck].
        apply Hkx. rewrite <- Hin. unfold color_at, pm, stone_at, set_stone.
        cbn [stones_ with_stones]. now rewrite nth_upd_other by auto.
Qed.

End PlaceStone.
Lemma groups_are_chains_ext kN p q :
  stones_ q = stones_ p ->
  GroupPool.free_ids (groups_ q) = GroupPool.free_ids (groups_ p) ->
  length (GroupPool.slots (groups_ q)) = length (GroupPool.slots (groups_ p)) ->
  groups_are_chains kN p -> groups_are_chains kN q.
Proof.
  intros Hs Hg Hl [W1 [W2 [W3 [W4 [W5 W6]]]]].
  assert (Hk : forall x, color_at q x = color_at p x).
  { intros x. unfold color_at, stone_at. now rewrite Hs. }
  assert (Hi : forall x, id_at q x = id_at p x).
  { intros x. unfold id_at, stone_at. now rewrite Hs. }
  unfold groups_are_chains. rewrite Hs, Hg, Hl.
  split; [exact W1|]. split; [exact W2|]. split; [exact W3|].
  split; [|split].
  - intros x. rewrite Hk, Hi. apply W4.
  - intros x y. rewrite !Hk, !Hi. apply W5.
  - intros x y. rewrite !Hk, !Hi. intros Hx Hy E.
    apply chain_agree with (p := p); [|now apply W6].
    intros z Hz. now rewrite Hk.
Qed.

Section RemoveCaptured.

Variable kN : nat.
Variable kMaxNumGroups : nat.

Lemma remove_captured_consistent color : forall captured p v,
  groups_are_chains kN p ->
  (forall g nc, In (g, nc) captured ->
     on_board kN nc /\ color_at p nc <> kEmpty /\ id_at p nc = g) ->
  NoDup (map fst captured) ->
  BoardVisitor.Done (board_visitor_ v) = true -> sized kN (board_visitor_ v) ->
  tags_bounded (BoardVisitor.epoch_ (board_visitor_ v))
               (BoardVisitor.visited_ (board_visitor_ v)) ->
  (BoardVisitor.epoch_ (board_visitor_ v) + Z.of_nat (length captured) <= 255)%Z ->
  exists p' v',
    remove_captured kN kMaxNumGroups p v color captured = Ok (p', v') /\
    groups_are_chains kN p' /\
    BoardVisitor.Done (board_visitor_ v') = true /\ sized kN (board_visitor_ v') /\
    tags_bounded (BoardVisitor.epoch_ (board_visitor_ v'))
                 (BoardVisitor.visited_ (board_visitor_ v')) /\
    BoardVisitor.epoch_ (board_visitor_ v')
      = (BoardVisitor.epoch_ (board_visitor_ v) + Z.of_nat (length captured))%Z.
Proof.
  induction captured as [|[g nc] rest IH]; intros p v Hwf Hseeds Hnd Hd Hs Hb Hep;
    cbn [remove_captured].
  - exists p, v. split; [reflexivity|]. split; [exact Hwf|].
    repeat (split; [assumption|]). cbn [length]. lia.
  - match goal with
    | |- context [RemoveGroup _ _ ?q _ _] => set (q0 := q)
    end.
    assert (Hwf0 : groups_are_chains kN q0).
    { apply groups_are_chains_ext with (p := p); [reflexivity | reflexivity | reflexivity | exact Hwf]. }
    assert (Hk0 : forall x, color_at q0 x = color_at p x) by reflexivity.
    assert (Hi0 : forall x, id_at q0 x = id_at p x) by reflexivity.
    destruct (Hseeds g nc (or_introl eq_refl)) as [Hnc [Hne Hid]].
    assert (Hf : visitor_fresh kN (board_visitor_ v)).
    { split; [exact Hd|]. split; [exact Hs|]. split; [exact Hb|].
      cbn [length] in Hep. lia. }
    assert (Hne0 : color_at q0 nc <> kEmpty) by (rewrite Hk0; exact Hne).
    destruct (@RemoveGroup_succeeds kN kMaxNumGroups q0 v nc) as [q1 [v1 E]];
      [intros y Hy; now apply chain_same_group with (kN := kN) | exact Hf | exact Hnc
      | exact Hne0 |].
    rewrite E. cbn [bind].
    pose proof (@RemoveGroup_consistent kN kMaxNumGroups q0 v nc q1 v1 Hwf0 Hf Hnc Hne0 E)
      as Hwf1.
    destruct (@RemoveGroup_chain kN kMaxNumGroups q0 v nc q1 v1 Hf Hnc Hne0 E)
      as [[gone [_ [Hg [_ Hr]]]] [Hd1 [Hs1 [Hb1 He1]]]].
    destruct (IH q1 v1 Hwf1) as [p' [v' [E' [Hwf' [Hd' [Hs' [Hb' He']]]]]]].
    + intros g' nc' Hin. destruct (Hseeds g' nc' (or_intror Hin)) as [A [B C]].
      assert (Hout : ~ In nc' gone).
      { intros Hgone. apply Hg in Hgone.
        apply chain_same_group in Hgone; [|exact Hwf0 | exact Hne0].
        rewrite !Hi0 in Hgone.
        assert (Eg : g' = g) by congruence.
        cbn [map fst] in Hnd. apply NoDup_cons_iff in Hnd. apply (proj1 Hnd).
        rewrite <- Eg. apply (in_map fst) in Hin. exact Hin. }
      apply Hr in Hout. unfold color_at, id_at. rewrite Hout.
      split; [exact A|]. split; [exact B | exact C].
    + cbn [map] in Hnd. apply NoDup_cons_iff in Hnd. exact (proj2 Hnd).
    + exact Hd1.
    + exact Hs1.
    + exact Hb1.
    + rewrite He1. cbn [length] in Hep. lia.
    + exists p', v'. split; [exact E'|]. split; [exact Hwf'|].
      repeat (split; [assumption|]). rewrite He', He1. cbn [length]. lia.
Qed.

End RemoveCaptured.
Section MoveSucceeds.

Variable kN : nat.
Variable kMaxNumGroups : nat.

Lemma other_color_stone color : color <> kEmpty ->
  OtherColor color <> kEmpty /\ OtherColor color <> color.
Proof. destruct color; intros H; split; simpl; congruence. Qed.

Lemma AddStoneToBoard_consistent p v c color :
  groups_are_chains kN p -> color <> kEmpty -> on_board kN c ->
  color_at p c = kEmpty ->
  BoardVisitor.Done (board_visitor_ v) = true -> sized kN (board_visitor_ v) ->
  tags_bounded (BoardVisitor.epoch_ (board_visitor_ v))
               (BoardVisitor.visited_ (board_visitor_ v)) ->
  (BoardVisitor.epoch_ (board_visitor_ v) < 250)%Z ->
  ((exists n, In n (GetNeighborCoords kN c) /\ color_at p n = color) \/
   GroupPool.free_ids (groups_ p) <> []) ->
  exists p' v',
    AddStoneToBoard kN kMaxNumGroups p v c color = Ok (p', v') /\
    groups_are_chains kN p' /\
    BoardVisitor.Done (board_visitor_ v') = true /\ sized kN (board_visitor_ v') /\
    tags_bounded (BoardVisitor.epoch_ (board_visitor_ v'))
                 (BoardVisitor.visited_ (board_visitor_ v')) /\
    (BoardVisitor.epoch_ (board_visitor_ v) <= BoardVisitor.epoch_ (board_visitor_ v')
     <= BoardVisitor.epoch_ (board_visitor_ v) + 5)%Z.
Proof.
  intros Hwf Hcol Hc Hempty Hd Hs Hb Hep Hroom. unfold AddStoneToBoard.
  set (sc := scan_neighbors kN p c color).
  destruct (@scan_neighbors_friends kN p color Hcol c) as [Hngs [Hnd [Hcnd [Hsl Hfr]]]].
  fold sc in Hngs, Hnd, Hcnd, Hsl, Hfr.
  destruct (@scan_neighbors_inv kN p color Hcol c) as [_ [_ [Hcap _]]]. fold sc in Hcap.
  set (pa := with_groups p (scan_groups sc)).
  assert (Hwfa : groups_are_chains kN pa).
  { apply groups_are_chains_ext with (p := p);
      [reflexivity | exact Hfr | exact Hsl | exact Hwf]. }
  assert (Hf : visitor_fresh kN (board_visitor_ v)).
  { split; [exact Hd|]. split; [exact Hs|]. split; [exact Hb | lia]. }
  destruct (@place_stone_consistent kN pa v c color (liberties sc) (neighbor_groups sc))
    as [pl [v1 [E1 [Hwfl Hkeep]]]]; try assumption.
  { destruct Hroom as [[n [Hn Hk]]|Hroom].
    - left. intros E. assert (Hin : In (id_at p n) (neighbor_groups sc)).
      { apply Hngs. now exists n. }
      rewrite E in Hin. exact Hin.
    - right. unfold pa. cbn [groups_ with_groups]. rewrite Hfr. exact Hroom. }
  rewrite E1. cbn [bind].
  destruct (@place_stone_visitor kN pa v c color _ _ pl v1 Hf E1) as [Hd1 [Hs1 [Hb1 He1]]].
  destruct (other_color_stone Hcol) as [Ho1 Ho2].
  destruct (@remove_captured_consistent kN kMaxNumGroups color (captured_groups sc) pl v1)
    as [p2 [v2 [E2 [Hwf2 [Hd2 [Hs2 [Hb2 He2]]]]]]]; try assumption.
  { intros g nc Hin. destruct (Hcap g nc Hin) as [Hn [Hk [Hi _]]].
    assert (Hkeepn : stone_at pl nc = stone_at p nc).
    { change (stone_at p nc) with (stone_at pa nc). apply Hkeep.
      - intros ->. unfold color_at in Hempty. congruence.
      - change (color_at pa nc) with (Stone.color (stone_at p nc)). congruence. }
    split; [now apply GetNeighborCoords_on_board with (c := c)|].
    unfold color_at, id_at. rewrite Hkeepn. split; [congruence | exact Hi]. }
  { pose proof (captured_at_most_four kN p c color) as H4. fold sc in H4. lia. }
  rewrite E2. cbn [bind]. eexists; eexists. split; [reflexivity|].
  destruct (update_ko_fields kN p2 (captured_groups sc) (IsKoish kN p c) (OtherColor color))
    as [U1 U2].
  split.
  { apply groups_are_chains_ext with (p := p2); [exact U1 | now rewrite U2 | now rewrite U2
      | exact Hwf2]. }
  repeat (split; [assumption|]).
  pose proof (captured_at_most_four kN p c color) as H4. fold sc in H4. lia.
Qed.

End MoveSucceeds.
Lemma new_position_consistent kN kMaxNumGroups komi to_play n :
  groups_are_chains kN (new_position kN kMaxNumGroups komi to_play n).
Proof.
  assert (Hk : forall x, color_at (new_position kN kMaxNumGroups komi to_play n) x = kEmpty).
  { intros x. unfold color_at, stone_at, new_position. cbn [stones_].
    destruct (Nat.lt_ge_cases x (kN * kN)) as [Hx|Hx].
    - rewrite nth_repeat_lt by exact Hx. reflexivity.
    - rewrite nth_overflow by (rewrite repeat_length; exact Hx). reflexivity. }
  unfold groups_are_chains. unfold new_position at 1 2 3 4.
  cbn [stones_ groups_ GroupPool.init GroupPool.free_ids GroupPool.slots].
  rewrite !repeat_length. split; [reflexivity|]. split; [apply seq_NoDup|].
  split; [intros g Hg; apply in_seq in Hg; lia|].
  split; [|split].
  - intros x Hx. now rewrite Hk in Hx.
  - intros x y Hx. now rewrite Hk in Hx.
  - intros x y Hx. now rewrite Hk in Hx.
Qed.

Lemma new_scratch_fresh kN kMaxNumGroups :
  BoardVisitor.Done (board_visitor_ (new_scratch kN kMaxNumGroups)) = true /\
  sized kN (board_visitor_ (new_scratch kN kMaxNumGroups)) /\
  tags_bounded (BoardVisitor.epoch_ (board_visitor_ (new_scratch kN kMaxNumGroups)))
               (BoardVisitor.visited_ (board_visitor_ (new_scratch kN kMaxNumGroups))) /\
  BoardVisitor.epoch_ (board_visitor_ (new_scratch kN kMaxNumGroups)) = 0%Z.
Proof.
  unfold new_scratch, BoardVisitor.init, sized, tags_bounded.
  cbn [board_visitor_ BoardVisitor.Done BoardVisitor.stack_ BoardVisitor.visited_
       BoardVisitor.epoch_].
  split; [reflexivity|]. split; [apply repeat_length|]. split; [|reflexivity].
  split; [lia|]. apply Forall_forall. intros t Ht. apply repeat_spec in Ht. lia.
Qed.

Section Moves.

Variable kN : nat.
Variable kMaxNumGroups : nat.

Lemma legal_point_empty p c :
  c <> kPass kN -> IsMoveLegal kN p c = true -> color_at p c = kEmpty.
Proof.
  intros Hc H. unfold IsMoveLegal in H. apply Nat.eqb_neq in Hc. rewrite Hc in H.
  unfold Stone.empty in H. fold (color_at p c) in H.
  destruct (color_at p c); [reflexivity | discriminate | discriminate].
Qed.

(** A stone that has been put on the board had room in the pool. *)
Lemma AddStoneToBoard_had_room p v c color p' v' :
  color <> kEmpty ->
  AddStoneToBoard kN kMaxNumGroups p v c color = Ok (p', v') ->
  (exists n, In n (GetNeighborCoords kN c) /\ color_at p n = color) \/
  GroupPool.free_ids (groups_ p) <> [].
Proof.
  intros Hcol H. unfold AddStoneToBoard in H.
  destruct (@scan_neighbors_friends kN p color Hcol c) as [Hngs [_ [_ [_ Hfr]]]].
  bind_inv H. destruct a as [pl v1]. clear H. unfold place_stone in Hm.
  destruct (neighbor_groups (scan_neighbors kN p c color)) as [|id rest] eqn:E.
  - right. bind_inv Hm. unfold GroupPool.alloc in Hm0.
    cbn [groups_ with_groups] in Hm0. rewrite Hfr in Hm0.
    destruct (GroupPool.free_ids (groups_ p)); [discriminate | discriminate].
  - left. destruct (proj1 (Hngs id) (or_introl eq_refl)) as [n [Hn [Hk _]]]. eauto.
Qed.

Lemma PlayMove_consistent p v c k p' v' :
  groups_are_chains kN p -> to_play_ p <> kEmpty ->
  BoardVisitor.Done (board_visitor_ v) = true -> sized kN (board_visitor_ v) ->
  tags_bounded (BoardVisitor.epoch_ (board_visitor_ v))
               (BoardVisitor.visited_ (board_visitor_ v)) ->
  (BoardVisitor.epoch_ (board_visitor_ v) < 250)%Z ->
  PlayMove kN kMaxNumGroups p v c k = Ok (p', v') ->
  groups_are_chains kN p' /\ to_play_ p' <> kEmpty /\
  BoardVisitor.Done (board_visitor_ v') = true /\ sized kN (board_visitor_ v') /\
  tags_bounded (BoardVisitor.epoch_ (board_visitor_ v'))
               (BoardVisitor.visited_ (board_visitor_ v')) /\
  (BoardVisitor.epoch_ (board_visitor_ v) <= BoardVisitor.epoch_ (board_visitor_ v')
   <= BoardVisitor.epoch_ (board_visitor_ v) + 5)%Z.
Proof.
  intros Hwf Htp Hd Hs Hb Hep H.
  destruct (Nat.eq_dec c (kPass kN)) as [->|Hc].
  - unfold PlayMove in H. rewrite Nat.eqb_refl in H. inversion H; subst p' v'.
    split; [apply groups_are_chains_ext with (p := p);
              [reflexivity | reflexivity | reflexivity | exact Hwf]|].
    split; [cbn [PassMove to_play_]; now apply other_color_stone|].
    repeat (split; [assumption|]). lia.
  - assert (Hmv : mover p k <> kEmpty).
    { unfold mover. destruct (color_eqb k kEmpty) eqn:E; [exact Htp|].
      intros ->. discriminate. }
    destruct (@PlayMove_stone_inv kN kMaxNumGroups p v c k p' v' Hc H)
      as [Hlegal [r [Hadd ->]]].
    set (q := if color_eqb k kEmpty then p else with_to_play p k) in *.
    assert (Hwfq : groups_are_chains kN q).
    { apply groups_are_chains_ext with (p := p); try exact Hwf;
        unfold q; destruct (color_eqb k kEmpty); reflexivity. }
    pose proof (@IsMoveLegal_on_board kN q c Hlegal Hc) as Hon.
    pose proof (@legal_point_empty q c Hc Hlegal) as Hempty.
    pose proof (@AddStoneToBoard_had_room q v c (mover p k) r v' Hmv Hadd) as Hroom.
    destruct (@AddStoneToBoard_consistent kN kMaxNumGroups q v c (mover p k)
                Hwfq Hmv Hon Hempty Hd Hs Hb Hep Hroom)
      as [r' [w' [E [Hwfr Hvis]]]].
    rewrite Hadd in E. inversion E; subst r' w'.
    split; [apply groups_are_chains_ext with (p := r);
              [reflexivity | reflexivity | reflexivity | exact Hwfr]|].
    split; [|exact Hvis].
    cbn [to_play_]. apply other_color_stone.
    destruct (@AddStoneToBoard_frame kN kMaxNumGroups q v c (mover p k) r v' Hadd)
      as [Hto _].
    rewrite Hto. unfold q, mover in *. destruct (color_eqb k kEmpty) eqn:Ek; [exact Htp|].
    cbn [to_play_ with_to_play]. exact Hmv.
Qed.

Lemma play_moves_consistent : forall moves p v p' v',
  groups_are_chains kN p -> to_play_ p <> kEmpty ->
  BoardVisitor.Done (board_visitor_ v) = true -> sized kN (board_visitor_ v) ->
  tags_bounded (BoardVisitor.epoch_ (board_visitor_ v))
               (BoardVisitor.visited_ (board_visitor_ v)) ->
  (BoardVisitor.epoch_ (board_visitor_ v) + 5 * Z.of_nat (length moves) <= 250)%Z ->
  play_moves kN kMaxNumGroups p v moves = Ok (p', v') ->
  groups_are_chains kN p' /\ to_play_ p' <> kEmpty /\
  BoardVisitor.Done (board_visitor_ v') = true /\ sized kN (board_visitor_ v') /\
  tags_bounded (BoardVisitor.epoch_ (board_visitor_ v'))
               (BoardVisitor.visited_ (board_visitor_ v')) /\
  (BoardVisitor.epoch_ (board_visitor_ v') <= 250)%Z.
Proof.
  induction moves as [|[c k] rest IH]; intros p v p' v' Hwf Htp Hd Hs Hb Hep H;
    cbn [play_moves] in H.
  - inversion H; subst p' v'. repeat (split; [assumption|]). cbn [length] in Hep. lia.
  - bind_inv H. destruct a as [q w]. cbn [length] in Hep.
    destruct (@PlayMove_consistent p v c k q w Hwf Htp Hd Hs Hb ltac:(lia) Hm)
      as [Hwf1 [Htp1 [Hd1 [Hs1 [Hb1 He1]]]]].
    apply (IH q w p' v' Hwf1 Htp1 Hd1 Hs1 Hb1); [lia | exact H].
Qed.

End Moves.

(** Every legal move is carried out, unless it needs a new group and the
    pool has none left: on a position whose group identifiers name its
    chains, with an idle board visitor whose epoch is below 250, a stone
    played on a point that [IsMoveLegal] accepts returns a position, and
    the identifiers of that position name its chains again. *)
Theorem legal_move_succeeds (kN kMaxNumGroups : nat) (p : Position) (v : Scratch)
        (c : Coord) (k : Color) :
  groups_are_chains kN p ->
  BoardVisitor.Done (board_visitor_ v) = true -> sized kN (board_visitor_ v) ->
  tags_bounded (BoardVisitor.epoch_ (board_visitor_ v))
               (BoardVisitor.visited_ (board_visitor_ v)) ->
  (BoardVisitor.epoch_ (board_visitor_ v) < 250)%Z ->
  c <> kPass kN ->
  IsMoveLegal kN (if color_eqb k kEmpty then p else with_to_play p k) c = true ->
  mover p k <> kEmpty ->
  ((exists n, In n (GetNeighborCoords kN c) /\ color_at p n = mover p k) \/
   GroupPool.free_ids (groups_ p) <> []) ->
  exists p' v',
    PlayMove kN kMaxNumGroups p v c k = Ok (p', v') /\
    groups_are_chains kN p' /\
    BoardVisitor.Done (board_visitor_ v') = true /\ sized kN (board_visitor_ v') /\
    tags_bounded (BoardVisitor.epoch_ (board_visitor_ v'))
                 (BoardVisitor.visited_ (board_visitor_ v')) /\
    (BoardVisitor.epoch_ (board_visitor_ v) <= BoardVisitor.epoch_ (board_visitor_ v')
     <= BoardVisitor.epoch_ (board_visitor_ v) + 5)%Z.
Proof.
  intros Hwf Hd Hs Hb Hep Hc Hlegal Hmv Hroom.
  set (q := if color_eqb k kEmpty then p else with_to_play p k) in *.
  assert (Hwfq : groups_are_chains kN q).
  { apply groups_are_chains_ext with (p := p); try exact Hwf;
      unfold q; destruct (color_eqb k kEmpty); reflexivity. }
  assert (Hroomq : (exists n, In n (GetNeighborCoords kN c) /\ color_at q n = mover p k) \/
                   GroupPool.free_ids (groups_ q) <> []).
  { unfold q. destruct (color_eqb k kEmpty); exact Hroom. }
  pose proof (@IsMoveLegal_on_board kN q c Hlegal Hc) as Hon.
  pose proof (@legal_point_empty kN q c Hc Hlegal) as Hempty.
  destruct (@AddStoneToBoard_consistent kN kMaxNumGroups q v c (mover p k)
              Hwfq Hmv Hon Hempty Hd Hs Hb Hep Hroomq)
    as [r [w [E [Hwfr Hvis]]]].
  unfold PlayMove. apply Nat.eqb_neq in Hc. rewrite Hc.
  assert (Hpair : (if color_eqb k kEmpty then (to_play_ p, p) else (k, with_to_play p k))
                  = (mover p k, q)).
  { unfold mover, q. destruct (color_eqb k kEmpty); reflexivity. }
  rewrite Hpair. rewrite Hlegal. cbn [assert bind]. rewrite E. cbn [bind].
  eexists; eexists. split; [reflexivity|]. split; [|exact Hvis].
  apply groups_are_chains_ext with (p := r);
    [reflexivity | reflexivity | reflexivity | exact Hwfr].
Qed.

Lemma legal_move_succeeds_witness :
  exists p' v',
    PlayMove 9 81 Game9.start Game9.scratch 40 kEmpty = Ok (p', v') /\
    groups_are_chains 9 p'.
Proof.
  destruct (new_scratch_fresh 9 81) as [Hd [Hs [Hb He]]].
  assert (Hep : (BoardVisitor.epoch_ (board_visitor_ Game9.scratch) < 250)%Z)
    by (vm_compute; reflexivity).
  assert (Hc : 40 <> kPass 9) by (vm_compute; lia).
  assert (Hl : IsMoveLegal 9 (if color_eqb kEmpty kEmpty then Game9.start
                              else with_to_play Game9.start kEmpty) 40 = true)
    by (vm_compute; reflexivity).
  assert (Hm : mover Game9.start kEmpty <> kEmpty) by (vm_compute; discriminate).
  assert (Hroom : (exists n, In n (GetNeighborCoords 9 40) /\
                             color_at Game9.start n = mover Game9.start kEmpty) \/
                  GroupPool.free_ids (groups_ Game9.start) <> [])
    by (right; vm_compute; discriminate).
  destruct (@legal_move_succeeds 9 81 Game9.start Game9.scratch 40 kEmpty
              (new_position_consistent 9 81 (15 # 2) kBlack 0) Hd Hs Hb Hep Hc Hl Hm Hroom)
    as [p' [v' [E [Hwf _]]]].
  exists p', v'. split; [exact E | exact Hwf].
Defined.


(** The epoch of the board visitor is a byte.  The [Begin] that takes it
    from 255 back to 0 does not clear the tags, so a point whose tag is
    still 0 counts as visited already: [RemoveGroup] called on such a
    point pushes nothing and returns the position as it was, the stone at
    [c] still on the board. *)
Theorem remove_group_at_wrapped_epoch (kN kMaxNumGroups : nat) (p : Position)
        (v : Scratch) (c : Coord) :
  BoardVisitor.Done (board_visitor_ v) = true ->
  BoardVisitor.epoch_ (board_visitor_ v) = 255%Z ->
  nth c (BoardVisitor.visited_ (board_visitor_ v)) 0%Z = 0%Z ->
  exists v', RemoveGroup kN kMaxNumGroups p v c = Ok (p, v') /\
             BoardVisitor.epoch_ (board_visitor_ v') = 0%Z.
Proof.
  intros Hd He Ht. unfold RemoveGroup, BoardVisitor.Begin. rewrite Hd.
  cbn [assert bind]. rewrite He. cbn [Z.eqb Z.add Pos.add Pos.succ Pos.add_carry].
  unfold BoardVisitor.Visit.
  cbn [BoardVisitor.visited_ BoardVisitor.epoch_ BoardVisitor.stack_].
  change (u8 256) with 0%Z. rewrite Ht. cbn [Z.eqb negb snd].
  unfold BoardVisitor.Done in Hd.
  destruct (BoardVisitor.stack_ (board_visitor_ v)) eqn:Es; [|discriminate].
  unfold traversal_fuel.
  destruct (2 * (kN * kN)) as [|fuel];
    cbn [RemoveGroup_loop BoardVisitor.Done BoardVisitor.stack_ bind];
    (eexists; split; [reflexivity|]); reflexivity.
Qed.

Lemma remove_group_at_wrapped_epoch_witness :
  exists v',
    RemoveGroup 9 81 (after9 [Game9.at_ 0 1; Game9.at_ 0 0])
                (mkScratch (BoardVisitor.mk [] (repeat 0%Z 81) 255) (GroupVisitor.init 81)) 0
      = Ok (after9 [Game9.at_ 0 1; Game9.at_ 0 0], v') /\
    BoardVisitor.epoch_ (board_visitor_ v') = 0%Z.
Proof.
  apply (@remove_group_at_wrapped_epoch 9 81 (after9 [Game9.at_ 0 1; Game9.at_ 0 0])
           (mkScratch (BoardVisitor.mk [] (repeat 0%Z 81) 255) (GroupVisitor.init 81)) 0);
    reflexivity.
Defined.

Lemma same_members_length {A : Type} (l1 l2 : list A) :
  NoDup l1 -> NoDup l2 -> (forall x, In x l1 <-> In x l2) -> length l1 = length l2.
Proof.
  intros H1 H2 H. apply Permutation_length. now apply NoDup_Permutation.
Qed.

Lemma u16_small z : (0 <= z < 65536)%Z -> u16 z = z.
Proof. intros H. unfold u16. now apply Z.mod_small. Qed.

Lemma iter_bump_small n z :
  (0 <= z)%Z -> (z + Z.of_nat n < 65536)%Z ->
  Nat.iter n (fun z => u16 (z + 1)) z = (z + Z.of_nat n)%Z.
Proof.
  induction n as [|n IH]; intros Hz Hn.
  - simpl. lia.
  - change (Nat.iter (S n) (fun z => u16 (z + 1)) z)
      with (u16 (Nat.iter n (fun z => u16 (z + 1)) z + 1)).
    rewrite IH by lia. rewrite u16_small by lia. lia.
Qed.

Section GroupMembers.

Variable kN : nat.

Lemma In_group_stones p g x :
  In x (group_stones kN p g) <->
  on_board kN x /\ color_at p x <> kEmpty /\ id_at p x = g.
Proof.
  unfold group_stones. rewrite filter_In, in_seq, andb_true_iff, negb_true_iff.
  unfold Stone.empty. fold (color_at p x). fold (id_at p x).
  rewrite color_eqb_neq, Nat.eqb_eq. unfold on_board. intuition lia.
Qed.

Lemma HasNeighboringGroup_spec p y g :
  HasNeighboringGroup kN p y g = true <->
  exists n, In n (GetNeighborCoords kN y) /\ color_at p n <> kEmpty /\ id_at p n = g.
Proof.
  unfold HasNeighboringGroup. rewrite existsb_exists.
  split; intros [n [Hn H]]; exists n; (split; [exact Hn|]).
  - apply andb_true_iff in H. destruct H as [H1 H2].
    apply negb_true_iff in H1. unfold Stone.empty in H1. apply color_eqb_neq in H1.
    apply Nat.eqb_eq in H2. split; assumption.
  - destruct H as [H1 H2]. apply andb_true_iff. split.
    + apply negb_true_iff. unfold Stone.empty. now apply color_eqb_neq.
    + now apply Nat.eqb_eq.
Qed.

Lemma In_group_liberties p g y :
  In y (group_liberties kN p g) <->
  on_board kN y /\ color_at p y = kEmpty /\
  exists n, In n (GetNeighborCoords kN y) /\ color_at p n <> kEmpty /\ id_at p n = g.
Proof.
  unfold group_liberties. rewrite filter_In, in_seq, andb_true_iff.
  rewrite HasNeighboringGroup_spec.
  unfold Stone.empty. fold (color_at p y). rewrite color_eqb_eq.
  unfold on_board. intuition lia.
Qed.

Lemma group_stones_NoDup p g : NoDup (group_stones kN p g).
Proof. apply NoDup_filter, seq_NoDup. Qed.

Lemma group_liberties_NoDup p g : NoDup (group_liberties kN p g).
Proof. apply NoDup_filter, seq_NoDup. Qed.

Lemma group_stones_bound p g : length (group_stones kN p g) <= kN * kN.
Proof.
  unfold group_stones. eapply Nat.le_trans; [apply filter_length_le|].
  now rewrite length_seq.
Qed.

Lemma group_liberties_bound p g : length (group_liberties kN p g) <= kN * kN.
Proof.
  unfold group_liberties. eapply Nat.le_trans; [apply filter_length_le|].
  now rewrite length_seq.
Qed.

(** A stone and an empty point are different points, so the stones and
    the liberties of a group together fit on the board. *)
Lemma stones_and_liberties_bound p g :
  length (group_stones kN p g) + length (group_liberties kN p g) <= kN * kN.
Proof.
  rewrite <- length_app. rewrite <- (length_seq (kN * kN) 0).
  apply NoDup_incl_length.
  - apply NoDup_app; [apply group_stones_NoDup | apply group_liberties_NoDup|].
    intros a Ha Hb. apply In_group_stones in Ha. apply In_group_liberties in Hb.
    tauto.
  - intros a Ha. apply in_seq. apply in_app_or in Ha.
    destruct Ha as [Ha|Ha];
      [apply In_group_stones in Ha | apply In_group_liberties in Ha];
      unfold on_board in Ha; lia.
Qed.

Lemma neighbor_not_self c : ~ In c (GetNeighborCoords kN c).
Proof.
  intros H. pose proof (@GetNeighborCoords_on_board kN c c H) as Hc.
  destruct (@on_board_coord_of kN c Hc) as [Hr [Hcol E]].
  rewrite E in H.
  apply In_GetNeighborCoords in H; try assumption. lia.
Qed.

Lemma neighbors_NoDup c : NoDup (GetNeighborCoords kN c).
Proof.
  destruct (Nat.lt_ge_cases c (kN * kN)) as [Hc|Hc].
  - destruct (@on_board_coord_of kN c Hc) as [Hr [Hcol E]].
    rewrite E. rewrite GetNeighborCoords_lookup by assumption.
    set (row := c / kN) in *. set (col := c mod kN) in *.
    assert (Hinj : forall r1 c1 r2 c2, c1 < kN -> c2 < kN ->
              (r1 <> r2 \/ c1 <> c2) -> coord_of kN r1 c1 <> coord_of kN r2 c2).
    { intros r1 c1 r2 c2 H1 H2 Hd Heq.
      apply coord_of_injective in Heq; [lia | assumption | assumption]. }
    unfold neighbors_of.
    destruct (Nat.ltb_spec 0 col); destruct (Nat.ltb_spec col (kN - 1));
      destruct (Nat.ltb_spec 0 row); destruct (Nat.ltb_spec row (kN - 1));
      cbn [app]; repeat constructor; cbn [In];
      repeat (let H := fresh in intros [H|H]; [revert H; apply Hinj; lia|revert H]);
      try (intros []); try (apply Hinj; lia).
  - unfold GetNeighborCoords. rewrite nth_overflow; [constructor|].
    rewrite kNeighborCoords_length. exact Hc.
Qed.

End GroupMembers.
Section ScanCounters.

Variable kN : nat.
Variable p : Position.
Variable color : Color.
Hypothesis color_stone : color <> kEmpty.

Lemma scan_step_counted seen st nc :
  scan_counted p seen st ->
  scan_counted p (seen ++ [nc]) (scan_step p color (OtherColor color) st nc).
Proof.
  intros [Hl [Hout [Hin Hlib]]]. unfold scan_step.
  assert (Hf : filter (fun n => Stone.empty (stone_at p n)) (seen ++ [nc])
               = liberties st ++
                 (if color_eqb (Stone.color (stone_at p nc)) kEmpty then [nc] else [])).
  { rewrite filter_app, Hlib. reflexivity. }
  destruct (color_eqb (Stone.color (stone_at p nc)) kEmpty) eqn:Ee.
  { unfold scan_counted. cbn [scan_groups opponent_groups liberties]. rewrite Hf.
    split; [exact Hl|]. split; [exact Hout|]. split; [exact Hin | reflexivity]. }
  rewrite app_nil_r in Hf.
  assert (Hkeep : scan_counted p (seen ++ [nc]) st).
  { unfold scan_counted. rewrite Hf.
    split; [exact Hl|]. split; [exact Hout|]. split; [exact Hin | reflexivity]. }
  destruct (color_eqb (Stone.color (stone_at p nc)) color).
  { unfold scan_counted. cbn [scan_groups opponent_groups liberties]. rewrite Hf.
    split; [exact Hl|]. split; [exact Hout|]. split; [exact Hin | reflexivity]. }
  destruct (color_eqb (Stone.color (stone_at p nc)) (OtherColor color)); [|exact Hkeep].
  set (g0 := Stone.group_id (stone_at p nc)).
  pose proof (tiny_insert_fresh g0 (opponent_groups st)) as Hfresh.
  pose proof (tiny_insert_members g0 (opponent_groups st)) as Hmem.
  destruct (tiny_insert g0 (opponent_groups st)) as [fresh og'].
  cbn [fst snd] in Hfresh, Hmem.
  destruct fresh; [|exact Hkeep].
  assert (Hnew : ~ In g0 (opponent_groups st)) by now apply Hfresh.
  unfold scan_counted. cbn [scan_groups opponent_groups liberties]. rewrite Hf.
  split; [cbn [GroupPool.set GroupPool.slots]; now rewrite upd_length|].
  split; [|split; [|reflexivity]].
  - intros g Hg. rewrite pool_get_set_other.
    + apply Hout. intros H. apply Hg. apply Hmem. now right.
    + intros ->. apply Hg. apply Hmem. now left.
  - intros g Hg Hlt. apply Hmem in Hg. destruct (Nat.eq_dec g g0) as [->|Hne].
    + rewrite pool_get_set_same by (rewrite Hl; exact Hlt).
      now rewrite (Hout g0 Hnew).
    + rewrite pool_get_set_other by (intros E; apply Hne; now symmetry).
      apply Hin; [|exact Hlt]. destruct Hg as [E|Hg]; [contradiction | exact Hg].
Qed.

Lemma scan_fold_counted : forall ncs seen st,
  scan_counted p seen st ->
  scan_counted p (seen ++ ncs) (fold_left (scan_step p color (OtherColor color)) ncs st).
Proof.
  induction ncs as [|nc ncs IH]; intros seen st H; cbn [fold_left].
  - now rewrite app_nil_r.
  - replace (seen ++ nc :: ncs) with ((seen ++ [nc]) ++ ncs)
      by (rewrite <- app_assoc; reflexivity).
    apply IH. now apply scan_step_counted.
Qed.

Lemma scan_neighbors_counted c :
  scan_counted p (GetNeighborCoords kN c) (scan_neighbors kN p c color).
Proof.
  unfold scan_neighbors.
  apply (scan_fold_counted (GetNeighborCoords kN c) (seen := [])).
  unfold scan_counted. cbn [scan_groups opponent_groups liberties filter].
  split; [reflexivity|]. split; [reflexivity|]. split; [intros g []|reflexivity].
Qed.

End ScanCounters.

Lemma count_new_liberties_spec kN p id : forall empties libs,
  count_new_liberties kN p id libs empties
    = Nat.iter (length (filter (fun nc => negb (HasNeighboringGroup kN p nc id)) empties))
               (fun z => u16 (z + 1)) libs.
Proof.
  unfold count_new_liberties.
  induction empties as [|nc rest IH]; intros libs; cbn [fold_left filter].
  - reflexivity.
  - rewrite IH. destruct (negb (HasNeighboringGroup kN p nc id)); [|reflexivity].
    cbn [length]. now rewrite Nat.iter_succ_r.
Qed.
Section CountingSteps.

Variable kN : nat.

Lemma stone_at_colors p q y :
  stone_at q y = stone_at p y -> color_at q y = color_at p y /\ id_at q y = id_at p y.
Proof. intros H. unfold color_at, id_at. now rewrite H. Qed.

(** A stone put on the empty point [c]: a group that does not take the
    new stone keeps its stones and loses the liberty [c] if it had it. *)
Lemma other_group_after_stone p q c g :
  on_board kN c -> color_at p c = kEmpty -> color_at q c <> kEmpty -> id_at q c <> g ->
  (forall y, y <> c -> color_at q y = color_at p y) ->
  (forall y, y <> c -> color_at p y <> kEmpty -> (id_at q y = g <-> id_at p y = g)) ->
  length (group_stones kN q g) = length (group_stones kN p g) /\
  length (group_liberties kN p g)
    = length (group_liberties kN q g) + (if HasNeighboringGroup kN p c g then 1 else 0).
Proof.
  intros Hc Hpc Hqc Hqid Hcol Hid. split.
  - apply same_members_length; try apply group_stones_NoDup.
    intros x. rewrite !In_group_stones.
    destruct (Nat.eq_dec x c) as [->|Hx]; [tauto|].
    rewrite (Hcol x Hx). split; intros [A [B C]]; (split; [exact A|]); (split; [exact B|]).
    + now apply Hid.
    + now apply Hid.
  - assert (Hmem : forall y, In y (group_liberties kN q g) <->
                             y <> c /\ In y (group_liberties kN p g)).
    { intros y. rewrite !In_group_liberties. split.
      - intros [A [B [n [Hn [Hk Hi]]]]].
        assert (Hy : y <> c) by (intros ->; contradiction).
        assert (Hnc : n <> c) by (intros ->; contradiction).
        split; [exact Hy|]. split; [exact A|]. split; [now rewrite <- Hcol|].
        exists n. rewrite (Hcol n Hnc) in Hk. split; [exact Hn|]. split; [exact Hk|].
        now apply Hid.
      - intros [Hy [A [B [n [Hn [Hk Hi]]]]]].
        assert (Hnc : n <> c) by (intros ->; contradiction).
        split; [exact A|]. split; [now rewrite Hcol|].
        exists n. split; [exact Hn|]. split; [now rewrite Hcol|]. now apply Hid. }
    destruct (HasNeighboringGroup kN p c g) eqn:Has.
    + rewrite Nat.add_1_r. change (S (length (group_liberties kN q g)))
        with (length (c :: group_liberties kN q g)).
      apply same_members_length; [apply group_liberties_NoDup | |].
      * constructor; [|apply group_liberties_NoDup]. intros H. apply Hmem in H. tauto.
      * intros y. cbn [In]. rewrite Hmem. split.
        -- intros H. destruct (Nat.eq_dec c y); [now left | right; split; auto].
        -- intros [<-|[_ H]]; [|exact H]. apply In_group_liberties.
           split; [exact Hc|]. split; [exact Hpc|]. now apply HasNeighboringGroup_spec.
    + rewrite Nat.add_0_r. apply same_members_length; try apply group_liberties_NoDup.
      intros y. rewrite Hmem. split; [|tauto]. intros H. split; [|exact H].
      intros ->. apply In_group_liberties in H. destruct H as [_ [_ H]].
      apply HasNeighboringGroup_spec in H. congruence.
Qed.

(** The group that takes the new stone at [c] has one stone more; it
    loses the liberty [c] if it had it and wins the empty neighbors of [c]
    that were not its liberties. *)
Lemma own_group_after_stone p q c g :
  on_board kN c -> color_at p c = kEmpty -> color_at q c <> kEmpty -> id_at q c = g ->
  (forall y, y <> c -> color_at q y = color_at p y) ->
  (forall y, y <> c -> color_at p y <> kEmpty -> (id_at q y = g <-> id_at p y = g)) ->
  length (group_stones kN q g) = S (length (group_stones kN p g)) /\
  length (group_liberties kN q g) + (if HasNeighboringGroup kN p c g then 1 else 0)
    = length (group_liberties kN p g)
      + length (filter (fun n => negb (HasNeighboringGroup kN p n g))
                       (filter (fun n => Stone.empty (stone_at p n))
                               (GetNeighborCoords kN c))).
Proof.
  intros Hc Hpc Hqc Hqid Hcol Hid. split.
  - change (S (length (group_stones kN p g))) with (length (c :: group_stones kN p g)).
    apply same_members_length; [apply group_stones_NoDup | |].
    + constructor; [|apply group_stones_NoDup]. intros H. apply In_group_stones in H. tauto.
    + intros x. cbn [In]. rewrite !In_group_stones.
      destruct (Nat.eq_dec x c) as [->|Hx].
      * split; [now left|]. intros _. auto.
      * rewrite (Hcol x Hx). split.
        -- intros [A [B C]]. right. split; [exact A|]. split; [exact B|]. now apply Hid.
        -- intros [E|[A [B C]]]; [congruence|].
           split; [exact A|]. split; [exact B|]. now apply Hid.
  - set (news := filter (fun n => negb (HasNeighboringGroup kN p n g))
                        (filter (fun n => Stone.empty (stone_at p n))
                                (GetNeighborCoords kN c))).
    assert (Hnews : forall y, In y news <->
              In y (GetNeighborCoords kN c) /\ color_at p y = kEmpty /\
              ~ In y (group_liberties kN p g)).
    { intros y. unfold news. rewrite !filter_In, negb_true_iff.
      unfold Stone.empty. fold (color_at p y). rewrite color_eqb_eq.
      rewrite In_group_liberties. split.
      - intros [[A B] C]. split; [exact A|]. split; [exact B|].
        intros [_ [_ H]]. apply HasNeighboringGroup_spec in H. congruence.
      - intros [A [B C]]. split; [split; assumption|].
        destruct (HasNeighboringGroup kN p y g) eqn:E; [|reflexivity].
        exfalso. apply C. split; [now apply GetNeighborCoords_on_board with (c := c)|].
        split; [exact B|]. now apply HasNeighboringGroup_spec. }
    assert (Hnd : NoDup (group_liberties kN p g ++ news)).
    { apply NoDup_app; [apply group_liberties_NoDup | |].
      - unfold news. apply NoDup_filter, NoDup_filter, neighbors_NoDup.
      - intros y Hy Hn. apply Hnews in Hn. tauto. }
    assert (Hmem : forall y, In y (group_liberties kN q g) <->
                             y <> c /\ In y (group_liberties kN p g ++ news)).
    { intros y. rewrite in_app_iff, Hnews, !In_group_liberties. split.
      - intros [A [B [n [Hn [Hk Hi]]]]].
        assert (Hy : y <> c) by (intros ->; contradiction).
        split; [exact Hy|]. rewrite (Hcol y Hy) in B.
        destruct (Nat.eq_dec n c) as [->|Hnc].
        + destruct (HasNeighboringGroup kN p y g) eqn:E.
          * left. split; [exact A|]. split; [exact B|]. now apply HasNeighboringGroup_spec.
          * right. split; [now apply neighbors_symmetric|]. split; [exact B|].
            intros [_ [_ H]]. apply HasNeighboringGroup_spec in H. congruence.
        + left. split; [exact A|]. split; [exact B|]. exists n.
          rewrite (Hcol n Hnc) in Hk. split; [exact Hn|]. split; [exact Hk|].
          now apply Hid.
      - intros [Hy [[A [B [n [Hn [Hk Hi]]]]]|[A [B C]]]].
        + assert (Hnc : n <> c) by (intros ->; contradiction).
          split; [exact A|]. split; [now rewrite Hcol|]. exists n.
          split; [exact Hn|]. split; [now rewrite Hcol|]. now apply Hid.
        + split; [now apply GetNeighborCoords_on_board with (c := c)|].
          split; [now rewrite Hcol|]. exists c.
          split; [now apply neighbors_symmetric|]. split; assumption. }
    rewrite <- length_app.
    destruct (HasNeighboringGroup kN p c g) eqn:Has.
    + rewrite Nat.add_1_r. change (S (length (group_liberties kN q g)))
        with (length (c :: group_liberties kN q g)).
      apply same_members_length; [| exact Hnd |].
      * constructor; [|apply group_liberties_NoDup]. intros H. apply Hmem in H. tauto.
      * intros y. cbn [In]. rewrite Hmem. split.
        -- intros [<-|[_ H]]; [|exact H]. apply in_or_app. left.
           apply In_group_liberties.
           split; [exact Hc|]. split; [exact Hpc|]. now apply HasNeighboringGroup_spec.
        -- intros H. destruct (Nat.eq_dec c y); [now left | right; split; auto].
    + rewrite Nat.add_0_r. apply same_members_length;
        [apply group_liberties_NoDup | exact Hnd |].
      intros y. rewrite Hmem. split; [tauto|]. intros H. split; [|exact H].
      intros ->. apply in_app_or in H. destruct H as [H|H].
      * apply In_group_liberties in H. destruct H as [_ [_ H]].
        apply HasNeighboringGroup_spec in H. congruence.
      * apply Hnews in H. destruct H as [H _]. exact (neighbor_not_self _ _ H).
Qed.

(** The stones [gone] taken off the board: a group that keeps its stones
    wins as liberties the points of [gone] next to it. *)
Lemma group_after_removal p p' gone g :
  NoDup gone ->
  (forall x, In x gone -> on_board kN x /\ color_at p x <> kEmpty /\ id_at p x <> g) ->
  (forall x, In x gone -> color_at p' x = kEmpty) ->
  (forall x, ~ In x gone -> stone_at p' x = stone_at p x) ->
  length (group_stones kN p' g) = length (group_stones kN p g) /\
  length (group_liberties kN p' g)
    = length (group_liberties kN p g)
      + length (filter (fun x => HasNeighboringGroup kN p x g) gone).
Proof.
  intros Hnd Hgone Hempty Hrest.
  assert (Hkeep : forall n, color_at p n <> kEmpty -> id_at p n = g ->
                            color_at p' n <> kEmpty /\ id_at p' n = g).
  { intros n Hk Hi.
    assert (Hout : ~ In n gone) by (intros H; apply Hgone in H; tauto).
    destruct (stone_at_colors _ _ _ (Hrest n Hout)) as [-> ->]. tauto. }
  assert (Hback : forall n, color_at p' n <> kEmpty ->
                            ~ In n gone /\ color_at p n <> kEmpty /\ id_at p n = id_at p' n).
  { intros n Hk.
    assert (Hout : ~ In n gone) by (intros H; apply Hempty in H; contradiction).
    destruct (stone_at_colors _ _ _ (Hrest n Hout)) as [E1 E2].
    rewrite <- E1, <- E2. tauto. }
  split.
  - apply same_members_length; try apply group_stones_NoDup.
    intros x. rewrite !In_group_stones. split.
    + intros [A [B C]]. destruct (Hback x B) as [_ [D E]].
      split; [exact A|]. split; [exact D | congruence].
    + intros [A [B C]]. destruct (Hkeep x B C). tauto.
  - rewrite <- length_app.
    apply same_members_length; [apply group_liberties_NoDup | |].
    + apply NoDup_app; [apply group_liberties_NoDup | now apply NoDup_filter |].
      intros y Hy Hf. apply In_group_liberties in Hy. apply filter_In in Hf.
      destruct Hf as [Hf _]. apply Hgone in Hf. tauto.
    + intros y. rewrite in_app_iff, filter_In, !In_group_liberties,
        HasNeighboringGroup_spec. split.
      * intros [A [B [n [Hn [Hk Hi]]]]]. destruct (Hback n Hk) as [_ [D E]].
        assert (Hex : exists n, In n (GetNeighborCoords kN y) /\
                                color_at p n <> kEmpty /\ id_at p n = g).
        { exists n. split; [exact Hn|]. split; [exact D | congruence]. }
        destruct (in_dec Nat.eq_dec y gone) as [Hin|Hout]; [right; tauto|].
        left. destruct (stone_at_colors _ _ _ (Hrest y Hout)) as [E1 _].
        split; [exact A|]. split; [congruence | exact Hex].
      * intros [[A [B [n [Hn [Hk Hi]]]]]|[Hin [n [Hn [Hk Hi]]]]].
        -- assert (Hout : ~ In y gone) by (intros H; apply Hgone in H; tauto).
           destruct (stone_at_colors _ _ _ (Hrest y Hout)) as [E1 _].
           split; [exact A|]. split; [congruence|]. exists n.
           split; [exact Hn|]. now apply Hkeep.
        -- split; [now apply Hgone|]. split; [now apply Hempty|]. exists n.
           split; [exact Hn|]. now apply Hkeep.
Qed.

End CountingSteps.
Section PlaceCounters.

Variable kN : nat.
Hypothesis board_small : (Z.of_nat (kN * kN) < 65536)%Z.

Lemma group_color p x y :
  groups_are_chains kN p -> color_at p x <> kEmpty -> color_at p y <> kEmpty ->
  id_at p x = id_at p y -> color_at p y = color_at p x.
Proof.
  intros [_ [_ [_ [_ [_ W6]]]]] Hx Hy E.
  apply chain_color with (kN := kN) (c := x); [reflexivity | now apply W6].
Qed.

Lemma unused_group p g :
  (forall y, color_at p y <> kEmpty -> id_at p y <> g) ->
  (forall y, HasNeighboringGroup kN p y g = false) /\
  length (group_stones kN p g) = 0 /\ length (group_liberties kN p g) = 0.
Proof.
  intros Hun.
  assert (Hno : forall y, HasNeighboringGroup kN p y g = false).
  { intros y. destruct (HasNeighboringGroup kN p y g) eqn:E; [|reflexivity].
    apply HasNeighboringGroup_spec in E. destruct E as [n [_ [Hk Hi]]].
    exfalso. exact (Hun n Hk Hi). }
  split; [exact Hno|]. split.
  - destruct (group_stones kN p g) as [|a l] eqn:E; [reflexivity|].
    assert (Hin : In a (group_stones kN p g)) by (rewrite E; now left).
    apply In_group_stones in Hin. destruct Hin as [_ [Hk Hi]].
    exfalso. exact (Hun a Hk Hi).
  - destruct (group_liberties kN p g) as [|a l] eqn:E; [reflexivity|].
    assert (Hin : In a (group_liberties kN p g)) by (rewrite E; now left).
    apply In_group_liberties in Hin. destruct Hin as [_ [_ [n [_ [Hk Hi]]]]].
    exfalso. exact (Hun n Hk Hi).
Qed.

Variable p : Position.
Variable c : Coord.
Variable color : Color.
Hypothesis p_consistent : groups_are_chains kN p.
Hypothesis p_exact : counts_exact kN p.
Hypothesis color_stone : color <> kEmpty.
Hypothesis c_on_board : on_board kN c.
Hypothesis c_empty : color_at p c = kEmpty.

Lemma stone_colors x : color_at p x <> kEmpty ->
  color_at p x = color \/ color_at p x = OtherColor color.
Proof. destruct (color_at p x), color; simpl; intros H; auto; congruence. Qed.

Lemma scanned_opponent x :
  color_at p x = OtherColor color ->
  GroupPool.get (scan_groups (scan_neighbors kN p c color)) (id_at p x)
    = mkGroup (Z.of_nat (length (group_stones kN p (id_at p x))))
              (Z.of_nat (length (group_liberties kN p (id_at p x)))
               - (if HasNeighboringGroup kN p c (id_at p x) then 1 else 0))%Z.
Proof.
  intros Hx.
  assert (Hne : color_at p x <> kEmpty).
  { rewrite Hx. now apply OtherColor_not_empty. }
  destruct (@scan_neighbors_counted kN p color c) as [_ [Hout [Hin _]]].
  destruct (@scan_neighbors_inv kN p color color_stone c) as [Hopp _].
  pose proof (p_exact x Hne) as Hex. unfold group_at in Hex.
  destruct p_consistent as [_ [_ [_ [W4 _]]]].
  destruct (HasNeighboringGroup kN p c (id_at p x)) eqn:Has.
  - pose proof Has as Has'. apply HasNeighboringGroup_spec in Has'.
    destruct Has' as [n [Hn [Hk Hi]]].
    assert (Hkn : color_at p n = OtherColor color).
    { rewrite <- Hx. apply group_color; auto. }
    assert (Hg : In (id_at p x) (opponent_groups (scan_neighbors kN p c color))).
    { apply Hopp. exists n. split; [exact Hn|]. split; [exact Hkn | exact Hi]. }
    rewrite (Hin _ Hg (proj1 (W4 x Hne))). unfold group_at. rewrite Hex.
    cbn [size num_liberties]. f_equal.
    assert (Hc : In c (group_liberties kN p (id_at p x))).
    { apply In_group_liberties. split; [exact c_on_board|]. split; [exact c_empty|].
      now apply HasNeighboringGroup_spec. }
    assert (Hpos : 1 <= length (group_liberties kN p (id_at p x))).
    { destruct (group_liberties kN p (id_at p x)); [destruct Hc | cbn [length]; lia]. }
    pose proof (group_liberties_bound kN p (id_at p x)) as Hb.
    apply u16_small. lia.
  - assert (Hg : ~ In (id_at p x) (opponent_groups (scan_neighbors kN p c color))).
    { intros Hg. apply Hopp in Hg. destruct Hg as [n [Hn [Hk Hi]]].
      assert (Has' : HasNeighboringGroup kN p c (id_at p x) = true).
      { apply HasNeighboringGroup_spec. exists n. split; [exact Hn|].
        split; [|exact Hi]. unfold color_at. rewrite Hk.
        now apply OtherColor_not_empty. }
      congruence. }
    rewrite (Hout _ Hg). unfold group_at. rewrite Hex. f_equal. lia.
Qed.

Lemma scanned_friend x :
  color_at p x = color ->
  GroupPool.get (scan_groups (scan_neighbors kN p c color)) (id_at p x)
    = group_at p (id_at p x).
Proof.
  intros Hx.
  assert (Hne : color_at p x <> kEmpty) by congruence.
  destruct (@scan_neighbors_counted kN p color c) as [_ [Hout _]].
  destruct (@scan_neighbors_inv kN p color color_stone c) as [Hopp _].
  apply Hout. intros Hg. apply Hopp in Hg. destruct Hg as [n [Hn [Hk Hi]]].
  assert (Hkn : color_at p n = color_at p x).
  { apply group_color; auto. unfold color_at. rewrite Hk.
    now apply OtherColor_not_empty. }
  unfold color_at in Hkn at 1. rewrite Hk, Hx in Hkn.
  exact (OtherColor_neq color_stone Hkn).
Qed.

(** A group that the new stone does not join has exact counters after
    the stone is placed. *)
Lemma other_group_exact pl x :
  color_at pl c <> kEmpty ->
  (forall y, y <> c -> color_at pl y = color_at p y) ->
  x <> c -> color_at p x <> kEmpty ->
  id_at pl c <> id_at p x ->
  (forall y, y <> c -> color_at p y <> kEmpty ->
             (id_at pl y = id_at p x <-> id_at p y = id_at p x)) ->
  group_at pl (id_at p x)
    = GroupPool.get (scan_groups (scan_neighbors kN p c color)) (id_at p x) ->
  (color_at p x = color ->
   ~ In (id_at p x) (neighbor_groups (scan_neighbors kN p c color))) ->
  group_at pl (id_at p x)
    = mkGroup (Z.of_nat (length (group_stones kN pl (id_at p x))))
              (Z.of_nat (length (group_liberties kN pl (id_at p x)))).
Proof.
  intros Hplc Hcol Hxc Hx Hidc Hids Hrec Hfriend.
  destruct (@other_group_after_stone kN p pl c (id_at p x)
              c_on_board c_empty Hplc Hidc Hcol Hids) as [Hs Hl].
  rewrite Hrec. destruct (@stone_colors x Hx) as [Hk|Hk].
  - rewrite (@scanned_friend x Hk). rewrite (p_exact x Hx).
    destruct (HasNeighboringGroup kN p c (id_at p x)) eqn:Has.
    + exfalso. apply (Hfriend Hk).
      apply HasNeighboringGroup_spec in Has. destruct Has as [n [Hn [Hkn Hi]]].
      destruct (@scan_neighbors_friends kN p color color_stone c) as [Hngs _].
      apply Hngs. exists n. split; [exact Hn|]. split; [|exact Hi].
      rewrite <- Hk. apply group_color; auto.
    + rewrite Hs, Hl, Nat.add_0_r. reflexivity.
  - rewrite (@scanned_opponent x Hk). rewrite Hs. f_equal.
    destruct (HasNeighboringGroup kN p c (id_at p x)); lia.
Qed.

End PlaceCounters.
Lemma filter_all {A : Type} (f : A -> bool) (l : list A) :
  (forall x, f x = true) -> filter f l = l.
Proof.
  intros H. induction l as [|a l IH]; cbn [filter]; [reflexivity|].
  now rewrite H, IH.
Qed.

Section PlaceExact.

Variable kN : nat.
Hypothesis board_small : (Z.of_nat (kN * kN) < 65536)%Z.
Variable p : Position.
Variable c : Coord.
Variable color : Color.
Hypothesis p_consistent : groups_are_chains kN p.
Hypothesis p_exact : counts_exact kN p.
Hypothesis color_stone : color <> kEmpty.
Hypothesis c_on_board : on_board kN c.
Hypothesis c_empty : color_at p c = kEmpty.

Lemma placed_stone pool' g0 :
  let pl := set_stone (with_groups p pool') c (Stone.mk color g0) in
  color_at pl c = color /\ id_at pl c = g0 /\
  (forall y, y <> c -> stone_at pl y = stone_at p y) /\
  (forall g, group_at pl g = GroupPool.get pool' g).
Proof.
  destruct p_consistent as [W1 _].
  assert (Hlt : c < length (stones_ p)) by (rewrite W1; exact c_on_board).
  cbn zeta. unfold color_at, id_at, stone_at, set_stone, group_at.
  cbn [stones_ groups_ with_stones with_groups].
  rewrite nth_upd_same by exact Hlt. cbn [Stone.color Stone.group_id].
  split; [reflexivity|]. split; [reflexivity|]. split; [|reflexivity].
  intros y Hy. now rewrite nth_upd_other by auto.
Qed.

Lemma place_stone_exact v pl v1 :
  visitor_fresh kN (board_visitor_ v) ->
  place_stone kN (with_groups p (scan_groups (scan_neighbors kN p c color))) v c color
              (liberties (scan_neighbors kN p c color))
              (neighbor_groups (scan_neighbors kN p c color)) = Ok (pl, v1) ->
  groups_are_chains kN pl ->
  counts_exact kN pl.
Proof.
  intros Hf H Hwfl.
  destruct (@scan_neighbors_friends kN p color color_stone c) as [Hngs [Hnd [_ [Hsl Hfr]]]].
  destruct (@scan_neighbors_counted kN p color c) as [_ [_ [_ Hlib]]].
  set (sc := scan_neighbors kN p c color) in *.
  pose proof p_consistent as [W1 [W2 [W3 [W4 [W5 W6]]]]].
  unfold place_stone in H.
  destruct (neighbor_groups sc) as [|id [|id2 others]] eqn:Engs.
  - (* a new group *)
    bind_inv H. destruct a as [id pool]. inversion H; subst pl v1. clear H.
    unfold GroupPool.alloc in Hm. cbn [groups_ with_groups] in Hm. rewrite Hfr in Hm.
    destruct (GroupPool.free_ids (groups_ p)) as [|id0 rest] eqn:Efree; [discriminate|].
    inversion Hm; subst id0 pool. clear Hm.
    match goal with
    | |- counts_exact _ (set_stone (with_groups _ ?q) _ _) => set (pool' := q) in *
    end.
    change (with_groups (with_groups p (scan_groups sc)) pool')
      with (with_groups p pool') in *.
    destruct (placed_stone pool' id) as [Hkc [Hic [Hrest Hrec]]].
    set (pl := set_stone (with_groups p pool') c (Stone.mk color id)) in *.
    assert (Hidlt : id < length (GroupPool.slots (groups_ p))).
    { apply W3. now left. }
    assert (Hunused : forall y, color_at p y <> kEmpty -> id_at p y <> id).
    { intros y Hy E. apply (proj2 (W4 y Hy)). rewrite E. now left. }
    destruct (@unused_group kN p id Hunused) as [Hno [Hs0 Hl0]].
    assert (Hcol : forall y, y <> c -> color_at pl y = color_at p y).
    { intros y Hy. unfold color_at. now rewrite Hrest. }
    assert (Hplc : color_at pl c <> kEmpty) by congruence.
    intros x Hx. destruct (Nat.eq_dec x c) as [->|Hxc].
    + rewrite Hic, Hrec. unfold pool', GroupPool.get. cbn [GroupPool.slots].
      rewrite nth_upd_same by (rewrite Hsl; exact Hidlt).
      destruct (@own_group_after_stone kN p pl c id c_on_board c_empty Hplc Hic Hcol)
        as [Hs Hl].
      { intros y Hy Hk. unfold id_at. now rewrite Hrest. }
      rewrite Hno, Hl0, Nat.add_0_r, Nat.add_0_l in Hl.
      rewrite filter_all in Hl by (intros y; now rewrite Hno).
      rewrite <- Hlib in Hl. rewrite Hs, Hs0, Hl.
      pose proof (group_liberties_bound kN pl id) as Hb.
      f_equal; try reflexivity. apply u16_small. lia.
    + assert (Hst : stone_at pl x = stone_at p x) by now apply Hrest.
      assert (Hxp : color_at p x <> kEmpty) by (unfold color_at in *; now rewrite <- Hst).
      assert (Hxi : id_at pl x = id_at p x) by (unfold id_at; now rewrite Hst).
      rewrite Hxi.
      apply (@other_group_exact kN board_small p c color p_consistent p_exact color_stone
               c_on_board c_empty pl x); try assumption.
      * rewrite Hic. intros E. exact (Hunused x Hxp (eq_sym E)).
      * intros y Hy Hk. unfold id_at. now rewrite Hrest.
      * rewrite Hrec. unfold pool', GroupPool.get. cbn [GroupPool.slots].
        rewrite nth_upd_other; [reflexivity|].
        intros E. exact (Hunused x Hxp (eq_sym E)).
      * fold sc. rewrite Engs. intros _ [].
  - (* one neighboring group *)
    inversion H; subst pl v1. clear H.
    destruct (proj1 (Hngs id) (or_introl eq_refl)) as [nb [Hnb [Hknb Hinb]]].
    assert (Hnbs : color_at p nb <> kEmpty) by congruence.
    assert (Hidlt : id < length (GroupPool.slots (groups_ p))).
    { rewrite <- Hinb. apply W4. exact Hnbs. }
    unfold set_group.
    match goal with
    | |- counts_exact _ (set_stone (with_groups _ ?q) _ _) => set (pool' := q) in *
    end.
    change (with_groups (with_groups p (scan_groups sc)) pool')
      with (with_groups p pool') in *.
    destruct (placed_stone pool' id) as [Hkc [Hic [Hrest Hrec]]].
    set (pl := set_stone (with_groups p pool') c (Stone.mk color id)) in *.
    assert (Hcol : forall y, y <> c -> color_at pl y = color_at p y).
    { intros y Hy. unfold color_at. now rewrite Hrest. }
    assert (Hplc : color_at pl c <> kEmpty) by congruence.
    assert (Hhas : HasNeighboringGroup kN p c id = true).
    { apply HasNeighboringGroup_spec. exists nb. auto. }
    assert (Hown : forall x, color_at pl x <> kEmpty -> id_at pl x = id ->
              group_at pl id
                = mkGroup (Z.of_nat (length (group_stones kN pl id)))
                          (Z.of_nat (length (group_liberties kN pl id)))).
    { intros x Hx Hxi. rewrite Hrec. unfold pool'.
      rewrite pool_get_set_same by (cbn [groups_ with_groups]; rewrite Hsl; exact Hidlt).
      destruct (@own_group_after_stone kN p pl c id c_on_board c_empty Hplc Hic Hcol)
        as [Hs Hl].
      { intros y Hy Hk. unfold id_at. now rewrite Hrest. }
      rewrite Hhas in Hl. fold sc in Hlib. rewrite <- Hlib in Hl.
      change (group_at (with_groups p (scan_groups sc)) id)
        with (GroupPool.get (scan_groups sc) id).
      rewrite <- Hinb.
      pose proof (@scanned_friend kN p c color p_consistent color_stone nb Hknb) as Hsf.
      fold sc in Hsf. rewrite Hsf.
      rewrite (p_exact nb Hnbs). cbn [size num_liberties]. rewrite Hinb.
      rewrite count_new_liberties_spec.
      change (fun nc => negb (HasNeighboringGroup kN (with_groups p (scan_groups sc)) nc id))
        with (fun nc => negb (HasNeighboringGroup kN p nc id)).
      pose proof (group_stones_bound kN pl id) as Hb1.
      pose proof (group_liberties_bound kN pl id) as Hb2.
      assert (Hcin : In c (group_liberties kN p id)).
      { apply In_group_liberties. split; [exact c_on_board|]. split; [exact c_empty|].
        now apply HasNeighboringGroup_spec. }
      assert (Hpos : 1 <= length (group_liberties kN p id)).
      { destruct (group_liberties kN p id); [destruct Hcin | cbn [length]; lia]. }
      f_equal.
      - rewrite u16_small by lia. lia.
      - rewrite u16_small by lia. rewrite iter_bump_small by lia. lia. }
    intros x Hx. destruct (Nat.eq_dec (id_at pl x) id) as [Hxi|Hxi].
    + rewrite Hxi. now apply (Hown x).
    + assert (Hxc : x <> c) by (intros ->; contradiction).
      assert (Hst : stone_at pl x = stone_at p x) by now apply Hrest.
      assert (Hxp : color_at p x <> kEmpty) by (unfold color_at in *; now rewrite <- Hst).
      assert (Hxe : id_at pl x = id_at p x) by (unfold id_at; now rewrite Hst).
      rewrite Hxe in *.
      apply (@other_group_exact kN board_small p c color p_consistent p_exact color_stone
               c_on_board c_empty pl x); try assumption.
      * rewrite Hic. auto.
      * intros y Hy Hk. unfold id_at. now rewrite Hrest.
      * rewrite Hrec. unfold pool'. rewrite pool_get_set_other by auto. reflexivity.
      * fold sc. rewrite Engs. intros _ [E|[]]. auto.
  - (* several: merge *)
    bind_inv H. destruct a as [q w]. inversion H; subst pl v1. clear H.
    set (pa := with_groups p (scan_groups sc)) in *.
    set (pm := set_stone pa c (Stone.mk color id)) in *.
    destruct (proj1 (Hngs id) (or_introl eq_refl)) as [nb [Hnb [Hknb Hinb]]].
    assert (Hnbs : color_at p nb <> kEmpty) by congruence.
    assert (Hidlt : id < length (GroupPool.slots (groups_ p))).
    { rewrite <- Hinb. apply W4. exact Hnbs. }
    assert (Hclt : c < length (stones_ p)) by (rewrite W1; exact c_on_board).
    assert (Hpmc : stone_at pm c = Stone.mk color id).
    { unfold pm, pa, stone_at, set_stone. cbn [stones_ with_stones with_groups].
      now rewrite nth_upd_same. }
    assert (Hpmrest : forall y, y <> c -> stone_at pm y = stone_at p y).
    { intros y Hy. unfold pm, pa, stone_at, set_stone.
      cbn [stones_ with_stones with_groups]. now rewrite nth_upd_other by auto. }
    assert (Hpmcol : color_at pm c <> kEmpty).
    { unfold color_at. rewrite Hpmc. exact color_stone. }
    assert (Hpml : length (stones_ pm) = kN * kN).
    { unfold pm, pa, set_stone. cbn [stones_ with_stones with_groups].
      now rewrite upd_length. }
    assert (Hpmid : Stone.group_id (stone_at pm c) < length (GroupPool.slots (groups_ pm))).
    { rewrite Hpmc. cbn [Stone.group_id]. unfold pm, pa, set_stone.
      cbn [groups_ with_stones with_groups]. rewrite Hsl. exact Hidlt. }
    destruct (@MergeGroup_chain kN pm v c q w Hf c_on_board Hpmcol Hpml Hpmid Hm)
      as [[stones [libs [Hsnd [Hlnd [Hst [Hli [Hgrp [Hqs [Hqr Hqg]]]]]]]]] _].
    destruct (@MergeGroup_colors kN pm v c q w Hm) as [_ Hqcol].
    assert (Hck : color_at pm c = color) by (unfold color_at; now rewrite Hpmc).
    rewrite Hck in Hst, Hli. rewrite Hpmc in Hgrp, Hqs, Hqg. cbn [Stone.group_id] in Hgrp, Hqg.
    match goal with
    | |- counts_exact _ ?r => set (pl := r) in *
    end.
    assert (Hplst : forall y, stone_at pl y = stone_at q y) by reflexivity.
    assert (Hplg : forall g, group_at pl g = group_at q g).
    { intros g. unfold pl, group_at, GroupPool.get. cbn [groups_ with_groups].
      now rewrite free_all_slots. }
    assert (Hplcol : forall y, color_at pl y = color_at pm y).
    { intros y. rewrite <- Hqcol. reflexivity. }
    assert (Hcin : In c stones) by (apply Hst; constructor).
    assert (Hplc : stone_at pl c = Stone.mk color id).
    { rewrite Hplst. now apply Hqs. }
    assert (Hchain : forall y, color_at pl y <> kEmpty -> id_at pl y = id -> In y stones).
    { intros y Hy Hi. apply Hst.
      destruct Hwfl as [_ [_ [_ [_ [_ V6]]]]].
      assert (Hc1 : color_at pl c <> kEmpty).
      { unfold color_at. rewrite Hplc. exact color_stone. }
      assert (Hc2 : id_at pl c = id_at pl y).
      { unfold id_at at 1. rewrite Hplc. now rewrite Hi. }
      pose proof (V6 c y Hc1 Hy Hc2) as Hch.
      assert (Hkc : color_at pl c = color) by (unfold color_at; now rewrite Hplc).
      rewrite Hkc in Hch. revert Hch. apply chain_agree.
      intros z Hz. now rewrite <- Hplcol. }
    intros x Hx. destruct (Nat.eq_dec (id_at pl x) id) as [Hxi|Hxi].
    + rewrite Hxi, Hplg, Hgrp.
      assert (Hs : length (group_stones kN pl id) = length stones).
      { apply same_members_length; [apply group_stones_NoDup | exact Hsnd|].
        intros y. rewrite In_group_stones. split.
        - intros [_ [A B]]. now apply Hchain.
        - intros Hy. pose proof (Hqs y Hy) as E. rewrite <- Hplst in E.
          split; [apply Hst in Hy; now apply chain_on_board with (p := pm) (k := color) (c := c)|].
          unfold color_at, id_at. rewrite E. split; [exact color_stone | reflexivity]. }
      assert (Hl : length (group_liberties kN pl id) = length libs).
      { apply same_members_length; [apply group_liberties_NoDup | exact Hlnd|].
        intros y. rewrite In_group_liberties, Hli. unfold chain_liberty. split.
        - intros [_ [A [n [Hn [Hk Hi]]]]]. split; [now rewrite <- Hplcol|].
          exists n. split; [apply Hst; now apply Hchain|].
          now apply neighbors_symmetric.
        - intros [A [z [Hz Hn]]]. split; [now apply GetNeighborCoords_on_board with (c := z)|].
          split; [now rewrite Hplcol|]. exists z.
          split; [now apply neighbors_symmetric|].
          apply Hst in Hz. pose proof (Hqs z Hz) as E. rewrite <- Hplst in E.
          unfold color_at, id_at. rewrite E. split; [exact color_stone | reflexivity]. }
      pose proof (group_stones_bound kN pl id) as Hb1.
      pose proof (group_liberties_bound kN pl id) as Hb2.
      rewrite <- Hs, <- Hl. f_equal; apply u16_small; lia.
    + assert (Hout : ~ In x stones).
      { intros Hin. apply Hxi. unfold id_at. rewrite Hplst, (Hqs x Hin). reflexivity. }
      assert (Hxc : x <> c) by (intros ->; contradiction).
      assert (Hstx : stone_at pl x = stone_at p x).
      { rewrite Hplst, (Hqr x Hout). now apply Hpmrest. }
      assert (Hxp : color_at p x <> kEmpty) by (unfold color_at in *; now rewrite <- Hstx).
      assert (Hxe : id_at pl x = id_at p x) by (unfold id_at; now rewrite Hstx).
      rewrite Hxe in *.
      assert (Hcolp : forall y, y <> c -> color_at pl y = color_at p y).
      { intros y Hy. rewrite Hplcol. unfold color_at. now rewrite Hpmrest. }
      assert (Hnochain : forall y, y <> c -> color_at p y <> kEmpty ->
                id_at p y = id_at p x -> ~ In y stones).
      { intros y Hy Hk Hi Hin. apply Hout. apply Hst. apply Hst in Hin.
        apply chain_trans with (b := y); [exact Hin|].
        assert (Hky : color_at p y = color).
        { rewrite <- (Hcolp y Hy). rewrite Hplcol.
          now apply chain_color with (kN := kN) (c := c). }
        pose proof (W6 y x Hk Hxp Hi) as Hch. rewrite Hky in Hch.
        revert Hch. apply chain_agree. intros z Hz.
        assert (Hzc : z <> c) by (intros ->; congruence).
        unfold color_at. rewrite Hpmrest by exact Hzc. exact Hz. }
      apply (@other_group_exact kN board_small p c color p_consistent p_exact color_stone
               c_on_board c_empty pl x); try assumption.
      * unfold color_at. rewrite Hplc. exact color_stone.
      * unfold id_at at 1. rewrite Hplc. cbn [Stone.group_id]. auto.
      * intros y Hy Hk. split.
        -- intros E. destruct (in_dec Nat.eq_dec y stones) as [Hin|Hno].
           ++ exfalso. apply Hxi. rewrite <- E. unfold id_at.
              rewrite Hplst, (Hqs y Hin). reflexivity.
           ++ unfold id_at in *. rewrite Hplst, (Hqr y Hno), (Hpmrest y Hy) in E. exact E.
        -- intros E. pose proof (Hnochain y Hy Hk E) as Hno.
           unfold id_at in *. rewrite Hplst, (Hqr y Hno), (Hpmrest y Hy). exact E.
      * rewrite Hplg, Hqg by auto. reflexivity.
      * intros Hk Hin. fold sc in Hin. rewrite Engs in Hin.
        apply (proj1 (Hngs (id_at p x))) in Hin.
        destruct Hin as [n [Hn [Hkn Hi]]].
        assert (Hnc : n <> c) by (intros ->; congruence).
        assert (Hns : color_at p n <> kEmpty) by congruence.
        apply (Hnochain n Hnc Hns Hi). apply Hst.
        apply chain_step with (x := c); [constructor | exact Hn|].
        unfold color_at. rewrite Hpmrest by exact Hnc. exact Hkn.
Qed.

End PlaceExact.
Section NeighborCounters.

Variable rc : Color.
Variable p0 : Position.

Lemma RemoveGroup_neighbor_counted seen st nc :
  neighbors_counted (OtherColor rc) p0 seen st ->
  neighbors_counted (OtherColor rc) p0 (seen ++ [nc])
                    (RemoveGroup_neighbor rc (OtherColor rc) st nc).
Proof.
  destruct st as [[p bv] og]. unfold neighbors_counted. cbn [fst snd].
  intros [Hst [Hl [Hog [Hout Hin]]]].
  assert (Hseen : forall g,
            (exists n, In n (seen ++ [nc]) /\ Stone.color (stone_at p0 n) = OtherColor rc /\
                       Stone.group_id (stone_at p0 n) = g) <->
            (exists n, In n seen /\ Stone.color (stone_at p0 n) = OtherColor rc /\
                       Stone.group_id (stone_at p0 n) = g) \/
            (Stone.color (stone_at p0 nc) = OtherColor rc /\
             Stone.group_id (stone_at p0 nc) = g)).
  { intros g. split.
    - intros [n [Hn H]]. apply in_app_or in Hn. destruct Hn as [Hn|[<-|[]]].
      + left. now exists n.
      + now right.
    - intros [[n [Hn H]]|H].
      + exists n. split; [apply in_or_app; now left | exact H].
      + exists nc. split; [apply in_or_app; right; now left | exact H]. }
  assert (Hsame : stone_at p nc = stone_at p0 nc) by (unfold stone_at; now rewrite Hst).
  unfold RemoveGroup_neighbor. rewrite Hsame.
  destruct (color_eqb (Stone.color (stone_at p0 nc)) (OtherColor rc)) eqn:Eo.
  - apply color_eqb_eq in Eo.
    set (g0 := Stone.group_id (stone_at p0 nc)).
    pose proof (tiny_insert_fresh g0 og) as Hfresh.
    pose proof (tiny_insert_members g0 og) as Hmem.
    destruct (tiny_insert g0 og) as [fresh og']. cbn [fst snd] in Hfresh, Hmem.
    destruct fresh; cbn [fst snd].
    + assert (Hnew : ~ In g0 og) by now apply Hfresh.
      split; [exact Hst|].
      split; [unfold set_group; cbn [groups_ with_groups GroupPool.set GroupPool.slots];
              now rewrite upd_length|].
      split; [|split].
      * intros g. rewrite Hmem, Hseen, Hog. unfold g0. split.
        -- intros [->|H]; [right; auto | now left].
        -- intros [H|[_ H]]; [now right | left; now symmetry].
      * intros g Hg. unfold group_at, set_group. cbn [groups_ with_groups].
        rewrite pool_get_set_other.
        -- apply Hout. intros H. apply Hg. apply Hmem. now right.
        -- intros ->. apply Hg. apply Hmem. now left.
      * intros g Hg Hlt. apply Hmem in Hg. unfold group_at, set_group.
        cbn [groups_ with_groups]. destruct (Nat.eq_dec g g0) as [->|Hne].
        -- rewrite pool_get_set_same by (rewrite Hl; exact Hlt).
           fold (group_at p g0). rewrite (Hout g0 Hnew). reflexivity.
        -- rewrite pool_get_set_other by (intros E; apply Hne; now symmetry).
           apply Hin; [|exact Hlt]. destruct Hg as [E|Hg]; [contradiction | exact Hg].
    + split; [exact Hst|]. split; [exact Hl|].
      assert (Hold : In g0 og).
      { destruct (in_dec Nat.eq_dec g0 og) as [H|H]; [exact H|].
        apply Hfresh in H. discriminate. }
      assert (Hsameog : forall g, In g og' <-> In g og).
      { intros g. rewrite Hmem. split; [intros [->|H]; assumption | now right]. }
      split; [|split].
      * intros g. rewrite Hsameog, Hseen, Hog. split; [now left|].
        intros [H|[_ H]]; [exact H|]. apply Hog. now rewrite <- H.
      * intros g Hg. apply Hout. intros H. apply Hg. now apply Hsameog.
      * intros g Hg. apply Hin. now apply Hsameog.
  - apply color_eqb_neq in Eo.
    assert (Hkeep : forall q bv',
              stones_ q = stones_ p -> groups_ q = groups_ p ->
              neighbors_counted (OtherColor rc) p0 (seen ++ [nc]) (q, bv', og)).
    { intros q bv' Hq1 Hq2. unfold neighbors_counted, group_at. cbn [fst snd].
      rewrite Hq1, Hq2. split; [exact Hst|]. split; [exact Hl|].
      split; [|split; [exact Hout | exact Hin]].
      intros g. rewrite Hseen, Hog. split; [now left|].
      intros [H|[H _]]; [exact H | contradiction]. }
    destruct (color_eqb (Stone.color (stone_at p0 nc)) rc); now apply Hkeep.
Qed.

Lemma RemoveGroup_neighbors_counted : forall ncs seen st,
  neighbors_counted (OtherColor rc) p0 seen st ->
  neighbors_counted (OtherColor rc) p0 (seen ++ ncs)
                    (fold_left (RemoveGroup_neighbor rc (OtherColor rc)) ncs st).
Proof.
  induction ncs as [|nc ncs IH]; intros seen st H; cbn [fold_left].
  - now rewrite app_nil_r.
  - replace (seen ++ nc :: ncs) with ((seen ++ [nc]) ++ ncs)
      by (rewrite <- app_assoc; reflexivity).
    apply IH. now apply RemoveGroup_neighbor_counted.
Qed.

End NeighborCounters.
Lemma bump_liberties_succ n g :
  bump_liberties (S n) g = bump_liberties 1 (bump_liberties n g).
Proof. reflexivity. Qed.

Section RemoveCounters.

Variable kN : nat.
Variable p0 : Position.
Variable rc : Color.
Variable c0 : Coord.
Hypothesis p0_consistent : groups_are_chains kN p0.
Hypothesis rc_stone : rc <> kEmpty.
Hypothesis c0_color : color_at p0 c0 = rc.

Lemma removal_step x rest popped p visited epoch :
  chain_inv kN p0 rc c0 popped p (BoardVisitor.mk (x :: rest) visited epoch) ->
  removal_counted kN p0 (id_at p0 c0) popped p ->
  removal_counted kN p0 (id_at p0 c0) (x :: popped)
    (fst (fst (fold_left (RemoveGroup_neighbor rc (OtherColor rc)) (GetNeighborCoords kN x)
                         (set_stone p x Stone.default,
                          BoardVisitor.mk rest visited epoch, [])))).
Proof.
  intros Hinv [Hlen Hcnt].
  pose proof (@chain_pop kN p0 rc c0 x rest popped p visited epoch Hinv)
    as [_ [_ [_ [_ [Hch [_ [Hpop [Hrest _]]]]]]]].
  cbn [BoardVisitor.stack_] in Hch.
  set (p1 := set_stone p x Stone.default) in *.
  assert (Hstart : neighbors_counted (OtherColor rc) p1 []
                     (p1, BoardVisitor.mk rest visited epoch, [])).
  { unfold neighbors_counted. cbn [fst snd].
    split; [reflexivity|]. split; [reflexivity|].
    split; [intros g; split; [intros [] | intros [n [[] _]]]|].
    split; [reflexivity | intros g []]. }
  pose proof (@RemoveGroup_neighbors_counted rc p1 (GetNeighborCoords kN x) [] _ Hstart)
    as Hfold.
  cbn [app] in Hfold.
  destruct (fold_left (RemoveGroup_neighbor rc (OtherColor rc)) (GetNeighborCoords kN x)
                      (p1, BoardVisitor.mk rest visited epoch, [])) as [[p2 bv2] og2].
  unfold neighbors_counted in Hfold. cbn [fst snd] in Hfold |- *.
  destruct Hfold as [_ [Hl2 [Hog [Hout Hin]]]].
  assert (Hg1 : forall g, group_at p1 g = group_at p g) by reflexivity.
  assert (Hl1 : length (GroupPool.slots (groups_ p1)) = length (GroupPool.slots (groups_ p)))
    by reflexivity.
  assert (Hxch : same_chain kN p0 rc c0 x).
  { apply Hch. apply in_or_app. right. now left. }
  split; [rewrite Hl2, Hl1; exact Hlen|].
  intros g Hg Hlt. cbn [filter].
  assert (Hiff : In g og2 <-> HasNeighboringGroup kN p0 x g = true).
  { rewrite Hog, HasNeighboringGroup_spec. split.
    - intros [n [Hn [Hk Hi]]]. exists n. split; [exact Hn|].
      assert (Hne : color_at p1 n <> kEmpty).
      { unfold color_at. rewrite Hk. now apply OtherColor_not_empty. }
      assert (Hnot : ~ In n (x :: popped)) by (intros H; apply Hpop in H; contradiction).
      pose proof (Hrest n Hnot) as E. unfold color_at, id_at in *. rewrite <- E.
      split; [exact Hne | exact Hi].
    - intros [n [Hn [Hk Hi]]]. exists n. split; [exact Hn|].
      assert (Hkn : color_at p0 n = OtherColor rc).
      { destruct (color_eqb (color_at p0 n) rc) eqn:E.
        - exfalso. apply color_eqb_eq in E. apply Hg. rewrite <- Hi.
          apply chain_same_group with (kN := kN); [exact p0_consistent | congruence|].
          rewrite c0_color. now apply chain_step with (x := x).
        - apply color_eqb_neq in E. destruct (color_at p0 n), rc; simpl; congruence. }
      assert (Hnot : ~ In n (x :: popped)).
      { intros H. assert (Hc : same_chain kN p0 rc c0 n).
        { apply Hch. apply in_or_app. now right. }
        apply chain_color in Hc; [|exact c0_color].
        rewrite Hkn in Hc. exact (OtherColor_neq rc_stone Hc). }
      pose proof (Hrest n Hnot) as E. rewrite E. split; [exact Hkn | exact Hi]. }
  destruct (HasNeighboringGroup kN p0 x g) eqn:Has.
  - cbn [length]. rewrite bump_liberties_succ.
    rewrite (Hin g (proj2 Hiff eq_refl)) by (rewrite Hl1, Hlen; exact Hlt).
    rewrite Hg1. now rewrite (Hcnt g Hg Hlt).
  - rewrite Hout.
    + rewrite Hg1. exact (Hcnt g Hg Hlt).
    + intros H. apply Hiff in H. discriminate.
Qed.

Lemma RemoveGroup_loop_counted id : forall fuel p bv popped p' bv',
  chain_inv kN p0 rc c0 popped p bv ->
  removal_counted kN p0 (id_at p0 c0) popped p ->
  RemoveGroup_loop kN fuel rc (OtherColor rc) id p bv = Ok (p', bv') ->
  exists popped',
    chain_inv kN p0 rc c0 popped' p' bv' /\ BoardVisitor.stack_ bv' = [] /\
    removal_counted kN p0 (id_at p0 c0) popped' p'.
Proof.
  induction fuel as [|fuel IH]; intros p bv popped p' bv' Hinv Hcnt H;
    cbn [RemoveGroup_loop] in H.
  - unfold BoardVisitor.Done in H.
    destruct (BoardVisitor.stack_ bv) eqn:Es; [|discriminate].
    inversion H; subst. exists popped. auto.
  - unfold BoardVisitor.Done in H.
    destruct (BoardVisitor.stack_ bv) as [|x rest] eqn:Es.
    { inversion H; subst. exists popped. auto. }
    unfold BoardVisitor.Next in H. rewrite Es in H. cbn [bind] in H.
    bind_inv H.
    destruct bv as [stack visited epoch]. cbn [BoardVisitor.stack_] in Es. subst stack.
    cbn [BoardVisitor.visited_ BoardVisitor.epoch_] in H.
    pose proof (@RemoveGroup_neighbors_chain kN p0 rc c0 rc_stone x popped
                  (GetNeighborCoords kN x) []
                  (set_stone p x Stone.default) (BoardVisitor.mk rest visited epoch) []
                  eq_refl (@chain_pop kN p0 rc c0 x rest popped p visited epoch Hinv)) as Hv.
    apply chain_counted in Hv.
    pose proof (removal_step Hinv Hcnt) as Hc2.
    destruct (fold_left (RemoveGroup_neighbor rc (OtherColor rc)) (GetNeighborCoords kN x)
                        (set_stone p x Stone.default, BoardVisitor.mk rest visited epoch, []))
      as [[p2 bv2] og2].
    cbn [fst snd] in Hv, Hc2. eapply IH; eassumption.
Qed.

End RemoveCounters.
Section RemoveExact.

Variable kN : nat.
Variable kMaxNumGroups : nat.
Hypothesis board_small : (Z.of_nat (kN * kN) < 65536)%Z.

Lemma RemoveGroup_exact p v c p' v' :
  groups_are_chains kN p -> counts_exact kN p ->
  visitor_fresh kN (board_visitor_ v) -> on_board kN c -> color_at p c <> kEmpty ->
  RemoveGroup kN kMaxNumGroups p v c = Ok (p', v') ->
  counts_exact kN p'.
Proof.
  intros Hwf Hex Hf Hc Hne H. unfold RemoveGroup in H. fold (color_at p c) in H.
  bind_inv H. bind_inv H. destruct a0 as [q bv]. inversion H; subst p' v'. clear H.
  destruct (@chain_inv_start kN p c _ a Hf Hm Hc) as [Hinv _].
  assert (Hstart : removal_counted kN p (id_at p c) [] p).
  { split; [reflexivity|]. intros g _ _. cbn [filter length].
    unfold bump_liberties. cbn [Nat.iter nat_rect]. now destruct (group_at p g). }
  destruct (@RemoveGroup_loop_counted kN p (color_at p c) c Hwf Hne eq_refl _ _ _ _ _ _ _
              Hinv Hstart Hm0)
    as [popped [[Hin0 [_ [_ [Hnd [Hch [_ [Hpop [Hrest Hcl]]]]]]]] [Hst' [Hlen Hcnt]]]].
  rewrite Hst' in *. cbn [app] in *.
  assert (Hall : forall x, same_chain kN p (color_at p c) c x -> In x popped).
  { intros x Hx. induction Hx as [|y nc Hy IH Hnc Hk]; [exact Hin0|].
    eapply Hcl; eassumption. }
  pose proof Hwf as [_ [_ [_ [W4 [_ W6]]]]].
  intros x Hx.
  assert (Hout : ~ In x popped) by (intros Hin; apply Hpop in Hin; contradiction).
  pose proof (Hrest x Hout) as Est.
  assert (Hxp : color_at p x <> kEmpty) by (unfold color_at in *; now rewrite <- Est).
  assert (Hxi : id_at q x = id_at p x) by (unfold id_at; now rewrite Est).
  rewrite Hxi.
  assert (Hg : id_at p x <> id_at p c).
  { intros E. apply Hout. apply Hall. apply W6; auto. }
  rewrite (Hcnt _ Hg (proj1 (W4 x Hxp))). rewrite (Hex x Hxp).
  destruct (@group_after_removal kN p q popped (id_at p x) Hnd) as [Hs Hl].
  - intros y Hy. pose proof (Hch y Hy) as Hc1.
    split; [now apply chain_on_board with (p := p) (k := color_at p c) (c := c)|].
    split.
    + rewrite (chain_color eq_refl Hc1). exact Hne.
    + rewrite (@chain_same_group kN p c y Hwf Hne Hc1). auto.
  - exact Hpop.
  - exact Hrest.
  - unfold bump_liberties. cbn [size num_liberties]. rewrite Hs. f_equal.
    pose proof (group_liberties_bound kN q (id_at p x)) as Hb.
    rewrite iter_bump_small by lia. lia.
Qed.

End RemoveExact.
Lemma counts_exact_ext kN p q :
  stones_ q = stones_ p -> groups_ q = groups_ p ->
  counts_exact kN p -> counts_exact kN q.
Proof.
  intros Hs Hg H x.
  assert (E1 : forall y, stone_at q y = stone_at p y).
  { intros y. unfold stone_at. now rewrite Hs. }
  assert (E2 : forall g, group_stones kN q g = group_stones kN p g).
  { intros g. unfold group_stones. apply filter_ext. intros y. now rewrite E1. }
  assert (E3 : forall g, group_liberties kN q g = group_liberties kN p g).
  { intros g. unfold group_liberties. apply filter_ext. intros y. rewrite E1.
    f_equal. unfold HasNeighboringGroup, stone_at. now rewrite Hs. }
  unfold color_at, id_at, group_at. rewrite E1, E2, E3, Hg. apply H.
Qed.

Lemma new_position_exact kN kMaxNumGroups komi to_play n :
  counts_exact kN (new_position kN kMaxNumGroups komi to_play n).
Proof.
  intros x Hx. exfalso. apply Hx.
  unfold color_at, stone_at, new_position. cbn [stones_].
  destruct (Nat.lt_ge_cases x (kN * kN)) as [H|H].
  - rewrite nth_repeat_lt by exact H. reflexivity.
  - rewrite nth_overflow by (rewrite repeat_length; exact H). reflexivity.
Qed.

Section MoveCounters.

Variable kN : nat.
Variable kMaxNumGroups : nat.
Hypothesis board_small : (Z.of_nat (kN * kN) < 65536)%Z.

Lemma remove_captured_exact color : forall captured p v p' v',
  groups_are_chains kN p -> counts_exact kN p ->
  (forall g nc, In (g, nc) captured ->
     on_board kN nc /\ color_at p nc <> kEmpty /\ id_at p nc = g) ->
  NoDup (map fst captured) ->
  BoardVisitor.Done (board_visitor_ v) = true -> sized kN (board_visitor_ v) ->
  tags_bounded (BoardVisitor.epoch_ (board_visitor_ v))
               (BoardVisitor.visited_ (board_visitor_ v)) ->
  (BoardVisitor.epoch_ (board_visitor_ v) + Z.of_nat (length captured) <= 255)%Z ->
  remove_captured kN kMaxNumGroups p v color captured = Ok (p', v') ->
  counts_exact kN p'.
Proof.
  induction captured as [|[g nc] rest IH]; intros p v p' v' Hwf Hex Hseeds Hnd Hd Hs Hb Hep H;
    cbn [remove_captured] in H.
  - inversion H; subst. exact Hex.
  - bind_inv H. destruct a as [q1 v1].
    match type of Hm with
    | RemoveGroup _ _ ?q _ _ = _ => set (q0 := q) in *
    end.
    assert (Hwf0 : groups_are_chains kN q0).
    { apply groups_are_chains_ext with (p := p);
        [reflexivity | reflexivity | reflexivity | exact Hwf]. }
    assert (Hex0 : counts_exact kN q0).
    { apply counts_exact_ext with (p := p); [reflexivity | reflexivity | exact Hex]. }
    assert (Hk0 : forall x, color_at q0 x = color_at p x) by reflexivity.
    assert (Hi0 : forall x, id_at q0 x = id_at p x) by reflexivity.
    destruct (Hseeds g nc (or_introl eq_refl)) as [Hnc [Hne Hid]].
    assert (Hf : visitor_fresh kN (board_visitor_ v)).
    { split; [exact Hd|]. split; [exact Hs|]. split; [exact Hb|].
      cbn [length] in Hep. lia. }
    assert (Hne0 : color_at q0 nc <> kEmpty) by (rewrite Hk0; exact Hne).
    pose proof (@RemoveGroup_consistent kN kMaxNumGroups q0 v nc q1 v1 Hwf0 Hf Hnc Hne0 Hm)
      as Hwf1.
    pose proof (@RemoveGroup_exact kN kMaxNumGroups board_small q0 v nc q1 v1
                  Hwf0 Hex0 Hf Hnc Hne0 Hm) as Hex1.
    destruct (@RemoveGroup_chain kN kMaxNumGroups q0 v nc q1 v1 Hf Hnc Hne0 Hm)
      as [[gone [_ [Hg [_ Hr]]]] [Hd1 [Hs1 [Hb1 He1]]]].
    apply (IH q1 v1 p' v' Hwf1 Hex1); try assumption.
    + intros g' nc' Hin. destruct (Hseeds g' nc' (or_intror Hin)) as [A [B C]].
      assert (Hout : ~ In nc' gone).
      { intros Hgone. apply Hg in Hgone.
        apply chain_same_group in Hgone; [|exact Hwf0 | exact Hne0].
        rewrite !Hi0 in Hgone.
        assert (Eg : g' = g) by congruence.
        cbn [map fst] in Hnd. apply NoDup_cons_iff in Hnd. apply (proj1 Hnd).
        rewrite <- Eg. apply (in_map fst) in Hin. exact Hin. }
      apply Hr in Hout. unfold color_at, id_at. rewrite Hout.
      split; [exact A|]. split; [exact B | exact C].
    + cbn [map] in Hnd. apply NoDup_cons_iff in Hnd. exact (proj2 Hnd).
    + rewrite He1. cbn [length] in Hep. lia.
Qed.

Lemma AddStoneToBoard_exact p v c color p' v' :
  groups_are_chains kN p -> counts_exact kN p ->
  color <> kEmpty -> on_board kN c -> color_at p c = kEmpty ->
  BoardVisitor.Done (board_visitor_ v) = true -> sized kN (board_visitor_ v) ->
  tags_bounded (BoardVisitor.epoch_ (board_visitor_ v))
               (BoardVisitor.visited_ (board_visitor_ v)) ->
  (BoardVisitor.epoch_ (board_visitor_ v) < 250)%Z ->
  AddStoneToBoard kN kMaxNumGroups p v c color = Ok (p', v') ->
  counts_exact kN p'.
Proof.
  intros Hwf Hex Hcol Hc Hempty Hd Hs Hb Hep H.
  pose proof (@AddStoneToBoard_had_room kN kMaxNumGroups p v c color p' v' Hcol H) as Hroom.
  unfold AddStoneToBoard in H.
  set (sc := scan_neighbors kN p c color) in *.
  destruct (@scan_neighbors_friends kN p color Hcol c) as [Hngs [Hnd [Hcnd [Hsl Hfr]]]].
  fold sc in Hngs, Hnd, Hcnd, Hsl, Hfr.
  destruct (@scan_neighbors_inv kN p color Hcol c) as [_ [_ [Hcap _]]]. fold sc in Hcap.
  set (pa := with_groups p (scan_groups sc)) in *.
  assert (Hwfa : groups_are_chains kN pa).
  { apply groups_are_chains_ext with (p := p);
      [reflexivity | exact Hfr | exact Hsl | exact Hwf]. }
  assert (Hf : visitor_fresh kN (board_visitor_ v)).
  { split; [exact Hd|]. split; [exact Hs|]. split; [exact Hb | lia]. }
  bind_inv H. destruct a as [pl v1]. bind_inv H. destruct a as [p2 v2].
  inversion H; subst p' v'. clear H.
  destruct (@place_stone_consistent kN pa v c color (liberties sc) (neighbor_groups sc))
    as [pl' [v1' [E1 [Hwfl Hkeep]]]]; try assumption.
  { destruct Hroom as [[n [Hn Hk]]|Hroom].
    - left. intros E. assert (Hin : In (id_at p n) (neighbor_groups sc)).
      { apply Hngs. now exists n. }
      rewrite E in Hin. exact Hin.
    - right. unfold pa. cbn [groups_ with_groups]. rewrite Hfr. exact Hroom. }
  rewrite Hm in E1. inversion E1; subst pl' v1'. clear E1.
  pose proof (@place_stone_exact kN board_small p c color Hwf Hex Hcol Hc Hempty v pl v1
                Hf Hm Hwfl) as Hexl.
  destruct (@place_stone_visitor kN pa v c color _ _ pl v1 Hf Hm) as [Hd1 [Hs1 [Hb1 He1]]].
  destruct (other_color_stone Hcol) as [Ho1 Ho2].
  pose proof (captured_at_most_four kN p c color) as H4. fold sc in H4.
  assert (Hex2 : counts_exact kN p2).
  { apply (@remove_captured_exact color (captured_groups sc) pl v1 p2 v2);
      try assumption; [|lia].
    intros g nc Hin. destruct (Hcap g nc Hin) as [Hn [Hk [Hi _]]].
    assert (Hkeepn : stone_at pl nc = stone_at p nc).
    { change (stone_at p nc) with (stone_at pa nc). apply Hkeep.
      - intros ->. unfold color_at in Hempty. congruence.
      - change (color_at pa nc) with (Stone.color (stone_at p nc)). congruence. }
    split; [now apply GetNeighborCoords_on_board with (c := c)|].
    unfold color_at, id_at. rewrite Hkeepn. split; [congruence | exact Hi]. }
  destruct (update_ko_fields kN p2 (captured_groups sc) (IsKoish kN p c) (OtherColor color))
    as [U1 U2].
  apply counts_exact_ext with (p := p2); assumption.
Qed.

Lemma PlayMove_exact p v c k p' v' :
  groups_are_chains kN p -> counts_exact kN p -> to_play_ p <> kEmpty ->
  BoardVisitor.Done (board_visitor_ v) = true -> sized kN (board_visitor_ v) ->
  tags_bounded (BoardVisitor.epoch_ (board_visitor_ v))
               (BoardVisitor.visited_ (board_visitor_ v)) ->
  (BoardVisitor.epoch_ (board_visitor_ v) < 250)%Z ->
  PlayMove kN kMaxNumGroups p v c k = Ok (p', v') ->
  counts_exact kN p'.
Proof.
  intros Hwf Hex Htp Hd Hs Hb Hep H.
  destruct (Nat.eq_dec c (kPass kN)) as [->|Hc].
  - unfold PlayMove in H. rewrite Nat.eqb_refl in H. inversion H; subst p' v'.
    apply counts_exact_ext with (p := p); [reflexivity | reflexivity | exact Hex].
  - assert (Hmv : mover p k <> kEmpty).
    { unfold mover. destruct (color_eqb k kEmpty) eqn:E; [exact Htp|].
      intros ->. discriminate. }
    destruct (@PlayMove_stone_inv kN kMaxNumGroups p v c k p' v' Hc H)
      as [Hlegal [r [Hadd ->]]].
    set (q := if color_eqb k kEmpty then p else with_to_play p k) in *.
    assert (Hwfq : groups_are_chains kN q).
    { apply groups_are_chains_ext with (p := p); try exact Hwf;
        unfold q; destruct (color_eqb k kEmpty); reflexivity. }
    assert (Hexq : counts_exact kN q).
    { apply counts_exact_ext with (p := p); try exact Hex;
        unfold q; destruct (color_eqb k kEmpty); reflexivity. }
    pose proof (@IsMoveLegal_on_board kN q c Hlegal Hc) as Hon.
    pose proof (@legal_point_empty kN q c Hc Hlegal) as Hempty.
    pose proof (@AddStoneToBoard_exact q v c (mover p k) r v' Hwfq Hexq Hmv Hon Hempty
                  Hd Hs Hb Hep Hadd) as Hexr.
    apply counts_exact_ext with (p := r); [reflexivity | reflexivity | exact Hexr].
Qed.

Lemma play_moves_exact : forall moves p v p' v',
  groups_are_chains kN p -> counts_exact kN p -> to_play_ p <> kEmpty ->
  BoardVisitor.Done (board_visitor_ v) = true -> sized kN (board_visitor_ v) ->
  tags_bounded (BoardVisitor.epoch_ (board_visitor_ v))
               (BoardVisitor.visited_ (board_visitor_ v)) ->
  (BoardVisitor.epoch_ (board_visitor_ v) + 5 * Z.of_nat (length moves) <= 250)%Z ->
  play_moves kN kMaxNumGroups p v moves = Ok (p', v') ->
  counts_exact kN p'.
Proof.
  induction moves as [|[c k] rest IH]; intros p v p' v' Hwf Hex Htp Hd Hs Hb Hep H;
    cbn [play_moves] in H.
  - inversion H; subst p' v'. exact Hex.
  - bind_inv H. destruct a as [q w]. cbn [length] in Hep.
    destruct (@PlayMove_consistent kN kMaxNumGroups p v c k q w Hwf Htp Hd Hs Hb
                ltac:(lia) Hm)
      as [Hwf1 [Htp1 [Hd1 [Hs1 [Hb1 He1]]]]].
    pose proof (@PlayMove_exact p v c k q w Hwf Hex Htp Hd Hs Hb ltac:(lia) Hm) as Hex1.
    apply (IH q w p' v' Hwf1 Hex1 Htp1 Hd1 Hs1 Hb1); [lia | exact H].
Qed.

End MoveCounters.


Lemma group_liberties_ext kN p q g :
  stones_ q = stones_ p -> group_liberties kN q g = group_liberties kN p g.
Proof.
  intros Hs. unfold group_liberties, HasNeighboringGroup, stone_at. now rewrite Hs.
Qed.

Section Survivors.

Variable kN : nat.
Variable kMaxNumGroups : nat.

(** The stones left by the removal of the captured groups are those of
    the other groups; they keep their identifiers and their groups lose no
    liberty. *)
Lemma remove_captured_survivors color : forall captured p v p' v',
  groups_are_chains kN p ->
  (forall g nc, In (g, nc) captured ->
     on_board kN nc /\ color_at p nc <> kEmpty /\ id_at p nc = g) ->
  NoDup (map fst captured) ->
  BoardVisitor.Done (board_visitor_ v) = true -> sized kN (board_visitor_ v) ->
  tags_bounded (BoardVisitor.epoch_ (board_visitor_ v))
               (BoardVisitor.visited_ (board_visitor_ v)) ->
  (BoardVisitor.epoch_ (board_visitor_ v) + Z.of_nat (length captured) <= 255)%Z ->
  remove_captured kN kMaxNumGroups p v color captured = Ok (p', v') ->
  (forall x, color_at p' x <> kEmpty ->
     stone_at p' x = stone_at p x /\
     length (group_liberties kN p (id_at p x))
       <= length (group_liberties kN p' (id_at p x))) /\
  (forall g nc, In (g, nc) captured ->
     forall x, color_at p' x <> kEmpty -> id_at p' x <> g) /\
  (forall x, (color_at p x = kEmpty \/
              forall g nc, In (g, nc) captured -> id_at p x <> g) ->
     stone_at p' x = stone_at p x).
Proof.
  induction captured as [|[g nc] rest IH]; intros p v p' v' Hwf Hseeds Hnd Hd Hs Hb Hep H;
    cbn [remove_captured] in H.
  - inversion H; subst. split; [|split].
    + intros x _. split; [reflexivity | apply Nat.le_refl].
    + intros g nc [].
    + reflexivity.
  - bind_inv H. destruct a as [q1 v1].
    match type of Hm with
    | RemoveGroup _ _ ?q _ _ = _ => set (q0 := q) in *
    end.
    assert (Hwf0 : groups_are_chains kN q0).
    { apply groups_are_chains_ext with (p := p);
        [reflexivity | reflexivity | reflexivity | exact Hwf]. }
    assert (Hst0 : forall x, stone_at q0 x = stone_at p x) by reflexivity.
    assert (Hk0 : forall x, color_at q0 x = color_at p x) by reflexivity.
    assert (Hi0 : forall x, id_at q0 x = id_at p x) by reflexivity.
    assert (HL0 : forall h, group_liberties kN q0 h = group_liberties kN p h).
    { intros h. now apply group_liberties_ext. }
    destruct (Hseeds g nc (or_introl eq_refl)) as [Hnc [Hne Hid]].
    assert (Hf : visitor_fresh kN (board_visitor_ v)).
    { split; [exact Hd|]. split; [exact Hs|]. split; [exact Hb|].
      cbn [length] in Hep. lia. }
    assert (Hne0 : color_at q0 nc <> kEmpty) by (rewrite Hk0; exact Hne).
    pose proof (@RemoveGroup_consistent kN kMaxNumGroups q0 v nc q1 v1 Hwf0 Hf Hnc Hne0 Hm)
      as Hwf1.
    destruct (@RemoveGroup_chain kN kMaxNumGroups q0 v nc q1 v1 Hf Hnc Hne0 Hm)
      as [[gone [Hgnd [Hg [Hge Hr]]]] [Hd1 [Hs1 [Hb1 He1]]]].
    pose proof Hwf0 as [_ [_ [_ [_ [_ V6]]]]].
    assert (Hgone_id : forall y, In y gone ->
              on_board kN y /\ color_at q0 y <> kEmpty /\ id_at q0 y = id_at q0 nc).
    { intros y Hy. apply Hg in Hy.
      split; [now apply chain_on_board with (p := q0) (k := color_at q0 nc) (c := nc)|].
      split; [rewrite (chain_color eq_refl Hy); exact Hne0|].
      now apply chain_same_group with (kN := kN). }
    assert (Hseeds1 : forall g' nc', In (g', nc') rest ->
              on_board kN nc' /\ color_at q1 nc' <> kEmpty /\ id_at q1 nc' = g').
    { intros g' nc' Hin. destruct (Hseeds g' nc' (or_intror Hin)) as [A [B C]].
      assert (Hout : ~ In nc' gone).
      { intros Hgone. apply Hgone_id in Hgone. destruct Hgone as [_ [_ Hgone]].
        rewrite !Hi0 in Hgone.
        assert (Eg : g' = g) by congruence.
        cbn [map fst] in Hnd. apply NoDup_cons_iff in Hnd. apply (proj1 Hnd).
        rewrite <- Eg. apply (in_map fst) in Hin. exact Hin. }
      apply Hr in Hout. unfold color_at, id_at. rewrite Hout.
      split; [exact A|]. split; [exact B | exact C]. }
    destruct (IH q1 v1 p' v' Hwf1 Hseeds1) as [R3 [R4 R5]]; try assumption.
    { cbn [map] in Hnd. apply NoDup_cons_iff in Hnd. exact (proj2 Hnd). }
    { rewrite He1. cbn [length] in Hep. lia. }
    assert (Hsurv : forall x, color_at q1 x <> kEmpty ->
              ~ In x gone /\ stone_at q1 x = stone_at p x).
    { intros x Hx. assert (Hout : ~ In x gone) by (intros Hin; apply Hge in Hin; contradiction).
      split; [exact Hout|]. rewrite (Hr x Hout). apply Hst0. }
    split; [|split].
    + intros x Hx. destruct (R3 x Hx) as [E1 Hle1].
      assert (Hx1 : color_at q1 x <> kEmpty) by (unfold color_at in *; now rewrite <- E1).
      destruct (Hsurv x Hx1) as [Hout E2].
      split; [now rewrite E1|].
      assert (Ei : id_at q1 x = id_at p x) by (unfold id_at; now rewrite E2).
      rewrite Ei in Hle1. eapply Nat.le_trans; [|exact Hle1].
      assert (Hxp : color_at q0 x <> kEmpty).
      { rewrite Hk0. unfold color_at in *. now rewrite <- E2. }
      destruct (@group_after_removal kN q0 q1 gone (id_at p x) Hgnd) as [_ Hl];
        [| exact Hge | exact Hr |].
      * intros y Hy. destruct (Hgone_id y Hy) as [A [B C]].
        split; [exact A|]. split; [exact B|]. rewrite C. intros E. apply Hout.
        apply Hg. apply V6; [exact Hne0 | exact Hxp|]. rewrite E. apply Hi0.
      * rewrite Hl, HL0. apply Nat.le_add_r.
    + intros g' nc' [E|Hin] x Hx; [|now apply (R4 g' nc' Hin)].
      inversion E; subst g' nc'. clear E.
      destruct (R3 x Hx) as [E1 _].
      assert (Hx1 : color_at q1 x <> kEmpty) by (unfold color_at in *; now rewrite <- E1).
      destruct (Hsurv x Hx1) as [Hout E2].
      intros Ei. apply Hout. apply Hg. apply V6.
      * exact Hne0.
      * rewrite Hk0. unfold color_at in *. now rewrite <- E2.
      * rewrite !Hi0, Hid. unfold id_at in *. now rewrite <- E2, <- E1.
    + intros x Hx.
      assert (Hout : ~ In x gone).
      { intros Hin. destruct (Hgone_id x Hin) as [_ [B C]].
        destruct Hx as [Hx|Hx]; [rewrite Hk0 in B; contradiction|].
        apply (Hx g nc (or_introl eq_refl)). rewrite <- Hid, <- !Hi0. exact C. }
      pose proof (Hr x Hout) as E2. rewrite Hst0 in E2.
      rewrite <- E2. apply R5.
      destruct Hx as [Hx|Hx]; [left | right].
      * unfold color_at in *. now rewrite E2.
      * intros g' nc' Hin. unfold id_at in *. rewrite E2. now apply (Hx g' nc'); right.
Qed.

End Survivors.
Lemma pick_other (c : Coord) (l : list Coord) :
  NoDup l -> 1 <= length l -> (exists a, In a l /\ a <> c) \/ l = [c].
Proof.
  intros Hnd Hlen. destruct l as [|a [|b rest]]; cbn [length] in Hlen; [lia| |].
  - destruct (Nat.eq_dec a c) as [->|Ha]; [now right|].
    left. exists a. split; [now left | exact Ha].
  - left. destruct (Nat.eq_dec a c) as [->|Ha].
    + exists b. split; [right; now left|]. intros ->.
      inversion Hnd as [|? ? Hnot _]; subst. apply Hnot. now left.
    + exists a. split; [now left | exact Ha].
Qed.

Section PlaceOthers.

Variable kN : nat.

Lemma place_stone_others pa v c color libs ngs pl v1 :
  groups_are_chains kN pa -> color_at pa c = kEmpty -> on_board kN c ->
  color <> kEmpty ->
  visitor_fresh kN (board_visitor_ v) ->
  (forall g, In g ngs <->
     exists n, In n (GetNeighborCoords kN c) /\ color_at pa n = color /\ id_at pa n = g) ->
  place_stone kN pa v c color libs ngs = Ok (pl, v1) ->
  forall x, x <> c ->
    stone_at pl x = stone_at pa x \/
    (color_at pl x <> kEmpty /\ id_at pl x = id_at pl c).
Proof.
  intros Hwf Hce Hc Hcol Hf Hngs H x Hx.
  pose proof Hwf as [W1 [_ [_ [W4 _]]]].
  assert (Hclt : c < length (stones_ pa)) by (rewrite W1; exact Hc).
  unfold place_stone in H. destruct ngs as [|id [|id2 others]].
  - bind_inv H. destruct a as [g pool]. inversion H; subst pl v1. left.
    unfold stone_at, set_stone. cbn [stones_ with_stones with_groups].
    now rewrite nth_upd_other by auto.
  - inversion H; subst pl v1. left.
    unfold stone_at, set_stone, set_group. cbn [stones_ with_stones with_groups].
    now rewrite nth_upd_other by auto.
  - bind_inv H. destruct a as [q w]. inversion H; subst pl v1. clear H.
    set (pm := set_stone pa c (Stone.mk color id)) in *.
    destruct (proj1 (Hngs id) (or_introl eq_refl)) as [nb [Hnb [Hknb Hinb]]].
    assert (Hnbs : color_at pa nb <> kEmpty) by congruence.
    assert (Hpmc : stone_at pm c = Stone.mk color id).
    { unfold pm, stone_at, set_stone. cbn [stones_ with_stones]. now rewrite nth_upd_same. }
    assert (Hpmcol : color_at pm c <> kEmpty).
    { unfold color_at. rewrite Hpmc. exact Hcol. }
    assert (Hpml : length (stones_ pm) = kN * kN).
    { unfold pm, set_stone. cbn [stones_ with_stones]. now rewrite upd_length. }
    assert (Hpmid : Stone.group_id (stone_at pm c) < length (GroupPool.slots (groups_ pm))).
    { rewrite Hpmc. cbn [Stone.group_id]. rewrite <- Hinb. apply (W4 nb Hnbs). }
    destruct (@MergeGroup_chain kN pm v c q w Hf Hc Hpmcol Hpml Hpmid Hm)
      as [[stones [libs' [_ [_ [Hst [_ [_ [Hqs [Hqr _]]]]]]]]] _].
    rewrite Hpmc in Hqs.
    assert (Hcin : In c stones) by (apply Hst; constructor).
    assert (Hpl : forall pool y, stone_at (with_groups q pool) y = stone_at q y)
      by reflexivity.
    unfold color_at, id_at. rewrite !Hpl.
    destruct (in_dec Nat.eq_dec x stones) as [Hin|Hout].
    + right. rewrite (Hqs x Hin), (Hqs c Hcin). split; [exact Hcol | reflexivity].
    + left. rewrite (Hqr x Hout). unfold pm, stone_at, set_stone.
      cbn [stones_ with_stones]. now rewrite nth_upd_other by auto.
Qed.

End PlaceOthers.
Section MoveAlive.

Variable kN : nat.
Variable kMaxNumGroups : nat.

Lemma AddStoneToBoard_alive p v c color p' v' :
  groups_are_chains kN p -> counts_exact kN p -> no_dead_group kN p ->
  color <> kEmpty -> on_board kN c -> color_at p c = kEmpty ->
  BoardVisitor.Done (board_visitor_ v) = true -> sized kN (board_visitor_ v) ->
  tags_bounded (BoardVisitor.epoch_ (board_visitor_ v))
               (BoardVisitor.visited_ (board_visitor_ v)) ->
  (BoardVisitor.epoch_ (board_visitor_ v) < 250)%Z ->
  IsMoveSuicidal kN p c color = false ->
  AddStoneToBoard kN kMaxNumGroups p v c color = Ok (p', v') ->
  no_dead_group kN p'.
Proof.
  intros Hwf Hex Halive Hcol Hc Hempty Hd Hs Hb Hep Hsui H.
  pose proof (@AddStoneToBoard_had_room kN kMaxNumGroups p v c color p' v' Hcol H) as Hroom.
  unfold AddStoneToBoard in H.
  set (sc := scan_neighbors kN p c color) in *.
  destruct (@scan_neighbors_friends kN p color Hcol c) as [Hngs [Hnd [Hcnd [Hsl Hfr]]]].
  fold sc in Hngs, Hnd, Hcnd, Hsl, Hfr.
  destruct (@scan_neighbors_inv kN p color Hcol c) as [Hopp [_ [Hcap Hcapt]]].
  fold sc in Hopp, Hcap, Hcapt.
  set (pa := with_groups p (scan_groups sc)) in *.
  assert (Hwfa : groups_are_chains kN pa).
  { apply groups_are_chains_ext with (p := p);
      [reflexivity | exact Hfr | exact Hsl | exact Hwf]. }
  assert (Hf : visitor_fresh kN (board_visitor_ v)).
  { split; [exact Hd|]. split; [exact Hs|]. split; [exact Hb | lia]. }
  bind_inv H. destruct a as [pl v1]. bind_inv H. destruct a as [p2 v2].
  inversion H; subst p' v'. clear H.
  destruct (@place_stone_consistent kN pa v c color (liberties sc) (neighbor_groups sc))
    as [pl' [v1' [E1 [Hwfl Hkeep]]]]; try assumption.
  { destruct Hroom as [[n [Hn Hk]]|Hroom].
    - left. intros E. assert (Hin : In (id_at p n) (neighbor_groups sc)).
      { apply Hngs. now exists n. }
      rewrite E in Hin. exact Hin.
    - right. unfold pa. cbn [groups_ with_groups]. rewrite Hfr. exact Hroom. }
  rewrite Hm in E1. inversion E1; subst pl' v1'. clear E1.
  pose proof Hwf as [W1 [_ [_ [_ [_ W6]]]]].
  assert (Hclt : c < length (stones_ pa)) by (cbn [stones_ with_groups pa]; rewrite W1; exact Hc).
  destruct (@place_stone_colors kN pa v c color _ _ pl v1 Hclt Hm) as [_ [Hkc Hko]].
  change (forall x, x <> c -> color_at pl x = color_at p x) in Hko.
  change (forall x, x <> c -> color_at p x <> color -> stone_at pl x = stone_at p x)
    in Hkeep.
  pose proof (@place_stone_others kN pa v c color _ _ pl v1 Hwfa Hempty Hc Hcol Hf Hngs Hm)
    as Hoth.
  change (forall x, x <> c ->
            stone_at pl x = stone_at p x \/
            (color_at pl x <> kEmpty /\ id_at pl x = id_at pl c)) in Hoth.
  destruct (@place_stone_visitor kN pa v c color _ _ pl v1 Hf Hm) as [Hd1 [Hs1 [Hb1 He1]]].
  destruct (other_color_stone Hcol) as [Ho1 Ho2].
  pose proof (captured_at_most_four kN p c color) as H4. fold sc in H4.
  assert (Hseeds : forall g nc, In (g, nc) (captured_groups sc) ->
            on_board kN nc /\ color_at pl nc <> kEmpty /\ id_at pl nc = g).
  { intros g nc Hin. destruct (Hcap g nc Hin) as [Hn [Hk [Hi _]]].
    assert (Hkeepn : stone_at pl nc = stone_at p nc).
    { apply Hkeep.
      - intros ->. unfold color_at in Hempty. congruence.
      - unfold color_at. congruence. }
    split; [now apply GetNeighborCoords_on_board with (c := c)|].
    unfold color_at, id_at. rewrite Hkeepn. split; [congruence | exact Hi]. }
  destruct (@remove_captured_survivors kN kMaxNumGroups color (captured_groups sc)
              pl v1 p2 v2 Hwfl Hseeds Hcnd Hd1 Hs1 Hb1 ltac:(lia) Hm0) as [R3 [R4 R5]].
  destruct (update_ko_fields kN p2 (captured_groups sc) (IsKoish kN p c) (OtherColor color))
    as [U1 _].
  set (p3 := update_ko kN p2 (captured_groups sc) (IsKoish kN p c) (OtherColor color)) in *.
  assert (E3 : forall y, stone_at p3 y = stone_at p2 y).
  { intros y. unfold stone_at. now rewrite U1. }
  (* the color of a captured seed *)
  assert (Hseedk : forall g nc, In (g, nc) (captured_groups sc) ->
            color_at pl nc = OtherColor color).
  { intros g nc Hin. destruct (Hcap g nc Hin) as [_ [Hk _]].
    rewrite Hko; [exact Hk|]. intros ->. unfold color_at in Hempty. congruence. }
  assert (Hplc : color_at pl c <> kEmpty) by congruence.
  (* the stones of the mover stay *)
  assert (Hfriend : forall m, color_at pl m = color -> stone_at p2 m = stone_at pl m).
  { intros m Hm1. apply R5. right. intros g nc Hin Ei.
    destruct (Hseeds g nc Hin) as [_ [Hnk Hni]].
    assert (Hsame : color_at pl nc = color_at pl m).
    { apply group_color with (kN := kN); [exact Hwfl | congruence | exact Hnk | congruence]. }
    rewrite (Hseedk g nc Hin), Hm1 in Hsame. exact (Ho2 Hsame). }
  (* an empty point other than [c] stays empty *)
  assert (Hfree : forall l, l <> c -> color_at p l = kEmpty -> color_at p2 l = kEmpty).
  { intros l Hl Hle. destruct (color_eqb (color_at p2 l) kEmpty) eqn:E.
    - now apply color_eqb_eq.
    - apply color_eqb_neq in E. destruct (R3 l E) as [E1 _].
      exfalso. apply E. unfold color_at. rewrite E1.
      fold (color_at pl l). rewrite (Hko l Hl). exact Hle. }
  (* chains of the mover's color are chains after the stone is placed *)
  assert (Hchain : forall a b, same_chain kN p color a b -> same_chain kN pl color a b).
  { intros a b. apply chain_agree. intros y Hy. rewrite Hko; [exact Hy|].
    intros ->. congruence. }
  (* a stone of the mover's color next to [c] is in the group of [c] *)
  assert (Hjoin : forall n m, In n (GetNeighborCoords kN c) -> color_at p n = color ->
            color_at p m <> kEmpty -> id_at p m = id_at p n ->
            color_at pl m = color /\ id_at pl m = id_at pl c).
  { intros n m Hn Hkn Hkm Him.
    assert (Hns : color_at p n <> kEmpty) by congruence.
    assert (Hmk : color_at p m = color).
    { rewrite <- Hkn. apply group_color with (kN := kN); auto. }
    assert (Hmc : m <> c) by (intros ->; congruence).
    split; [rewrite Hko; assumption|].
    apply chain_same_group with (kN := kN); [exact Hwfl | exact Hplc|].
    rewrite Hkc. apply chain_trans with (b := n).
    - apply chain_step with (x := c); [constructor | exact Hn|].
      rewrite Hko; [exact Hkn|]. intros ->. congruence.
    - apply Hchain. rewrite <- Hkn. apply W6; auto. }
  (* a captured group leaves no stone *)
  assert (Hcaptured : forall x, color_at p x = OtherColor color ->
            In (id_at p x) (opponent_groups sc) ->
            num_liberties (group_at p (id_at p x)) = 1%Z ->
            color_at p2 x = kEmpty).
  { intros x Hkx Hin Hone.
    destruct (Hcapt (id_at p x) Hin) as [z Hz]; [rewrite Hone; reflexivity|].
    destruct (color_eqb (color_at p2 x) kEmpty) eqn:E; [now apply color_eqb_eq|].
    apply color_eqb_neq in E. exfalso. apply (R4 _ _ Hz x E).
    destruct (R3 x E) as [E1 _]. unfold id_at. rewrite E1.
    rewrite Hkeep; [reflexivity | intros ->; congruence | congruence]. }
  intros x Hx.
  assert (Hx2 : color_at p2 x <> kEmpty) by (unfold color_at in *; now rewrite <- E3).
  assert (Ei3 : id_at p3 x = id_at p2 x) by (unfold id_at; now rewrite E3).
  rewrite Ei3. rewrite (@group_liberties_ext kN p2 p3 _ U1).
  destruct (R3 x Hx2) as [Est Hmono].
  assert (Hxl : color_at pl x <> kEmpty) by (unfold color_at in *; now rewrite <- Est).
  assert (Ei2 : id_at p2 x = id_at pl x) by (unfold id_at; now rewrite Est).
  rewrite Ei2.
  destruct (Nat.eq_dec (id_at pl x) (id_at pl c)) as [Hown|Hother].
  - (* the group of the new stone *)
    rewrite Hown.
    assert (Hc2 : stone_at p2 c = stone_at pl c) by (apply Hfriend; exact Hkc).
    assert (Hwit : exists l, In l (group_liberties kN p2 (id_at pl c))).
    { apply (IsMoveSuicidal_false kN p c Hcol) in Hsui.
      destruct Hsui as [nc [Hn Hcases]]. cbn zeta in Hcases.
      fold (color_at p nc) in Hcases. fold (id_at p nc) in Hcases.
      assert (Hncc : nc <> c) by (intros ->; exact (neighbor_not_self _ _ Hn)).
      assert (Hnb : on_board kN nc) by now apply GetNeighborCoords_on_board with (c := c).
      assert (Hcl : In c (GetNeighborCoords kN nc) /\ color_at p2 c <> kEmpty /\
                    id_at p2 c = id_at pl c).
      { split; [now apply neighbors_symmetric|].
        unfold color_at, id_at. rewrite Hc2. split; [exact Hplc | reflexivity]. }
      destruct Hcases as [He|[[Hk Hone]|[Hk Hmore]]].
      - exists nc. apply In_group_liberties. split; [exact Hnb|].
        split; [now apply Hfree|]. exists c. exact Hcl.
      - exists nc. apply In_group_liberties. split; [exact Hnb|].
        split; [|exists c; exact Hcl].
        apply Hcaptured; [exact Hk | | exact Hone].
        apply Hopp. exists nc. split; [exact Hn|]. split; [exact Hk | reflexivity].
      - assert (Hns : color_at p nc <> kEmpty) by congruence.
        pose proof (Hex nc Hns) as Hrec. rewrite Hrec in Hmore. cbn [num_liberties] in Hmore.
        destruct (@pick_other c (group_liberties kN p (id_at p nc))
                    (group_liberties_NoDup kN p _) ltac:(lia)) as [[l [Hl Hlc]]|El];
          [|rewrite El in Hmore; cbn [length] in Hmore; lia].
        apply In_group_liberties in Hl. destruct Hl as [Hlb [Hle [m [Hml [Hmk Hmi]]]]].
        destruct (Hjoin nc m Hn Hk Hmk Hmi) as [Hmk' Hmi'].
        exists l. apply In_group_liberties. split; [exact Hlb|].
        split; [now apply Hfree|]. exists m. split; [exact Hml|].
        unfold color_at, id_at. rewrite (Hfriend m Hmk').
        split; [fold (color_at pl m); congruence | exact Hmi']. }
    destruct Hwit as [l Hl].
    destruct (group_liberties kN p2 (id_at pl c)); [destruct Hl | cbn [length]; lia].
  - (* another group *)
    eapply Nat.le_trans; [|exact Hmono].
    assert (Hxc : x <> c) by (intros ->; contradiction).
    destruct (Hoth x Hxc) as [Estp|[_ E]]; [|contradiction].
    assert (Hxp : color_at p x <> kEmpty) by (unfold color_at in *; now rewrite <- Estp).
    assert (Eip : id_at pl x = id_at p x) by (unfold id_at; now rewrite Estp).
    rewrite Eip.
    assert (Hsame : forall m, color_at p m <> kEmpty -> id_at p m = id_at p x ->
              stone_at pl m = stone_at p m).
    { intros m Hmk Hmi.
      assert (Hmc : m <> c) by (intros ->; congruence).
      destruct (Hoth m Hmc) as [E|[Hmk' Hmi']]; [exact E|].
      exfalso. apply Hother. rewrite <- Hmi'.
      assert (Hkm : color_at pl m = color_at p m) by now apply Hko.
      assert (Hch : same_chain kN pl (color_at pl m) m x).
      { rewrite Hkm. apply chain_agree with (p := p).
        - intros y Hy. rewrite Hko; [exact Hy|]. intros ->. congruence.
        - apply W6; auto. }
      now apply chain_same_group with (kN := kN). }
    destruct (@pick_other c (group_liberties kN p (id_at p x))
                (group_liberties_NoDup kN p _) (Halive x Hxp)) as [[l [Hl Hlc]]|El].
    + apply In_group_liberties in Hl. destruct Hl as [Hlb [Hle [m [Hml [Hmk Hmi]]]]].
      assert (Hin : In l (group_liberties kN pl (id_at p x))).
      { apply In_group_liberties. split; [exact Hlb|].
        split; [rewrite Hko; assumption|]. exists m. split; [exact Hml|].
        unfold color_at, id_at. rewrite (Hsame m Hmk Hmi). split; assumption. }
      destruct (group_liberties kN pl (id_at p x)); [destruct Hin | cbn [length]; lia].
    + exfalso.
      assert (Hcl : In c (group_liberties kN p (id_at p x))) by (rewrite El; now left).
      apply In_group_liberties in Hcl. destruct Hcl as [_ [_ [n [Hn [Hnk Hni]]]]].
      assert (Hkn : color_at p n = color_at p x).
      { apply group_color with (kN := kN); auto. }
      destruct (@stone_colors p color Hcol x Hxp) as [Hk|Hk].
      * apply Hother.
        destruct (Hjoin n x Hn ltac:(congruence) Hxp (eq_sym Hni)) as [_ E].
        exact E.
      * assert (Hone : num_liberties (group_at p (id_at p x)) = 1%Z).
        { rewrite (Hex x Hxp). cbn [num_liberties]. rewrite El. reflexivity. }
        assert (Hin : In (id_at p x) (opponent_groups sc)).
        { apply Hopp. exists n. split; [exact Hn|]. split; [|exact Hni].
          fold (color_at p n). congruence. }
        apply Hx2. now apply Hcaptured.
Qed.

End MoveAlive.
Lemma no_dead_group_ext kN p q :
  stones_ q = stones_ p -> no_dead_group kN p -> no_dead_group kN q.
Proof.
  intros Hs H x. rewrite (@group_liberties_ext kN p q _ Hs).
  unfold color_at, id_at, stone_at. rewrite Hs. apply H.
Qed.

Lemma new_position_alive kN kMaxNumGroups komi to_play n :
  no_dead_group kN (new_position kN kMaxNumGroups komi to_play n).
Proof.
  intros x Hx. exfalso. apply Hx.
  unfold color_at, stone_at, new_position. cbn [stones_].
  destruct (Nat.lt_ge_cases x (kN * kN)) as [H|H].
  - rewrite nth_repeat_lt by exact H. reflexivity.
  - rewrite nth_overflow by (rewrite repeat_length; exact H). reflexivity.
Qed.

Lemma legal_not_suicidal kN p c :
  c <> kPass kN -> IsMoveLegal kN p c = true ->
  IsMoveSuicidal kN p c (to_play_ p) = false.
Proof.
  intros Hc H. unfold IsMoveLegal in H. apply Nat.eqb_neq in Hc. rewrite Hc in H.
  destruct (negb (Stone.empty (stone_at p c))); [discriminate|].
  destruct (c =? ko_ p); [discriminate|].
  destruct (IsMoveSuicidal kN p c (to_play_ p)); [discriminate | reflexivity].
Qed.

Section GameAlive.

Variable kN : nat.
Variable kMaxNumGroups : nat.
Hypothesis board_small : (Z.of_nat (kN * kN) < 65536)%Z.

Lemma PlayMove_alive p v c k p' v' :
  groups_are_chains kN p -> counts_exact kN p -> no_dead_group kN p ->
  to_play_ p <> kEmpty ->
  BoardVisitor.Done (board_visitor_ v) = true -> sized kN (board_visitor_ v) ->
  tags_bounded (BoardVisitor.epoch_ (board_visitor_ v))
               (BoardVisitor.visited_ (board_visitor_ v)) ->
  (BoardVisitor.epoch_ (board_visitor_ v) < 250)%Z ->
  PlayMove kN kMaxNumGroups p v c k = Ok (p', v') ->
  no_dead_group kN p'.
Proof.
  intros Hwf Hex Hal Htp Hd Hs Hb Hep H.
  destruct (Nat.eq_dec c (kPass kN)) as [->|Hc].
  - unfold PlayMove in H. rewrite Nat.eqb_refl in H. inversion H; subst p' v'.
    apply no_dead_group_ext with (p := p); [reflexivity | exact Hal].
  - assert (Hmv : mover p k <> kEmpty).
    { unfold mover. destruct (color_eqb k kEmpty) eqn:E; [exact Htp|].
      intros ->. discriminate. }
    destruct (@PlayMove_stone_inv kN kMaxNumGroups p v c k p' v' Hc H)
      as [Hlegal [r [Hadd ->]]].
    set (q := if color_eqb k kEmpty then p else with_to_play p k) in *.
    assert (Hq : stones_ q = stones_ p /\ groups_ q = groups_ p /\ to_play_ q = mover p k).
    { unfold q, mover. destruct (color_eqb k kEmpty); auto. }
    destruct Hq as [Hq1 [Hq2 Hq3]].
    assert (Hwfq : groups_are_chains kN q).
    { apply groups_are_chains_ext with (p := p); try exact Hwf; now rewrite ?Hq2. }
    assert (Hexq : counts_exact kN q).
    { apply counts_exact_ext with (p := p); assumption. }
    assert (Halq : no_dead_group kN q).
    { apply no_dead_group_ext with (p := p); assumption. }
    pose proof (@IsMoveLegal_on_board kN q c Hlegal Hc) as Hon.
    pose proof (@legal_point_empty kN q c Hc Hlegal) as Hempty.
    pose proof (@legal_not_suicidal kN q c Hc Hlegal) as Hsui. rewrite Hq3 in Hsui.
    pose proof (@AddStoneToBoard_alive kN kMaxNumGroups q v c (mover p k) r v'
                  Hwfq Hexq Halq Hmv Hon Hempty Hd Hs Hb Hep Hsui Hadd) as Halr.
    apply no_dead_group_ext with (p := r); [reflexivity | exact Halr].
Qed.

Lemma play_moves_alive : forall moves p v p' v',
  groups_are_chains kN p -> counts_exact kN p -> no_dead_group kN p ->
  to_play_ p <> kEmpty ->
  BoardVisitor.Done (board_visitor_ v) = true -> sized kN (board_visitor_ v) ->
  tags_bounded (BoardVisitor.epoch_ (board_visitor_ v))
               (BoardVisitor.visited_ (board_visitor_ v)) ->
  (BoardVisitor.epoch_ (board_visitor_ v) + 5 * Z.of_nat (length moves) <= 250)%Z ->
  play_moves kN kMaxNumGroups p v moves = Ok (p', v') ->
  groups_are_chains kN p' /\ counts_exact kN p' /\ no_dead_group kN p'.
Proof.
  induction moves as [|[c k] rest IH]; intros p v p' v' Hwf Hex Hal Htp Hd Hs Hb Hep H;
    cbn [play_moves] in H.
  - inversion H; subst p' v'. auto.
  - bind_inv H. destruct a as [q w]. cbn [length] in Hep.
    destruct (@PlayMove_consistent kN kMaxNumGroups p v c k q w Hwf Htp Hd Hs Hb
                ltac:(lia) Hm)
      as [Hwf1 [Htp1 [Hd1 [Hs1 [Hb1 He1]]]]].
    pose proof (@PlayMove_exact kN kMaxNumGroups board_small p v c k q w
                  Hwf Hex Htp Hd Hs Hb ltac:(lia) Hm) as Hex1.
    pose proof (@PlayMove_alive p v c k q w Hwf Hex Hal Htp Hd Hs Hb ltac:(lia) Hm) as Hal1.
    apply (IH q w p' v' Hwf1 Hex1 Hal1 Htp1 Hd1 Hs1 Hb1); [lia | exact H].
Qed.

End GameAlive.



Lemma In_stones_on_board kN p x :
  In x (filter (fun x => negb (Stone.empty (stone_at p x))) (seq 0 (kN * kN))) <->
  on_board kN x /\ color_at p x <> kEmpty.
Proof.
  rewrite filter_In, in_seq, negb_true_iff. unfold Stone.empty. fold (color_at p x).
  rewrite color_eqb_neq. unfold on_board. intuition lia.
Qed.

Lemma stones_on_board_ext kN p q :
  stones_ q = stones_ p -> stones_on_board kN q = stones_on_board kN p.
Proof. intros H. unfold stones_on_board, stone_at. now rewrite H. Qed.

Section CapturesKept.

Variable kN : nat.
Variable kMaxNumGroups : nat.

Lemma MergeGroup_loop_captures s opp : forall fuel p bv p' bv',
  MergeGroup_loop kN fuel s opp p bv = Ok (p', bv') ->
  num_captures_ p' = num_captures_ p.
Proof.
  induction fuel as [|fuel IH]; intros p bv p' bv' H; cbn [MergeGroup_loop] in H.
  - destruct (BoardVisitor.Done bv); [|discriminate]. now inversion H.
  - destruct (BoardVisitor.Done bv); [now inversion H|].
    bind_inv H. destruct a as [x bv1].
    destruct (color_eqb _ kEmpty).
    + apply IH in H. rewrite H. reflexivity.
    + bind_inv H. apply IH in H. rewrite H. reflexivity.
Qed.

Lemma MergeGroup_captures p v c p' v' :
  MergeGroup kN p v c = Ok (p', v') -> num_captures_ p' = num_captures_ p.
Proof.
  unfold MergeGroup. intros H. bind_inv H. bind_inv H. destruct a0 as [q bv].
  inversion H; subst. apply MergeGroup_loop_captures in Hm0. rewrite Hm0. reflexivity.
Qed.

Lemma place_stone_captures p v c color libs ngs p' v' :
  place_stone kN p v c color libs ngs = Ok (p', v') ->
  num_captures_ p' = num_captures_ p.
Proof.
  intros H. unfold place_stone in H. destruct ngs as [|id [|id2 others]].
  - bind_inv H. destruct a as [g pool]. now inversion H.
  - now inversion H.
  - bind_inv H. destruct a as [q w]. inversion H; subst.
    apply MergeGroup_captures in Hm. cbn [num_captures_ with_groups]. rewrite Hm.
    reflexivity.
Qed.

Lemma RemoveGroup_neighbors_captures rc oc : forall ncs p bv og,
  num_captures_ (fst (fst (fold_left (RemoveGroup_neighbor rc oc) ncs (p, bv, og))))
    = num_captures_ p.
Proof.
  induction ncs as [|nc ncs IH]; intros p bv og; cbn [fold_left]; [reflexivity|].
  unfold RemoveGroup_neighbor at 2.
  destruct (color_eqb (Stone.color (stone_at p nc)) oc).
  - destruct (tiny_insert (Stone.group_id (stone_at p nc)) og) as [fresh og'].
    destruct fresh; rewrite IH; reflexivity.
  - destruct (color_eqb (Stone.color (stone_at p nc)) rc); rewrite IH; reflexivity.
Qed.

Lemma RemoveGroup_loop_captures rc oc id : forall fuel p bv p' bv',
  RemoveGroup_loop kN fuel rc oc id p bv = Ok (p', bv') ->
  num_captures_ p' = num_captures_ p.
Proof.
  induction fuel as [|fuel IH]; intros p bv p' bv' H; cbn [RemoveGroup_loop] in H.
  - destruct (BoardVisitor.Done bv); [|discriminate]. now inversion H.
  - destruct (BoardVisitor.Done bv); [now inversion H|].
    bind_inv H. destruct a as [x bv1]. bind_inv H.
    pose proof (RemoveGroup_neighbors_captures rc oc (GetNeighborCoords kN x)
                  (set_stone p x Stone.default) bv1 []) as Hn.
    destruct (fold_left (RemoveGroup_neighbor rc oc) (GetNeighborCoords kN x)
                        (set_stone p x Stone.default, bv1, [])) as [[p2 bv2] og2].
    cbn [fst] in Hn. apply IH in H. rewrite H, Hn. reflexivity.
Qed.

Lemma RemoveGroup_captures p v c p' v' :
  RemoveGroup kN kMaxNumGroups p v c = Ok (p', v') ->
  num_captures_ p' = num_captures_ p.
Proof.
  unfold RemoveGroup. intros H. bind_inv H. bind_inv H. destruct a0 as [q bv].
  inversion H; subst. now apply RemoveGroup_loop_captures in Hm0.
Qed.

End CapturesKept.
Section Conservation.

Variable kN : nat.
Variable kMaxNumGroups : nat.
Hypothesis board_small : (Z.of_nat (kN * kN) < 65536)%Z.

(** [RemoveGroup] takes off as many stones as the record of the group
    says. *)
Lemma RemoveGroup_count p v c p' v' :
  groups_are_chains kN p -> counts_exact kN p ->
  visitor_fresh kN (board_visitor_ v) -> on_board kN c -> color_at p c <> kEmpty ->
  RemoveGroup kN kMaxNumGroups p v c = Ok (p', v') ->
  (Z.of_nat (stones_on_board kN p') + size (group_at p (id_at p c))
   = Z.of_nat (stones_on_board kN p))%Z.
Proof.
  intros Hwf Hex Hf Hc Hne H.
  destruct (@RemoveGroup_chain kN kMaxNumGroups p v c p' v' Hf Hc Hne H)
    as [[gone [Hgnd [Hg [Hge Hr]]]] _].
  pose proof Hwf as [_ [_ [_ [_ [_ W6]]]]].
  rewrite (Hex c Hne). cbn [size].
  assert (Hsize : length (group_stones kN p (id_at p c)) = length gone).
  { apply same_members_length; [apply group_stones_NoDup | exact Hgnd|].
    intros x. rewrite In_group_stones, Hg. split.
    - intros [_ [A B]]. apply W6; auto.
    - intros Hch.
      split; [now apply chain_on_board with (p := p) (k := color_at p c) (c := c)|].
      split; [rewrite (chain_color eq_refl Hch); exact Hne|].
      now apply chain_same_group with (kN := kN). }
  assert (Hcount : stones_on_board kN p = stones_on_board kN p' + length gone).
  { unfold stones_on_board. rewrite <- length_app.
    apply same_members_length.
    - apply NoDup_filter, seq_NoDup.
    - apply NoDup_app; [apply NoDup_filter, seq_NoDup | exact Hgnd|].
      intros x Hx Hin. apply In_stones_on_board in Hx. apply Hge in Hin. tauto.
    - intros x. rewrite in_app_iff, !In_stones_on_board. split.
      + intros [A B]. destruct (in_dec Nat.eq_dec x gone) as [Hin|Hout]; [now right|].
        left. split; [exact A|]. unfold color_at in *. now rewrite (Hr x Hout).
      + intros [[A B]|Hin].
        * split; [exact A|].
          assert (Hout : ~ In x gone) by (intros Hin; apply Hge in Hin; contradiction).
          unfold color_at in *. now rewrite <- (Hr x Hout).
        * apply Hg in Hin.
          split; [now apply chain_on_board with (p := p) (k := color_at p c) (c := c)|].
          rewrite (chain_color eq_refl Hin). exact Hne. }
  lia.
Qed.

Lemma remove_captured_conserves color : forall captured p v p' v',
  groups_are_chains kN p -> counts_exact kN p ->
  (forall g nc, In (g, nc) captured ->
     on_board kN nc /\ color_at p nc <> kEmpty /\ id_at p nc = g) ->
  NoDup (map fst captured) ->
  BoardVisitor.Done (board_visitor_ v) = true -> sized kN (board_visitor_ v) ->
  tags_bounded (BoardVisitor.epoch_ (board_visitor_ v))
               (BoardVisitor.visited_ (board_visitor_ v)) ->
  (BoardVisitor.epoch_ (board_visitor_ v) + Z.of_nat (length captured) <= 255)%Z ->
  remove_captured kN kMaxNumGroups p v color captured = Ok (p', v') ->
  (Z.of_nat (stones_on_board kN p') + total_captures p'
   = Z.of_nat (stones_on_board kN p) + total_captures p)%Z.
Proof.
  induction captured as [|[g nc] rest IH]; intros p v p' v' Hwf Hex Hseeds Hnd Hd Hs Hb Hep H;
    cbn [remove_captured] in H.
  - inversion H; subst. reflexivity.
  - bind_inv H. destruct a as [q1 v1].
    match type of Hm with
    | RemoveGroup _ _ ?q _ _ = _ => set (q0 := q) in *
    end.
    assert (Hwf0 : groups_are_chains kN q0).
    { apply groups_are_chains_ext with (p := p);
        [reflexivity | reflexivity | reflexivity | exact Hwf]. }
    assert (Hex0 : counts_exact kN q0).
    { apply counts_exact_ext with (p := p); [reflexivity | reflexivity | exact Hex]. }
    assert (Hk0 : forall x, color_at q0 x = color_at p x) by reflexivity.
    assert (Hi0 : forall x, id_at q0 x = id_at p x) by reflexivity.
    destruct (Hseeds g nc (or_introl eq_refl)) as [Hnc [Hne Hid]].
    assert (Hf : visitor_fresh kN (board_visitor_ v)).
    { split; [exact Hd|]. split; [exact Hs|]. split; [exact Hb|].
      cbn [length] in Hep. lia. }
    assert (Hne0 : color_at q0 nc <> kEmpty) by (rewrite Hk0; exact Hne).
    pose proof (@RemoveGroup_consistent kN kMaxNumGroups q0 v nc q1 v1 Hwf0 Hf Hnc Hne0 Hm)
      as Hwf1.
    pose proof (@RemoveGroup_exact kN kMaxNumGroups board_small q0 v nc q1 v1
                  Hwf0 Hex0 Hf Hnc Hne0 Hm) as Hex1.
    pose proof (@RemoveGroup_count q0 v nc q1 v1 Hwf0 Hex0 Hf Hnc Hne0 Hm) as Hcount.
    pose proof (@RemoveGroup_captures kN kMaxNumGroups q0 v nc q1 v1 Hm) as Hcap.
    destruct (@RemoveGroup_chain kN kMaxNumGroups q0 v nc q1 v1 Hf Hnc Hne0 Hm)
      as [[gone [_ [Hg [_ Hr]]]] [Hd1 [Hs1 [Hb1 He1]]]].
    assert (Hrest : (Z.of_nat (stones_on_board kN p') + total_captures p'
                     = Z.of_nat (stones_on_board kN q1) + total_captures q1)%Z).
    { apply (IH q1 v1 p' v' Hwf1 Hex1); try assumption.
      - intros g' nc' Hin. destruct (Hseeds g' nc' (or_intror Hin)) as [A [B C]].
        assert (Hout : ~ In nc' gone).
        { intros Hgone. apply Hg in Hgone.
          apply chain_same_group in Hgone; [|exact Hwf0 | exact Hne0].
          rewrite !Hi0 in Hgone.
          assert (Eg : g' = g) by congruence.
          cbn [map fst] in Hnd. apply NoDup_cons_iff in Hnd. apply (proj1 Hnd).
          rewrite <- Eg. apply (in_map fst) in Hin. exact Hin. }
        apply Hr in Hout. unfold color_at, id_at. rewrite Hout.
        split; [exact A|]. split; [exact B | exact C].
      - cbn [map] in Hnd. apply NoDup_cons_iff in Hnd. exact (proj2 Hnd).
      - rewrite He1. cbn [length] in Hep. lia. }
    rewrite Hrest. unfold total_captures. rewrite Hcap.
    assert (Hsb : stones_on_board kN q0 = stones_on_board kN p) by reflexivity.
    assert (Hgr : group_at q0 (id_at q0 nc) = group_at p g).
    { rewrite Hi0, Hid. reflexivity. }
    rewrite Hgr in Hcount. rewrite <- Hsb, <- Hcount.
    unfold q0. cbn [num_captures_ with_num_captures].
    destruct (color_eqb color kBlack); cbn [fst snd]; lia.
Qed.

Lemma update_ko_captures r captured pk oc :
  num_captures_ (update_ko kN r captured pk oc) = num_captures_ r.
Proof.
  unfold update_ko. destruct captured as [|[id nc] [|y l]]; auto.
  destruct (_ && _); auto.
Qed.

Lemma AddStoneToBoard_conserves p v c color p' v' :
  groups_are_chains kN p -> counts_exact kN p ->
  color <> kEmpty -> on_board kN c -> color_at p c = kEmpty ->
  BoardVisitor.Done (board_visitor_ v) = true -> sized kN (board_visitor_ v) ->
  tags_bounded (BoardVisitor.epoch_ (board_visitor_ v))
               (BoardVisitor.visited_ (board_visitor_ v)) ->
  (BoardVisitor.epoch_ (board_visitor_ v) < 250)%Z ->
  AddStoneToBoard kN kMaxNumGroups p v c color = Ok (p', v') ->
  (Z.of_nat (stones_on_board kN p') + total_captures p'
   = Z.of_nat (stones_on_board kN p) + total_captures p + 1)%Z.
Proof.
  intros Hwf Hex Hcol Hc Hempty Hd Hs Hb Hep H.
  pose proof (@AddStoneToBoard_had_room kN kMaxNumGroups p v c color p' v' Hcol H) as Hroom.
  unfold AddStoneToBoard in H.
  set (sc := scan_neighbors kN p c color) in *.
  destruct (@scan_neighbors_friends kN p color Hcol c) as [Hngs [Hnd [Hcnd [Hsl Hfr]]]].
  fold sc in Hngs, Hnd, Hcnd, Hsl, Hfr.
  destruct (@scan_neighbors_inv kN p color Hcol c) as [_ [_ [Hcap _]]]. fold sc in Hcap.
  set (pa := with_groups p (scan_groups sc)) in *.
  assert (Hwfa : groups_are_chains kN pa).
  { apply groups_are_chains_ext with (p := p);
      [reflexivity | exact Hfr | exact Hsl | exact Hwf]. }
  assert (Hf : visitor_fresh kN (board_visitor_ v)).
  { split; [exact Hd|]. split; [exact Hs|]. split; [exact Hb | lia]. }
  bind_inv H. destruct a as [pl v1]. bind_inv H. destruct a as [p2 v2].
  inversion H; subst p' v'. clear H.
  destruct (@place_stone_consistent kN pa v c color (liberties sc) (neighbor_groups sc))
    as [pl' [v1' [E1 [Hwfl Hkeep]]]]; try assumption.
  { destruct Hroom as [[n [Hn Hk]]|Hroom].
    - left. intros E. assert (Hin : In (id_at p n) (neighbor_groups sc)).
      { apply Hngs. now exists n. }
      rewrite E in Hin. exact Hin.
    - right. unfold pa. cbn [groups_ with_groups]. rewrite Hfr. exact Hroom. }
  rewrite Hm in E1. inversion E1; subst pl' v1'. clear E1.
  pose proof (@place_stone_exact kN board_small p c color Hwf Hex Hcol Hc Hempty v pl v1
                Hf Hm Hwfl) as Hexl.
  destruct (@place_stone_visitor kN pa v c color _ _ pl v1 Hf Hm) as [Hd1 [Hs1 [Hb1 He1]]].
  destruct (other_color_stone Hcol) as [Ho1 Ho2].
  pose proof (captured_at_most_four kN p c color) as H4. fold sc in H4.
  pose proof Hwf as [W1 _].
  assert (Hclt : c < length (stones_ pa)) by (cbn [stones_ with_groups pa]; rewrite W1; exact Hc).
  destruct (@place_stone_colors kN pa v c color _ _ pl v1 Hclt Hm) as [_ [Hkc Hko]].
  change (forall x, x <> c -> color_at pl x = color_at p x) in Hko.
  pose proof (@place_stone_captures kN pa v c color _ _ pl v1 Hm) as Hcl.
  change (num_captures_ pl = num_captures_ p) in Hcl.
  assert (Hplaced : stones_on_board kN pl = S (stones_on_board kN p)).
  { unfold stones_on_board.
    change (S (length (filter (fun x => negb (Stone.empty (stone_at p x)))
                              (seq 0 (kN * kN)))))
      with (length (c :: filter (fun x => negb (Stone.empty (stone_at p x)))
                                (seq 0 (kN * kN)))).
    apply same_members_length.
    - apply NoDup_filter, seq_NoDup.
    - constructor; [|apply NoDup_filter, seq_NoDup].
      intros Hin. apply In_stones_on_board in Hin. tauto.
    - intros x. cbn [In]. rewrite !In_stones_on_board.
      destruct (Nat.eq_dec x c) as [->|Hx].
      + split; [now left|]. intros _. split; [exact Hc | congruence].
      + rewrite (Hko x Hx). split; [now right|]. intros [E|H]; [congruence | exact H]. }
  assert (Hseeds : forall g nc, In (g, nc) (captured_groups sc) ->
            on_board kN nc /\ color_at pl nc <> kEmpty /\ id_at pl nc = g).
  { intros g nc Hin. destruct (Hcap g nc Hin) as [Hn [Hk [Hi _]]].
    assert (Hkeepn : stone_at pl nc = stone_at p nc).
    { change (stone_at p nc) with (stone_at pa nc). apply Hkeep.
      - intros ->. unfold color_at in Hempty. congruence.
      - change (color_at pa nc) with (Stone.color (stone_at p nc)). congruence. }
    split; [now apply GetNeighborCoords_on_board with (c := c)|].
    unfold color_at, id_at. rewrite Hkeepn. split; [congruence | exact Hi]. }
  pose proof (@remove_captured_conserves color (captured_groups sc) pl v1 p2 v2
                Hwfl Hexl Hseeds Hcnd Hd1 Hs1 Hb1 ltac:(lia) Hm0) as Hcons.
  destruct (update_ko_fields kN p2 (captured_groups sc) (IsKoish kN p c) (OtherColor color))
    as [U1 _].
  rewrite (stones_on_board_ext kN _ _ U1).
  unfold total_captures in *. rewrite update_ko_captures.
  rewrite Hcl in Hcons. lia.
Qed.

Lemma PlayMove_conserves p v c k p' v' :
  groups_are_chains kN p -> counts_exact kN p -> to_play_ p <> kEmpty ->
  BoardVisitor.Done (board_visitor_ v) = true -> sized kN (board_visitor_ v) ->
  tags_bounded (BoardVisitor.epoch_ (board_visitor_ v))
               (BoardVisitor.visited_ (board_visitor_ v)) ->
  (BoardVisitor.epoch_ (board_visitor_ v) < 250)%Z ->
  PlayMove kN kMaxNumGroups p v c k = Ok (p', v') ->
  (Z.of_nat (stones_on_board kN p') + total_captures p'
   = Z.of_nat (stones_on_board kN p) + total_captures p
     + Z.of_nat (stone_moves kN [(c, k)]))%Z.
Proof.
  intros Hwf Hex Htp Hd Hs Hb Hep H. unfold stone_moves. cbn [filter fst].
  destruct (Nat.eq_dec c (kPass kN)) as [->|Hc].
  - unfold PlayMove in H. rewrite Nat.eqb_refl in H |- *. inversion H; subst p' v'.
    cbn [negb length]. unfold total_captures, PassMove, stones_on_board, stone_at.
    cbn [num_captures_ stones_]. lia.
  - assert (Hmv : mover p k <> kEmpty).
    { unfold mover. destruct (color_eqb k kEmpty) eqn:E; [exact Htp|].
      intros ->. discriminate. }
    destruct (@PlayMove_stone_inv kN kMaxNumGroups p v c k p' v' Hc H)
      as [Hlegal [r [Hadd ->]]].
    apply Nat.eqb_neq in Hc. rewrite Hc. cbn [negb length].
    apply Nat.eqb_neq in Hc.
    set (q := if color_eqb k kEmpty then p else with_to_play p k) in *.
    assert (Hq : stones_ q = stones_ p /\ groups_ q = groups_ p /\
                 num_captures_ q = num_captures_ p).
    { unfold q. destruct (color_eqb k kEmpty); auto. }
    destruct Hq as [Hq1 [Hq2 Hq3]].
    assert (Hwfq : groups_are_chains kN q).
    { apply groups_are_chains_ext with (p := p); try exact Hwf; now rewrite ?Hq2. }
    assert (Hexq : counts_exact kN q).
    { apply counts_exact_ext with (p := p); assumption. }
    pose proof (@IsMoveLegal_on_board kN q c Hlegal Hc) as Hon.
    pose proof (@legal_point_empty kN q c Hc Hlegal) as Hempty.
    pose proof (@AddStoneToBoard_conserves q v c (mover p k) r v' Hwfq Hexq Hmv Hon Hempty
                  Hd Hs Hb Hep Hadd) as Hcons.
    rewrite (@stones_on_board_ext kN p q Hq1) in Hcons.
    unfold total_captures in *. rewrite Hq3 in Hcons.
    unfold stones_on_board, stone_at in *. cbn [num_captures_ stones_]. exact Hcons.
Qed.

Lemma play_moves_conserves : forall moves p v p' v',
  groups_are_chains kN p -> counts_exact kN p -> to_play_ p <> kEmpty ->
  BoardVisitor.Done (board_visitor_ v) = true -> sized kN (board_visitor_ v) ->
  tags_bounded (BoardVisitor.epoch_ (board_visitor_ v))
               (BoardVisitor.visited_ (board_visitor_ v)) ->
  (BoardVisitor.epoch_ (board_visitor_ v) + 5 * Z.of_nat (length moves) <= 250)%Z ->
  play_moves kN kMaxNumGroups p v moves = Ok (p', v') ->
  (Z.of_nat (stones_on_board kN p') + total_captures p'
   = Z.of_nat (stones_on_board kN p) + total_captures p
     + Z.of_nat (stone_moves kN moves))%Z.
Proof.
  induction moves as [|[c k] rest IH]; intros p v p' v' Hwf Hex Htp Hd Hs Hb Hep H;
    cbn [play_moves] in H.
  - inversion H; subst p' v'. unfold stone_moves. cbn [filter length]. lia.
  - bind_inv H. destruct a as [q w]. cbn [length] in Hep.
    destruct (@PlayMove_consistent kN kMaxNumGroups p v c k q w Hwf Htp Hd Hs Hb
                ltac:(lia) Hm)
      as [Hwf1 [Htp1 [Hd1 [Hs1 [Hb1 He1]]]]].
    pose proof (@PlayMove_exact kN kMaxNumGroups board_small p v c k q w
                  Hwf Hex Htp Hd Hs Hb ltac:(lia) Hm) as Hex1.
    pose proof (@PlayMove_conserves p v c k q w Hwf Hex Htp Hd Hs Hb ltac:(lia) Hm) as Hc1.
    pose proof (IH q w p' v' Hwf1 Hex1 Htp1 Hd1 Hs1 Hb1 ltac:(lia) H) as Hc2.
    rewrite Hc2, Hc1. unfold stone_moves. cbn [filter fst].
    destruct (negb (c =? kPass kN)); cbn [length]; lia.
Qed.

End Conservation.



Section SuicideOnTheBoard.

Variable kN : nat.
Variable p : Position.
Hypothesis p_consistent : groups_are_chains kN p.
Hypothesis p_exact : counts_exact kN p.

(** The liberties counted for the group of a stone are the liberties of
    its chain. *)
Lemma group_liberties_of_chain x l :
  color_at p x <> kEmpty ->
  (In l (group_liberties kN p (id_at p x)) <-> chain_liberty kN p (color_at p x) x l).
Proof.
  intros Hx. pose proof p_consistent as [_ [_ [_ [_ [_ W6]]]]].
  rewrite In_group_liberties. unfold chain_liberty. split.
  - intros [_ [Hl [m [Hm [Hmk Hmi]]]]]. split; [exact Hl|].
    exists m. split; [apply W6; auto | now apply neighbors_symmetric].
  - intros [Hl [m [Hch Hm]]].
    split; [now apply GetNeighborCoords_on_board with (c := m)|]. split; [exact Hl|].
    exists m. split; [now apply neighbors_symmetric|].
    split; [rewrite (chain_color eq_refl Hch); exact Hx|].
    now apply chain_same_group with (kN := kN).
Qed.

Variable c : Coord.
Hypothesis c_on_board : on_board kN c.
Hypothesis c_empty : color_at p c = kEmpty.

Lemma neighbor_liberty nc :
  In nc (GetNeighborCoords kN c) -> color_at p nc <> kEmpty ->
  In c (group_liberties kN p (id_at p nc)).
Proof.
  intros Hn Hk. apply In_group_liberties. split; [exact c_on_board|].
  split; [exact c_empty|]. exists nc. auto.
Qed.

Lemma one_liberty_iff nc :
  In nc (GetNeighborCoords kN c) -> color_at p nc <> kEmpty ->
  (num_liberties (group_at p (id_at p nc)) = 1%Z <->
   forall l, chain_liberty kN p (color_at p nc) nc l -> l = c).
Proof.
  intros Hn Hk. rewrite (p_exact nc Hk). cbn [num_liberties].
  pose proof (@neighbor_liberty nc Hn Hk) as Hc.
  pose proof (group_liberties_NoDup kN p (id_at p nc)) as Hnd.
  split.
  - intros Hone l Hl. apply (@group_liberties_of_chain nc l Hk) in Hl.
    destruct (group_liberties kN p (id_at p nc)) as [|a [|b rest]];
      cbn [length] in Hone; try lia.
    destruct Hc as [<-|[]]. destruct Hl as [<-|[]]. reflexivity.
  - intros Hall.
    destruct (@pick_other c (group_liberties kN p (id_at p nc)) Hnd) as [[l [Hl Hlc]]|El].
    + destruct (group_liberties kN p (id_at p nc)); [destruct Hc | cbn [length]; lia].
    + exfalso. apply Hlc. apply Hall. now apply group_liberties_of_chain.
    + rewrite El. reflexivity.
Qed.

Lemma more_liberties_iff nc :
  In nc (GetNeighborCoords kN c) -> color_at p nc <> kEmpty ->
  ((1 < num_liberties (group_at p (id_at p nc)))%Z <->
   exists l, l <> c /\ chain_liberty kN p (color_at p nc) nc l).
Proof.
  intros Hn Hk. rewrite (p_exact nc Hk). cbn [num_liberties].
  pose proof (@neighbor_liberty nc Hn Hk) as Hc.
  pose proof (group_liberties_NoDup kN p (id_at p nc)) as Hnd.
  split.
  - intros Hmore.
    destruct (@pick_other c (group_liberties kN p (id_at p nc)) Hnd) as [[l [Hl Hlc]]|El].
    + lia.
    + exists l. split; [exact Hlc|]. now apply group_liberties_of_chain.
    + rewrite El in Hmore. cbn [length] in Hmore. lia.
  - intros [l [Hlc Hl]]. apply (@group_liberties_of_chain nc l Hk) in Hl.
    assert (Hincl : incl [c; l] (group_liberties kN p (id_at p nc))).
    { intros y [<-|[<-|[]]]; assumption. }
    apply NoDup_incl_length in Hincl.
    + cbn [length] in Hincl. lia.
    + constructor; [intros [E|[]]; now apply Hlc | constructor; [intros [] | constructor]].
Qed.

Lemma suicide_on_the_board k :
  k <> kEmpty ->
  (IsMoveSuicidal kN p c k = false <->
   exists nc, In nc (GetNeighborCoords kN c) /\
     (color_at p nc = kEmpty \/
      (color_at p nc = OtherColor k /\
       forall l, chain_liberty kN p (OtherColor k) nc l -> l = c) \/
      (color_at p nc = k /\
       exists l, l <> c /\ chain_liberty kN p k nc l))).
Proof.
  intros Hk. rewrite (IsMoveSuicidal_false kN p c Hk). unfold not_suicidal.
  destruct (other_color_stone Hk) as [Ho _].
  split; intros [nc [Hn H]]; exists nc; (split; [exact Hn|]); cbn zeta in *;
    fold (color_at p nc) in *; fold (id_at p nc) in *.
  - destruct H as [H|[[H1 H2]|[H1 H2]]]; [now left | right; left | right; right].
    + split; [exact H1|]. rewrite <- H1. apply one_liberty_iff; congruence.
    + split; [exact H1|]. rewrite <- H1. apply more_liberties_iff; congruence.
  - destruct H as [H|[[H1 H2]|[H1 H2]]]; [now left | right; left | right; right].
    + split; [exact H1|]. apply one_liberty_iff; [exact Hn | congruence|].
      now rewrite H1.
    + split; [exact H1|]. apply more_liberties_iff; [exact Hn | congruence|].
      now rewrite H1.
Qed.

End SuicideOnTheBoard.



Lemma same_chain_ext kN p q k a b :
  stones_ q = stones_ p -> (same_chain kN q k a b <-> same_chain kN p k a b).
Proof.
  intros Hs.
  assert (Hk : forall y, color_at q y = color_at p y).
  { intros y. unfold color_at, stone_at. now rewrite Hs. }
  split; apply chain_agree; intros y Hy; [rewrite <- Hk | rewrite Hk]; exact Hy.
Qed.

Lemma chain_liberty_ext kN p q k a l :
  stones_ q = stones_ p -> (chain_liberty kN q k a l <-> chain_liberty kN p k a l).
Proof.
  intros Hs. unfold chain_liberty.
  assert (Hk : color_at q l = color_at p l).
  { unfold color_at, stone_at. now rewrite Hs. }
  rewrite Hk. split; intros [A [z [Hz Hn]]]; (split; [exact A|]); exists z;
    (split; [|exact Hn]); now apply (@same_chain_ext kN p q k a z Hs).
Qed.

Section Rules.

Variable kN : nat.
Variable kMaxNumGroups : nat.

Lemma play_moves_epoch : forall moves p v p' v',
  groups_are_chains kN p -> to_play_ p <> kEmpty ->
  BoardVisitor.Done (board_visitor_ v) = true -> sized kN (board_visitor_ v) ->
  tags_bounded (BoardVisitor.epoch_ (board_visitor_ v))
               (BoardVisitor.visited_ (board_visitor_ v)) ->
  (BoardVisitor.epoch_ (board_visitor_ v) + 5 * Z.of_nat (length moves) <= 250)%Z ->
  play_moves kN kMaxNumGroups p v moves = Ok (p', v') ->
  to_play_ p' <> kEmpty /\
  BoardVisitor.Done (board_visitor_ v') = true /\ sized kN (board_visitor_ v') /\
  tags_bounded (BoardVisitor.epoch_ (board_visitor_ v'))
               (BoardVisitor.visited_ (board_visitor_ v')) /\
  (BoardVisitor.epoch_ (board_visitor_ v')
   <= BoardVisitor.epoch_ (board_visitor_ v) + 5 * Z.of_nat (length moves))%Z.
Proof.
  induction moves as [|[c k] rest IH]; intros p v p' v' Hwf Htp Hd Hs Hb Hep H;
    cbn [play_moves] in H.
  - inversion H; subst p' v'. repeat (split; [assumption|]). cbn [length]. lia.
  - bind_inv H. destruct a as [q w]. cbn [length] in Hep.
    destruct (@PlayMove_consistent kN kMaxNumGroups p v c k q w Hwf Htp Hd Hs Hb
                ltac:(lia) Hm)
      as [Hwf1 [Htp1 [Hd1 [Hs1 [Hb1 He1]]]]].
    destruct (IH q w p' v' Hwf1 Htp1 Hd1 Hs1 Hb1 ltac:(lia) H) as [A [B [C [D E]]]].
    repeat (split; [assumption|]). cbn [length]. lia.
Qed.

Hypothesis board_small : (Z.of_nat (kN * kN) < 65536)%Z.

Lemma AddStoneToBoard_rules p v c color p' v' :
  groups_are_chains kN p -> counts_exact kN p ->
  color <> kEmpty -> on_board kN c -> color_at p c = kEmpty ->
  BoardVisitor.Done (board_visitor_ v) = true -> sized kN (board_visitor_ v) ->
  tags_bounded (BoardVisitor.epoch_ (board_visitor_ v))
               (BoardVisitor.visited_ (board_visitor_ v)) ->
  (BoardVisitor.epoch_ (board_visitor_ v) < 250)%Z ->
  AddStoneToBoard kN kMaxNumGroups p v c color = Ok (p', v') ->
  color_at p' c = color /\
  forall x, x <> c ->
    (color_at p' x = kEmpty <->
     color_at p x = kEmpty \/
     exists nc, In nc (GetNeighborCoords kN c) /\ color_at p nc = OtherColor color /\
                same_chain kN p (OtherColor color) nc x /\
                forall l, chain_liberty kN p (OtherColor color) nc l -> l = c) /\
    (color_at p' x = color_at p x \/ color_at p' x = kEmpty).
Proof.
  intros Hwf Hex Hcol Hc Hempty Hd Hs Hb Hep H.
  pose proof Hwf as [W1 [_ [_ [_ [_ W6]]]]].
  assert (Hclt : c < length (stones_ p)) by (rewrite W1; exact Hc).
  destruct (@AddStoneToBoard_colors kN kMaxNumGroups p v c color p' v' Hcol Hclt Hempty H)
    as [_ [Hkc Hko]].
  destruct (@AddStoneToBoard_chains kN kMaxNumGroups p v c color p' v'
              Hcol Hc W1 Hempty Hd Hs Hb Hep H) as [Hch _].
  destruct (@scan_neighbors_inv kN p color Hcol c) as [Hopp [_ [Hcap Hcapt]]].
  destruct (other_color_stone Hcol) as [Ho1 Ho2].
  split; [exact Hkc|]. intros x Hx. split.
  - rewrite (Hch x Hx). split; (intros [He|Hex1]; [now left | right]).
    + destruct Hex1 as [g [nc [Hin Hchain]]].
      destruct (Hcap g nc Hin) as [Hn [Hk [Hi Hzero]]].
      fold (color_at p nc) in Hk. fold (id_at p nc) in Hi.
      assert (Hns : color_at p nc <> kEmpty) by congruence.
      exists nc. split; [exact Hn|]. split; [exact Hk|]. split; [exact Hchain|].
      rewrite <- Hk.
      apply (@one_liberty_iff kN p Hwf Hex c Hc Hempty nc Hn Hns).
      rewrite <- Hi in Hzero. rewrite (Hex nc Hns) in Hzero |- *.
      cbn [num_liberties] in *.
      pose proof (@neighbor_liberty kN p c Hc Hempty nc Hn Hns) as Hcl.
      pose proof (group_liberties_bound kN p (id_at p nc)) as Hbd.
      assert (Hpos : 1 <= length (group_liberties kN p (id_at p nc))).
      { destruct (group_liberties kN p (id_at p nc)); [destruct Hcl | cbn [length]; lia]. }
      rewrite u16_small in Hzero by lia. lia.
    + destruct Hex1 as [nc [Hn [Hk [Hchain Honly]]]].
      assert (Hns : color_at p nc <> kEmpty) by congruence.
      rewrite <- Hk in Honly.
      apply (@one_liberty_iff kN p Hwf Hex c Hc Hempty nc Hn Hns) in Honly.
      assert (Hin : In (id_at p nc) (opponent_groups (scan_neighbors kN p c color))).
      { apply Hopp. exists nc. split; [exact Hn|]. split; [exact Hk | reflexivity]. }
      destruct (Hcapt (id_at p nc) Hin) as [z Hz]; [rewrite Honly; reflexivity|].
      destruct (Hcap _ _ Hz) as [Hzn [Hzk [Hzi _]]].
      fold (color_at p z) in Hzk. fold (id_at p z) in Hzi.
      exists (id_at p nc), z. split; [exact Hz|].
      apply chain_trans with (b := nc); [|exact Hchain].
      rewrite <- Hzk. apply W6; congruence.
  - destruct (Hko x Hx) as [E|[_ E]]; [now left | now right].
Qed.

End Rules.


